(** * y-prosemirror: the binding between a Yjs XML fragment and a
    ProseMirror document.

    Shallow embedding of [dist/y-prosemirror.cjs]: the attribute and tree
    equality tests, the equality-factor heuristic, the forward reconciler
    [updateYFragment], the materializer [createNodeFromYElement] and the
    position translation [absolutePositionToRelativePosition] /
    [relativePositionToAbsolutePosition]. *)

From Stdlib Require Import ZArith Lia Bool Ascii String DecimalString.
From stdpp Require Import base option list strings gmap.

Set Warnings "-register-all".

Local Open Scope Z_scope.
Local Open Scope string_scope.

(** ** JavaScript values held by attribute maps *)

(** Objects carry their reference (for [===]) and their own enumerable
    properties in [Object.keys] order; a key that is absent reads as
    [undefined], which [lookupKey] renders as [None].  [VNaN] is the
    number that is not [===] to itself. *)
Inductive jsval : Type :=
| VNull
| VBool (b : bool)
| VNum (z : Z)
| VNaN
| VStr (s : string)
| VObj (ref : nat) (fields : list (string * jsval)).

Definition attrs : Type := list (string * jsval).

(** What a JavaScript call can end in: a value or a thrown error. *)
Inductive jserror : Type :=
| TypeError
| NodeNameMismatch
| MethodUnimplemented
| UnexpectedCase
| SchemaError.

(** [OutOfFuel] is not a JavaScript outcome: it marks a run of the model
    that was given too little fuel for the depth of the tree. *)
Inductive res (A : Type) : Type :=
| Ok (a : A)
| Throw (e : jserror)
| OutOfFuel.
Arguments Ok {A} a.
Arguments Throw {A} e.
Arguments OutOfFuel {A}.

Definition bind {A B} (m : res A) (f : A -> res B) : res B :=
  match m with
  | Ok a => f a
  | Throw e => Throw e
  | OutOfFuel => OutOfFuel
  end.

#[global] Instance res_bind : MBind res := fun A B f m => bind m f.
#[global] Instance res_ret : MRet res := fun A a => Ok a.

Fixpoint lookupKey (key : string) (o : attrs) : option jsval :=
  match o with
  | [] => None
  | (k, v) :: rest => if String.eqb k key then Some v else lookupKey key rest
  end.

Definition isNull (v : jsval) : bool :=
  match v with VNull => true | _ => false end.

(** [typeof v === 'object']: objects, and also [null]. *)
Definition typeofObject (v : jsval) : bool :=
  match v with VNull | VObj _ _ => true | _ => false end.

(** [l === r] with [r] possibly [undefined]. *)
Definition strictEq (l : jsval) (r : option jsval) : bool :=
  match l, r with
  | VNull, Some VNull => true
  | VBool a, Some (VBool b) => Bool.eqb a b
  | VNum a, Some (VNum b) => Z.eqb a b
  | VStr a, Some (VStr b) => String.eqb a b
  | VObj a _, Some (VObj b _) => Nat.eqb a b
  | _, _ => false
  end.

(** [Object.keys(o).filter(key => o[key] !== null)] *)
Definition nonNullKeys (o : attrs) : attrs :=
  List.filter (fun kv => negb (isNull (snd kv))) o.

(** ** equalAttrs

    [attrLoop] is the [for] loop over the non-null keys of [pattrs]; it
    stops as soon as [eq] is false.  [Object.keys(yattrs)] throws a
    TypeError when [yattrs] is [null], which the recursive call can pass
    since [typeof null === 'object']. *)
Definition attrLoop (rec : jsval -> jsval -> res bool) (yfields : attrs)
  : attrs -> bool -> res bool :=
  fix loop (ps : attrs) (eq : bool) {struct ps} : res bool :=
    match ps with
    | [] => Ok eq
    | (key, l) :: rest =>
        if isNull l then loop rest eq
        else if eq then
          let r := lookupKey key yfields in
          eq' ← (if String.eqb key "ychange" then Ok true
                  else if strictEq l r then Ok true
                  else match l, r with
                       | VObj _ _, Some rv =>
                           if typeofObject rv then rec l rv else Ok false
                       | _, _ => Ok false
                       end);
          loop rest eq'
        else Ok false
    end.

Definition sameKeyCount (pfields yfields : attrs) : bool :=
  Nat.eqb (length (nonNullKeys pfields)) (length (nonNullKeys yfields)).

Fixpoint equalAttrsObj (pobj : jsval) (yattrs : jsval) {struct pobj} : res bool :=
  match pobj, yattrs with
  | VObj _ pfields, VObj _ yfields =>
      attrLoop equalAttrsObj yfields pfields (sameKeyCount pfields yfields)
  | _, _ => Throw TypeError
  end.

(** The two call sites pass attribute objects. *)
Definition equalAttrs (pattrs yattrs : attrs) : res bool :=
  equalAttrsObj (VObj 0 pattrs) (VObj 0 yattrs).

(** ** The local (ProseMirror) tree *)

Record mark : Type := Mark { markName : string; markAttrs : attrs }.

(** Every node carries its reference, which is what [===] compares.
    [nodeSize] of an element is the size the document model reports for
    it; for a text node it is the length of the text. *)
Inductive pnode : Type :=
| PText (ref : nat) (text : string) (marks : list mark)
| PElem (ref : nat) (typeName : string) (nattrs : attrs)
        (reportedSize : Z) (content : list pnode).

Definition pref (p : pnode) : nat :=
  match p with PText r _ _ | PElem r _ _ _ _ => r end.

Definition isText (p : pnode) : bool :=
  match p with PText _ _ _ => true | PElem _ _ _ _ _ => false end.

Definition ptypeName (p : pnode) : string :=
  match p with PText _ _ _ => "text" | PElem _ n _ _ _ => n end.

Definition pattrsOf (p : pnode) : attrs :=
  match p with PText _ _ _ => [] | PElem _ _ a _ _ => a end.

Definition pcontent (p : pnode) : list pnode :=
  match p with PText _ _ _ => [] | PElem _ _ _ _ c => c end.

Definition ptext (p : pnode) : string :=
  match p with PText _ t _ => t | PElem _ _ _ _ _ => "" end.

Definition pmarks (p : pnode) : list mark :=
  match p with PText _ _ m => m | PElem _ _ _ _ _ => [] end.

Definition strlen (s : string) : Z := Z.of_nat (String.length s).

Definition nodeSize (p : pnode) : Z :=
  match p with PText _ t _ => strlen t | PElem _ _ _ sz _ => sz end.

(** A unit of normalized content, which is also what the mapping holds:
    a node, or an array of text nodes. *)
Inductive punit : Type :=
| UNode (n : pnode)
| UTexts (ts : list pnode).

(** The loop of [normalizePNodeContent] over the child array [c]: a run of
    text nodes becomes one array. *)
Fixpoint normalizeContent (c : list pnode) : list punit :=
  match c with
  | [] => []
  | n :: rest =>
      if isText n then
        match normalizeContent rest with
        | UTexts ts :: units => UTexts (n :: ts) :: units
        | units => UTexts [n] :: units
        end
      else UNode n :: normalizeContent rest
  end.

Definition normalizePNodeContent (pnode : pnode) : list punit :=
  normalizeContent (pcontent pnode).

(** ** The replicated (Yjs) tree *)

Record yid : Type := ID { client : nat; clock : nat }.

(** The content of an item of a text: a string, a format mark, or an
    embedded value (an embed or a nested type, which Yjs treats alike in
    a text), which counts as one character and is no string. *)
Inductive tcontent : Type :=
| ContentString (str : string)
| ContentFormat (key : string) (value : jsval)
| ContentEmbed (embed : jsval).

Record titem : Type :=
  TItem { t_id : yid; t_deleted : bool; t_content : tcontent }.

(** A shared type with the reference of its JavaScript object; an [Item]
    wraps a child type with its id and tombstone flag. *)
Inductive ytype : Type :=
| XmlText (ref : nat) (items : list titem)
| XmlElement (ref : nat) (nodeName : string) (eattrs : attrs)
             (children : list yitem)
| XmlFragment (ref : nat) (children : list yitem)
with yitem : Type :=
| Item (id : yid) (deleted : bool) (content : ytype).

Definition yref (t : ytype) : nat :=
  match t with XmlText r _ | XmlElement r _ _ _ | XmlFragment r _ => r end.

Definition isXmlElement (t : ytype) : bool :=
  match t with XmlElement _ _ _ _ => true | _ => false end.

Definition isXmlText (t : ytype) : bool :=
  match t with XmlText _ _ => true | _ => false end.

Definition itemDeleted (i : yitem) : bool :=
  match i with Item _ d _ => d end.

Definition itemType (i : yitem) : ytype :=
  match i with Item _ _ t => t end.

Definition itemId (i : yitem) : yid :=
  match i with Item i _ _ => i end.

Definition yitems (t : ytype) : list yitem :=
  match t with
  | XmlText _ _ => []
  | XmlElement _ _ _ c | XmlFragment _ c => c
  end.

(** [type.toArray()]: the child types that are not tombstoned. *)
Definition toArray (t : ytype) : list ytype :=
  map itemType (List.filter (fun i => negb (itemDeleted i)) (yitems t)).

Definition getAttributes (t : ytype) : attrs :=
  match t with XmlElement _ _ a _ => a | _ => [] end.

Definition titemLength (i : titem) : Z :=
  match t_content i with
  | ContentString s => strlen s
  | ContentFormat _ _ => 0
  | ContentEmbed _ => 1
  end.

(** [type._length]: live children of an element, live characters of a
    text. *)
Definition ylength (t : ytype) : Z :=
  match t with
  | XmlText _ items =>
      fold_right (fun i acc => if t_deleted i then acc else titemLength i + acc)
                 0 items
  | _ => Z.of_nat (length (toArray t))
  end.

(** ** Y.Text: its delta *)

(** An operation of a delta: what is inserted, a string ([VStr]) or an
    embedded value, and the attributes if there are any. *)
Record dop : Type := Delta { insert : jsval; attributes : option attrs }.

Fixpoint deleteKey (key : string) (o : attrs) : attrs :=
  match o with
  | [] => []
  | (k, v) :: rest =>
      if String.eqb k key then deleteKey key rest else (k, v) :: deleteKey key rest
  end.

(** [map.set(key, v)] / [o[key] = v]: an existing key keeps its place. *)
Fixpoint setKey (key : string) (v : jsval) (o : attrs) : attrs :=
  match o with
  | [] => [(key, v)]
  | (k, w) :: rest =>
      if String.eqb k key then (k, v) :: rest else (k, w) :: setKey key v rest
  end.

Definition updateCurrentAttributes (cur : attrs) (key : string) (value : jsval) : attrs :=
  if isNull value then deleteKey key cur else setKey key value cur.

Definition packStr (str : string) (cur : attrs) : list dop :=
  match str with
  | EmptyString => []
  | _ => [Delta (VStr str) (match cur with [] => None | _ => Some cur end)]
  end.

(** [ytext.toDelta()] without snapshots: live strings are concatenated
    until a live format item changes the current attributes; an embedded
    value is an operation of its own. *)
Fixpoint toDeltaFrom (items : list titem) (cur : attrs) (str : string) : list dop :=
  match items with
  | [] => packStr str cur
  | i :: rest =>
      if t_deleted i then toDeltaFrom rest cur str
      else match t_content i with
           | ContentString s =>
               match lookupKey "ychange" cur with
               | Some _ => packStr str cur ++ toDeltaFrom rest (deleteKey "ychange" cur) s
               | None => toDeltaFrom rest cur (str ++ s)
               end
           | ContentFormat k v =>
               packStr str cur ++ toDeltaFrom rest (updateCurrentAttributes cur k v) ""
           | ContentEmbed v =>
               packStr str cur
               ++ Delta v (match cur with [] => None | _ => Some cur end)
                  :: toDeltaFrom rest cur ""
           end
  end.

Definition toDelta (t : ytype) : list dop :=
  match t with
  | XmlText _ items => toDeltaFrom items [] ""
  | _ => []
  end.

(** ** equalYTextPText *)

(** [Object.keys] of a string: its indices. *)
Fixpoint strFields (i : nat) (s : string) : attrs :=
  match s with
  | EmptyString => []
  | String c r =>
      (NilZero.string_of_uint (Nat.to_uint i), VStr (String c EmptyString))
        :: strFields (S i) r
  end.

(** [v || {}] *)
Definition orEmptyObject (v : option jsval) : jsval :=
  match v with
  | Some (VObj r f) => VObj r f
  | Some (VBool true) => VBool true
  | Some (VNum z) => if Z.eqb z 0 then VObj 0 [] else VNum z
  | Some (VStr s) => match s with EmptyString => VObj 0 [] | _ => VStr s end
  | _ => VObj 0 []
  end.

(** [equalAttrs] with any non-null first argument, as [equalYTextPText]
    can call it. *)
Definition equalAttrsAny (p : jsval) (yattrs : attrs) : res bool :=
  match p with
  | VObj _ _ => equalAttrsObj p (VObj 0 yattrs)
  | VStr s =>
      attrLoop (fun _ _ => Ok false) yattrs (strFields 0 s)
               (sameKeyCount (strFields 0 s) yattrs)
  | VBool _ | VNum _ | VNaN => Ok (sameKeyCount [] yattrs)
  | VNull => Throw TypeError
  end.

Definition deltaAttrs (d : dop) : attrs := default [] (attributes d).

(** [marks.every(mark => equalAttrs(d.attributes[mark.type.name] || {}, mark.attrs))] *)
Fixpoint everyMark (dattrs : attrs) (ms : list mark) : res bool :=
  match ms with
  | [] => Ok true
  | m :: rest =>
      b ← equalAttrsAny (orEmptyObject (lookupKey (markName m) dattrs)) (markAttrs m);
      if (b : bool) then everyMark dattrs rest else Ok false
  end.

Definition equalDeltaPText (d : dop) (p : pnode) : res bool :=
  if negb (match insert d with
           | VStr s => String.eqb s (ptext p)
           | _ => false
           end) then Ok false
  else if negb (Nat.eqb (length (deltaAttrs d)) (length (pmarks p))) then Ok false
  else everyMark (deltaAttrs d) (pmarks p).

Fixpoint everyDelta (ds : list dop) (ps : list pnode) : res bool :=
  match ds, ps with
  | d :: ds', p :: ps' =>
      b ← equalDeltaPText d p;
      if (b : bool) then everyDelta ds' ps' else Ok false
  | _, _ => Ok true
  end.

Definition equalYTextPText (ytext : ytype) (ptexts : list pnode) : res bool :=
  let delta := toDelta ytext in
  if Nat.eqb (length delta) (length ptexts) then everyDelta delta ptexts
  else Ok false.

(** ** equalYTypePNode *)

Definition matchNodeName (yElement : ytype) (pNode : punit) : bool :=
  match yElement, pNode with
  | XmlElement _ name _ _, UNode p => String.eqb name (ptypeName p)
  | _, _ => false
  end.

Fixpoint equalYTypePNode (ytype : ytype) (pnode : punit) {struct ytype} : res bool :=
  match ytype, pnode with
  | XmlElement _ name ya children, UNode p =>
      if String.eqb name (ptypeName p) then
        let normalizedContent := normalizePNodeContent p in
        if Z.eqb (ylength ytype) (Z.of_nat (length normalizedContent)) then
          eqA ← equalAttrs ya (pattrsOf p);
          if (eqA : bool) then
            (fix every (items : list yitem) (units : list punit) {struct items}
               : res bool :=
               match items with
               | [] => Ok true
               | Item _ d ychild :: rest =>
                   if d then every rest units
                   else match units with
                        | u :: us =>
                            b ← equalYTypePNode ychild u;
                            if (b : bool) then every rest us else Ok false
                        | [] => Throw TypeError
                        end
               end) children normalizedContent
          else Ok false
        else Ok false
      else Ok false
  | XmlText _ _, UTexts ptexts => equalYTextPText ytype ptexts
  | _, _ => Ok false
  end.

(** ** The mapping from shared types to local content *)

Definition ProsemirrorMapping : Type := gmap nat punit.

Fixpoint sameRefs (a b : list pnode) : bool :=
  match a, b with
  | [], [] => true
  | x :: a', y :: b' => Nat.eqb (pref x) (pref y) && sameRefs a' b'
  | _, _ => false
  end.

(** [mapped === pcontent], or two arrays holding the same nodes. *)
Definition mappedIdentity (mapped : option punit) (pcontent : punit) : bool :=
  match mapped, pcontent with
  | Some (UNode a), UNode b => Nat.eqb (pref a) (pref b)
  | Some (UTexts a), UTexts b => sameRefs a b
  | _, _ => false
  end.

(** ** computeChildEqualityFactor *)

Record equality : Type :=
  Equality { equalityFactor : nat; foundMappedChild : bool }.

Section ChildEqualityFactor.
Variable mapping : gmap nat punit.
Variables (yChildren : list ytype) (pChildren : list punit).

(** The first loop; [fuel] is [minCnt - left]. *)
Fixpoint factorLeft (fuel left : nat) (found : bool) : res (nat * bool) :=
  match fuel with
  | O => Ok (left, found)
  | S fuel' =>
      match yChildren !! left, pChildren !! left with
      | Some leftY, Some leftP =>
          if mappedIdentity (mapping !! yref leftY) leftP
          then factorLeft fuel' (S left) true
          else b ← equalYTypePNode leftY leftP;
               if (b : bool) then factorLeft fuel' (S left) found
               else Ok (left, found)
      | _, _ => Ok (left, found)
      end
  end.

(** The second loop; [fuel] is [minCnt - (left + right)]. *)
Fixpoint factorRight (fuel right : nat) (found : bool) : res (nat * bool) :=
  match fuel with
  | O => Ok (right, found)
  | S fuel' =>
      match yChildren !! (length yChildren - right - 1)%nat,
            pChildren !! (length pChildren - right - 1)%nat with
      | Some rightY, Some rightP =>
          if mappedIdentity (mapping !! yref rightY) rightP
          then factorRight fuel' (S right) true
          else b ← equalYTypePNode rightY rightP;
               if (b : bool) then factorRight fuel' (S right) found
               else Ok (right, found)
      | _, _ => Ok (right, found)
      end
  end.
End ChildEqualityFactor.

Definition computeChildEqualityFactor (ytype : ytype) (pnode : pnode)
    (mapping : gmap nat punit) : res equality :=
  let yChildren := toArray ytype in
  let pChildren := normalizePNodeContent pnode in
  let minCnt := Nat.min (length yChildren) (length pChildren) in
  '(nleft, found) ← factorLeft mapping yChildren pChildren minCnt 0 false;
  '(nright, found') ← factorRight mapping yChildren pChildren (minCnt - nleft) 0 found;
  Ok (Equality (nleft + nright) found').

(** ** Mutations of the replicated tree *)

(** What one run does to the replicated tree, in order.  Only calls that
    change the tree are recorded: [removeAttribute] of a key that is not
    set and [delete] of length 0 leave it as it is. *)
Inductive mutation : Type :=
| SetAttribute (target : nat) (key : string) (value : jsval)
| RemoveAttribute (target : nat) (key : string)
| DeleteChildren (target : nat) (index len : nat)
| InsertChildren (target : nat) (index : nat) (inserted : list nat)
| TextDelete (target : nat) (index len : nat)
| TextInsert (target : nat) (index : nat) (str : string)
| TextFormat (target : nat)
| DeleteItem (target : nat).

(** The state the reconciler threads: the mapping, the next object
    reference and the next clock of the local client, and the mutations
    made so far. *)
Record ystate : Type := YState {
  mapping : gmap nat punit;
  nextRef : nat;
  nextClock : nat;
  mutations : list mutation
}.

Definition mappingSet (k : nat) (v : punit) (st : ystate) : ystate :=
  YState (<[k := v]> (mapping st)) (nextRef st) (nextClock st) (mutations st).

Definition record (m : mutation) (st : ystate) : ystate :=
  YState (mapping st) (nextRef st) (nextClock st) (mutations st ++ [m]).

Definition freshRef (st : ystate) : nat * ystate :=
  (nextRef st, YState (mapping st) (S (nextRef st)) (nextClock st) (mutations st)).

Definition freshClock (st : ystate) : nat * ystate :=
  (nextClock st, YState (mapping st) (nextRef st) (S (nextClock st)) (mutations st)).

Definition setClock (c : nat) (st : ystate) : ystate :=
  YState (mapping st) (nextRef st) c (mutations st).

(** [type.delete(index, len)] on the children: the live children
    [index .. index+len-1] become tombstones. *)
Fixpoint deleteLive (items : list yitem) (index len : nat) : list yitem :=
  match len with
  | O => items
  | S len' =>
      match items with
      | [] => []
      | Item i d t :: rest =>
          if d then Item i d t :: deleteLive rest index len
          else match index with
               | O => Item i true t :: deleteLive rest O len'
               | S index' => Item i d t :: deleteLive rest index' len
               end
      end
  end.

(** [type.insert(index, content)]: at the front for index 0, otherwise
    right after the [index]-th live child. *)
Fixpoint insertLive (items : list yitem) (index : nat) (new : list yitem) : list yitem :=
  match index with
  | O => new ++ items
  | S index' =>
      match items with
      | [] => new
      | Item i d t :: rest =>
          if d then Item i d t :: insertLive rest index new
          else match index' with
               | O => Item i d t :: new ++ rest
               | S _ => Item i d t :: insertLive rest index' new
               end
      end
  end.

(** The [index]-th live child object has become [t]. *)
Fixpoint updateLive (items : list yitem) (index : nat) (t : ytype) : list yitem :=
  match items with
  | [] => []
  | Item i d old :: rest =>
      if d then Item i d old :: updateLive rest index t
      else match index with
           | O => Item i d t :: rest
           | S index' => Item i d old :: updateLive rest index' t
           end
  end.

Definition withItems (t : ytype) (items : list yitem) : ytype :=
  match t with
  | XmlText r its => XmlText r its
  | XmlElement r n a _ => XmlElement r n a items
  | XmlFragment r _ => XmlFragment r items
  end.

Definition withAttrs (t : ytype) (a : attrs) : ytype :=
  match t with
  | XmlElement r n _ c => XmlElement r n a c
  | _ => t
  end.

(** ** lib0's simpleDiff *)

Fixpoint commonPrefix (a b : list ascii) : nat :=
  match a, b with
  | x :: a', y :: b' => if Ascii.eqb x y then S (commonPrefix a' b') else O
  | _, _ => O
  end.

Record diff : Type := Diff { d_index : nat; d_remove : nat; d_insert : string }.

(** [left] counts equal characters from the front, [right] equal
    characters from the back of what is left of both strings. *)
Definition simpleDiff (a b : string) : diff :=
  let la := list_ascii_of_string a in
  let lb := list_ascii_of_string b in
  let left := commonPrefix la lb in
  let right := commonPrefix (rev (drop left la)) (rev (drop left lb)) in
  Diff left (length la - left - right)
       (string_of_list_ascii (take (length lb - left - right) (drop left lb))).

(** ** Building shared types from local content *)

Inductive deltaOp : Type :=
| OpInsert (text : string) (attributes : attrs)
| OpRetain (len : nat) (attributes : attrs).

Definition marksToAttributes (marks : list mark) : attrs :=
  fold_left (fun pattrs m =>
               if String.eqb (markName m) "ychange" then pattrs
               else setKey (markName m) (VObj 0 (markAttrs m)) pattrs)
            marks [].

(** [Object.assign({}, a, b)] *)
Definition objectAssign (a b : attrs) : attrs :=
  fold_left (fun o kv => setKey (fst kv) (snd kv) o) b a.

(** [ytextTrans]: the live text and a null entry per live format key;
    content that is neither a string nor a format mark adds nothing. *)
Fixpoint ytextTransFrom (items : list titem) (str : string) (nAttrs : attrs)
  : string * attrs :=
  match items with
  | [] => (str, nAttrs)
  | i :: rest =>
      if t_deleted i then ytextTransFrom rest str nAttrs
      else match t_content i with
           | ContentString s => ytextTransFrom rest (str ++ s) nAttrs
           | ContentFormat k _ => ytextTransFrom rest str (setKey k VNull nAttrs)
           | ContentEmbed _ => ytextTransFrom rest str nAttrs
           end
  end.

Definition ytextTrans (items : list titem) : string * attrs :=
  ytextTransFrom items "" [].

Definition joinTexts (ps : list pnode) : string :=
  fold_right (fun p acc => ptext p ++ acc) "" ps.

(** The editing operations of Y.Text belong to Yjs; the reconciler is
    written over any implementation of them. *)
Record YTextOps : Type := {
  (** [ytext.delete(index, length)], for a positive length *)
  ytext_delete : list titem -> nat -> nat -> list titem;
  (** [ytext.insert(index, text)], for a non-empty text; takes the client
      and its clock and returns the clock after the insertion *)
  ytext_insert : nat -> nat -> list titem -> nat -> string -> list titem * nat;
  (** [ytext.applyDelta(delta)] *)
  ytext_applyDelta : nat -> nat -> list titem -> list deltaOp -> list titem * nat
}.

Section Reconciler.
Variable ops : YTextOps.
(** The client id of the local document, which new items carry. *)
Variable clientID : nat.

Definition createTypeFromTextNodes (nodes : list pnode) (st : ystate)
  : ytype * ystate :=
  let '(r, st1) := freshRef st in
  let delta :=
    map (fun node => OpInsert (ptext node) (marksToAttributes (pmarks node))) nodes in
  let '(items, c) := ytext_applyDelta ops clientID (nextClock st1) [] delta in
  (XmlText r items, mappingSet r (UTexts nodes) (setClock c st1)).

(** The attributes a new element is given: those that are neither null
    nor the diff annotation. *)
Definition initialAttributes (a : attrs) : attrs :=
  fold_left (fun acc kv =>
               if negb (isNull (snd kv)) && negb (String.eqb (fst kv) "ychange")
               then setKey (fst kv) (snd kv) acc else acc)
            a [].

Fixpoint newItems (ts : list ytype) (st : ystate) : list yitem * ystate :=
  match ts with
  | [] => ([], st)
  | t :: rest =>
      let '(c, st1) := freshClock st in
      let '(items, st2) := newItems rest st1 in
      (Item (ID clientID c) false t :: items, st2)
  end.

(** [units.map(create)], threading the state. *)
Definition createAllWith (create : punit -> ystate -> res (ytype * ystate))
  : list punit -> ystate -> res (list ytype * ystate) :=
  fix createAll (units : list punit) (st : ystate) : res (list ytype * ystate) :=
    match units with
    | [] => Ok ([], st)
    | u :: rest =>
        '(t, st') ← create u st;
        '(ts, st'') ← createAll rest st';
        Ok (t :: ts, st'')
    end.

(** [createTypeFromElementNode].  The element is given with the
    attributes and the children it has once it is inserted into the
    document, which is what every caller does with it next; until then
    Yjs keeps them aside, and [getAttributes] and [toArray] of the new
    element answer nothing. *)
Fixpoint createTypeFromElementNode (fuel : nat) (node : pnode) (st : ystate)
  : res (ytype * ystate) :=
  match fuel with
  | O => OutOfFuel
  | S fuel' =>
      let '(r, st1) := freshRef st in
      '(children, st2) ←
        createAllWith
          (fun u st =>
             match u with
             | UTexts nodes => Ok (createTypeFromTextNodes nodes st)
             | UNode n => createTypeFromElementNode fuel' n st
             end)
          (normalizePNodeContent node) st1;
      let '(items, st3) := newItems children st2 in
      Ok (XmlElement r (ptypeName node) (initialAttributes (pattrsOf node)) items,
          mappingSet r (UNode node) st3)
  end.

Definition createTypeFromTextOrElementNode (fuel : nat) (node : punit)
    (st : ystate) : res (ytype * ystate) :=
  match node with
  | UTexts nodes => Ok (createTypeFromTextNodes nodes st)
  | UNode n => createTypeFromElementNode fuel n st
  end.

Definition createAllTypes (fuel : nat) : list punit -> ystate -> res (list ytype * ystate) :=
  createAllWith (createTypeFromTextOrElementNode fuel).

(** [updateYText]; the text keeps its reference. *)
Definition updateYText (ytext : ytype) (ptexts : list pnode) (st : ystate)
  : ytype * ystate :=
  match ytext with
  | XmlText r items =>
      let st := mappingSet r (UTexts ptexts) st in
      let '(str, nAttrs) := ytextTrans items in
      let d := simpleDiff str (joinTexts ptexts) in
      let '(items1, st1) :=
        match d_remove d with
        | O => (items, st)
        | S _ => (ytext_delete ops items (d_index d) (d_remove d),
                  record (TextDelete r (d_index d) (d_remove d)) st)
        end in
      let '(items2, st2) :=
        match d_insert d with
        | EmptyString => (items1, st1)
        | _ =>
            let '(its, c) :=
              ytext_insert ops clientID (nextClock st1) items1 (d_index d) (d_insert d) in
            (its, record (TextInsert r (d_index d) (d_insert d)) (setClock c st1))
        end in
      let retains :=
        map (fun p => OpRetain (String.length (ptext p))
                        (objectAssign nAttrs (marksToAttributes (pmarks p))))
            ptexts in
      let '(items3, c) := ytext_applyDelta ops clientID (nextClock st2) items2 retains in
      (XmlText r items3, record (TextFormat r) (setClock c st2))
  | _ => (ytext, st)
  end.

(** The choice between the two candidates when both pairs are elements
    with matching names: the pair [(updateLeft, updateRight)]. *)
Definition chooseUpdate (equalityLeft equalityRight : equality) : bool * bool :=
  if foundMappedChild equalityLeft && negb (foundMappedChild equalityRight)
  then (true, false)
  else if negb (foundMappedChild equalityLeft) && foundMappedChild equalityRight
  then (false, true)
  else if Nat.ltb (equalityFactor equalityLeft) (equalityFactor equalityRight)
  then (false, true)
  else (true, false).

Definition setAttribute (key : string) (value : jsval) (t : ytype) (st : ystate)
  : ytype * ystate :=
  (withAttrs t (setKey key value (getAttributes t)),
   record (SetAttribute (yref t) key value) st).

Definition removeAttribute (key : string) (t : ytype) (st : ystate)
  : ytype * ystate :=
  match lookupKey key (getAttributes t) with
  | Some _ => (withAttrs t (deleteKey key (getAttributes t)),
               record (RemoveAttribute (yref t) key) st)
  | None => (t, st)
  end.

(** The two attribute loops of [updateYFragment]; [yDomAttrs] is the
    object read before the first loop. *)
Definition updateAttributes (yDomFragment : ytype) (pAttrs : attrs) (st : ystate)
  : ytype * ystate :=
  let yDomAttrs := getAttributes yDomFragment in
  let afterSet :=
    fold_left
      (fun (acc : ytype * ystate) (kv : string * jsval) =>
         let '(t, st) := acc in
         let '(key, v) := kv in
         if negb (isNull v) then
           if negb (strictEq v (lookupKey key yDomAttrs))
              && negb (String.eqb key "ychange")
           then setAttribute key v t st
           else (t, st)
         else removeAttribute key t st)
      pAttrs (yDomFragment, st) in
  fold_left
    (fun (acc : ytype * ystate) (kv : string * jsval) =>
       let '(t, st) := acc in
       match lookupKey (fst kv) pAttrs with
       | None => removeAttribute (fst kv) t st
       | Some _ => (t, st)
       end)
    yDomAttrs afterSet.

Section Scan.
Variables (yChildren : list ytype) (pChildren : list punit).

(** The loop that counts matching children from the left; [fuel] is
    [minCnt - left]. *)
Fixpoint scanLeft (fuel left : nat) (st : ystate) : res (nat * ystate) :=
  match fuel with
  | O => Ok (left, st)
  | S fuel' =>
      match yChildren !! left, pChildren !! left with
      | Some leftY, Some leftP =>
          if mappedIdentity (mapping st !! yref leftY) leftP
          then scanLeft fuel' (S left) st
          else b ← equalYTypePNode leftY leftP;
               if (b : bool)
               then scanLeft fuel' (S left) (mappingSet (yref leftY) leftP st)
               else Ok (left, st)
      | _, _ => Throw TypeError
      end
  end.

(** The loop that counts matching children from the right; [fuel] is
    [minCnt - (right + left + 1)]. *)
Fixpoint scanRight (fuel right : nat) (st : ystate) : res (nat * ystate) :=
  match fuel with
  | O => Ok (right, st)
  | S fuel' =>
      match yChildren !! (length yChildren - right - 1)%nat,
            pChildren !! (length pChildren - right - 1)%nat with
      | Some rightY, Some rightP =>
          if mappedIdentity (mapping st !! yref rightY) rightP
          then scanRight fuel' (S right) st
          else b ← equalYTypePNode rightY rightP;
               if (b : bool)
               then scanRight fuel' (S right) (mappingSet (yref rightY) rightP st)
               else Ok (right, st)
      | _, _ => Throw TypeError
      end
  end.
End Scan.

Definition deleteChildren (t : ytype) (index len : nat) (st : ystate)
  : ytype * ystate :=
  (withItems t (deleteLive (yitems t) index len),
   record (DeleteChildren (yref t) index len) st).

Definition insertChildren (t : ytype) (index : nat) (content : list ytype)
    (st : ystate) : ytype * ystate :=
  let '(items, st1) := newItems content st in
  (withItems t (insertLive (yitems t) index items),
   record (InsertChildren (yref t) index (map yref content)) st1).

Definition setChild (t : ytype) (index : nat) (child : ytype) : ytype :=
  withItems t (updateLive (yitems t) index child).

Definition nodeNameMismatch (yDomFragment : ytype) (pNode : pnode) : bool :=
  match yDomFragment with
  | XmlElement _ name _ _ => negb (String.eqb name (ptypeName pNode))
  | _ => false
  end.

(** Which of the two pairs the middle loop updates:
    [(updateLeft, updateRight)]. *)
Definition decideUpdate (leftY : ytype) (leftP : punit) (rightY : ytype)
    (rightP : punit) (mapping : gmap nat punit) : res (bool * bool) :=
  let updateLeft := matchNodeName leftY leftP in
  let updateRight := matchNodeName rightY rightP in
  if updateLeft && updateRight then
    match leftP, rightP with
    | UNode lp, UNode rp =>
        equalityLeft ← computeChildEqualityFactor leftY lp mapping;
        equalityRight ← computeChildEqualityFactor rightY rp mapping;
        Ok (chooseUpdate equalityLeft equalityRight)
    | _, _ => Throw TypeError
    end
  else Ok (updateLeft, updateRight).

Section Middle.
(** The recursive call and the construction of new types, at the
    fuel of the enclosing call. *)
Variable recurse : ytype -> pnode -> ystate -> res (ytype * ystate).
Variable create : punit -> ystate -> res (ytype * ystate).
Variables (yChildren : list ytype) (pChildren : list punit).

(** The branch of the loop body for a pair that is not text on both
    sides: recurse into the left or the right pair, or replace the left
    child. *)
Definition updateElementPair (leftY : ytype) (leftP : punit) (rightY : ytype)
    (rightP : punit) (left right : nat) (frag : ytype) (st : ystate)
  : res (nat * nat * ytype * ystate) :=
  '(updateLeft, updateRight) ←
    decideUpdate leftY leftP rightY rightP (mapping st);
  if (updateLeft : bool) then
    match leftP with
    | UNode lp =>
        '(t, st) ← recurse leftY lp st;
        Ok (S left, right, setChild frag left t, st)
    | UTexts _ => Throw TypeError
    end
  else if (updateRight : bool) then
    match rightP with
    | UNode rp =>
        '(t, st) ← recurse rightY rp st;
        Ok (left, S right, setChild frag (length yChildren - right - 1) t, st)
    | UTexts _ => Throw TypeError
    end
  else
    let '(frag, st) := deleteChildren frag left 1 st in
    '(t, st) ← create leftP st;
    let '(frag, st) := insertChildren frag left [t] st in
    Ok (S left, right, frag, st).

(** One iteration of the [while] loop of [updateYFragment]: the cursors,
    the fragment and the state after it. *)
Definition middleStep (left right : nat) (frag : ytype) (st : ystate)
  : res (nat * nat * ytype * ystate) :=
  match yChildren !! left, pChildren !! left,
        yChildren !! (length yChildren - right - 1)%nat,
        pChildren !! (length pChildren - right - 1)%nat with
  | Some leftY, Some leftP, Some rightY, Some rightP =>
      match leftY, leftP with
      | XmlText _ _, UTexts ptexts =>
          b ← equalYTextPText leftY ptexts;
          if (b : bool) then Ok (S left, right, frag, st)
          else
            let '(t, st) := updateYText leftY ptexts st in
            Ok (S left, right, setChild frag left t, st)
      | _, _ => updateElementPair leftY leftP rightY rightP left right frag st
      end
  | _, _, _, _ => Throw TypeError
  end.

(** The [while] loop; [k] is the number of pairs left between the two
    cursors, [min (yChildCnt - left - right) (pChildCnt - left - right)]. *)
Fixpoint middleLoop (k left right : nat) (frag : ytype) (st : ystate) {struct k}
  : res (nat * nat * ytype * ystate) :=
  match k with
  | O => Ok (left, right, frag, st)
  | S k' =>
      '(left, right, frag, st) ← middleStep left right frag st;
      middleLoop k' left right frag st
  end.
End Middle.

Fixpoint updateYFragment (fuel : nat) (yDomFragment : ytype) (pNode : pnode)
    (st : ystate) {struct fuel} : res (ytype * ystate) :=
  match fuel with
  | O => OutOfFuel
  | S fuel' =>
      if nodeNameMismatch yDomFragment pNode then Throw NodeNameMismatch
      else if isXmlText yDomFragment then Throw TypeError
      else
        let st := mappingSet (yref yDomFragment) (UNode pNode) st in
        let '(frag, st) :=
          if isXmlElement yDomFragment
          then updateAttributes yDomFragment (pattrsOf pNode) st
          else (yDomFragment, st) in
        let pChildren := normalizePNodeContent pNode in
        let pChildCnt := length pChildren in
        let yChildren := toArray frag in
        let yChildCnt := length yChildren in
        let minCnt := Nat.min pChildCnt yChildCnt in
        '(nleft, st) ← scanLeft yChildren pChildren minCnt 0 st;
        '(nright, st) ← scanRight yChildren pChildren (minCnt - nleft - 1) 0 st;
        '(nleft, nright, frag, st) ←
          middleLoop (updateYFragment fuel') (createTypeFromTextOrElementNode fuel')
                     yChildren pChildren
                     (minCnt - nleft - nright) nleft nright frag st;
        let yDelLen := (yChildCnt - nleft - nright)%nat in
        let '(frag, st) :=
          match yDelLen with
          | O => (frag, st)
          | S _ => deleteChildren frag nleft yDelLen st
          end in
        if Nat.ltb (nleft + nright) pChildCnt then
          '(ins, st) ← createAllTypes fuel'
                         (take (pChildCnt - nright - nleft) (drop nleft pChildren)) st;
          Ok (insertChildren frag nleft ins st)
        else Ok (frag, st)
  end.
End Reconciler.

(** ** Snapshots *)

Record Snapshot : Type := MkSnapshot {
  ds : list yid;          (* the delete set *)
  sv : gmap nat nat       (* the state vector: client to next clock *)
}.

Definition yidEqb (a b : yid) : bool :=
  Nat.eqb (client a) (client b) && Nat.eqb (clock a) (clock b).

Definition isDeleted (ds : list yid) (id : yid) : bool :=
  existsb (yidEqb id) ds.

(** [isVisible(item, snapshot)], on the id and tombstone flag of the item *)
Definition isVisible (id : yid) (deleted : bool) (snapshot : option Snapshot) : bool :=
  match snapshot with
  | None => negb deleted
  | Some s =>
      match sv s !! client id with
      | Some c => Nat.ltb (clock id) c && negb (isDeleted (ds s) id)
      | None => false
      end
  end.

Definition itemVisible (i : yitem) (snapshot : option Snapshot) : bool :=
  isVisible (itemId i) (itemDeleted i) snapshot.

(** ** The materializer *)

Inductive ychangeType : Type := Removed | Added.

Definition ychangeName (t : ychangeType) : string :=
  match t with Removed => "removed" | Added => "added" end.

(** The schema of the editor: each constructor gets the reference of the
    node it would create and answers [None] where ProseMirror throws.
    [schema_text] is given what the delta inserts, a string or an
    embedded value. *)
Record Schema : Type := {
  schema_node : nat -> string -> attrs -> list pnode -> option pnode;
  schema_text : nat -> jsval -> list mark -> option pnode;
  schema_mark : string -> jsval -> option mark
}.

Definition mappingDelete (k : nat) (st : ystate) : ystate :=
  YState (delete k (mapping st)) (nextRef st) (nextClock st) (mutations st).

Inductive rendering : Type :=
  Rendering (snapshot prevSnapshot : option Snapshot)
            (computeYChange : option (ychangeType -> yid -> res jsval)).

Definition plainRendering : rendering := Rendering None None None.

Section Materializer.
Variable schema : Schema.
(** [text.toDelta(snapshot, prevSnapshot, computeYChange)] and
    [el.getAttributes(snapshot)] under a snapshot belong to Yjs. *)
Variable toDeltaAt : rendering -> list titem -> res (list dop).
Variable attributesAt : ytype -> Snapshot -> attrs.
Variable view : rendering.

Definition viewSnapshot : option Snapshot :=
  match view with Rendering s _ _ => s end.
Definition viewPrevSnapshot : option Snapshot :=
  match view with Rendering _ p _ => p end.
Definition viewComputeYChange : option (ychangeType -> yid -> res jsval) :=
  match view with Rendering _ _ c => c end.

(** [(el._item).delete(transaction)] *)
Definition deleteItem (el : yitem) (st : ystate) : yitem * ystate :=
  match el with
  | Item id d t =>
      if d then (el, st) else (Item id true t, record (DeleteItem (yref t)) st)
  end.

(** The children a node is built from: [el.toArray()], or under a
    snapshot pair
    [typeListToArraySnapshot(el, new Snapshot(prevSnapshot.ds, snapshot.sv))]. *)
Definition childRendered (i : yitem) : bool :=
  match viewSnapshot, viewPrevSnapshot with
  | Some s, Some p => itemVisible i (Some (MkSnapshot (ds p) (sv s)))
  | _, _ => negb (itemDeleted i)
  end.

Definition textDelta (items : list titem) : res (list dop) :=
  match viewSnapshot, viewPrevSnapshot with
  | None, None => Ok (toDeltaFrom items [] "")
  | _, _ => toDeltaAt view items
  end.

(** [for (const markName in delta.attributes) marks.push(schema.mark(...))] *)
Fixpoint makeMarks (a : attrs) : option (list mark) :=
  match a with
  | [] => Some []
  | (markName, v) :: rest =>
      m ← schema_mark schema markName v;
      ms ← makeMarks rest;
      Some (m :: ms)
  end.

(** The body of the [try] of [createTextNodesFromYText]; [None] when a
    schema call throws. *)
Fixpoint makeTextNodes (deltas : list dop) (ref : nat) : option (list pnode) :=
  match deltas with
  | [] => Some []
  | delta :: rest =>
      marks ← makeMarks (deltaAttrs delta);
      node ← schema_text schema ref (insert delta) marks;
      nodes ← makeTextNodes rest (S ref);
      Some (node :: nodes)
  end.

Definition allocRefs (n : nat) (st : ystate) : ystate :=
  YState (mapping st) (n + nextRef st) (nextClock st) (mutations st).

Definition createTextNodesFromYText (text : yitem) (st : ystate)
  : res (option (list pnode) * yitem * ystate) :=
  match itemType text with
  | XmlText _ items =>
      deltas ← textDelta items;
      match makeTextNodes deltas (nextRef st) with
      | Some nodes => Ok (Some nodes, text, allocRefs (length nodes) st)
      | None =>
          let '(text', st') := deleteItem text st in
          Ok (None, text', st')
      end
  | _ => Throw TypeError
  end.

(** The attributes the node is created with: those of the element, and
    under a snapshot the diff annotation. *)
Definition renderedAttributes (el : yitem) : res attrs :=
  match viewSnapshot with
  | None => Ok (getAttributes (itemType el))
  | Some s =>
      let a := attributesAt (itemType el) s in
      let annotate (t : ychangeType) : res attrs :=
        v ← match viewComputeYChange with
            | Some f => f t (itemId el)
            | None => Ok (VObj 0 [("type", VStr (ychangeName t))])
            end;
        Ok (setKey "ychange" v a) in
      if negb (itemVisible el (Some s)) then annotate Removed
      else if negb (itemVisible el viewPrevSnapshot) then annotate Added
      else Ok a
  end.

Definition elementName (t : ytype) : option string :=
  match t with XmlElement _ n _ _ => Some n | _ => None end.

(** The [try] block of [createNodeFromYElement]: the node, or [None]
    when [computeYChange] or the schema throws. *)
Definition tryNode (el : yitem) (children : list pnode) (st : ystate)
  : option pnode :=
  match renderedAttributes el, elementName (itemType el) with
  | Ok a, Some name => schema_node schema (nextRef st) name a children
  | _, _ => None
  end.

(** The end of [createNodeFromYElement]: the [try] block and its [catch]. *)
Definition finishNode (el : yitem) (children : list pnode) (st : ystate)
  : option pnode * yitem * ystate :=
  match tryNode el children st with
  | Some node =>
      (Some node, el, mappingSet (yref (itemType el)) (UNode node) (allocRefs 1 st))
  | None =>
      let '(el', st') := deleteItem el st in
      (None, el', mappingDelete (yref (itemType el)) st')
  end.

(** [forEach(createChildren)] over the rendered children; [create] is
    [createNodeFromYElement] on a child. *)
Definition createChildren
    (create : yitem -> ystate -> res (option pnode * yitem * ystate))
  : list yitem -> ystate -> res (list pnode * list yitem * ystate) :=
  fix each (items : list yitem) (st : ystate) {struct items}
    : res (list pnode * list yitem * ystate) :=
    match items with
    | [] => Ok ([], [], st)
    | type :: rest =>
        if childRendered type then
          '(ns, type', st1) ←
            match type return res (list pnode * yitem * ystate) with
            | Item _ _ (XmlElement r _ _ _) =>
                (* createNodeIfNotExists *)
                match mapping st !! r with
                | Some (UNode n) => Ok ([n], type, st)
                | Some (UTexts _) => Throw TypeError
                | None =>
                    '(n, type', st1) ← create type st;
                    Ok (option_list n, type', st1)
                end
            | _ =>
                '(ns, type', st1) ← createTextNodesFromYText type st;
                Ok (default [] ns, type', st1)
            end;
          '(nodes, rest', st2) ← each rest st1;
          Ok ((ns ++ nodes)%list, type' :: rest', st2)
        else
          '(nodes, rest', st2) ← each rest st;
          Ok (nodes, type :: rest', st2)
    end.

Fixpoint createNodeFromYElement (el : yitem) (st : ystate) {struct el}
  : res (option pnode * yitem * ystate) :=
  match el with
  | Item id d (XmlText r items) => Throw TypeError
  | Item id d (XmlElement _ _ _ items as t) | Item id d (XmlFragment _ items as t) =>
      '(nodes, items', st') ← createChildren createNodeFromYElement items st;
      Ok (finishNode (Item id d (withItems t items')) nodes st')
  end.

Definition createNodeIfNotExists (el : yitem) (st : ystate)
  : res (option punit * yitem * ystate) :=
  match mapping st !! yref (itemType el) with
  | Some node => Ok (Some node, el, st)
  | None =>
      if isXmlElement (itemType el) then
        '(n, el', st') ← createNodeFromYElement el st;
        Ok (match n with Some n => Some (UNode n) | None => None end, el', st')
      else Throw MethodUnimplemented
  end.
End Materializer.

(** [_renderSnapshot]: the nodes of the document shown for a snapshot
    pair.  Every child is created against a mapping of its own. *)
Section RenderSnapshot.
Variable schema : Schema.
Variable toDeltaAt : rendering -> list titem -> res (list dop).
Variable attributesAt : ytype -> Snapshot -> attrs.
Variables snapshot prevSnapshot : Snapshot.
(** [pluginState.permanentUserData], when set: the user of a client id
    and the user who deleted an id. *)
Variable pud : option ((nat -> jsval) * (yid -> jsval)).
(** [getUserColor(pluginState.colorMapping, pluginState.colors, user)] *)
Variable userColor : jsval -> jsval.

(** The closure [computeYChange] of [_renderSnapshot]; reading a user of
    a missing [permanentUserData] throws. *)
Definition computeYChange (type : ychangeType) (id : yid) : res jsval :=
  match pud with
  | None => Throw TypeError
  | Some (getUserByClientId, getUserByDeletedId) =>
      let user := match type with
                  | Added => getUserByClientId (client id)
                  | Removed => getUserByDeletedId id
                  end in
      Ok (VObj 0 [("user", user); ("type", VStr (ychangeName type));
                  ("color", userColor user)])
  end.

Definition snapshotView : rendering :=
  Rendering (Some snapshot) (Some prevSnapshot) (Some computeYChange).

Definition withMapping (m : gmap nat punit) (st : ystate) : ystate :=
  YState m (nextRef st) (nextClock st) (mutations st).

(** The test of the [map] callback. *)
Definition shownInEither (t : yitem) : bool :=
  negb (itemDeleted t) || itemVisible t (Some snapshot)
  || itemVisible t (Some prevSnapshot).

Fixpoint renderItems (items : list yitem) (st : ystate)
  : res (list pnode * list yitem * ystate) :=
  match items with
  | [] => Ok ([], [], st)
  | t :: rest =>
      if itemVisible t (Some (MkSnapshot (ds prevSnapshot) (sv snapshot)))
         && shownInEither t
      then
        '(n, t', st1) ←
          createNodeFromYElement schema toDeltaAt attributesAt snapshotView t
            (withMapping ∅ st);
        '(nodes, rest', st2) ← renderItems rest (withMapping (mapping st) st1);
        Ok ((option_list n ++ nodes)%list, t' :: rest', st2)
      else
        '(nodes, rest', st2) ← renderItems rest st;
        Ok (nodes, t :: rest', st2)
  end.

Definition renderSnapshotContent (type : ytype) (st : ystate)
  : res (list pnode * ytype * ystate) :=
  '(nodes, items, st') ← renderItems (yitems type) st;
  Ok (nodes, withItems type items, st').
End RenderSnapshot.

(** ** Relative positions *)

(** The id a relative position points at: a clock plus an offset. *)
Record zid : Type := ZID { zclient : nat; zclock : Z }.

Record RelativePosition : Type :=
  RelPos { rp_type : option yid; rp_tname : option string; rp_item : option zid }.

Definition zidOf (i : yid) : zid := ZID (client i) (Z.of_nat (clock i)).

Fixpoint firstLive (items : list yitem) : option nat :=
  match items with
  | [] => None
  | i :: rest => if itemDeleted i then S <$> firstLive rest else Some O
  end.

(** The first live item at index [i] or later. *)
Definition firstLiveFrom (items : list yitem) (i : nat) : option nat :=
  (fun j => (i + j)%nat) <$> firstLive (drop i items).

(** The item reached from [t] by the child indices [path], outermost
    first. *)
Fixpoint itemAt (t : ytype) (path : list nat) : option yitem :=
  match path with
  | [] => None
  | i :: rest =>
      match yitems t !! i with
      | Some it =>
          match rest with
          | [] => Some it
          | _ => itemAt (itemType it) rest
          end
      | None => None
      end
  end.

Section Positions.
(** The fragment bound to the editor, a root type of the document
    ([type._item === null]), and the key [findRootTypeKey] gives for it. *)
Variable type : ytype.
Variable rootKey : string.
Variable mapping : gmap nat punit.

(** A type below [type] is named by the child indices leading to it,
    innermost first; [[]] is [type] itself. *)
Definition node : Type := list nat.

Definition nodeItem (n : node) : option yitem := itemAt type (rev n).

Definition nodeType (n : node) : option ytype :=
  match n with
  | [] => Some type
  | _ => itemType <$> nodeItem n
  end.

(** [n._item.id], or [None] where [n._item === null] *)
Definition nodeItemId (n : node) : option yid :=
  match n with
  | [] => None
  | _ => itemId <$> nodeItem n
  end.

(** [n._first], as the node of its type *)
Definition firstChild (n : node) : option node :=
  t ← nodeType n;
  j ← firstLiveFrom (yitems t) 0;
  Some (j :: n).

(** [n._item.next], as the node of its type *)
Definition nextSibling (n : node) : option node :=
  match n with
  | [] => None
  | i :: up =>
      t ← nodeType up;
      j ← firstLiveFrom (yitems t) (S i);
      Some (j :: up)
  end.

(** [new Y.RelativePosition(typeid, tname, item)] for the type [n]:
    the key of a root type, the id of the item of any other. *)
Definition relativePositionIn (n : node) (item : option zid) : RelativePosition :=
  match nodeItemId n with
  | None => RelPos None (Some rootKey) item
  | Some id => RelPos (Some id) None item
  end.

(** [Y.createRelativePositionFromTypeIndex]: the walk over the items
    of a text ... *)
Fixpoint textIndexItem (items : list titem) (index : Z) : option zid :=
  match items with
  | [] => None
  | i :: rest =>
      match t_content i with
      | ContentString s =>
          if t_deleted i then textIndexItem rest index
          else if Z.ltb index (strlen s)
               then Some (ZID (client (t_id i)) (Z.of_nat (clock (t_id i)) + index))
               else textIndexItem rest (index - strlen s)
      | ContentFormat _ _ => textIndexItem rest index
      | ContentEmbed _ =>
          if t_deleted i then textIndexItem rest index
          else if Z.ltb index 1
               then Some (ZID (client (t_id i)) (Z.of_nat (clock (t_id i)) + index))
               else textIndexItem rest (index - 1)
      end
  end.

(** ... and over the items of an element, each of length 1. *)
Fixpoint childIndexItem (items : list yitem) (index : Z) : option zid :=
  match items with
  | [] => None
  | i :: rest =>
      if itemDeleted i then childIndexItem rest index
      else if Z.ltb index 1
           then Some (ZID (client (itemId i)) (Z.of_nat (clock (itemId i)) + index))
           else childIndexItem rest (index - 1)
  end.

Definition createRelativePositionFromTypeIndex (n : node) (index : Z)
  : res RelativePosition :=
  match nodeType n with
  | Some (XmlText _ items) => Ok (relativePositionIn n (textIndexItem items index))
  | Some t => Ok (relativePositionIn n (childIndexItem (yitems t) index))
  | None => Throw UnexpectedCase
  end.

(** [createRelativePosition(n._item.parent, n._item)] *)
Definition createRelativePosition (n : node) : res RelativePosition :=
  match n, nodeItem n with
  | _ :: up, Some it => Ok (relativePositionIn up (Some (zidOf (itemId it))))
  | _, _ => Throw UnexpectedCase
  end.

(** [(mapping.get(n) || { nodeSize: 0 }).nodeSize]; an array of text
    nodes has no [nodeSize], which leaves no number ([None]). *)
Definition pNodeSizeOf (t : ytype) : option Z :=
  match mapping !! yref t with
  | Some (UNode p) => Some (nodeSize p)
  | Some (UTexts _) => None
  | None => Some 0
  end.

(** [do { n = n._item.parent; pos-- } while (n !== type && n._item.next === null)] *)
Fixpoint ascend (n : node) (pos : Z) : node * Z :=
  match n with
  | [] => ([], pos)
  | _ :: up =>
      match up with
      | [] => ([], pos - 1)
      | _ =>
          match nextSibling up with
          | None => ascend up (pos - 1)
          | Some _ => (up, pos - 1)
          end
      end
  end.

Definition endOfType : res RelativePosition :=
  createRelativePositionFromTypeIndex [] (ylength type).

Definition isRoot (n : node) : bool :=
  match n with [] => true | _ => false end.

(** The [while] loop of [absolutePositionToRelativePosition], from the
    top of an iteration with the current type [n].  With [pos] not a
    number every test fails and the walk ends at the end of [type]. *)
Fixpoint walk (fuel : nat) (n : node) (pos : Z) {struct fuel}
  : res RelativePosition :=
  match fuel with
  | O => OutOfFuel
  | S fuel' =>
      match n, nodeType n with
      | [], _ => endOfType
      | _, None => Throw UnexpectedCase
      | _ :: parent, Some t =>
          (* the two tests that end an iteration *)
          let continue (n' : node) (pos' : Z) : res RelativePosition :=
            match nodeType n' with
            | None => Throw UnexpectedCase
            | Some t' =>
                if Z.eqb pos' 0 && negb (isXmlText t') && negb (isRoot n')
                then createRelativePosition n'
                else walk fuel' n' pos'
            end in
          (* no next sibling: up to the first ancestor that has one *)
          let leave (pos : Z) : res RelativePosition :=
            let '(up, pos') := ascend n pos in
            if isRoot up then continue up pos'
            else match nextSibling up with
                 | Some n' => continue n' pos'
                 | None => Throw UnexpectedCase
                 end in
          if isXmlText t then
            if Z.leb pos (ylength t) then createRelativePositionFromTypeIndex n pos
            else
              let pos := pos - ylength t in
              match nextSibling n with
              | Some n' => continue n' pos
              | None => leave pos
              end
          else
            match pNodeSizeOf t with
            | None => endOfType
            | Some pNodeSize =>
                match firstChild n with
                | Some c =>
                    if Z.ltb pos pNodeSize then continue c (pos - 1)
                    else
                      let pos := pos - pNodeSize in
                      match nextSibling n with
                      | Some n' => continue n' pos
                      | None =>
                          if Z.eqb pos 0 then Ok (relativePositionIn parent None)
                          else leave pos
                      end
                | None =>
                    if Z.eqb pos 1 && Z.eqb (ylength t) 0 && Z.ltb 1 pNodeSize
                    then Ok (relativePositionIn n None)
                    else
                      let pos := pos - pNodeSize in
                      match nextSibling n with
                      | Some n' => continue n' pos
                      | None =>
                          if Z.eqb pos 0 then Ok (relativePositionIn parent None)
                          else leave pos
                      end
                end
            end
      end
  end.

Definition absolutePositionToRelativePosition (fuel : nat) (pos : Z)
  : res RelativePosition :=
  if Z.eqb pos 0 then createRelativePositionFromTypeIndex [] 0
  else match firstChild [] with
       | None => endOfType
       | Some n => walk fuel n pos
       end.
End Positions.

(** ** Resolving a relative position (Yjs)

    The struct store is the tree itself: an id is looked up by searching
    the items, tombstones included, in document order.  Nothing is
    garbage collected. *)

(** The ids a text item covers: one for each character, one for a
    format item. *)
Definition titemIdLength (i : titem) : Z :=
  match t_content i with
  | ContentString s => strlen s
  | ContentFormat _ _ => 1
  | ContentEmbed _ => 1
  end.

(** Where an id lies: the type holding the item (child indices,
    outermost first), the index of the item and the offset into it. *)
Fixpoint findTextItem (items : list titem) (id : zid) (k : nat)
  : option (nat * Z) :=
  match items with
  | [] => None
  | i :: rest =>
      let c := Z.of_nat (clock (t_id i)) in
      if Nat.eqb (client (t_id i)) (zclient id)
         && Z.leb c (zclock id) && Z.ltb (zclock id) (c + titemIdLength i)
      then Some (k, zclock id - c)
      else findTextItem rest id (S k)
  end.

Definition findInItems (rec : ytype -> zid -> option (list nat * nat * Z)) (id : zid)
  : list yitem -> nat -> option (list nat * nat * Z) :=
  fix go (items : list yitem) (k : nat) {struct items} :=
    match items with
    | [] => None
    | it :: rest =>
        if Nat.eqb (client (itemId it)) (zclient id)
           && Z.eqb (Z.of_nat (clock (itemId it))) (zclock id)
        then Some ([], k, 0)
        else match rec (itemType it) id with
             | Some (p, idx, diff) => Some (k :: p, idx, diff)
             | None => go rest (S k)
             end
    end.

Fixpoint findItem (t : ytype) (id : zid) {struct t}
  : option (list nat * nat * Z) :=
  match t with
  | XmlText _ items =>
      match findTextItem items id O with
      | Some (k, diff) => Some ([], k, diff)
      | None => None
      end
  | XmlElement _ _ _ c | XmlFragment _ c => findInItems findItem id c O
  end.

(** The type reached from [t] by the child indices [path], outermost
    first. *)
Fixpoint typeAt (t : ytype) (path : list nat) : option ytype :=
  match path with
  | [] => Some t
  | k :: rest =>
      match yitems t !! k with
      | Some it => typeAt (itemType it) rest
      | None => None
      end
  end.

(** [right.deleted || !right.countable] for the item at index [k] *)
Definition uncounted (t : ytype) (k : nat) : bool :=
  match t with
  | XmlText _ items =>
      match items !! k with
      | Some i => t_deleted i
                  || match t_content i with ContentFormat _ _ => true | _ => false end
      | None => true
      end
  | _ => match yitems t !! k with
         | Some it => itemDeleted it
         | None => true
         end
  end.

(** The lengths of the live, countable items to the left of index [k]. *)
Definition leftLength (t : ytype) (k : nat) : Z :=
  match t with
  | XmlText _ items => ylength (XmlText 0 (take k items))
  | _ => Z.of_nat (length (List.filter (fun i => negb (itemDeleted i))
                                       (take k (yitems t))))
  end.

(** [type._item === null || !type._item.deleted] for the type at
    [path] below [t] *)
Fixpoint itemLive (t : ytype) (path : list nat) : bool :=
  match path with
  | [] => true
  | k :: rest =>
      match yitems t !! k with
      | Some it =>
          match rest with
          | [] => negb (itemDeleted it)
          | _ => itemLive (itemType it) rest
          end
      | None => false
      end
  end.

(** The type of an absolute position: a type of the bound fragment, by
    its path, or another root type of the document. *)
Inductive AbsoluteType : Type :=
| InDocument (path : list nat)
| OtherRoot.

(** [Y.createAbsolutePositionFromRelativePosition(relPos, y)], with
    [assoc = 0]; [None] is [null].  Items are looked up in the bound
    fragment: an item that the document holds elsewhere is answered like
    one it does not hold, and the caller returns [null] for both. *)
Definition createAbsolutePositionFromRelativePosition (type : ytype)
    (rootKey : string) (rpos : RelativePosition)
  : res (option (AbsoluteType * Z)) :=
  match rp_item rpos with
  | Some rightID =>
      match findItem type rightID with
      | None => Ok None
      | Some (p, k, diff) =>
          match typeAt type p with
          | None => Ok None
          | Some t =>
              if itemLive type p
              then Ok (Some (InDocument p,
                             (if uncounted t k then 0 else diff) + leftLength t k))
              else Ok (Some (InDocument p, 0))
          end
      end
  | None =>
      match rp_tname rpos, rp_type rpos with
      | Some tname, _ =>
          if String.eqb tname rootKey
          then Ok (Some (InDocument [], ylength type))
          else Ok (Some (OtherRoot, 0))
      | None, Some typeID =>
          match findItem type (zidOf typeID) with
          | None => Ok None
          | Some (p, k, _) =>
              match typeAt type p with
              | Some (XmlText _ _) | None => Ok None
              | Some _ =>
                  match typeAt type (p ++ [k])%list with
                  | Some t => Ok (Some (InDocument (p ++ [k])%list, ylength t))
                  | None => Ok None
                  end
              end
          end
      | None, None => Throw UnexpectedCase
      end
  end.

(** ** relativePositionToAbsolutePosition *)

(** What the function returns: [null], a number, or [NaN] when a size
    that is not a number was added. *)
Inductive absolute : Type :=
| Unresolvable
| Offset (pos : Z)
| NotANumber.

(** [t._length] of a text, [mapping.get(t).nodeSize] of an element: a
    TypeError when the element is not in the mapping, no number when
    it is mapped to an array of text nodes. *)
Definition sizeInMapping (mapping : gmap nat punit) (t : ytype) : res (option Z) :=
  if isXmlText t then Ok (Some (ylength t))
  else match mapping !! yref t with
       | Some (UNode p) => Ok (Some (nodeSize p))
       | Some (UTexts _) => Ok None
       | None => Throw TypeError
       end.

Definition addSize (pos size : option Z) : option Z :=
  match pos, size with
  | Some a, Some b => Some (a + b)
  | _, _ => None
  end.

(** The loop over the children left of the position: [i] counts the live
    children passed. *)
Fixpoint sizesToIndex (mapping : gmap nat punit) (len index : Z)
    (items : list yitem) (i : Z) (pos : option Z) {struct items}
  : res (option Z) :=
  match items with
  | [] => Ok pos
  | n :: rest =>
      if Z.ltb i len && Z.ltb i index then
        if itemDeleted n then sizesToIndex mapping len index rest i pos
        else size ← sizeInMapping mapping (itemType n);
             sizesToIndex mapping len index rest (i + 1) (addSize pos size)
      else Ok pos
  end.

(** The loop over the siblings left of [type] in its parent *)
Fixpoint sizesBefore (mapping : gmap nat punit) (items : list yitem)
    (pos : option Z) {struct items} : res (option Z) :=
  match items with
  | [] => Ok pos
  | n :: rest =>
      if itemDeleted n then sizesBefore mapping rest pos
      else size ← sizeInMapping mapping (itemType n);
           sizesBefore mapping rest (addSize pos size)
  end.

(** The siblings the inner loop of the climb passes on its way to the item
    at index [k]: it starts at [parent._first], the first item that is not
    deleted, and goes right until it meets the item [k].  An item [k]
    that lies before the first live item is never met, and the loop runs
    to the end of the list. *)
Definition passedSiblings (items : list yitem) (k : nat) : list yitem :=
  match firstLive items with
  | Some j => if Nat.ltb k j then drop j items else drop j (take k items)
  | None => []
  end.

Section Resolve.
Variable type : ytype.
Variable rootKey : string.
Variable mapping : gmap nat punit.

(** [n._item.deleted] *)
Definition nodeDeleted (n : node) : bool :=
  match nodeItem type n with
  | Some it => itemDeleted it
  | None => false
  end.

(** The [while] loop from [n] up to the bound fragment *)
Fixpoint climb (n : node) (pos : option Z) {struct n} : res (option Z) :=
  match n with
  | [] => Ok pos
  | k :: up =>
      match nodeType type up with
      | None => Throw TypeError
      | Some parent =>
          pos ← (if isRoot up || negb (nodeDeleted up)
                 then sizesBefore mapping (passedSiblings (yitems parent) k)
                                  (addSize pos (Some 1))
                 else Ok pos);
          climb up pos
      end
  end.

Definition relativePositionToAbsolutePosition (relPos : RelativePosition)
  : res absolute :=
  decodedPos ← createAbsolutePositionFromRelativePosition type rootKey relPos;
  match decodedPos with
  | None | Some (OtherRoot, _) => Ok Unresolvable
  | Some (InDocument path, index) =>
      let n := rev path in
      match nodeType type n with
      | None => Throw TypeError
      | Some t =>
          pos ← (if isXmlText t then Ok (Some index)
                 else if isRoot n || negb (nodeDeleted n)
                 then pos ← sizesToIndex mapping (ylength t) index (yitems t) 0 (Some 0);
                      Ok (addSize pos (Some 1))
                 else Ok (Some 0));
          pos ← climb n pos;
          Ok (match pos with
              | Some z => Offset (z - 1)
              | None => NotANumber
              end)
      end
  end.
End Resolve.

(** ** A reference implementation of the Y.Text operations

    Enough of Yjs' item list editing to run the reconciler: deleting
    turns characters into tombstones, inserting adds one string item, and
    formatting brackets a range with format items. *)
Module PlainText.

Fixpoint valueEqb (a b : jsval) {struct a} : bool :=
  match a, b with
  | VNull, VNull => true
  | VBool x, VBool y => Bool.eqb x y
  | VNum x, VNum y => Z.eqb x y
  | VStr x, VStr y => String.eqb x y
  | VObj _ fa, VObj _ fb =>
      (fix fieldsEqb (fa fb : attrs) {struct fa} : bool :=
         match fa, fb with
         | [], [] => true
         | (ka, va) :: ra, (kb, vb) :: rb =>
             String.eqb ka kb && valueEqb va vb && fieldsEqb ra rb
         | _, _ => false
         end) fa fb
  | _, _ => false
  end.

Definition stringItem (i : yid) (off len : nat) (d : bool) (s : string)
  : list titem :=
  match len with
  | O => []
  | _ => [TItem (ID (client i) (clock i + off)) d
                (ContentString (substring off len s))]
  end.

Fixpoint delete (items : list titem) (index len : nat) : list titem :=
  match items with
  | [] => []
  | i :: rest =>
      match len with
      | O => items
      | S _ =>
          if t_deleted i then i :: delete rest index len
          else match t_content i with
               | ContentFormat _ _ => i :: delete rest index len
               | ContentEmbed _ =>
                   match index with
                   | O => TItem (t_id i) true (t_content i) :: delete rest O (len - 1)
                   | S index' => i :: delete rest index' len
                   end
               | ContentString s =>
                   let L := String.length s in
                   if Nat.leb L index then i :: delete rest (index - L) len
                   else
                     let n := Nat.min len (L - index) in
                     (stringItem (t_id i) O index false s
                        ++ stringItem (t_id i) index n true s
                        ++ stringItem (t_id i) (index + n) (L - index - n) false s
                        ++ delete rest O (len - n))%list
               end
      end
  end.

(** The items up to the [index]-th live character, and those after it. *)
Fixpoint splitAtIndex (items : list titem) (index : nat)
  : list titem * list titem :=
  match index with
  | O => ([], items)
  | S _ =>
      match items with
      | [] => ([], [])
      | i :: rest =>
          let pass (index : nat) :=
            let '(before, after) := splitAtIndex rest index in
            (i :: before, after) in
          if t_deleted i then pass index
          else match t_content i with
               | ContentFormat _ _ => pass index
               | ContentEmbed _ => pass (index - 1)%nat
               | ContentString s =>
                   let L := String.length s in
                   if Nat.leb L index then pass (index - L)%nat
                   else (stringItem (t_id i) O index false s,
                         (stringItem (t_id i) index (L - index) false s ++ rest)%list)
               end
      end
  end.

Definition insert (c clock : nat) (items : list titem) (index : nat) (str : string)
  : list titem * nat :=
  let '(before, after) := splitAtIndex items index in
  ((before ++ TItem (ID c clock) false (ContentString str) :: after)%list,
   (clock + String.length str)%nat).

Definition isSome {A} (o : option A) : bool :=
  match o with Some _ => true | None => false end.

(** The attributes in effect after [items]. *)
Definition currentAttributes (items : list titem) : attrs :=
  fold_left (fun cur i =>
               if t_deleted i then cur
               else match t_content i with
                    | ContentFormat k v => updateCurrentAttributes cur k v
                    | _ => cur
                    end) items [].

Definition valueAt (cur : attrs) (k : string) : jsval :=
  default VNull (lookupKey k cur).

(** The entries of [wanted] that differ from what is in effect. *)
Definition changesTo (cur wanted : attrs) : attrs :=
  List.filter (fun kv => negb (valueEqb (valueAt cur (fst kv)) (snd kv))) wanted.

Fixpoint formatItems (c clock : nat) (a : attrs) : list titem * nat :=
  match a with
  | [] => ([], clock)
  | (k, v) :: rest =>
      let '(items, clock') := formatItems c (S clock) rest in
      (TItem (ID c clock) false (ContentFormat k v) :: items, clock')
  end.

(** Over the next [n] live characters the format items of the keys
    of [a] become tombstones; [negated] collects, per key, the value
    in effect behind the range. *)
Fixpoint retainOver (a : attrs) (items : list titem) (n : nat) (negated : attrs)
  : list titem * list titem * attrs :=
  match n with
  | O => ([], items, negated)
  | S _ =>
      match items with
      | [] => ([], [], negated)
      | i :: rest =>
          let pass (i : titem) (n : nat) (negated : attrs) :=
            let '(passed, after, negated') := retainOver a rest n negated in
            (i :: passed, after, negated') in
          if t_deleted i then pass i n negated
          else match t_content i with
               | ContentFormat k v =>
                   match lookupKey k a with
                   | Some _ => pass (TItem (t_id i) true (t_content i)) n
                                    (setKey k v negated)
                   | None => pass i n negated
                   end
               | ContentEmbed _ => pass i (n - 1)%nat negated
               | ContentString s =>
                   let L := String.length s in
                   if Nat.leb L n then pass i (n - L)%nat negated
                   else (stringItem (t_id i) O n false s,
                         (stringItem (t_id i) n (L - n) false s ++ rest)%list,
                         negated)
               end
      end
  end.

Fixpoint applyOps (c clock : nat) (done todo : list titem) (ops : list deltaOp)
  : list titem * nat :=
  match ops with
  | [] => ((done ++ todo)%list, clock)
  | OpInsert text a :: ops' =>
      let cur := currentAttributes done in
      let wanted :=
        (a ++ map (fun kv => (fst kv, VNull))
                  (List.filter (fun kv => negb (isSome (lookupKey (fst kv) a))) cur))%list in
      let changes := changesTo cur wanted in
      let negated := map (fun kv => (fst kv, valueAt cur (fst kv))) changes in
      let '(on, clock1) := formatItems c clock changes in
      let clock2 := (clock1 + String.length text)%nat in
      let '(off, clock3) := formatItems c clock2 negated in
      applyOps c clock3
        (done ++ on ++ TItem (ID c clock1) false (ContentString text) :: off)%list
        todo ops'
  | OpRetain n a :: ops' =>
      let cur := currentAttributes done in
      let changes := changesTo cur a in
      let negated := map (fun kv => (fst kv, valueAt cur (fst kv))) changes in
      let '(on, clock1) := formatItems c clock changes in
      let '(passed, after, negated') := retainOver a todo n negated in
      let '(off, clock2) :=
        formatItems c clock1
          (changesTo (currentAttributes (done ++ on ++ passed)%list) negated') in
      applyOps c clock2 (done ++ on ++ passed ++ off)%list after ops'
  end.

Definition applyDelta (c clock : nat) (items : list titem) (ops : list deltaOp)
  : list titem * nat :=
  applyOps c clock [] items ops.

Definition ops : YTextOps :=
  {| ytext_delete := delete; ytext_insert := insert; ytext_applyDelta := applyDelta |}.
End PlainText.

(** ** Running the model on small documents *)
Module Examples.
Definition emptyState : ystate := YState ∅ 100 0 [].

Definition para (ref : nat) (content : list pnode) : pnode :=
  PElem ref "paragraph" []
        (2 + fold_right (fun c acc => nodeSize c + acc) 0 content) content.

Definition doc (ref : nat) (content : list pnode) : pnode :=
  PElem ref "doc" []
        (2 + fold_right (fun c acc => nodeSize c + acc) 0 content) content.

Definition bold : mark := Mark "bold" [].

Definition doc1 : pnode :=
  doc 1 [para 2 [PText 3 "hello " []; PText 4 "world" [bold]]; para 5 []].

(** A schema with documents, paragraphs, headings with a level, text
    and bold text.  Its text nodes hold strings: it refuses the empty
    string, as ProseMirror does, and a text that is no string. *)
Definition contentSizeOf (content : list pnode) : Z :=
  fold_right (fun c acc => nodeSize c + acc) 0 content.

Definition basicSchema : Schema :=
  {| schema_node := fun ref name a content =>
       if String.eqb name "doc" || String.eqb name "paragraph"
       then Some (PElem ref name a (2 + contentSizeOf content) content)
       else if String.eqb name "heading"
       then match lookupKey "level" a with
            | Some (VNum _) => Some (PElem ref name a (2 + contentSizeOf content) content)
            | _ => None
            end
       else None;
     schema_text := fun ref text marks =>
       match text with
       | VStr EmptyString => None
       | VStr s => Some (PText ref s marks)
       | _ => None
       end;
     schema_mark := fun name v =>
       if String.eqb name "bold"
       then Some (Mark name match v with VObj _ f => f | _ => [] end)
       else None |}.

Definition run (fragment : ytype) (p : pnode) (st : ystate) :=
  updateYFragment PlainText.ops 7 10 fragment p st.

Definition fragment1 : ytype :=
  match run (XmlFragment 0 []) doc1 emptyState with
  | Ok (t, _) => t
  | _ => XmlFragment 0 []
  end.
End Examples.

(** A document with history: paragraph [a] is in both snapshots and
    holds [q], which was added and deleted between them; [b] was deleted
    between them; [c] was added and deleted between them; [d] was added. *)
Module History.
Definition snapshot : Snapshot :=
  MkSnapshot [ID 1 1; ID 1 5; ID 1 6] {[1%nat := 10%nat]}.
Definition prevSnapshot : Snapshot := MkSnapshot [] {[1%nat := 3%nat]}.
Definition q : yitem := Item (ID 1 5) true (XmlElement 12 "paragraph" [] []).
Definition a : yitem := Item (ID 1 0) false (XmlElement 11 "paragraph" [] [q]).
Definition b : yitem := Item (ID 1 1) true (XmlElement 13 "paragraph" [] []).
Definition c : yitem := Item (ID 1 6) true (XmlElement 14 "paragraph" [] []).
Definition d : yitem := Item (ID 1 7) false (XmlElement 15 "paragraph" [] []).
Definition type : ytype := XmlFragment 0 [a; b; c; d].
Definition pud : option ((nat -> jsval) * (yid -> jsval)) :=
  Some (fun _ => VStr "ann", fun _ => VStr "bob").
Definition userColor : jsval -> jsval := fun _ => VStr "#ecd444".
Definition noDelta : rendering -> list titem -> res (list dop) := fun _ _ => Ok [].
Definition attributesAt : ytype -> Snapshot -> attrs := fun t _ => getAttributes t.
Definition st : ystate := YState ∅ 100 0 [].
Definition view : rendering := snapshotView snapshot prevSnapshot pud userColor.
Definition render (el : yitem) : res (option pnode * yitem * ystate) :=
  createNodeFromYElement Examples.basicSchema noDelta attributesAt view el st.
Definition renderedNode (el : yitem) : pnode :=
  match render el with
  | Ok (Some n, _, _) => n
  | _ => PText 0 "" []
  end.
Definition renderedState (el : yitem) : ystate :=
  match render el with
  | Ok (_, _, st') => st'
  | _ => st
  end.
End History.

(** * The rest of the binding

    The colour map, the selection kept across remote changes, the
    deferred transaction metadata, the document converters, the cursor
    decorations and the rendering of a remote change. *)

(** ** The colour of a user *)

Record ColorDef : Type := Color { light : string; dark : string }.

(** [colors[i % colors.length]]: with no colours the index is not a
    number and the element is [undefined], rendered as [None]. *)
Definition colorAt (colors : list ColorDef) (i : nat) : option ColorDef :=
  match colors with
  | [] => None
  | _ => colors !! (i mod length colors)%nat
  end.

(** [getUserColor]: the colour and the colour map after the call. *)
Definition getUserColor (colorMapping : gmap string (option ColorDef))
    (colors : list ColorDef) (user : string)
  : option ColorDef * gmap string (option ColorDef) :=
  match colorMapping !! user with
  | Some c => (c, colorMapping)
  | None =>
      let c := colorAt colors (size colorMapping) in
      (c, <[user := c]> colorMapping)
  end.

(** ** The selection across a remote change *)

Record RelativeSelection : Type :=
  RelSel { sel_anchor : RelativePosition; sel_head : RelativePosition }.

Section Selection.
(** [binding.type], the key of the root type, and [binding.mapping] *)
Variable type : ytype.
Variable rootKey : string.
Variable mapping : gmap nat punit.

Definition getRelativeSelection (fuel : nat) (anchor head : Z)
  : res RelativeSelection :=
  a ← absolutePositionToRelativePosition type rootKey mapping fuel anchor;
  h ← absolutePositionToRelativePosition type rootKey mapping fuel head;
  Ok (RelSel a h).

(** [restoreRelativeSelection]: the anchor and head of the text selection
    it sets on the transaction, or [None] when it sets none. *)
Definition restoreRelativeSelection (relSel : option RelativeSelection)
  : res (option (absolute * absolute)) :=
  match relSel with
  | None => Ok None
  | Some sel =>
      anchor ← relativePositionToAbsolutePosition type rootKey mapping (sel_anchor sel);
      head ← relativePositionToAbsolutePosition type rootKey mapping (sel_head sel);
      match anchor, head with
      | Unresolvable, _ | _, Unresolvable => Ok None
      | _, _ => Ok (Some (anchor, head))
      end
  end.
End Selection.

(** ** Deferred transaction metadata *)

(** [viewsToUpdate] and the calls of [updateMetas] that the event loop
    has been asked to make.  Views are named by their references; each
    has a map of metadata in insertion order. *)
Record MetaState : Type := Metas {
  viewsToUpdate : option (list (nat * attrs));
  timeouts : nat
}.

(** [map.setIfUndefined(viewsToUpdate, view, map.create).set(key, value)] *)
Fixpoint setViewMeta (view : nat) (key : string) (value : jsval)
    (views : list (nat * attrs)) : list (nat * attrs) :=
  match views with
  | [] => [(view, [(key, value)])]
  | (v, metas) :: rest =>
      if Nat.eqb v view then (v, setKey key value metas) :: rest
      else (v, metas) :: setViewMeta view key value rest
  end.

Definition setMeta (view : nat) (key : string) (value : jsval) (s : MetaState)
  : MetaState :=
  match viewsToUpdate s with
  | None => Metas (Some (setViewMeta view key value [])) (S (timeouts s))
  | Some views => Metas (Some (setViewMeta view key value views)) (timeouts s)
  end.

(** [updateMetas]: the transactions dispatched, each as its view and the
    metadata set on it, in order. *)
Definition updateMetas (s : MetaState) : res (list (nat * attrs) * MetaState) :=
  match viewsToUpdate s with
  | None => Throw TypeError
  | Some ups => Ok (ups, Metas None (timeouts s))
  end.

(** What happens to the module state: a call of [setMeta], or the event
    loop making one of the calls it was asked for. *)
Inductive metaEvent : Type :=
| CallSetMeta (view : nat) (key : string) (value : jsval)
| TimeoutFires.

Definition metaStep (s : MetaState) (e : metaEvent)
  : res (list (nat * attrs) * MetaState) :=
  match e with
  | CallSetMeta view key value => Ok ([], setMeta view key value s)
  | TimeoutFires =>
      match timeouts s with
      | O => Ok ([], s)
      | S n => updateMetas (Metas (viewsToUpdate s) n)
      end
  end.

(** The transactions dispatched over a sequence of events, each batch
    in turn. *)
Fixpoint metaRun (s : MetaState) (es : list metaEvent)
  : res (list (list (nat * attrs)) * MetaState) :=
  match es with
  | [] => Ok ([], s)
  | e :: rest =>
      '(trs, s1) ← metaStep s e;
      '(batches, s2) ← metaRun s1 rest;
      Ok (match e with TimeoutFires => trs :: batches | _ => batches end, s2)
  end.

(** ** Converting a document *)

Section Conversion.
Variable ops : YTextOps.
(** The client id of the new document *)
Variable clientID : nat.

(** [prosemirrorToYDoc]: the fragment of the new document.  The type
    that [ydoc.get] returns belongs to the document, so the early return
    is never taken. *)
Definition prosemirrorToYDoc (fuel : nat) (doc : pnode) : res ytype :=
  '(type, _) ← updateYFragment ops clientID fuel (XmlFragment 0 []) doc
                 (YState ∅ 1 0 []);
  Ok type.
End Conversion.

(** ** Cursor decorations *)

(** A JavaScript number that is an integer, or [NaN]. *)
Inductive num : Type := Num (z : Z) | NaN.

Definition numLt (a b : num) : bool :=
  match a, b with
  | Num x, Num y => Z.ltb x y
  | _, _ => false
  end.

(** lib0's [math.min] and [math.max]: [a < b ? a : b] and
    [a > b ? a : b]. *)
Definition mathMin (a b : num) : num := if numLt a b then a else b.
Definition mathMax (a b : num) : num := if numLt b a then a else b.

Record User : Type := MkUser { user_color : option string; user_name : option string }.

Record AwarenessState : Type :=
  Awareness { aw_cursor : option RelativeSelection; aw_user : option User }.

Inductive decoration : Type :=
| Widget (pos : num) (key : string) (color name : string)
| Inline (from to : num) (style : string).

(** The state of the sync plugin that [createDecorations] reads:
    [binding] holds [binding.mapping]. *)
Record SyncState : Type := Sync {
  y_snapshot : option Snapshot;
  y_prevSnapshot : option Snapshot;
  y_binding : option (gmap nat punit);
  y_clientID : nat;
  y_type : ytype;
  y_rootKey : string
}.

Definition decimal (n : nat) : string := NilZero.string_of_uint (Nat.to_uint n).

Definition numberOf (a : absolute) : option num :=
  match a with
  | Unresolvable => None
  | Offset z => Some (Num z)
  | NotANumber => Some NaN
  end.

(** The body of the [forEach] of [createDecorations] for one awareness
    state; [contentSize] is [state.doc.content.size]. *)
Definition cursorDecorations (ystate : SyncState) (mapping : gmap nat punit)
    (contentSize : Z) (clientId : nat) (aw : AwarenessState)
  : res (list decoration) :=
  if Nat.eqb clientId (y_clientID ystate) then Ok []
  else
    match aw_cursor aw with
    | None => Ok []
    | Some cursor =>
        let user := default (MkUser None None) (aw_user aw) in
        let color := default "#ffa500" (user_color user) in
        let name := default ("User: " ++ decimal clientId) (user_name user) in
        anchor ← relativePositionToAbsolutePosition (y_type ystate) (y_rootKey ystate)
                   mapping (sel_anchor cursor);
        head ← relativePositionToAbsolutePosition (y_type ystate) (y_rootKey ystate)
                 mapping (sel_head cursor);
        match numberOf anchor, numberOf head with
        | Some anchor, Some head =>
            let maxsize := mathMax (Num (contentSize - 1)) (Num 0) in
            let anchor := mathMin anchor maxsize in
            let head := mathMin head maxsize in
            Ok [Widget head (decimal clientId) color name;
                Inline (mathMin anchor head) (mathMax anchor head)
                       ("background-color: " ++ color ++ "70")]
        | _, _ => Ok []
        end
    end.

Fixpoint eachState (ystate : SyncState) (mapping : gmap nat punit) (contentSize : Z)
    (states : list (nat * AwarenessState)) : res (list decoration) :=
  match states with
  | [] => Ok []
  | (clientId, aw) :: rest =>
      ds ← cursorDecorations ystate mapping contentSize clientId aw;
      ds' ← eachState ystate mapping contentSize rest;
      Ok (ds ++ ds')%list
  end.

(** [createDecorations]: the decorations of the set it returns. *)
Definition createDecorations (ystate : SyncState) (contentSize : Z)
    (states : list (nat * AwarenessState)) : res (list decoration) :=
  match y_snapshot ystate, y_prevSnapshot ystate, y_binding ystate with
  | None, None, Some mapping => eachState ystate mapping contentSize states
  | _, _, _ => Ok []
  end.

(** ** Rendering a remote change *)

Section FragmentContent.
Variable schema : Schema.
Variable toDeltaAt : rendering -> list titem -> res (list dop).
Variable attributesAt : ytype -> Snapshot -> attrs.

(** [this.type.toArray().map(t => createNodeIfNotExists(t, schema, this.mapping)).filter(n => n !== null)]
    of [_typeChanged], over the items of the bound fragment: the content
    of the new document, the items and the state afterwards. *)
Fixpoint fragmentContent (items : list yitem) (st : ystate)
  : res (list punit * list yitem * ystate) :=
  match items with
  | [] => Ok ([], [], st)
  | t :: rest =>
      if itemDeleted t then
        '(nodes, rest', st2) ← fragmentContent rest st;
        Ok (nodes, t :: rest', st2)
      else
        '(n, t', st1) ←
          createNodeIfNotExists schema toDeltaAt attributesAt plainRendering t st;
        '(nodes, rest', st2) ← fragmentContent rest st1;
        Ok ((option_list n ++ nodes)%list, t' :: rest', st2)
  end.
End FragmentContent.

(** ** Converting a fragment to JSON *)

(** The objects [yDocToProsemirrorJSON] builds: a text object with its
    optional [marks] (each a type and its [attrs]), a node object with
    its optional [attrs] and [content], and an array. *)
Inductive json : Type :=
| JText (text : jsval) (marks : option (list (string * jsval)))
| JNode (type : string) (nattrs : option attrs) (content : option (list json))
| JArray (elems : list json).

(** [Array.prototype.flat]: the elements of arrays among the elements
    are spliced in. *)
Definition flat (l : list json) : list json :=
  concat (map (fun j => match j with JArray e => e | _ => [j] end) l).

(** [Object.keys(d.attributes).map(...)]: [Object.keys] of a mark value
    that is null throws. *)
Fixpoint serializeMarks (a : attrs) : res (list (string * jsval)) :=
  match a with
  | [] => Ok []
  | (type, v) :: rest =>
      if isNull v then Throw TypeError
      else marks ← serializeMarks rest; Ok ((type, v) :: marks)
  end.

Fixpoint serializeDelta (delta : list dop) : res (list json) :=
  match delta with
  | [] => Ok []
  | d :: rest =>
      marks ← match attributes d with
              | Some a => marks ← serializeMarks a; Ok (Some marks)
              | None => Ok None
              end;
      texts ← serializeDelta rest;
      Ok (JText (insert d) marks :: texts)
  end.

(** [serialize]: a type without a node name is read as a text, which
    only a text type can be. *)
Fixpoint serialize (item : ytype) : res json :=
  match item with
  | XmlText _ items =>
      texts ← serializeDelta (toDeltaFrom items [] "");
      Ok (JArray texts)
  | XmlElement _ name a children =>
      match name with
      | EmptyString => Throw TypeError
      | _ =>
          content ←
            (fix each (items : list yitem) : res (list json) :=
               match items with
               | [] => Ok []
               | Item _ d c :: rest =>
                   if d then each rest
                   else j ← serialize c; js ← each rest; Ok (j :: js)
               end) children;
          Ok (JNode name
                    (match a with [] => None | _ => Some a end)
                    (match content with [] => None | _ => Some (flat content) end))
      end
  | XmlFragment _ _ => Throw TypeError
  end.

(** [items.map(serialize)] over the live items *)
Fixpoint serializeItems (items : list yitem) : res (list json) :=
  match items with
  | [] => Ok []
  | it :: rest =>
      if itemDeleted it then serializeItems rest
      else j ← serialize (itemType it); js ← serializeItems rest; Ok (j :: js)
  end.

(** [yDocToProsemirrorJSON], on the fragment of the document *)
Definition yDocToProsemirrorJSON (fragment : ytype) : res json :=
  content ← serializeItems (yitems fragment);
  Ok (JNode "doc" None (Some content)).

(** ** Definitions that follow the specification's words *)

(** The stated preference between the two candidates: the one with an
    identity-mapped child, otherwise the higher equality factor, the left
    one on a tie. *)
Definition specPrefersLeft (equalityLeft equalityRight : equality) : bool :=
  (foundMappedChild equalityLeft && negb (foundMappedChild equalityRight))
  || (Bool.eqb (foundMappedChild equalityLeft) (foundMappedChild equalityRight)
      && Nat.leb (equalityFactor equalityRight) (equalityFactor equalityLeft)).

(** The value a map holds at a key, where a missing key and a null
    value both count as no value. *)
Definition nonNull (o : attrs) (k : string) : option jsval :=
  match lookupKey k o with
  | Some VNull => None
  | r => r
  end.

(** Two values are the same when they are strictly equal or are objects
    that agree key for key on every non-null key other than the diff
    annotation. *)
Inductive sameValue : jsval -> jsval -> Prop :=
| same_strict (l r : jsval) :
    strictEq l (Some r) = true -> sameValue l r
| same_fields (rl rr : nat) (fl fr : attrs) :
    (forall k, k <> "ychange" -> sameEntry (nonNull fl k) (nonNull fr k)) ->
    sameValue (VObj rl fl) (VObj rr fr)
with sameEntry : option jsval -> option jsval -> Prop :=
| absent_both : sameEntry None None
| present_both (l r : jsval) : sameValue l r -> sameEntry (Some l) (Some r).

(** The stated attribute equality: agreement on every non-null key,
    with the diff annotation ignored. *)
Definition attrsAgree (pattrs yattrs : attrs) : Prop :=
  forall k, k <> "ychange" -> sameEntry (nonNull pattrs k) (nonNull yattrs k).

(** Objects have each key once, at every level. *)
Inductive uniqueKeys : attrs -> Prop :=
| unique_keys (o : attrs) :
    NoDup (map fst o) ->
    (forall k r f, In (k, VObj r f) o -> uniqueKeys f) ->
    uniqueKeys o.

(** The diff annotation is set on both sides or on neither, at every
    level at which two objects are compared; the values of the annotation
    itself are not compared. *)
Inductive ychangeBalanced : attrs -> attrs -> Prop :=
| ychange_balanced (p y : attrs) :
    (nonNull p "ychange" = None <-> nonNull y "ychange" = None) ->
    (forall k rl fl rr fr,
        k <> "ychange" ->
        nonNull p k = Some (VObj rl fl) -> nonNull y k = Some (VObj rr fr) ->
        ychangeBalanced fl fr) ->
    ychangeBalanced p y.

(** The size a child of the bound fragment has in the local document: the
    length of a text, the size the mapping reports for an element. *)
Definition childSize (mapping : gmap nat punit) (t : ytype) : Z :=
  if isXmlText t then ylength t
  else match mapping !! yref t with
       | Some (UNode p) => nodeSize p
       | _ => 0
       end.

Fixpoint itemsSize (mapping : gmap nat punit) (items : list yitem) : Z :=
  match items with
  | [] => 0
  | it :: rest =>
      (if itemDeleted it then 0 else childSize mapping (itemType it))
      + itemsSize mapping rest
  end.

(** The content size of the document: the sizes of the live children of
    the bound fragment. *)
Definition contentSize (type : ytype) (mapping : gmap nat punit) : Z :=
  itemsSize mapping (yitems type).

(** Every live element among [items] has a node in the mapping. *)
Definition elementsMapped (mapping : gmap nat punit) (items : list yitem) : Prop :=
  forall it, In it items -> itemDeleted it = false ->
             isXmlText (itemType it) = false ->
             exists p, mapping !! yref (itemType it) = Some (UNode p)
                       /\ 0 <= nodeSize p.

(** The diff annotation of the given type that [_renderSnapshot] attaches
    for [user]. *)
Definition annotation (userColor : jsval -> jsval) (t : ychangeType) (user : jsval)
  : jsval :=
  VObj 0 [("user", user); ("type", VStr (ychangeName t)); ("color", userColor user)].

(** The references of all the shared types in a tree, tombstones
    included. *)
Fixpoint allRefs (t : ytype) : list nat :=
  match t with
  | XmlText r _ => [r]
  | XmlElement r _ _ items | XmlFragment r items =>
      r :: (fix refs (items : list yitem) : list nat :=
              match items with
              | [] => []
              | Item _ _ c :: rest => (allRefs c ++ refs rest)%list
              end) items
  end.

Definition itemsRefs (items : list yitem) : list nat :=
  concat (map (fun i => allRefs (itemType i)) items).

(** Objects are distinct: no reference occurs twice in the tree, and
    the references still to be handed out are all larger. *)
Definition distinctRefs (t : ytype) (st : ystate) : Prop :=
  NoDup (allRefs t) /\ forall r, In r (allRefs t) -> (r < nextRef st)%nat.

(** The mapping of [st'] is that of [st] except at the references of
    [refs] and at references handed out in between. *)
Definition writesOnly (refs : list nat) (st st' : ystate) : Prop :=
  (nextRef st <= nextRef st')%nat
  /\ forall k, ~ In k refs -> (k < nextRef st)%nat ->
               mapping st' !! k = mapping st !! k.
(** ** Invariants and inputs of the proofs *)

(** *** Attribute equality *)

(** What one non-null entry of [pattrs] needs for the loop to go on. *)
Definition entryPasses (rec : jsval -> jsval -> res bool) (yfields : attrs)
    (key : string) (l : jsval) : Prop :=
  key = "ychange"
  \/ strictEq l (lookupKey key yfields) = true
  \/ exists rv, lookupKey key yfields = Some rv /\ typeofObject l = true
                /\ typeofObject rv = true /\ rec l rv = Ok true.

(** The keys that hold a non-null value. *)
Definition setKeys (o : attrs) : list string := map fst (nonNullKeys o).

(** *** The forward reconciler *)

(** The only error a computation ends in is a TypeError. *)
Definition typeErrorOnly {A} (r : res A) : Prop :=
  forall e, r = Throw e -> e = TypeError.

(** A new type has a fresh reference, is in the mapping, and its making
    writes only fresh references and changes nothing in the tree. *)
Definition created (st : ystate) (t : ytype) (u : punit) (st' : ystate) : Prop :=
  yref t = nextRef st
  /\ (nextRef st < nextRef st')%nat
  /\ mapping st' !! yref t = Some u
  /\ (forall k, (k < nextRef st)%nat -> mapping st' !! k = mapping st !! k)
  /\ mutations st' = mutations st.

Definition liveTypes (items : list yitem) : list ytype :=
  map itemType (List.filter (fun i => negb (itemDeleted i)) items).

(** A child the scan steps over: mapped to the very local content, or
    equal to it. *)
Definition aligned (m : gmap nat punit) (y : ytype) (p : punit) : Prop :=
  mappedIdentity (m !! yref y) p = true \/ equalYTypePNode y p = Ok true.

(** The state of the middle loop over the original children [ys0]: the
    children between the cursors are the original ones, those outside
    are accepted by the scan; [n0] bounds the references of [ys0]. *)
Record inv (ys0 : list ytype) (ps : list punit) (n0 : nat)
    (left right : nat) (l : list ytype) (st : ystate) : Prop := {
  inv_len : length l = length ys0;
  inv_mid : forall i, (left <= i < length ys0 - right)%nat -> l !! i = ys0 !! i;
  inv_left : forall i y p, (i < left)%nat -> l !! i = Some y -> ps !! i = Some p ->
                           aligned (mapping st) y p;
  inv_right : forall j y p, (j < right)%nat ->
                            l !! (length ys0 - j - 1)%nat = Some y ->
                            ps !! (length ps - j - 1)%nat = Some p ->
                            aligned (mapping st) y p;
  inv_origin : forall i y, l !! i = Some y ->
                           (exists c, ys0 !! i = Some c /\ yref y = yref c)
                           \/ (n0 <= yref y < nextRef st)%nat;
  inv_nodup : NoDup (map yref l);
  inv_next : (n0 <= nextRef st)%nat
}.

(** The fragment itself is the same object with the same attributes. *)
Definition sameShell (frag frag' : ytype) : Prop :=
  isXmlText frag' = isXmlText frag /\ yref frag' = yref frag
  /\ getAttributes frag' = getAttributes frag
  /\ isXmlElement frag' = isXmlElement frag
  /\ forall p, nodeNameMismatch frag' p = nodeNameMismatch frag p.

(** What one iteration of the middle loop, and so the whole loop,
    keeps. *)
Definition stepKeeps (ys0 : list ytype) (ps : list punit) (n0 : nat)
    (left right : nat) (frag : ytype) (st : ystate) (k : nat)
    (left' right' : nat) (frag' : ytype) (st' : ystate) : Prop :=
  sameShell frag frag'
  /\ inv ys0 ps n0 left' right' (toArray frag') st'
  /\ (left' + right' = left + right + k)%nat
  /\ (left <= left')%nat /\ (right <= right')%nat
  /\ (nextRef st <= nextRef st')%nat
  /\ (forall key, (key < nextRef st)%nat ->
                  (forall i y, ys0 !! i = Some y -> ~ In key (allRefs y)) ->
                  mapping st' !! key = mapping st !! key).

(** The attribute object of a local node has each key once and holds no
    value that differs from itself, unless under the key [ychange], whose
    value is never compared. *)
Definition stableAttrs (pa : attrs) : Prop :=
  NoDup (map fst pa)
  /\ forall key v, In (key, v) pa -> key <> "ychange" -> v <> VNaN.

(** The attributes of the element agree with those of the local node:
    the loops of [updateYFragment] find nothing to set or remove. *)
Definition attrsSynced (ya pa : attrs) : Prop :=
  (forall key v, In (key, v) pa -> isNull v = false -> key <> "ychange" ->
                 strictEq v (lookupKey key ya) = true)
  /\ (forall key v, In (key, v) pa -> isNull v = true -> lookupKey key ya = None)
  /\ (forall key, lookupKey key ya <> None -> lookupKey key pa <> None).

(** The first loop on the attribute object alone. *)
Definition setPhase (yDomAttrs : attrs) (pa : attrs) (cur : attrs) : attrs :=
  fold_left
    (fun cur kv =>
       if negb (isNull (snd kv)) then
         if negb (strictEq (snd kv) (lookupKey (fst kv) yDomAttrs))
            && negb (String.eqb (fst kv) "ychange")
         then setKey (fst kv) (snd kv) cur
         else cur
       else deleteKey (fst kv) cur)
    pa cur.

(** The second loop on the attribute object alone. *)
Definition removePhase (pAttrs : attrs) (yDomAttrs : attrs) (cur : attrs) : attrs :=
  fold_left
    (fun cur kv =>
       match lookupKey (fst kv) pAttrs with
       | None => deleteKey (fst kv) cur
       | Some _ => cur
       end)
    yDomAttrs cur.

Definition settled (m : gmap nat punit) (F : ytype) (P : pnode) : Prop :=
  nodeNameMismatch F P = false /\ isXmlText F = false
  /\ length (toArray F) = length (normalizePNodeContent P)
  /\ (forall i y p, toArray F !! i = Some y -> normalizePNodeContent P !! i = Some p ->
                    aligned m y p)
  /\ NoDup (map yref (toArray F))
  /\ ~ In (yref F) (map yref (toArray F))
  /\ (isXmlElement F = true -> attrsSynced (getAttributes F) (pattrsOf P)).

(** *** Positions *)

(** The Mapping Table holds the current local node of every element:
    each live element below [t] has a node in the mapping whose size is
    that of its content with the two tags, or is 1 for a leaf. *)
Inductive mappingCurrent (m : gmap nat punit) : ytype -> Prop :=
| current_text (r : nat) (items : list titem) : mappingCurrent m (XmlText r items)
| current_node (t : ytype) :
    isXmlText t = false ->
    (forall it, In it (yitems t) -> itemDeleted it = false ->
       mappingCurrent m (itemType it)
       /\ (isXmlText (itemType it) = false ->
           exists p, m !! yref (itemType it) = Some (UNode p)
                     /\ (nodeSize p = 2 + itemsSize m (yitems (itemType it))
                         \/ (nodeSize p = 1
                             /\ firstLive (yitems (itemType it)) = None)))) ->
    mappingCurrent m t.

(** The ids of a text item, and of all items of a type in document
    order. *)
Definition titemIds (i : titem) : list zid :=
  map (fun j => ZID (client (t_id i)) (Z.of_nat (clock (t_id i)) + Z.of_nat j))
      (seq 0 (Z.to_nat (titemIdLength i))).

Fixpoint idsOf (t : ytype) : list zid :=
  match t with
  | XmlText _ items => concat (map titemIds items)
  | XmlElement _ _ _ c | XmlFragment _ c =>
      (fix ids (items : list yitem) : list zid :=
         match items with
         | [] => []
         | Item iid _ ct :: rest => (zidOf iid :: idsOf ct ++ ids rest)%list
         end) c
  end.

Definition itemsIds (items : list yitem) : list zid :=
  concat (map (fun it => zidOf (itemId it) :: idsOf (itemType it)) items).

(** Every id names one item. *)
Definition uniqueIds (t : ytype) : Prop := NoDup (idsOf t).

(** The number of items of a type, at every depth: the walk of
    [absolutePositionToRelativePosition] visits each at most once. *)
Fixpoint weight (t : ytype) : nat :=
  match t with
  | XmlText _ _ => O
  | XmlElement _ _ _ c | XmlFragment _ c =>
      (fix sum (items : list yitem) : nat :=
         match items with
         | [] => O
         | Item _ _ ct :: rest => S (weight ct + sum rest)
         end) c
  end.

Definition itemsWeight (items : list yitem) : nat :=
  fold_right (fun it acc => S (weight (itemType it) + acc)) O items.

Section Places.
Variable type : ytype.
Variable m : gmap nat punit.

(** The types reached from [type] through live items. *)
Inductive reach : node -> ytype -> Prop :=
| reach_root : reach [] type
| reach_child (n : node) (t : ytype) (k : nat) (it : yitem) :
    reach n t -> yitems t !! k = Some it -> itemDeleted it = false ->
    reach (k :: n) (itemType it).

(** The offset of the content of the type [n]: a start tag and the
    siblings to the left, at every level. *)
Fixpoint climbSum (n : node) : Z :=
  match n with
  | [] => 0
  | k :: up =>
      match nodeType type up with
      | Some parent => 1 + itemsSize m (take k (yitems parent)) + climbSum up
      | None => 0
      end
  end.
End Places.

Definition liveCount (items : list yitem) : nat :=
  length (List.filter (fun i => negb (itemDeleted i)) items).

(** The items whose live elements are all in the mapping. *)
Definition mappedItems (m : gmap nat punit) (items : list yitem) : Prop :=
  forall it, In it items -> itemDeleted it = false ->
             isXmlText (itemType it) = false ->
             exists p, m !! yref (itemType it) = Some (UNode p).

(** The walk from the live child [k] of [tu], with [pos] at most the
    size of the children from [k] on, ends at the position [pos] after
    the start of that child. *)
Definition walkEnds (type : ytype) (rootKey : string) (m : gmap nat punit)
    (fuel : nat) : Prop :=
  forall up tu k it pos,
    reach type up tu -> yitems tu !! k = Some it -> itemDeleted it = false ->
    0 <= pos <= itemsSize m (drop k (yitems tu)) ->
    0 < pos \/ isXmlText (itemType it) = true ->
    (itemsWeight (drop k (yitems tu)) <= fuel)%nat ->
    exists rp,
      walk type rootKey m fuel (k :: up) pos = Ok rp
      /\ relativePositionToAbsolutePosition type rootKey m rp
         = Ok (Offset (climbSum type m up + itemsSize m (take k (yitems tu)) + pos)).

(** *** Structural equality of local nodes *)

(** Values are the same when they agree up to the identity of objects
    and the order of their keys. *)
Fixpoint sameJs (a b : jsval) {struct a} : bool :=
  match a, b with
  | VNull, VNull => true
  | VBool x, VBool y => Bool.eqb x y
  | VNum x, VNum y => Z.eqb x y
  | VStr x, VStr y => String.eqb x y
  | VObj _ fa, VObj _ fb =>
      Nat.eqb (length fa) (length fb)
      && (fix fields (fa : attrs) {struct fa} : bool :=
            match fa with
            | [] => true
            | (k, v) :: rest =>
                match lookupKey k fb with
                | Some w => sameJs v w
                | None => false
                end && fields rest
            end) fa
  | _, _ => false
  end.

Definition sameAttrs (a b : attrs) : bool := sameJs (VObj 0 a) (VObj 0 b).

Definition sameMark (a b : mark) : bool :=
  String.eqb (markName a) (markName b) && sameAttrs (markAttrs a) (markAttrs b).

Fixpoint sameMarks (a b : list mark) : bool :=
  match a, b with
  | [], [] => true
  | x :: a', y :: b' => sameMark x y && sameMarks a' b'
  | _, _ => false
  end.

(** Two local nodes are structurally equal: same type, attributes,
    text and marks, child by child; the identity of the objects does not
    count. *)
Fixpoint sameNode (p q : pnode) {struct p} : bool :=
  match p, q with
  | PText _ s ms, PText _ s' ms' => String.eqb s s' && sameMarks ms ms'
  | PElem _ n a _ c, PElem _ n' a' _ c' =>
      String.eqb n n' && sameAttrs a a'
      && (fix children (c c' : list pnode) {struct c} : bool :=
            match c, c' with
            | [] , [] => true
            | x :: r, y :: r' => sameNode x y && children r r'
            | _, _ => false
            end) c c'
  | _, _ => false
  end.

(** *** Inputs *)

Module C5Witness.
Import Examples.
(** Two paragraphs whose texts differ from the local ones; the right
    pair has one equal child more than the left pair. *)
Definition y1 : ytype := XmlElement 11 "paragraph" [] [].
Definition y2 : ytype :=
  XmlElement 12 "paragraph" []
    [Item (ID 1 0) false (XmlText 13 [TItem (ID 1 1) false (ContentString "b")])].
Definition p1 : pnode := para 21 [PText 22 "a" []].
Definition p2 : pnode := para 23 [PText 24 "b" []].
Definition frag : ytype :=
  XmlFragment 0 [Item (ID 1 5) false y1; Item (ID 1 6) false y2].
Definition recurse := updateYFragment PlainText.ops 7 5.
Definition create := createTypeFromTextOrElementNode PlainText.ops 7 5.
End C5Witness.

Module C4Input.
(** A paragraph whose attribute [a] holds an object in the shared
    document, and the local paragraph after [a] was set to null and [b]
    to 5. *)
Definition fragment : ytype :=
  XmlFragment 0
    [Item (ID 1 0) false
       (XmlElement 11 "paragraph" [("a", VObj 50 [("x", VNum 1)])] [])].
Definition local : pnode :=
  PElem 1 "doc" [] 4 [PElem 21 "paragraph" [("a", VNull); ("b", VNum 5)] 2 []].
End C4Input.

Module C8Witness.
Definition el : ytype := XmlElement 11 "paragraph" [] [].
Definition type : ytype :=
  XmlFragment 0 [Item (ID 1 0) false el;
                 Item (ID 1 1) false (XmlElement 12 "paragraph" [] [])].
Definition sizeless : pnode := PElem 9 "paragraph" [] 0 [].
End C8Witness.

Module C7Input.
(** A heading without a level, which the schema rejects. *)
Definition heading : yitem :=
  Item (ID 1 0) false (XmlElement 11 "heading" [] []).
(** A text in italics, a mark the schema does not have, and the mapping
    entry the forward reconciler made for it. *)
Definition text : yitem :=
  Item (ID 1 1) false
       (XmlText 13 [TItem (ID 1 2) false (ContentFormat "italic" (VObj 0 []));
                    TItem (ID 1 3) false (ContentString "a")]).
Definition st : ystate :=
  YState (<[13%nat := UTexts [PText 3 "a" [Mark "italic" []]]]> ∅) 100 0 [].
Definition noDelta : rendering -> list titem -> res (list dop) := fun _ _ => Ok [].
Definition noAttributes : ytype -> Snapshot -> attrs := fun _ _ => [].
End C7Input.

Module Rerun.
(** The document of [Examples.doc1] edited: the first paragraph
    retyped, a paragraph added at the end. *)
Definition doc2 : pnode :=
  Examples.doc 6 [Examples.para 7 [PText 8 "hello there" []];
                  Examples.para 5 [];
                  Examples.para 9 [PText 10 "new" [Examples.bold]]].

Definition state1 : ystate :=
  match Examples.run (XmlFragment 0 []) Examples.doc1 Examples.emptyState with
  | Ok (_, st) => st
  | _ => Examples.emptyState
  end.

(** A paragraph whose [width] attribute was parsed from a missing DOM
    attribute. *)
Definition unsized : pnode := PElem 2 "paragraph" [("width", VNaN)] 2 [].
Definition paragraph : ytype := XmlElement 1 "paragraph" [] [].
End Rerun.

(** A document of two paragraphs, the first holding the text [ab], and
    the same document after [b] was deleted. *)
Module Cursor.
Definition text : ytype := XmlText 13 [TItem (ID 1 0) false (ContentString "ab")].
Definition first : ytype := XmlElement 11 "paragraph" [] [Item (ID 1 2) false text].
Definition second : ytype := XmlElement 12 "paragraph" [] [].
Definition type : ytype :=
  XmlFragment 0 [Item (ID 1 3) false first; Item (ID 1 4) false second].
Definition mapping : gmap nat punit :=
  <[11%nat := UNode (PElem 21 "paragraph" [] 4 [PText 22 "ab" []])]>
    (<[12%nat := UNode (PElem 23 "paragraph" [] 2 [])]> ∅).

Definition textAfter : ytype :=
  XmlText 13 [TItem (ID 1 0) false (ContentString "a");
              TItem (ID 1 1) true (ContentString "b")].
Definition typeAfter : ytype :=
  XmlFragment 0
    [Item (ID 1 3) false (XmlElement 11 "paragraph" [] [Item (ID 1 2) false textAfter]);
     Item (ID 1 4) false second].
Definition mappingAfter : gmap nat punit :=
  <[11%nat := UNode (PElem 24 "paragraph" [] 3 [PText 25 "a" []])]>
    (<[12%nat := UNode (PElem 23 "paragraph" [] 2 [])]> ∅).
End Cursor.

(** A document of two paragraphs after the first, with its text [ab],
    was deleted as a whole; the second holds the text [cde]. *)
Module Removed.
Definition first : ytype :=
  XmlElement 11 "paragraph" []
    [Item (ID 1 2) true (XmlText 13 [TItem (ID 1 0) true (ContentString "ab")])].
Definition second : ytype :=
  XmlElement 12 "paragraph" []
    [Item (ID 1 8) false (XmlText 14 [TItem (ID 1 5) false (ContentString "cde")])].
Definition type : ytype :=
  XmlFragment 0 [Item (ID 1 3) true first; Item (ID 1 4) false second].
Definition mapping : gmap nat punit :=
  <[12%nat := UNode (PElem 23 "paragraph" [] 5 [PText 26 "cde" []])]> ∅.
End Removed.

(** A paragraph whose text is emphasized in the shared document and
    strong in the local one. *)
Module MarkSwap.
Definition schema : Schema :=
  {| schema_node := fun ref name a content =>
       if String.eqb name "doc" || String.eqb name "paragraph"
       then Some (PElem ref name a (2 + Examples.contentSizeOf content) content)
       else None;
     schema_text := fun ref text marks =>
       match text with
       | VStr EmptyString => None
       | VStr s => Some (PText ref s marks)
       | _ => None
       end;
     schema_mark := fun name v =>
       if String.eqb name "em" || String.eqb name "strong"
       then Some (Mark name match v with VObj _ f => f | _ => [] end)
       else None |}.

Definition text : ytype :=
  XmlText 13 [TItem (ID 1 2) false (ContentFormat "em" (VObj 0 []));
              TItem (ID 1 3) false (ContentString "a");
              TItem (ID 1 4) false (ContentFormat "em" VNull)].
Definition paragraph : yitem :=
  Item (ID 1 0) false (XmlElement 11 "paragraph" [] [Item (ID 1 1) false text]).
Definition fragment : ytype := XmlFragment 0 [paragraph].

Definition localParagraph : pnode :=
  Examples.para 21 [PText 22 "a" [Mark "strong" []]].
Definition local : pnode := Examples.doc 20 [localParagraph].

Definition noDelta : rendering -> list titem -> res (list dop) := fun _ _ => Ok [].
Definition noAttributes : ytype -> Snapshot -> attrs := fun _ _ => [].

(** [createNodeFromYElement] on a child, with a mapping of its own. *)
Definition materialize (el : yitem) : res (option pnode * yitem * ystate) :=
  createNodeFromYElement schema noDelta noAttributes plainRendering el
                         Examples.emptyState.
End MarkSwap.

(** ** Definitions for the properties of the remaining code *)

(** The nodes a unit of normalized content stands for, in order. *)
Definition unitNodes (u : punit) : list pnode :=
  match u with UNode n => [n] | UTexts ts => ts end.

Definition flatten (units : list punit) : list pnode :=
  concat (map unitNodes units).

(** An array holds at least one node and only text nodes; a single node
    is not a text node. *)
Definition unitWellFormed (u : punit) : Prop :=
  match u with
  | UNode n => isText n = false
  | UTexts ts => ts <> [] /\ Forall (fun n => isText n = true) ts
  end.

(** No two arrays of text nodes follow each other. *)
Definition separated (units : list punit) : Prop :=
  forall i a b, units !! i = Some (UTexts a) -> units !! S i = Some (UTexts b) -> False.

(** The last mark of the given name. *)
Definition lastMark (name : string) (marks : list mark) : option mark :=
  find (fun m => String.eqb (markName m) name) (rev marks).



(** A mapped child was found only if there is one: a child on the
    replicated side whose mapped content is one of the local units. *)
Definition mappedChildIn (mapping : gmap nat punit) (yChildren : list ytype)
    (pChildren : list punit) (found : bool) : Prop :=
  found = true ->
  exists y p, In y yChildren /\ In p pChildren
              /\ mappedIdentity (mapping !! yref y) p = true.

Definition isTexts (u : punit) : bool :=
  match u with UTexts _ => true | UNode _ => false end.

(** The number of element levels of a local node. *)
Fixpoint pheight (p : pnode) : nat :=
  match p with
  | PText _ _ _ => 0
  | PElem _ _ _ _ c => S (fold_right (fun n acc => Nat.max (pheight n) acc) 0%nat c)
  end.

(** Inputs on which the properties are run. *)
Module Samples.
(** A paragraph with an alignment, a null attribute and a diff
    annotation. *)
Definition aligned : pnode :=
  PElem 2 "paragraph"
        [("align", VStr "left"); ("indent", VNull); ("ychange", VStr "added")]
        2 [].

(** A paragraph that was centred and had an identifier. *)
Definition centred : ytype :=
  XmlElement 1 "paragraph" [("align", VStr "center"); ("id", VNum 4)] [].
End Samples.

(** The colour map after [getUserColor] was called for each of [users]
    in turn. *)
Definition assignAll (colors : list ColorDef) (m : gmap string (option ColorDef))
    (users : list string) : gmap string (option ColorDef) :=
  fold_left (fun m u => snd (getUserColor m colors u)) users m.

(** The value of the last of [calls] that names [view] and [key]. *)
Fixpoint lastSet (calls : list (nat * string * jsval)) (view : nat) (key : string)
  : option jsval :=
  match calls with
  | [] => None
  | (v, k, x) :: rest =>
      match lastSet rest view key with
      | Some y => Some y
      | None => if Nat.eqb v view && String.eqb k key then Some x else None
      end
  end.

(** The metadata a batch of transactions holds for [view] under [key]. *)
Fixpoint metaOf (trs : list (nat * attrs)) (view : nat) (key : string)
  : option jsval :=
  match trs with
  | [] => None
  | (v, metas) :: rest =>
      if Nat.eqb v view then lookupKey key metas else metaOf rest view key
  end.

Definition callEvent (c : nat * string * jsval) : metaEvent :=
  CallSetMeta (fst (fst c)) (snd (fst c)) (snd c).

(** No timeout is pending exactly when [viewsToUpdate] is null, and
    there is never more than one. *)
Definition metasConsistent (s : MetaState) : Prop :=
  match viewsToUpdate s with
  | None => timeouts s = 0%nat
  | Some _ => timeouts s = 1%nat
  end.

(** Where a decoration may lie: a widget at a number up to [bound], an
    inline decoration over a range that ends at or below [bound]. *)
Definition decorationWithin (bound : Z) (d : decoration) : Prop :=
  match d with
  | Widget pos _ _ _ => exists z, pos = Num z /\ z <= bound
  | Inline from to _ => exists a b, from = Num a /\ to = Num b /\ a <= b <= bound
  end.

Module Remote.
(** The sync state of client 1 over the document of [Cursor], and the
    awareness states of client 1 itself, of client 2 with a selection
    from the start of the text to the end of the document, and of
    client 3 without a cursor. *)
Definition ystate : SyncState :=
  Sync None None (Some Cursor.mapping) 1 Cursor.type "prosemirror".

Definition selection : RelativeSelection :=
  RelSel (RelPos (Some (ID 1 2)) None (Some (ZID 1 0)))
         (RelPos None (Some "prosemirror") None).

Definition states : list (nat * AwarenessState) :=
  [(1%nat, Awareness (Some selection) None);
   (2%nat, Awareness (Some selection) (Some (MkUser None (Some "Bo"))));
   (3%nat, Awareness None None)].
End Remote.

Definition isJText (j : json) : Prop :=
  match j with JText _ _ => True | _ => False end.

Definition notArray (j : json) : Prop :=
  match j with JArray _ => False | _ => True end.

(** The JSON of one child of the fragment: an array of text objects for
    a text, an object with the name and the attributes of an element
    whose content, if any, holds no array. *)
Definition jsonOf (t : ytype) (j : json) : Prop :=
  match t with
  | XmlText _ _ => exists texts, j = JArray texts /\ Forall isJText texts
  | XmlElement _ name a _ =>
      exists content,
        j = JNode name (match a with [] => None | _ => Some a end) content
        /\ match content with
           | Some c => toArray t <> [] /\ Forall notArray c
           | None => toArray t = []
           end
  | XmlFragment _ _ => False
  end.

Module Serial.
(** A paragraph holding the text [ab] and an empty heading. *)
Definition fragment : ytype :=
  XmlFragment 0
    [Item (ID 1 3) false Cursor.first;
     Item (ID 1 5) false (XmlElement 14 "heading" [("level", VNum 2)] [])].
End Serial.

(** A shared type and a unit of local content have the same shape:
    the same names, as many live children as units at every level, and
    in every text the same strings. *)
Inductive sameTree : ytype -> punit -> Prop :=
| same_text (r : nat) (items : list titem) (ps : list pnode) :
    map insert (toDelta (XmlText r items)) = map (fun p => VStr (ptext p)) ps ->
    sameTree (XmlText r items) (UTexts ps)
| same_element (r : nat) (name : string) (ya : attrs) (children : list yitem)
    (p : pnode) :
    name = ptypeName p ->
    Forall2 sameTree (liveTypes children) (normalizePNodeContent p) ->
    sameTree (XmlElement r name ya children) (UNode p).

(** * Properties *)

(** ** The model on concrete inputs *)

Example equalAttrs_ex1 :
  equalAttrs [("a", VNum 1); ("b", VNull)] [("a", VNum 1)] = Ok true.
Proof. reflexivity. Qed.

Example equalAttrs_ex2 :
  equalAttrs [("ychange", VStr "x")] [] = Ok false.
Proof. reflexivity. Qed.

Example equalAttrs_ex3 :
  equalAttrs [("a", VObj 1 [("x", VNum 1)])] [("a", VNull); ("b", VNum 5)]
  = Throw TypeError.
Proof. reflexivity. Qed.

Example deleteLive_ex (a b c : ytype) :
  deleteLive [Item (ID 0 0) false a; Item (ID 0 1) true b; Item (ID 0 2) false c] 1 1
  = [Item (ID 0 0) false a; Item (ID 0 1) true b; Item (ID 0 2) true c].
Proof. reflexivity. Qed.

Example insertLive_ex (a b c : ytype) :
  insertLive [Item (ID 0 0) false a; Item (ID 0 1) true b] 1 [Item (ID 1 0) false c]
  = [Item (ID 0 0) false a; Item (ID 1 0) false c; Item (ID 0 1) true b].
Proof. reflexivity. Qed.

Example simpleDiff_ex : simpleDiff "hello world" "hello big world" = Diff 6 0 "big ".
Proof. reflexivity. Qed.

Example simpleDiff_ex2 : simpleDiff "aa" "a" = Diff 1 1 "".
Proof. reflexivity. Qed.

Example reconcile_twice :
  match Examples.run (XmlFragment 0 []) Examples.doc1 Examples.emptyState with
  | Ok (t, st) =>
      match Examples.run t Examples.doc1 st with
      | Ok (t', st') => t' = t /\ mutations st' = mutations st
      | _ => False
      end
  | _ => False
  end.
Proof. vm_compute. split; reflexivity. Qed.
(** ** Induction on values and on shared types *)

Lemma jsval_nested_ind (P : jsval -> Prop) :
  P VNull -> (forall b, P (VBool b)) -> (forall z, P (VNum z)) -> P VNaN ->
  (forall s, P (VStr s)) ->
  (forall r f, Forall (fun kv => P (snd kv)) f -> P (VObj r f)) ->
  forall v, P v.
Proof.
  intros Hn Hb Hz Hnan Hs Ho.
  fix IH 1.
  intros [ | b | z | | s | r f ];
    [exact Hn | apply Hb | apply Hz | exact Hnan | apply Hs | ].
  apply Ho.
  induction f as [ | [k x] rest IHrest ]; constructor;
    [apply IH | exact IHrest].
Qed.

Lemma ytype_nested_ind (P : ytype -> Prop) :
  (forall r items, P (XmlText r items)) ->
  (forall t, isXmlText t = false ->
             Forall (fun it => P (itemType it)) (yitems t) -> P t) ->
  forall t, P t.
Proof.
  intros Htext Hnode.
  fix IH 1.
  intros [r items | r name a c | r c].
  - apply Htext.
  - apply Hnode; [reflexivity | ]. cbn [yitems].
    induction c as [ | [i d ct] rest IHrest]; constructor; [apply IH | exact IHrest].
  - apply Hnode; [reflexivity | ]. cbn [yitems].
    induction c as [ | [i d ct] rest IHrest]; constructor; [apply IH | exact IHrest].
Qed.


(** ** The equality-factor heuristic *)

Lemma chooseUpdate_spec (l r : equality) :
  chooseUpdate l r = (specPrefersLeft l r, negb (specPrefersLeft l r)).
Proof.
  unfold chooseUpdate, specPrefersLeft.
  destruct l as [fl ml], r as [fr mr]; simpl.
  destruct ml, mr; simpl; try reflexivity;
    destruct (Nat.ltb_spec fl fr), (Nat.leb_spec fr fl); simpl; try reflexivity; lia.
Qed.

Lemma matchNodeName_UNode (y : ytype) (u : punit) :
  matchNodeName y u = true ->
  isXmlElement y = true /\ exists p, u = UNode p.
Proof.
  destruct y, u; simpl; try discriminate; eauto.
Qed.

(** C5: in an iteration of the middle loop where both the left pair and
    the right pair are elements with matching names, the loop recurses
    into the left pair exactly when only the left lookahead found an
    identity-mapped child, or both or neither did and the left equality
    factor is at least the right one; otherwise it recurses into the
    right pair. *)
Theorem middleStep_prefers (ops : YTextOps) (clientID : nat)
    (recurse : ytype -> pnode -> ystate -> res (ytype * ystate))
    (create : punit -> ystate -> res (ytype * ystate))
    (yChildren : list ytype) (pChildren : list punit)
    (left right : nat) (frag : ytype) (st : ystate)
    (leftY rightY : ytype) (leftP rightP : pnode)
    (equalityLeft equalityRight : equality) :
  yChildren !! left = Some leftY ->
  pChildren !! left = Some (UNode leftP) ->
  yChildren !! (length yChildren - right - 1)%nat = Some rightY ->
  pChildren !! (length pChildren - right - 1)%nat = Some (UNode rightP) ->
  matchNodeName leftY (UNode leftP) = true ->
  matchNodeName rightY (UNode rightP) = true ->
  computeChildEqualityFactor leftY leftP (mapping st) = Ok equalityLeft ->
  computeChildEqualityFactor rightY rightP (mapping st) = Ok equalityRight ->
  middleStep ops clientID recurse create yChildren pChildren left right frag st
  = if specPrefersLeft equalityLeft equalityRight
    then '(t, st') ← recurse leftY leftP st;
         Ok (S left, right, setChild frag left t, st')
    else '(t, st') ← recurse rightY rightP st;
         Ok (left, S right, setChild frag (length yChildren - right - 1) t, st').
Proof.
  intros HlY HlP HrY HrP Hl Hr El Er.
  unfold middleStep. rewrite HlY, HlP, HrY, HrP.
  destruct (matchNodeName_UNode _ _ Hl) as [HlE _].
  assert (Hd : decideUpdate leftY (UNode leftP) rightY (UNode rightP) (mapping st)
               = Ok (specPrefersLeft equalityLeft equalityRight,
                     negb (specPrefersLeft equalityLeft equalityRight))).
  { unfold decideUpdate. rewrite Hl, Hr. simpl.
    rewrite El. simpl. rewrite Er. simpl. now rewrite chooseUpdate_spec. }
  destruct leftY; simpl in HlE; try discriminate.
  unfold updateElementPair. rewrite Hd. simpl.
  destruct (specPrefersLeft equalityLeft equalityRight); reflexivity.
Qed.

Lemma middleStep_prefers_witness :
  middleStep PlainText.ops 7 C5Witness.recurse C5Witness.create
    [C5Witness.y1; C5Witness.y2] [UNode C5Witness.p1; UNode C5Witness.p2]
    0 0 C5Witness.frag Examples.emptyState
  = '(t, st') ← C5Witness.recurse C5Witness.y2 C5Witness.p2 Examples.emptyState;
    Ok (0%nat, 1%nat, setChild C5Witness.frag 1 t, st').
Proof.
  apply (middleStep_prefers PlainText.ops 7 C5Witness.recurse C5Witness.create
           [C5Witness.y1; C5Witness.y2] [UNode C5Witness.p1; UNode C5Witness.p2]
           0 0 C5Witness.frag Examples.emptyState
           C5Witness.y1 C5Witness.y2 C5Witness.p1 C5Witness.p2
           (Equality 0 false) (Equality 1 false)); reflexivity.
Defined.

(** ** Attribute equality *)

Lemma attrLoop_true (rec : jsval -> jsval -> res bool) (yfields ps : attrs) (eq : bool) :
  attrLoop rec yfields ps eq = Ok true <->
  eq = true /\ forall key l, In (key, l) ps -> isNull l = false ->
                             entryPasses rec yfields key l.
Proof.
  revert eq. induction ps as [ | [key l] rest IH ]; intros eq; simpl.
  - split.
    + intros [= ->]. split; [reflexivity | intros ? ? []].
    + intros [-> _]. reflexivity.
  - destruct (isNull l) eqn:Hnull.
    + rewrite IH. split; intros [-> H]; split; auto.
      intros k v [[= <- <-] | Hin] Hv; [congruence | auto].
    + destruct eq; [ | split; [discriminate | intros [[=] _]] ].
      destruct (String.eqb key "ychange") eqn:Hy.
      { simpl. rewrite IH. apply String.eqb_eq in Hy.
        split; intros [_ H]; split; auto.
        intros k v [[= <- <-] | Hin] Hv; [left; assumption | auto]. }
      destruct (strictEq l (lookupKey key yfields)) eqn:Hs.
      { simpl. rewrite IH.
        split; intros [_ H]; split; auto.
        intros k v [[= <- <-] | Hin] Hv; [right; left; assumption | auto]. }
      assert (Hstep : forall (m : res bool),
                 (m = Ok true <-> entryPasses rec yfields key l) ->
                 (m ≫= (fun eq' => attrLoop rec yfields rest eq')) = Ok true <->
                 true = true /\
                 (forall k v, (key, l) = (k, v) \/ In (k, v) rest ->
                              isNull v = false -> entryPasses rec yfields k v)).
      { intros m Hm. destruct m as [b | e | ]; simpl.
        - rewrite IH. split.
          + intros [-> H]. split; auto.
            intros k v [[= <- <-] | Hin] Hv; [apply Hm; reflexivity | auto].
          + intros [_ H]. split; [ | intros; apply H; auto].
            assert (Hb : Ok b = Ok true) by (apply Hm, H; auto).
            now injection Hb.
        - split; [discriminate | ]. intros [_ H].
          assert (Throw e = Ok true) by (apply Hm, H; auto). discriminate.
        - split; [discriminate | ]. intros [_ H].
          assert (@OutOfFuel bool = Ok true) by (apply Hm, H; auto). discriminate. }
      apply Hstep. unfold entryPasses. apply String.eqb_neq in Hy.
      destruct l as [ | b | z | | s | r f ]; try discriminate;
        try (split; [discriminate | intros [? | [? | (rv & _ & [=] & _)]]; congruence]).
      destruct (lookupKey key yfields) as [rv | ] eqn:Hlk.
      * destruct (typeofObject rv) eqn:Ht.
        -- split; [intros H; right; right; exists rv; auto | ].
           intros [? | [? | (rv' & [= <-] & _ & _ & H)]]; congruence.
        -- split; [discriminate | ].
           intros [? | [? | (rv' & [= <-] & _ & ? & H)]]; congruence.
      * split; [discriminate | ].
        intros [? | [? | (rv' & [=] & _)]]; congruence.
Qed.
Lemma lookupKey_In (o : attrs) (k : string) (v : jsval) :
  NoDup (map fst o) -> In (k, v) o -> lookupKey k o = Some v.
Proof.
  induction o as [ | [k' v'] rest IH ]; simpl; [intros _ [] | ].
  intros Hnd [[= -> ->] | Hin].
  - now rewrite String.eqb_refl.
  - apply NoDup_cons in Hnd as [Hnot Hnd].
    destruct (String.eqb_spec k' k) as [-> | _]; [ | auto].
    exfalso. apply Hnot. apply list_elem_of_In.
    change k with (fst (k, v)). now apply in_map.
Qed.

Lemma lookupKey_Some (o : attrs) (k : string) (v : jsval) :
  lookupKey k o = Some v -> In (k, v) o.
Proof.
  induction o as [ | [k' v'] rest IH ]; simpl; [discriminate | ].
  destruct (String.eqb_spec k' k) as [-> | _].
  - intros [= ->]. now left.
  - intros H. right. auto.
Qed.

Lemma nonNull_Some (o : attrs) (k : string) (v : jsval) :
  nonNull o k = Some v <-> lookupKey k o = Some v /\ isNull v = false.
Proof.
  unfold nonNull. destruct (lookupKey k o) as [[ | | | | | ] | ]; simpl;
    split; try intros [= <-]; try intros [[= <-] H]; auto; discriminate.
Qed.

Lemma setKeys_length (o : attrs) : length (setKeys o) = length (nonNullKeys o).
Proof. unfold setKeys. apply length_map. Qed.

Lemma setKeys_NoDup (o : attrs) : NoDup (map fst o) -> NoDup (setKeys o).
Proof.
  unfold setKeys, nonNullKeys.
  induction o as [ | [k v] rest IH ]; simpl; [constructor | ].
  intros Hnd. apply NoDup_cons in Hnd as [Hnot Hnd].
  destruct (isNull v); simpl; [auto | ].
  apply NoDup_cons. split; [ | auto].
  intros Hin. apply Hnot.
  apply list_elem_of_In in Hin. apply list_elem_of_In.
  apply in_map_iff in Hin as ([k' v'] & Hk & Hin). simpl in Hk. subst k'.
  apply filter_In in Hin as [Hin _].
  change k with (fst (k, v')). now apply in_map.
Qed.

Lemma setKeys_In (o : attrs) (k : string) :
  NoDup (map fst o) ->
  In k (setKeys o) <-> exists v, nonNull o k = Some v.
Proof.
  intros Hnd. unfold setKeys, nonNullKeys. rewrite in_map_iff. split.
  - intros ([k' v] & Hk & Hin). simpl in Hk. subst k'.
    apply filter_In in Hin as [Hin Hv]. exists v.
    apply nonNull_Some. split; [now apply lookupKey_In | ].
    simpl in Hv. now destruct (isNull v).
  - intros (v & Hv). apply nonNull_Some in Hv as [Hl Hv].
    exists (k, v). split; [reflexivity | ].
    apply filter_In. split; [now apply lookupKey_Some | ].
    simpl. now rewrite Hv.
Qed.
Lemma sameKeyCount_true (p y : attrs) :
  sameKeyCount p y = true <-> length (setKeys p) = length (setKeys y).
Proof.
  unfold sameKeyCount. rewrite !setKeys_length. apply Nat.eqb_eq.
Qed.

Lemma strictEq_nonNull (l r : jsval) :
  strictEq l (Some r) = true -> isNull l = false -> isNull r = false.
Proof. destruct l, r; simpl; congruence. Qed.

Lemma equalAttrsObj_agree (v : jsval) :
  forall r f, v = VObj r f ->
  forall r' yf, uniqueKeys f -> uniqueKeys yf -> ychangeBalanced f yf ->
  equalAttrsObj (VObj r f) (VObj r' yf) = Ok true <-> attrsAgree f yf.
Proof.
  induction v as [ | | | | | r0 f0 IH ] using jsval_nested_ind; try discriminate.
  intros r f [= <- <-] r' yf Hup Huy Hbal.
  destruct Hup as [f Hndp Hsubp]. destruct Huy as [yf Hndy Hsuby].
  destruct Hbal as [f yf Hych Hnest].
  assert (Hrec : forall k rl fl rr fr,
            k <> "ychange" ->
            In (k, VObj rl fl) f -> nonNull f k = Some (VObj rl fl) ->
            nonNull yf k = Some (VObj rr fr) ->
            (equalAttrsObj (VObj rl fl) (VObj rr fr) = Ok true <-> attrsAgree fl fr)).
  { intros k rl fl rr fr Hne Hin Hpk Hyk.
    rewrite List.Forall_forall in IH.
    apply (IH (k, VObj rl fl) Hin rl fl eq_refl rr fr).
    - eapply Hsubp; eassumption.
    - apply nonNull_Some in Hyk as [Hlk _].
      eapply Hsuby. apply lookupKey_Some. eassumption.
    - eapply Hnest; eassumption. }
  clear IH.
  (* a passing entry is the same value, by induction for nested objects *)
  assert (Hentry : forall k l, In (k, l) f -> isNull l = false -> k <> "ychange" ->
            (entryPasses equalAttrsObj yf k l <->
             exists rv, nonNull yf k = Some rv /\ sameValue l rv)).
  { intros k l Hin Hl Hk.
    assert (Hpk : nonNull f k = Some l)
      by (apply nonNull_Some; split; [now apply lookupKey_In | assumption]).
    split.
    - intros [? | [Hs | (rv & Hlk & Htl & Htr & Heq)]]; [contradiction | | ].
      + destruct (lookupKey k yf) as [rv | ] eqn:Hlk; [ | now destruct l].
        exists rv. split; [ | now apply same_strict].
        apply nonNull_Some. split; [assumption | ].
        eapply strictEq_nonNull; eassumption.
      + destruct l as [ | | | | | rl fl]; try discriminate.
        destruct rv as [ | | | | | rr fr]; try discriminate.
        exists (VObj rr fr).
        assert (Hyk : nonNull yf k = Some (VObj rr fr))
          by (apply nonNull_Some; split; [assumption | reflexivity]).
        split; [assumption | ].
        apply same_fields.
        now apply (Hrec k rl fl rr fr Hk Hin Hpk Hyk).
    - intros (rv & Hyk & Hsame).
      apply nonNull_Some in Hyk as Hyk'. destruct Hyk' as [Hlk Hrv].
      destruct (strictEq l (lookupKey k yf)) eqn:Hs; [right; now left | ].
      right. right. exists rv.
      inversion Hsame as [l' r'' Hs' | rl rr fl fr Hf]; subst.
      + rewrite Hlk in Hs. congruence.
      + repeat split; auto.
        now apply (Hrec k rl fl rr fr Hk Hin Hpk Hyk). }
  simpl. rewrite attrLoop_true, sameKeyCount_true.
  split.
  - intros [Hlen Hall] k Hk.
    (* every set key of [f] is a set key of [yf] *)
    assert (Hincl : incl (setKeys f) (setKeys yf)).
    { intros k' Hin'. apply setKeys_In in Hin' as [l Hl]; [ | assumption].
      apply setKeys_In; [assumption | ].
      destruct (String.eqb_spec k' "ychange") as [-> | Hne].
      - destruct (nonNull yf "ychange") eqn:E; [eauto | ].
        assert (nonNull f "ychange" = None) by (now apply Hych). congruence.
      - apply nonNull_Some in Hl as Hl'. destruct Hl' as [Hlk Hnn].
        apply lookupKey_Some in Hlk.
        destruct (proj1 (Hentry k' l Hlk Hnn Hne) (Hall k' l Hlk Hnn))
          as (rv & Hrv & _). eauto. }
    assert (Hincl' : incl (setKeys yf) (setKeys f)).
    { apply NoDup_length_incl;
        [now apply NoDup_ListNoDup, setKeys_NoDup | lia | assumption]. }
    destruct (nonNull f k) as [l | ] eqn:Hl.
    + apply nonNull_Some in Hl as Hl'. destruct Hl' as [Hlk Hnn].
      apply lookupKey_Some in Hlk.
      destruct (proj1 (Hentry k l Hlk Hnn Hk) (Hall k l Hlk Hnn))
        as (rv & -> & Hsame).
      now constructor.
    + destruct (nonNull yf k) as [rv | ] eqn:Hrv; [ | constructor].
      assert (Hin : In k (setKeys f))
        by (apply Hincl', setKeys_In; eauto).
      apply setKeys_In in Hin as [l Hl']; [ | assumption]. congruence.
  - intros Hagree. split.
    + assert (Hiff : forall k, In k (setKeys f) <-> In k (setKeys yf)).
      { intros k. rewrite !setKeys_In by assumption.
        destruct (String.eqb_spec k "ychange") as [-> | Hne].
        - destruct (nonNull f "ychange") eqn:E1, (nonNull yf "ychange") eqn:E2;
            split; intros [v Hv]; eauto; try discriminate.
          + assert (Some j = None) by (now apply Hych). discriminate.
          + assert (Some j = None) by (now apply Hych). discriminate.
        - specialize (Hagree k Hne).
          inversion Hagree; split; intros [v Hv]; eauto; congruence. }
      apply Nat.le_antisymm; apply NoDup_incl_length;
        try (now apply NoDup_ListNoDup, setKeys_NoDup);
        intros k Hin; now apply Hiff.
    + intros k l Hin Hnn.
      destruct (String.eqb_spec k "ychange") as [-> | Hne]; [now left | ].
      apply Hentry; auto.
      assert (Hpk : nonNull f k = Some l)
        by (apply nonNull_Some; split; [now apply lookupKey_In | assumption]).
      specialize (Hagree k Hne). rewrite Hpk in Hagree.
      inversion Hagree; subst. eauto.
Qed.

(** X27. For attribute maps with unique keys in which the diff
    annotation [ychange] is set on both sides or on neither (at every
    level at which objects are compared), [equalAttrs] returns true
    exactly when the two maps agree key for key on every non-null key
    other than [ychange]; the value of [ychange] is never compared. *)
Theorem equalAttrs_agree (pattrs yattrs : attrs) :
  uniqueKeys pattrs -> uniqueKeys yattrs -> ychangeBalanced pattrs yattrs ->
  equalAttrs pattrs yattrs = Ok true <-> attrsAgree pattrs yattrs.
Proof.
  intros Hp Hy Hb. unfold equalAttrs.
  now apply (equalAttrsObj_agree (VObj 0 pattrs) 0 pattrs eq_refl 0 yattrs).
Qed.

Lemma equalAttrs_agree_witness :
  equalAttrs [("a", VNum 1); ("b", VNull)] [("a", VNum 1)] = Ok true
  <-> attrsAgree [("a", VNum 1); ("b", VNull)] [("a", VNum 1)].
Proof.
  apply (equalAttrs_agree [("a", VNum 1); ("b", VNull)] [("a", VNum 1)]).
  - constructor.
    + simpl. compute_done.
    + intros k r f Hin. simpl in Hin.
      repeat (destruct Hin as [Hin | Hin]; [discriminate Hin | ]). destruct Hin.
  - constructor.
    + simpl. compute_done.
    + intros k r f Hin. simpl in Hin.
      repeat (destruct Hin as [Hin | Hin]; [discriminate Hin | ]). destruct Hin.
  - constructor.
    + split; reflexivity.
    + intros k rl fl rr fr _. unfold nonNull. cbn [lookupKey].
      destruct (String.eqb "a" k); [intros H; discriminate H | ].
      destruct (String.eqb "b" k); intros H; discriminate H.
Defined.

(** C6, where the code departs from it: [equalAttrs] counts the diff
    annotation among the keys whose numbers it compares, and skips only
    the comparison of its value.  Where one side alone carries the
    annotation, as a local node rendered from a snapshot does, maps that
    agree on every other key are answered with false; and an annotation
    on one side makes up for a key that only the other side has, so maps
    that disagree on that key are answered with true. *)
Theorem equalAttrs_counts_ychange :
  (attrsAgree [] [("ychange", VObj 1 [("type", VStr "added")])]
   /\ equalAttrs [] [("ychange", VObj 1 [("type", VStr "added")])] = Ok false
   /\ equalAttrs [] [] = Ok true)
  /\ (~ attrsAgree [("ychange", VNum 1)] [("b", VNum 5)]
      /\ equalAttrs [("ychange", VNum 1)] [("b", VNum 5)] = Ok true).
Proof.
  split; [split; [ | split; reflexivity] | split; [ | reflexivity]].
  - intros k Hk. unfold nonNull. cbn [lookupKey].
    destruct (String.eqb_spec "ychange" k) as [<- | _]; [contradiction | constructor].
  - intros H. specialize (H "b" ltac:(discriminate)). inversion H.
Qed.

(** ** Errors of the forward reconciler *)

(** *** Where the mismatch error comes from *)

Lemma typeErrorOnly_Ok {A} (a : A) : typeErrorOnly (Ok a).
Proof. intros e [=]. Qed.

Lemma typeErrorOnly_OutOfFuel {A} : typeErrorOnly (@OutOfFuel A).
Proof. intros e [=]. Qed.

Lemma typeErrorOnly_Throw {A} : typeErrorOnly (@Throw A TypeError).
Proof. now intros e [= <-]. Qed.

Lemma typeErrorOnly_bind {A B} (m : res A) (f : A -> res B) :
  typeErrorOnly m -> (forall a, m = Ok a -> typeErrorOnly (f a)) ->
  typeErrorOnly (m ≫= f).
Proof.
  intros Hm Hf. destruct m as [a | e | ]; cbn [mbind res_bind bind].
  - now apply Hf.
  - intros e' [= <-]. now apply Hm.
  - apply typeErrorOnly_OutOfFuel.
Qed.

Ltac errors :=
  repeat first
    [ apply typeErrorOnly_Ok | apply typeErrorOnly_Throw | apply typeErrorOnly_OutOfFuel
    | apply typeErrorOnly_bind; [ | intros ? ?]
    | match goal with
      | |- typeErrorOnly (if ?b then _ else _) => destruct b
      | |- typeErrorOnly (let '(_, _) := ?p in _) => destruct p
      | |- typeErrorOnly (match ?x with _ => _ end) => destruct x
      end
    | assumption ].

Lemma attrLoop_errors (rec : jsval -> jsval -> res bool) (yfields ps : attrs) :
  Forall (fun kv => forall y, typeErrorOnly (rec (snd kv) y)) ps ->
  forall eq, typeErrorOnly (attrLoop rec yfields ps eq).
Proof.
  induction 1 as [ | [key l] rest Hl _ IH]; intros eq; cbn [attrLoop]; [errors | ].
  cbn [snd] in Hl.
  destruct (isNull l); [apply IH | ]. destruct eq; [ | errors].
  apply typeErrorOnly_bind; [ | intros; apply IH].
  destruct (String.eqb key "ychange"); [errors | ].
  destruct (strictEq l (lookupKey key yfields)); [errors | ].
  destruct l; try solve [errors].
  destruct (lookupKey key yfields) as [rv | ]; [ | errors].
  destruct (typeofObject rv); [apply Hl | errors].
Qed.

Lemma equalAttrsObj_errors : forall p y, typeErrorOnly (equalAttrsObj p y).
Proof.
  induction p as [ | | | | | r f IH] using jsval_nested_ind; intros y;
    cbn [equalAttrsObj]; try solve [errors].
  destruct y; try solve [errors].
  apply attrLoop_errors. exact IH.
Qed.

Lemma equalAttrs_errors (p y : attrs) : typeErrorOnly (equalAttrs p y).
Proof. apply equalAttrsObj_errors. Qed.

Lemma equalAttrsAny_errors (p : jsval) (y : attrs) : typeErrorOnly (equalAttrsAny p y).
Proof.
  destruct p; cbn [equalAttrsAny]; try solve [errors].
  - apply attrLoop_errors. apply List.Forall_forall. intros; errors.
  - apply equalAttrsObj_errors.
Qed.

Lemma everyMark_errors (dattrs : attrs) (ms : list mark) :
  typeErrorOnly (everyMark dattrs ms).
Proof.
  induction ms as [ | m rest IH]; cbn [everyMark]; [errors | ].
  apply typeErrorOnly_bind; [apply equalAttrsAny_errors | ].
  intros [ | ] _; [exact IH | errors].
Qed.

Lemma everyDelta_errors (ds : list dop) :
  forall ps, typeErrorOnly (everyDelta ds ps).
Proof.
  induction ds as [ | d rest IH]; intros [ | p ps]; cbn [everyDelta]; try solve [errors].
  apply typeErrorOnly_bind.
  - unfold equalDeltaPText. destruct (negb _); [errors | ].
    destruct (negb _); [errors | apply everyMark_errors].
  - intros [ | ] _; [apply IH | errors].
Qed.

Lemma equalYTextPText_errors (t : ytype) (ps : list pnode) :
  typeErrorOnly (equalYTextPText t ps).
Proof.
  unfold equalYTextPText. destruct (Nat.eqb _ _); [apply everyDelta_errors | errors].
Qed.

Lemma equalYTypePNode_errors : forall t u, typeErrorOnly (equalYTypePNode t u).
Proof.
  induction t as [r items | t Htext IH] using ytype_nested_ind; intros u.
  - destruct u; cbn [equalYTypePNode]; [errors | apply equalYTextPText_errors].
  - destruct t as [ | r name ya children | r children]; [discriminate | | ];
      cbn [equalYTypePNode]; [ | destruct u; errors].
    destruct u as [p | ts]; [ | errors].
    destruct (String.eqb name (ptypeName p)); [ | errors].
    destruct (Z.eqb _ _); [ | errors].
    apply typeErrorOnly_bind; [apply equalAttrs_errors | ].
    intros [ | ] _; [ | errors].
    cbn [yitems] in IH. clear Htext. generalize (normalizePNodeContent p).
    induction IH as [ | [i d c] rest Hc _ IHrest]; intros units; [errors | ].
    cbn [itemType] in Hc.
    destruct d; [apply IHrest | ].
    destruct units as [ | u us]; [errors | ].
    apply typeErrorOnly_bind; [apply Hc | ].
    intros [ | ] _; [apply IHrest | errors].
Qed.

Lemma factorLeft_errors (mapping : gmap nat punit) (ys : list ytype)
    (ps : list punit) (fuel : nat) :
  forall left found, typeErrorOnly (factorLeft mapping ys ps fuel left found).
Proof.
  induction fuel as [ | fuel IH]; intros left found; cbn [factorLeft]; [errors | ].
  destruct (ys !! left) as [y | ]; [ | errors].
  destruct (ps !! left) as [p | ]; [ | errors].
  destruct (mappedIdentity _ _); [apply IH | ].
  apply typeErrorOnly_bind; [apply equalYTypePNode_errors | ].
  intros [ | ] _; [apply IH | errors].
Qed.

Lemma factorRight_errors (mapping : gmap nat punit) (ys : list ytype)
    (ps : list punit) (fuel : nat) :
  forall right found, typeErrorOnly (factorRight mapping ys ps fuel right found).
Proof.
  induction fuel as [ | fuel IH]; intros right found; cbn [factorRight]; [errors | ].
  destruct (ys !! _) as [y | ]; [ | errors].
  destruct (ps !! _) as [p | ]; [ | errors].
  destruct (mappedIdentity _ _); [apply IH | ].
  apply typeErrorOnly_bind; [apply equalYTypePNode_errors | ].
  intros [ | ] _; [apply IH | errors].
Qed.

Lemma computeChildEqualityFactor_errors (t : ytype) (p : pnode)
    (mapping : gmap nat punit) :
  typeErrorOnly (computeChildEqualityFactor t p mapping).
Proof.
  unfold computeChildEqualityFactor.
  apply typeErrorOnly_bind; [apply factorLeft_errors | ]. intros [nleft found] _.
  apply typeErrorOnly_bind; [apply factorRight_errors | ]. intros [nright found'] _.
  errors.
Qed.

Lemma scanLeft_errors (ys : list ytype) (ps : list punit) (fuel : nat) :
  forall left st, typeErrorOnly (scanLeft ys ps fuel left st).
Proof.
  induction fuel as [ | fuel IH]; intros left st; cbn [scanLeft]; [errors | ].
  destruct (ys !! left) as [y | ]; [ | errors].
  destruct (ps !! left) as [p | ]; [ | errors].
  destruct (mappedIdentity _ _); [apply IH | ].
  apply typeErrorOnly_bind; [apply equalYTypePNode_errors | ].
  intros [ | ] _; [apply IH | errors].
Qed.

Lemma scanRight_errors (ys : list ytype) (ps : list punit) (fuel : nat) :
  forall right st, typeErrorOnly (scanRight ys ps fuel right st).
Proof.
  induction fuel as [ | fuel IH]; intros right st; cbn [scanRight]; [errors | ].
  destruct (ys !! _) as [y | ]; [ | errors].
  destruct (ps !! _) as [p | ]; [ | errors].
  destruct (mappedIdentity _ _); [apply IH | ].
  apply typeErrorOnly_bind; [apply equalYTypePNode_errors | ].
  intros [ | ] _; [apply IH | errors].
Qed.

Section ErrorsOfTheReconciler.
Variables (ops : YTextOps) (clientID : nat).

Lemma createAllWith_errors (create : punit -> ystate -> res (ytype * ystate))
    (units : list punit) :
  Forall (fun u => forall st, typeErrorOnly (create u st)) units ->
  forall st, typeErrorOnly (createAllWith create units st).
Proof.
  induction 1 as [ | u rest Hu _ IH]; intros st; cbn [createAllWith]; [errors | ].
  apply typeErrorOnly_bind; [apply Hu | ]. intros [t st'] _.
  apply typeErrorOnly_bind; [apply IH | ]. intros [ts st''] _. errors.
Qed.

Lemma createTypeFromElementNode_errors (fuel : nat) :
  forall node st,
    typeErrorOnly (createTypeFromElementNode ops clientID fuel node st).
Proof.
  induction fuel as [ | fuel IH]; intros node st; cbn [createTypeFromElementNode];
    [errors | ].
  destruct (freshRef st) as [r st1].
  apply typeErrorOnly_bind.
  - apply createAllWith_errors. apply List.Forall_forall.
    intros [n | nodes] _ st'; [apply IH | errors].
  - intros [children st2] _. destruct (newItems clientID children st2). errors.
Qed.

Lemma createTypeFromTextOrElementNode_errors (fuel : nat) (u : punit) (st : ystate) :
  typeErrorOnly (createTypeFromTextOrElementNode ops clientID fuel u st).
Proof.
  destruct u; cbn [createTypeFromTextOrElementNode];
    [apply createTypeFromElementNode_errors | errors].
Qed.

Lemma matchNodeName_no_mismatch (y : ytype) (p : pnode) :
  matchNodeName y (UNode p) = true -> nodeNameMismatch y p = false.
Proof.
  destruct y; cbn [matchNodeName nodeNameMismatch]; try discriminate.
  now intros ->.
Qed.

(** The pair that is updated has matching names. *)
Lemma decideUpdate_matched (leftY rightY : ytype) (leftP rightP : punit)
    (mapping : gmap nat punit) (updateLeft updateRight : bool) :
  decideUpdate leftY leftP rightY rightP mapping = Ok (updateLeft, updateRight) ->
  (updateLeft = true -> matchNodeName leftY leftP = true)
  /\ (updateRight = true -> matchNodeName rightY rightP = true).
Proof.
  unfold decideUpdate.
  destruct (matchNodeName leftY leftP) eqn:Hl, (matchNodeName rightY rightP) eqn:Hr;
    cbn [andb]; try (intros [= <- <-]; split; congruence).
  intros _. split; reflexivity.
Qed.

Lemma decideUpdate_errors (leftY rightY : ytype) (leftP rightP : punit)
    (mapping : gmap nat punit) :
  typeErrorOnly (decideUpdate leftY leftP rightY rightP mapping).
Proof.
  unfold decideUpdate. destruct (_ && _); [ | errors].
  destruct leftP as [lp | ]; [ | errors]. destruct rightP as [rp | ]; [ | errors].
  apply typeErrorOnly_bind; [apply computeChildEqualityFactor_errors | intros ? _].
  apply typeErrorOnly_bind; [apply computeChildEqualityFactor_errors | intros ? _].
  errors.
Qed.

Section Loop.
Variable recurse : ytype -> pnode -> ystate -> res (ytype * ystate).
Variable create : punit -> ystate -> res (ytype * ystate).
Variables (ys : list ytype) (ps : list punit).
Hypothesis recurse_errors : forall y lp st,
    nodeNameMismatch y lp = false -> typeErrorOnly (recurse y lp st).
Hypothesis create_errors : forall u st, typeErrorOnly (create u st).

Lemma updateElementPair_errors (leftY rightY : ytype) (leftP rightP : punit)
    (left right : nat) (frag : ytype) (st : ystate) :
  typeErrorOnly (updateElementPair clientID recurse create ys leftY leftP rightY rightP
                   left right frag st).
Proof.
  unfold updateElementPair.
  apply typeErrorOnly_bind; [apply decideUpdate_errors | ].
  intros [updateLeft updateRight] Hd.
  destruct (decideUpdate_matched _ _ _ _ _ _ _ Hd) as [Hl Hr].
  destruct updateLeft.
  - destruct leftP as [lp | ]; [ | errors].
    apply typeErrorOnly_bind; [ | intros [t st'] _; errors].
    apply recurse_errors, matchNodeName_no_mismatch. auto.
  - destruct updateRight.
    + destruct rightP as [rp | ]; [ | errors].
      apply typeErrorOnly_bind; [ | intros [t st'] _; errors].
      apply recurse_errors, matchNodeName_no_mismatch. auto.
    + destruct (deleteChildren frag left 1 st) as [frag1 st1].
      apply typeErrorOnly_bind; [apply create_errors | ].
      intros [t st2] _. destruct (insertChildren clientID frag1 left [t] st2). errors.
Qed.

Lemma middleStep_errors (left right : nat) (frag : ytype) (st : ystate) :
  typeErrorOnly (middleStep ops clientID recurse create ys ps left right frag st).
Proof.
  unfold middleStep.
  destruct (ys !! left) as [leftY | ]; [ | errors].
  destruct (ps !! left) as [leftP | ]; [ | errors].
  destruct (ys !! _) as [rightY | ]; [ | errors].
  destruct (ps !! _) as [rightP | ]; [ | errors].
  destruct leftY; try apply updateElementPair_errors.
  destruct leftP; try apply updateElementPair_errors.
  apply typeErrorOnly_bind; [apply equalYTextPText_errors | ].
  intros [ | ] _; [errors | ].
  destruct (updateYText _ _ _ _ _). errors.
Qed.

Lemma middleLoop_errors (k : nat) :
  forall left right frag st,
    typeErrorOnly (middleLoop ops clientID recurse create ys ps k left right frag st).
Proof.
  induction k as [ | k IH]; intros left right frag st; cbn [middleLoop]; [errors | ].
  apply typeErrorOnly_bind; [apply middleStep_errors | ].
  intros [[[l r] f] s] _. apply IH.
Qed.
End Loop.

(** Below the root the only error is the TypeError: the name test of a
    recursive call never fails. *)
Lemma updateYFragment_errors (fuel : nat) :
  forall F P st,
    nodeNameMismatch F P = false ->
    typeErrorOnly (updateYFragment ops clientID fuel F P st).
Proof.
  induction fuel as [ | fuel IH]; intros F P st Hname; cbn [updateYFragment];
    [errors | ].
  rewrite Hname. destruct (isXmlText F); [errors | ].
  destruct (if isXmlElement F then _ else _) as [frag st1].
  apply typeErrorOnly_bind; [apply scanLeft_errors | ]. intros [nleft st2] _.
  apply typeErrorOnly_bind; [apply scanRight_errors | ]. intros [nright st3] _.
  apply typeErrorOnly_bind.
  { apply middleLoop_errors; [exact IH | ].
    intros u s. apply createTypeFromTextOrElementNode_errors. }
  intros [[[nl nr] frag4] st4] _.
  destruct (match _ with O => _ | S _ => _ end) as [frag5 st5].
  destruct (Nat.ltb _ _); [ | errors].
  apply typeErrorOnly_bind; [ | intros [ins st6] _; errors].
  apply createAllWith_errors. apply List.Forall_forall.
  intros u _ s. apply createTypeFromTextOrElementNode_errors.
Qed.

(** The mismatch error is raised by the test at the root only. *)
Lemma mismatch_only_at_root (fuel : nat) (F : ytype) (P : pnode) (st : ystate) :
  updateYFragment ops clientID fuel F P st = Throw NodeNameMismatch ->
  nodeNameMismatch F P = true.
Proof.
  intros Hrun. destruct (nodeNameMismatch F P) eqn:Hname; [reflexivity | ].
  pose proof (updateYFragment_errors fuel F P st Hname _ Hrun). discriminate.
Qed.

Lemma mismatch_at_root (fuel : nat) (F : ytype) (P : pnode) (st : ystate) :
  nodeNameMismatch F P = true ->
  updateYFragment ops clientID (S fuel) F P st = Throw NodeNameMismatch.
Proof. intros Hname. cbn [updateYFragment]. now rewrite Hname. Qed.
End ErrorsOfTheReconciler.

(** C4 (the code departs from it): the root of this input is a fragment,
    so no node name differs at the recursion root, the mapping is empty,
    and the only child
    pair is a paragraph on both sides; still the run ends in a thrown
    TypeError, raised by [equalAttrs] when it recurses on the null value
    of [a]. *)
Theorem updateYFragment_throws_TypeError (ops : YTextOps) (clientID fuel : nat) :
  nodeNameMismatch C4Input.fragment C4Input.local = false
  /\ updateYFragment ops clientID (S fuel) C4Input.fragment C4Input.local
       Examples.emptyState
     = Throw TypeError.
Proof. split; reflexivity. Qed.
(** ** Absolute to relative positions *)

Section WalkCongruence.
Variables (type : ytype) (rootKey : string) (m1 m2 : gmap nat punit).
Hypothesis sizes : forall t, pNodeSizeOf m1 t = pNodeSizeOf m2 t.

Lemma walk_sizes (fuel : nat) (n : node) (pos : Z) :
  walk type rootKey m1 fuel n pos = walk type rootKey m2 fuel n pos.
Proof.
  revert n pos. induction fuel as [ | fuel IH ]; intros n pos; [reflexivity | ].
  cbn [walk].
  destruct n as [ | i parent ]; [reflexivity | ].
  destruct (nodeType type (i :: parent)) as [t | ]; [ | reflexivity].
  rewrite sizes.
  repeat case_match; try reflexivity; apply IH.
Qed.

Lemma absolutePositionToRelativePosition_sizes (fuel : nat) (pos : Z) :
  absolutePositionToRelativePosition type rootKey m1 fuel pos
  = absolutePositionToRelativePosition type rootKey m2 fuel pos.
Proof.
  unfold absolutePositionToRelativePosition.
  repeat case_match; try reflexivity. apply walk_sizes.
Qed.
End WalkCongruence.

(** C8: in the offset arithmetic of [absolutePositionToRelativePosition]
    an element with no entry in the mapping counts as size zero: the
    result, for every offset and tree, is the one obtained with the
    element mapped to a node of reported size 0. *)
Theorem unmapped_element_counts_zero (type : ytype) (rootKey : string)
    (mapping : gmap nat punit) (el : ytype) (p : pnode) (fuel : nat) (pos : Z) :
  mapping !! yref el = None ->
  nodeSize p = 0 ->
  pNodeSizeOf mapping el = Some 0
  /\ absolutePositionToRelativePosition type rootKey mapping fuel pos
     = absolutePositionToRelativePosition type rootKey
         (<[yref el := UNode p]> mapping) fuel pos.
Proof.
  intros Hnone Hsize. split.
  - unfold pNodeSizeOf. now rewrite Hnone.
  - apply absolutePositionToRelativePosition_sizes.
    intros t. unfold pNodeSizeOf.
    destruct (decide (yref t = yref el)) as [-> | Hne].
    + now rewrite lookup_insert_eq, Hnone, Hsize.
    + now rewrite lookup_insert_ne by congruence.
Qed.

Lemma unmapped_element_counts_zero_witness :
  pNodeSizeOf ∅ C8Witness.el = Some 0
  /\ absolutePositionToRelativePosition C8Witness.type "prosemirror" ∅ 5 1
     = absolutePositionToRelativePosition C8Witness.type "prosemirror"
         (<[yref C8Witness.el := UNode C8Witness.sizeless]> ∅) 5 1.
Proof.
  apply (unmapped_element_counts_zero C8Witness.type "prosemirror" ∅
           C8Witness.el C8Witness.sizeless 5 1); reflexivity.
Defined.
(** ** Offsets beyond the end of the document *)

Lemma ylength_nonneg (t : ytype) : 0 <= ylength t.
Proof.
  destruct t as [r items | | ]; try apply Nat2Z.is_nonneg.
  unfold ylength. induction items as [ | i rest IH ]; cbn [fold_right]; [lia | ].
  destruct (t_deleted i); [assumption | ].
  assert (0 <= titemLength i)
    by (unfold titemLength, strlen; destruct (t_content i); lia).
  lia.
Qed.

Lemma firstLive_Some (items : list yitem) (j : nat) :
  firstLive items = Some j ->
  exists it, items !! j = Some it /\ itemDeleted it = false
             /\ forall m, itemsSize m items = itemsSize m (drop j items).
Proof.
  revert j. induction items as [ | it rest IH ]; intros j; simpl; [discriminate | ].
  destruct (itemDeleted it) eqn:Hd.
  - destruct (firstLive rest) as [j' | ] eqn:Hf; simpl; [ | discriminate].
    intros [= <-]. destruct (IH j' eq_refl) as (it' & Hl & Hlive & Hs).
    exists it'. repeat split; auto.
  - intros [= <-]. exists it. split; [reflexivity | ]. split; [assumption | ].
    intros m. simpl. now rewrite Hd.
Qed.

Lemma firstLive_None (items : list yitem) (m : gmap nat punit) :
  firstLive items = None -> itemsSize m items = 0.
Proof.
  induction items as [ | it rest IH ]; simpl; [reflexivity | ].
  destruct (itemDeleted it); [ | discriminate].
  destruct (firstLive rest); simpl; [discriminate | ]. intros _. rewrite IH; auto.
Qed.

Lemma firstLiveFrom_Some (items : list yitem) (i j : nat) :
  firstLiveFrom items i = Some j ->
  exists it, items !! j = Some it /\ itemDeleted it = false /\ (i <= j)%nat
             /\ forall m, itemsSize m (drop i items) = itemsSize m (drop j items).
Proof.
  unfold firstLiveFrom. destruct (firstLive (drop i items)) as [k | ] eqn:Hf;
    simpl; [ | discriminate].
  intros [= <-]. destruct (firstLive_Some _ _ Hf) as (it & Hl & Hlive & Hs).
  exists it. rewrite lookup_drop in Hl. repeat split; auto; [lia | ].
  intros m. rewrite Hs, drop_drop. reflexivity.
Qed.

Lemma firstLiveFrom_None (items : list yitem) (i : nat) (m : gmap nat punit) :
  firstLiveFrom items i = None -> itemsSize m (drop i items) = 0.
Proof.
  unfold firstLiveFrom. destruct (firstLive (drop i items)) eqn:Hf; [discriminate | ].
  intros _. now apply firstLive_None.
Qed.

Lemma itemsSize_nonneg (m : gmap nat punit) (items : list yitem) :
  elementsMapped m items -> 0 <= itemsSize m items.
Proof.
  induction items as [ | it rest IH ]; intros Hm; simpl; [lia | ].
  assert (0 <= itemsSize m rest) by (apply IH; intros x Hx; apply Hm; now right).
  destruct (itemDeleted it) eqn:Hd; [lia | ].
  unfold childSize. destruct (isXmlText (itemType it)) eqn:Ht.
  - pose proof (ylength_nonneg (itemType it)). lia.
  - destruct (Hm it (or_introl eq_refl) Hd Ht) as (p & -> & Hp). lia.
Qed.

Section BeyondTheEnd.
Variables (type : ytype) (rootKey : string) (mapping : gmap nat punit).
Hypothesis mapped : elementsMapped mapping (yitems type).

Lemma nodeType_top (i : nat) (it : yitem) :
  yitems type !! i = Some it -> nodeType type [i] = Some (itemType it).
Proof. intros H. unfold nodeType, nodeItem. simpl. now rewrite H. Qed.

Lemma nextSibling_top (i : nat) :
  nextSibling type [i]
  = match firstLiveFrom (yitems type) (S i) with
    | Some j => Some [j]
    | None => None
    end.
Proof.
  unfold nextSibling. simpl. now destruct (firstLiveFrom (yitems type) (S i)).
Qed.

Lemma drop_size_nonneg (i : nat) : 0 <= itemsSize mapping (drop i (yitems type)).
Proof.
  apply itemsSize_nonneg. intros it Hin. apply mapped.
  apply list_elem_of_In. apply list_elem_of_In in Hin.
  now apply (subseteq_drop i (yitems type)).
Qed.

Lemma walk_root (fuel : nat) (pos : Z) :
  walk type rootKey mapping (S fuel) [] pos = endOfType type rootKey.
Proof. reflexivity. Qed.

Lemma walk_beyond (fuel i : nat) (it : yitem) (pos : Z) :
  yitems type !! i = Some it ->
  itemDeleted it = false ->
  itemsSize mapping (drop i (yitems type)) < pos ->
  (length (yitems type) - i < fuel)%nat ->
  walk type rootKey mapping fuel [i] pos = endOfType type rootKey.
Proof.
  revert i it pos. induction fuel as [ | fuel IH ]; intros i it pos Hi Hlive Hpos Hfuel;
    [lia | ].
  assert (Hlen : (i < length (yitems type))%nat) by (eapply lookup_lt_Some; eauto).
  (* the size of this child and of those behind it *)
  rewrite (drop_S _ _ _ Hi) in Hpos. simpl in Hpos. rewrite Hlive in Hpos.
  pose proof (drop_size_nonneg (S i)) as Hrest.
  (* both ways on: to the next live sibling, or up to the root *)
  assert (Hon : forall pos', itemsSize mapping (drop (S i) (yitems type)) < pos' ->
            match nextSibling type [i] with
            | Some n' =>
                match nodeType type n' with
                | None => Throw UnexpectedCase
                | Some t' =>
                    if Z.eqb pos' 0 && negb (isXmlText t') && negb (isRoot n')
                    then createRelativePosition type rootKey n'
                    else walk type rootKey mapping fuel n' pos'
                end
            | None => if Z.eqb pos' 0 then Ok (relativePositionIn type rootKey [] None)
                      else endOfType type rootKey
            end = endOfType type rootKey
            /\ (nextSibling type [i] = None ->
                match nodeType type [] with
                | None => Throw UnexpectedCase
                | Some t' =>
                    if Z.eqb (pos' - 1) 0 && negb (isXmlText t') && negb (isRoot [])
                    then createRelativePosition type rootKey []
                    else walk type rootKey mapping fuel [] (pos' - 1)
                end = endOfType type rootKey)).
  { intros pos' Hpos'. rewrite nextSibling_top.
    destruct (firstLiveFrom (yitems type) (S i)) as [j | ] eqn:Hj; cbv beta iota.
    - split; [ | discriminate].
      destruct (firstLiveFrom_Some _ _ _ Hj) as (it' & Hit' & Hlive' & Hle & Hsz).
      rewrite (nodeType_top j it' Hit').
      rewrite Hsz in Hpos'. pose proof (drop_size_nonneg j).
      destruct (Z.eqb_spec pos' 0); [lia | ]. simpl.
      apply (IH j it' pos' Hit' Hlive' Hpos'). lia.
    - pose proof (firstLiveFrom_None _ _ mapping Hj).
      destruct (Z.eqb_spec pos' 0); [lia | ].
      split; [reflexivity | intros _].
      cbn [nodeType isRoot negb]. rewrite andb_false_r.
      destruct fuel; [lia | apply walk_root]. }
  cbn [walk]. rewrite (nodeType_top i it Hi).
  unfold childSize in Hpos.
  destruct (isXmlText (itemType it)) eqn:Htext.
  - destruct (Z.leb_spec pos (ylength (itemType it))); [lia | ].
    destruct (Hon (pos - ylength (itemType it)) ltac:(lia)) as [Hnext Hup].
    destruct (nextSibling type [i]) as [n' | ]; [exact Hnext | ].
    cbn [ascend isRoot]. now apply Hup.
  - destruct (mapped it) as (p & Hp & Hsize); auto.
    { apply list_elem_of_In, list_elem_of_lookup. eauto. }
    unfold pNodeSizeOf. rewrite Hp in *.
    destruct (Hon (pos - nodeSize p) ltac:(lia)) as [Hnext Hup].
    assert (Hstep :
      match nextSibling type [i] with
      | Some n' =>
          match nodeType type n' with
          | None => Throw UnexpectedCase
          | Some t' =>
              if Z.eqb (pos - nodeSize p) 0 && negb (isXmlText t') && negb (isRoot n')
              then createRelativePosition type rootKey n'
              else walk type rootKey mapping fuel n' (pos - nodeSize p)
          end
      | None =>
          if Z.eqb (pos - nodeSize p) 0
          then Ok (relativePositionIn type rootKey [] None)
          else
            let '(up, pos') := ascend type [i] (pos - nodeSize p) in
            if isRoot up
            then match nodeType type up with
                 | None => Throw UnexpectedCase
                 | Some t' =>
                     if Z.eqb pos' 0 && negb (isXmlText t') && negb (isRoot up)
                     then createRelativePosition type rootKey up
                     else walk type rootKey mapping fuel up pos'
                 end
            else match nextSibling type up with
                 | Some n' =>
                     match nodeType type n' with
                     | None => Throw UnexpectedCase
                     | Some t' =>
                         if Z.eqb pos' 0 && negb (isXmlText t') && negb (isRoot n')
                         then createRelativePosition type rootKey n'
                         else walk type rootKey mapping fuel n' pos'
                     end
                 | None => Throw UnexpectedCase
                 end
      end = endOfType type rootKey).
    { destruct (nextSibling type [i]) as [n' | ]; [exact Hnext | ].
      destruct (Z.eqb_spec (pos - nodeSize p) 0); [lia | ].
      cbn [ascend isRoot]. now apply Hup. }
    destruct (firstChild type [i]) as [c | ].
    + destruct (Z.ltb_spec pos (nodeSize p)); [lia | exact Hstep].
    + destruct (Z.eqb_spec pos 1); [ | exact Hstep].
      destruct (Z.ltb_spec 1 (nodeSize p)); [lia | ].
      rewrite andb_false_r. exact Hstep.
Qed.
End BeyondTheEnd.

(** C10: for an offset greater than the content size of the document,
    with every live element child of the bound fragment mapped to a
    node, [absolutePositionToRelativePosition] does not throw: given
    fuel for the children of the fragment it returns the position at
    the end of the fragment,
    [createRelativePositionFromTypeIndex(type, type._length)]. *)
Theorem beyond_content_size (type : ytype) (rootKey : string)
    (mapping : gmap nat punit) (fuel : nat) (pos : Z) :
  elementsMapped mapping (yitems type) ->
  contentSize type mapping < pos ->
  (length (yitems type) < fuel)%nat ->
  absolutePositionToRelativePosition type rootKey mapping fuel pos
  = createRelativePositionFromTypeIndex type rootKey [] (ylength type)
  /\ exists rp, absolutePositionToRelativePosition type rootKey mapping fuel pos
                = Ok rp.
Proof.
  intros Hmapped Hpos Hfuel.
  assert (Hend : absolutePositionToRelativePosition type rootKey mapping fuel pos
                 = endOfType type rootKey).
  { unfold absolutePositionToRelativePosition, contentSize in *.
    pose proof (itemsSize_nonneg mapping _ Hmapped).
    destruct (Z.eqb_spec pos 0); [lia | ].
    unfold firstChild. simpl.
    destruct (firstLiveFrom (yitems type) 0) as [j | ] eqn:Hj; simpl; [ | reflexivity].
    destruct (firstLiveFrom_Some _ _ _ Hj) as (it & Hit & Hlive & _ & Hsz).
    apply (walk_beyond type rootKey mapping Hmapped fuel j it pos Hit Hlive).
    - rewrite <- Hsz. now rewrite drop_0.
    - lia. }
  split; [exact Hend | ].
  rewrite Hend. unfold endOfType, createRelativePositionFromTypeIndex. simpl.
  destruct type; eauto.
Qed.

Lemma beyond_content_size_witness :
  absolutePositionToRelativePosition C8Witness.type "prosemirror"
    (<[11%nat := UNode (Examples.para 21 [])]>
       (<[12%nat := UNode (Examples.para 22 [])]> ∅)) 3 5
  = createRelativePositionFromTypeIndex C8Witness.type "prosemirror" []
      (ylength C8Witness.type)
  /\ exists rp,
      absolutePositionToRelativePosition C8Witness.type "prosemirror"
        (<[11%nat := UNode (Examples.para 21 [])]>
           (<[12%nat := UNode (Examples.para 22 [])]> ∅)) 3 5
      = Ok rp.
Proof.
  apply (beyond_content_size C8Witness.type "prosemirror"
           (<[11%nat := UNode (Examples.para 21 [])]>
              (<[12%nat := UNode (Examples.para 22 [])]> ∅)) 3 5).
  - intros it Hin Hlive Htext. simpl in Hin.
    destruct Hin as [<- | [<- | []]]; eexists; split;
      try (vm_compute; reflexivity); vm_compute; discriminate.
  - reflexivity.
  - simpl. lia.
Defined.
(** ** Construction failures in the materializer *)

(** C7 (as amended): when the schema rejects the node built from a
    replicated node, the materializer does not throw but returns null
    and turns that replicated node into a tombstone, in a transaction of
    its own; for an element it also removes the element's entry from the
    mapping, for a text node it leaves the mapping as it is. *)
Theorem construction_failure_deletes (schema : Schema)
    (toDeltaAt : rendering -> list titem -> res (list dop))
    (attributesAt : ytype -> Snapshot -> attrs) (view : rendering) :
  (forall id d t nodes items' st st1,
      isXmlText t = false ->
      createChildren schema toDeltaAt view
        (createNodeFromYElement schema toDeltaAt attributesAt view) (yitems t) st
      = Ok (nodes, items', st1) ->
      tryNode schema attributesAt view (Item id d (withItems t items')) nodes st1 = None ->
      exists st',
        createNodeFromYElement schema toDeltaAt attributesAt view (Item id d t) st
        = Ok (None, Item id true (withItems t items'), st')
        /\ mapping st' = delete (yref t) (mapping st1)
        /\ (d = false -> mutations st' = (mutations st1 ++ [DeleteItem (yref t)])%list))
  /\ (forall id d r items deltas st,
         textDelta toDeltaAt view items = Ok deltas ->
         makeTextNodes schema deltas (nextRef st) = None ->
         exists st',
           createTextNodesFromYText schema toDeltaAt view (Item id d (XmlText r items)) st
           = Ok (None, Item id true (XmlText r items), st')
           /\ mapping st' = mapping st
           /\ (d = false -> mutations st' = (mutations st ++ [DeleteItem r])%list)).
Proof.
  split.
  - intros id d t nodes items' st st1 Htext Hchildren Hfail.
    assert (Hrun : createNodeFromYElement schema toDeltaAt attributesAt view (Item id d t) st
                   = Ok (finishNode schema attributesAt view
                           (Item id d (withItems t items')) nodes st1)).
    { destruct t; try discriminate; simpl in *; now rewrite Hchildren. }
    rewrite Hrun. unfold finishNode. rewrite Hfail.
    destruct d; simpl.
    + eexists. split; [reflexivity | ]. split; [ | discriminate].
      simpl. now destruct t.
    + eexists. split; [reflexivity | ]. split; [ | intros _]; simpl; now destruct t.
  - intros id d r items deltas st Hdelta Hfail.
    unfold createTextNodesFromYText. simpl. rewrite Hdelta. simpl. rewrite Hfail.
    destruct d; simpl; eexists; split; try reflexivity;
      split; try reflexivity; discriminate.
Qed.

Lemma construction_failure_deletes_witness :
  (exists st',
      createNodeFromYElement Examples.basicSchema C7Input.noDelta C7Input.noAttributes
        plainRendering C7Input.heading C7Input.st
      = Ok (None, Item (ID 1 0) true (XmlElement 11 "heading" [] []), st')
      /\ mapping st' = delete 11%nat (mapping C7Input.st)
      /\ (false = false ->
          mutations st' = (mutations C7Input.st ++ [DeleteItem 11])%list))
  /\ (exists st',
        createTextNodesFromYText Examples.basicSchema C7Input.noDelta plainRendering
          C7Input.text C7Input.st
        = Ok (None,
              Item (ID 1 1) true
                (XmlText 13 [TItem (ID 1 2) false (ContentFormat "italic" (VObj 0 []));
                             TItem (ID 1 3) false (ContentString "a")]), st')
        /\ mapping st' = mapping C7Input.st
        /\ (false = false ->
            mutations st' = (mutations C7Input.st ++ [DeleteItem 13])%list)).
Proof.
  split.
  - apply (proj1 (construction_failure_deletes Examples.basicSchema C7Input.noDelta
                    C7Input.noAttributes plainRendering)
             (ID 1 0) false (XmlElement 11 "heading" [] []) [] [] C7Input.st C7Input.st);
      reflexivity.
  - apply (proj2 (construction_failure_deletes Examples.basicSchema C7Input.noDelta
                    C7Input.noAttributes plainRendering)
             (ID 1 1) false 13%nat _
             [Delta (VStr "a") (Some [("italic", VObj 0 [])])] C7Input.st);
      reflexivity.
Defined.

(** The claim as stated fails for a text node: after the schema has
    rejected it the text is a tombstone and the result is null, but its
    entry is still in the mapping. *)
Lemma text_failure_keeps_mapping :
  exists text' st',
    createTextNodesFromYText Examples.basicSchema C7Input.noDelta plainRendering
      C7Input.text C7Input.st
    = Ok (None, text', st')
    /\ itemDeleted text' = true
    /\ mapping st' !! 13%nat = Some (UTexts [PText 3 "a" [Mark "italic" []]]).
Proof. do 2 eexists. split; [reflexivity | split; reflexivity]. Qed.
(** ** Rendering a snapshot pair *)

Lemma lookupKey_setKey (k : string) (v : jsval) (o : attrs) :
  lookupKey k (setKey k v o) = Some v.
Proof.
  induction o as [ | [k' w] rest IH ]; simpl.
  - now rewrite String.eqb_refl.
  - destruct (String.eqb k' k) eqn:E; simpl; now rewrite E.
Qed.

Section SnapshotRendering.
Variable schema : Schema.
Variable toDeltaAt : rendering -> list titem -> res (list dop).
Variable attributesAt : ytype -> Snapshot -> attrs.
Variables snapshot prevSnapshot : Snapshot.
Variable pud : option ((nat -> jsval) * (yid -> jsval)).
Variable userColor : jsval -> jsval.

Let view := snapshotView snapshot prevSnapshot pud userColor.

(** A node that [createNodeFromYElement] returns is the schema's node
    for the rendered attributes. *)
Lemma createNodeFromYElement_built (el el' : yitem) (st st' : ystate) (node : pnode) :
  createNodeFromYElement schema toDeltaAt attributesAt view el st
  = Ok (Some node, el', st') ->
  exists a name children ref,
    renderedAttributes attributesAt view el' = Ok a
    /\ elementName (itemType el) = Some name
    /\ itemId el' = itemId el /\ itemDeleted el' = itemDeleted el
    /\ schema_node schema ref name a children = Some node.
Proof.
  destruct el as [id d t]. intros Hrun.
  assert (Hfin : exists nodes items' st1,
             finishNode schema attributesAt view (Item id d (withItems t items')) nodes st1
             = (Some node, el', st')).
  { destruct t; simpl in Hrun; try discriminate;
      destruct (createChildren _ _ _ _ _ _) as [[[nodes items'] st1] | | ];
      simpl in Hrun; try discriminate; injection Hrun as Hrun; eauto. }
  destruct Hfin as (nodes & items' & st1 & Hfin).
  unfold finishNode in Hfin.
  destruct (tryNode _ _ _ _ _ _) as [n | ] eqn:Htry.
  - injection Hfin as -> <- _. unfold tryNode in Htry.
    destruct (renderedAttributes _ _ _) as [a | | ] eqn:Ha; try discriminate.
    destruct (elementName _) as [name | ] eqn:Hn; try discriminate.
    exists a, name, nodes, (nextRef st1). repeat split; auto.
    destruct t; simpl in *; congruence.
  - destruct (deleteItem _ _). discriminate.
Qed.

Lemma itemVisible_same (a b : yitem) (s : option Snapshot) :
  itemId a = itemId b -> itemDeleted a = itemDeleted b ->
  itemVisible a s = itemVisible b s.
Proof. unfold itemVisible. now intros -> ->. Qed.

(** X28. Under a snapshot pair, a direct child of the rendered fragment
    that is deleted and visible in neither snapshot is left out of the
    output; an element that is rendered and not visible in the newer
    snapshot is the node the schema makes with a [ychange] attribute of
    type 'removed', and one visible in the newer but not in the older
    snapshot with a [ychange] attribute of type 'added'. *)
Theorem snapshot_rendering :
  (forall t rest st,
      itemDeleted t = true ->
      itemVisible t (Some snapshot) = false ->
      itemVisible t (Some prevSnapshot) = false ->
      renderItems schema toDeltaAt attributesAt snapshot prevSnapshot pud userColor
        (t :: rest) st
      = '(nodes, rest', st2) ←
          renderItems schema toDeltaAt attributesAt snapshot prevSnapshot pud userColor
            rest st;
        Ok (nodes, t :: rest', st2))
  /\ (forall el el' st st' node,
         createNodeFromYElement schema toDeltaAt attributesAt view el st
         = Ok (Some node, el', st') ->
         exists a name children ref,
           elementName (itemType el) = Some name
           /\ schema_node schema ref name a children = Some node
           /\ (itemVisible el (Some snapshot) = false ->
               exists byClient byDeleted,
                 pud = Some (byClient, byDeleted)
                 /\ lookupKey "ychange" a
                    = Some (annotation userColor Removed (byDeleted (itemId el))))
           /\ (itemVisible el (Some snapshot) = true ->
               itemVisible el (Some prevSnapshot) = false ->
               exists byClient byDeleted,
                 pud = Some (byClient, byDeleted)
                 /\ lookupKey "ychange" a
                    = Some (annotation userColor Added (byClient (client (itemId el)))))).
Proof.
  split.
  - intros t rest st Hd Hs Hp. simpl. unfold shownInEither.
    rewrite Hd, Hs, Hp. simpl. now rewrite andb_false_r.
  - intros el el' st st' node Hrun.
    destruct (createNodeFromYElement_built el el' st st' node Hrun)
      as (a & name & children & ref & Ha & Hname & Hid & Hdel & Hnode).
    exists a, name, children, ref. split; [assumption | ]. split; [assumption | ].
    unfold renderedAttributes, viewSnapshot, viewPrevSnapshot, viewComputeYChange,
      view, snapshotView in Ha.
    cbv beta iota in Ha.
    rewrite !(itemVisible_same el' el) in Ha by assumption.
    rewrite Hid in Ha. unfold computeYChange in Ha.
    split.
    + intros Hs. rewrite Hs in Ha. simpl in Ha.
      destruct pud as [[byClient byDeleted] | ]; [ | discriminate].
      simpl in Ha. injection Ha as <-.
      exists byClient, byDeleted. split; [reflexivity | apply lookupKey_setKey].
    + intros Hs Hp. rewrite Hs, Hp in Ha. simpl in Ha.
      destruct pud as [[byClient byDeleted] | ]; [ | discriminate].
      simpl in Ha. injection Ha as <-.
      exists byClient, byDeleted. split; [reflexivity | apply lookupKey_setKey].
Qed.
End SnapshotRendering.

Lemma snapshot_rendering_witness :
  renderItems Examples.basicSchema History.noDelta History.attributesAt
    History.snapshot History.prevSnapshot History.pud History.userColor
    [History.c; History.d] History.st
  = ('(nodes, rest', st2) ←
       renderItems Examples.basicSchema History.noDelta History.attributesAt
         History.snapshot History.prevSnapshot History.pud History.userColor
         [History.d] History.st;
     Ok (nodes, History.c :: rest', st2))
  /\ exists a name children ref,
      elementName (itemType History.b) = Some name
      /\ schema_node Examples.basicSchema ref name a children
         = Some (History.renderedNode History.b)
      /\ (itemVisible History.b (Some History.snapshot) = false ->
          exists byClient byDeleted,
            History.pud = Some (byClient, byDeleted)
            /\ lookupKey "ychange" a
               = Some (annotation History.userColor Removed
                         (byDeleted (itemId History.b))))
      /\ (itemVisible History.b (Some History.snapshot) = true ->
          itemVisible History.b (Some History.prevSnapshot) = false ->
          exists byClient byDeleted,
            History.pud = Some (byClient, byDeleted)
            /\ lookupKey "ychange" a
               = Some (annotation History.userColor Added
                         (byClient (client (itemId History.b))))).
Proof.
  split.
  - apply (proj1 (snapshot_rendering Examples.basicSchema History.noDelta
                    History.attributesAt History.snapshot History.prevSnapshot
                    History.pud History.userColor)); reflexivity.
  - apply (proj2 (snapshot_rendering Examples.basicSchema History.noDelta
                    History.attributesAt History.snapshot History.prevSnapshot
                    History.pud History.userColor)
             History.b History.b History.st (History.renderedState History.b)).
    vm_compute. reflexivity.
Defined.

(** C9, where the code departs from it: only the children of the
    rendered fragment are filtered.  Below the top level [q], a child of
    the paragraph [a], is deleted and visible in neither snapshot, and
    the output still holds a node for it, annotated as removed. *)
Theorem nested_child_is_rendered :
  itemDeleted History.q = true
  /\ itemVisible History.q (Some History.snapshot) = false
  /\ itemVisible History.q (Some History.prevSnapshot) = false
  /\ exists type' st',
      renderSnapshotContent Examples.basicSchema History.noDelta History.attributesAt
        History.snapshot History.prevSnapshot History.pud History.userColor
        History.type History.st
      = Ok ([PElem 101 "paragraph" [] 4
               [PElem 100 "paragraph"
                  [("ychange", annotation History.userColor Removed (VStr "bob"))]
                  2 []];
             PElem 102 "paragraph"
               [("ychange", annotation History.userColor Removed (VStr "bob"))] 2 [];
             PElem 103 "paragraph"
               [("ychange", annotation History.userColor Added (VStr "ann"))] 2 []],
            type', st').
Proof.
  repeat split; try reflexivity.
  do 2 eexists. vm_compute. reflexivity.
Qed.
(** ** Running the forward reconciler twice *)

Lemma allRefs_items (t : ytype) :
  allRefs t = yref t :: itemsRefs (yitems t).
Proof.
  destruct t as [r its | r n a items | r items]; simpl; try reflexivity;
    f_equal; unfold itemsRefs; induction items as [ | [i d c] rest IH]; simpl;
    try reflexivity; now rewrite IH.
Qed.

Lemma writesOnly_refl (refs : list nat) (st : ystate) : writesOnly refs st st.
Proof. split; [lia | reflexivity]. Qed.

Lemma writesOnly_trans (refs : list nat) (st1 st2 st3 : ystate) :
  writesOnly refs st1 st2 -> writesOnly refs st2 st3 -> writesOnly refs st1 st3.
Proof.
  intros [Hn1 H1] [Hn2 H2]. split; [lia | ].
  intros k Hk Hlt. rewrite H2 by (auto; lia). now apply H1.
Qed.

Lemma writesOnly_weaken (refs refs' : list nat) (st st' : ystate) :
  (forall k, In k refs -> In k refs') ->
  writesOnly refs st st' -> writesOnly refs' st st'.
Proof. intros Hsub [Hn H]. split; [assumption | ]. intros k Hk. apply H. auto. Qed.

Lemma writesOnly_mappingSet (refs : list nat) (k : nat) (v : punit) (st : ystate) :
  In k refs -> writesOnly refs st (mappingSet k v st).
Proof.
  intros Hin. split; [simpl; lia | ]. intros k' Hk' _. simpl.
  apply lookup_insert_ne. congruence.
Qed.

Lemma writesOnly_record (refs : list nat) (m : mutation) (st : ystate) :
  writesOnly refs st (record m st).
Proof. split; [simpl; lia | reflexivity]. Qed.

Lemma writesOnly_setClock (refs : list nat) (c : nat) (st : ystate) :
  writesOnly refs st (setClock c st).
Proof. split; [simpl; lia | reflexivity]. Qed.

Section Creation.
Variables (ops : YTextOps) (clientID : nat).

Lemma newItems_state (ts : list ytype) (st : ystate) :
  mapping (snd (newItems clientID ts st)) = mapping st
  /\ nextRef (snd (newItems clientID ts st)) = nextRef st
  /\ mutations (snd (newItems clientID ts st)) = mutations st
  /\ map itemType (fst (newItems clientID ts st)) = ts
  /\ Forall (fun i => itemDeleted i = false) (fst (newItems clientID ts st)).
Proof.
  revert st. induction ts as [ | t rest IH]; intros st; simpl.
  - repeat split; constructor.
  - destruct (newItems clientID rest _) as [items st2] eqn:E.
    specialize (IH (snd (freshClock st))). simpl in IH. rewrite E in IH. simpl in IH.
    destruct IH as (Hm & Hr & Hmu & Hty & Hlive). simpl.
    split; [exact Hm | ]. split; [exact Hr | ]. split; [exact Hmu | ].
    split; [now f_equal | now constructor].
Qed.

Lemma createTypeFromTextNodes_created (nodes : list pnode) (st : ystate) :
  created st (fst (createTypeFromTextNodes ops clientID nodes st)) (UTexts nodes)
          (snd (createTypeFromTextNodes ops clientID nodes st)).
Proof.
  unfold createTypeFromTextNodes. simpl.
  destruct (ytext_applyDelta _ _ _ _ _) as [items c]. simpl.
  repeat split; simpl; try lia.
  - apply lookup_insert_eq.
  - intros k Hk. apply lookup_insert_ne. lia.
Qed.

Lemma createAllWith_created
    (create : punit -> ystate -> res (ytype * ystate)) :
  (forall u st t st', create u st = Ok (t, st') -> created st t u st') ->
  forall units st ts st',
    createAllWith create units st = Ok (ts, st') ->
    (nextRef st <= nextRef st')%nat
    /\ (forall k, (k < nextRef st)%nat -> mapping st' !! k = mapping st !! k)
    /\ mutations st' = mutations st
    /\ Forall2 (fun t u => mapping st' !! yref t = Some u
                           /\ (nextRef st <= yref t < nextRef st')%nat) ts units
    /\ NoDup (map yref ts).
Proof.
  intros Hcreate. induction units as [ | u rest IH]; intros st ts st' Hrun; simpl in Hrun.
  - injection Hrun as <- <-. repeat split; try lia; constructor.
  - destruct (create u st) as [[t st1] | | ] eqn:Ht; try discriminate. simpl in Hrun.
    destruct (createAllWith create rest st1) as [[ts' st2] | | ] eqn:Hrest;
      try discriminate. simpl in Hrun. injection Hrun as <- <-.
    destruct (Hcreate _ _ _ _ Ht) as (Hr & Hlt & Hm & Hframe & Hmu).
    destruct (IH _ _ _ Hrest) as (Hn & Hframe' & Hmu' & Hall & Hnd).
    split; [lia | ]. split.
    { intros k Hk. rewrite Hframe' by lia. now apply Hframe. }
    split; [congruence | ]. split.
    + constructor.
      * split; [ | lia]. rewrite Hframe' by lia. assumption.
      * eapply Forall2_impl; [exact Hall | ]. intros t' u' [? ?]. split; [assumption | lia].
    + simpl. apply NoDup_cons. split; [ | assumption].
      intros Hin. apply list_elem_of_In, in_map_iff in Hin as (t' & Heq & Hin).
      apply list_elem_of_In in Hin.
      apply list_elem_of_lookup in Hin as [i Hi].
      destruct (Forall2_lookup_l _ _ _ i t' Hall Hi) as (u'' & _ & _ & Hge'). lia.
Qed.

Lemma createTypeFromElementNode_created (fuel : nat) :
  forall node st t st',
    createTypeFromElementNode ops clientID fuel node st = Ok (t, st') ->
    created st t (UNode node) st'.
Proof.
  induction fuel as [ | fuel IH]; intros node st t st' Hrun; [discriminate | ].
  simpl in Hrun.
  match type of Hrun with
  | context [createAllWith ?f ?us ?s] =>
      destruct (createAllWith f us s) as [[children st2] | | ] eqn:Hall;
        [ | discriminate | discriminate];
      assert (Hf : forall u st t st', f u st = Ok (t, st') -> created st t u st')
  end.
  { intros [n | nodes] s t0 s0 H0.
    - now apply IH.
    - injection H0 as H0.
      pose proof (createTypeFromTextNodes_created nodes s) as H.
      now rewrite H0 in H. }
  simpl in Hrun.
  destruct (newItems clientID children st2) as [items st3] eqn:Hitems.
  injection Hrun as <- <-.
  destruct (createAllWith_created _ Hf _ _ _ _ Hall) as (Hn & Hframe & Hmu & _ & _).
  pose proof (newItems_state children st2) as (Hm3 & Hr3 & Hmu3 & _ & _).
  rewrite Hitems in *. simpl in *.
  repeat split; simpl.
  - lia.
  - apply lookup_insert_eq.
  - intros k Hk. rewrite lookup_insert_ne by lia. rewrite Hm3.
    now rewrite Hframe by lia.
  - congruence.
Qed.

Lemma createTypeFromTextOrElementNode_created (fuel : nat) :
  forall u st t st',
    createTypeFromTextOrElementNode ops clientID fuel u st = Ok (t, st') ->
    created st t u st'.
Proof.
  intros [n | nodes] st t st' Hrun; simpl in Hrun.
  - now apply createTypeFromElementNode_created in Hrun.
  - injection Hrun as Hrun.
    pose proof (createTypeFromTextNodes_created nodes st) as H.
    now rewrite Hrun in H.
Qed.
End Creation.

(** *** The live children under the three child operations *)

Lemma toArray_liveTypes (t : ytype) : toArray t = liveTypes (yitems t).
Proof. reflexivity. Qed.

Lemma liveTypes_cons (it : yitem) (items : list yitem) :
  liveTypes (it :: items)
  = if itemDeleted it then liveTypes items else itemType it :: liveTypes items.
Proof. unfold liveTypes. simpl. now destruct (itemDeleted it). Qed.

Lemma liveTypes_updateLive (items : list yitem) (i : nat) (t : ytype) :
  liveTypes (updateLive items i t) = <[i := t]> (liveTypes items).
Proof.
  revert i. induction items as [ | [id d c] rest IH]; intros i; [reflexivity | ].
  simpl. destruct d.
  - rewrite !liveTypes_cons. simpl. apply IH.
  - destruct i as [ | i]; rewrite !liveTypes_cons; simpl; [reflexivity | ].
    now rewrite IH.
Qed.

Lemma liveTypes_deleteLive (items : list yitem) (i n : nat) :
  liveTypes (deleteLive items i n)
  = (take i (liveTypes items) ++ drop (i + n) (liveTypes items))%list.
Proof.
  revert items i. induction n as [ | n IHn]; intros items i.
  - simpl. rewrite Nat.add_0_r. destruct items; simpl; now rewrite take_drop.
  - induction items as [ | [id d c] rest IH] in i |- *.
    + now destruct i.
    + simpl. destruct d.
      * rewrite !liveTypes_cons. simpl. apply IH.
      * destruct i as [ | i]; rewrite !liveTypes_cons; simpl.
        -- rewrite IHn. now rewrite take_0.
        -- now rewrite IH.
Qed.

Lemma liveTypes_app (a b : list yitem) :
  liveTypes (a ++ b) = (liveTypes a ++ liveTypes b)%list.
Proof. unfold liveTypes. now rewrite List.filter_app, map_app. Qed.

Lemma liveTypes_insertLive (items new : list yitem) (i : nat) :
  (i <= length (liveTypes items))%nat ->
  liveTypes (insertLive items i new)
  = (take i (liveTypes items) ++ liveTypes new ++ drop i (liveTypes items))%list.
Proof.
  revert i. induction items as [ | [id d c] rest IH]; intros i Hi.
  - simpl in Hi. assert (i = 0%nat) as -> by lia. simpl.
    now rewrite liveTypes_app.
  - destruct i as [ | i].
    + simpl. now rewrite liveTypes_app.
    + simpl. destruct d.
      * rewrite !liveTypes_cons. simpl. now apply IH.
      * rewrite liveTypes_cons in Hi. simpl in Hi.
        destruct i as [ | i]; rewrite !liveTypes_cons; simpl.
        -- now rewrite liveTypes_app.
        -- rewrite IH by lia. reflexivity.
Qed.

Lemma liveTypes_new (items : list yitem) :
  Forall (fun i => itemDeleted i = false) items ->
  liveTypes items = map itemType items.
Proof.
  induction 1 as [ | it rest Hl _ IH]; [reflexivity | ].
  rewrite liveTypes_cons, Hl. simpl. now rewrite IH.
Qed.

(** *** Children that the scan accepts *)

Lemma aligned_frame (m m' : gmap nat punit) (y : ytype) (p : punit) :
  m' !! yref y = m !! yref y -> aligned m y p -> aligned m' y p.
Proof. unfold aligned. now intros ->. Qed.

Lemma NoDup_map_lookup {A B} (f : A -> B) (l : list A) (i j : nat) (x y : A) :
  NoDup (map f l) -> l !! i = Some x -> l !! j = Some y -> f x = f y -> i = j.
Proof.
  intros Hnd Hi Hj Heq.
  eapply NoDup_lookup; [exact Hnd | | ].
  - rewrite list_lookup_fmap, Hi. reflexivity.
  - rewrite list_lookup_fmap, Hj. simpl. now rewrite Heq.
Qed.

Section ScanLemmas.
Variables (ys : list ytype) (ps : list punit).
Hypothesis distinct : NoDup (map yref ys).

Lemma scanLeft_spec (fuel : nat) :
  forall left st n st',
    scanLeft ys ps fuel left st = Ok (n, st') ->
    (left <= n <= left + fuel)%nat
    /\ nextRef st' = nextRef st /\ mutations st' = mutations st
    /\ (forall k, (forall i y, (left <= i < n)%nat -> ys !! i = Some y -> yref y <> k) ->
                  mapping st' !! k = mapping st !! k)
    /\ (forall i y p, (left <= i < n)%nat -> ys !! i = Some y -> ps !! i = Some p ->
                      aligned (mapping st') y p).
Proof.
  induction fuel as [ | fuel IH]; intros left st n st' Hrun; simpl in Hrun.
  - injection Hrun as <- <-. repeat split; try lia; auto; intros; lia.
  - destruct (ys !! left) as [leftY | ] eqn:HY; [ | discriminate].
    destruct (ps !! left) as [leftP | ] eqn:HP; [ | discriminate].
    assert (Hstep : forall st1,
               nextRef st1 = nextRef st -> mutations st1 = mutations st ->
               (forall k, yref leftY <> k -> mapping st1 !! k = mapping st !! k) ->
               aligned (mapping st1) leftY leftP ->
               scanLeft ys ps fuel (S left) st1 = Ok (n, st') ->
               (left <= n <= left + S fuel)%nat
               /\ nextRef st' = nextRef st /\ mutations st' = mutations st
               /\ (forall k, (forall i y, (left <= i < n)%nat -> ys !! i = Some y ->
                                          yref y <> k) ->
                             mapping st' !! k = mapping st !! k)
               /\ (forall i y p, (left <= i < n)%nat -> ys !! i = Some y ->
                                 ps !! i = Some p -> aligned (mapping st') y p)).
    { intros st1 Hr1 Hm1 Hf1 Ha1 Hrest.
      destruct (IH _ _ _ _ Hrest) as (Hn & Hr & Hmu & Hframe & Hal).
      split; [lia | ]. split; [congruence | ]. split; [congruence | ]. split.
      - intros k Hk. rewrite Hframe.
        + apply Hf1. apply (Hk left); [lia | assumption].
        + intros i y Hi. apply (Hk i). lia.
      - intros i y p Hi Hy Hp.
        destruct (decide (i = left)) as [-> | Hne].
        + assert (y = leftY) as -> by congruence.
          assert (p = leftP) as -> by congruence.
          eapply aligned_frame; [ | exact Ha1].
          apply Hframe. intros j y' Hj Hy' Heq.
          assert (j = left) by (eapply NoDup_map_lookup; eauto). lia.
        + apply (Hal i); auto. lia. }
    destruct (mappedIdentity (mapping st !! yref leftY) leftP) eqn:Hid.
    + apply (Hstep st); auto. now left.
    + destruct (equalYTypePNode leftY leftP) as [[ | ] | | ] eqn:Heq;
        simpl in Hrun; try discriminate.
      * apply (Hstep (mappingSet (yref leftY) leftP st)); auto.
        -- intros k Hk. simpl. now apply lookup_insert_ne.
        -- now right.
      * injection Hrun as <- <-. repeat split; try lia; auto; intros; lia.
Qed.

Lemma scanLeft_all (fuel : nat) :
  forall left st,
    (forall i, (left <= i < left + fuel)%nat ->
               exists y p, ys !! i = Some y /\ ps !! i = Some p
                           /\ aligned (mapping st) y p) ->
    exists st',
      scanLeft ys ps fuel left st = Ok ((left + fuel)%nat, st')
      /\ nextRef st' = nextRef st /\ mutations st' = mutations st.
Proof.
  induction fuel as [ | fuel IH]; intros left st Hall; simpl.
  - exists st. rewrite Nat.add_0_r. auto.
  - destruct (Hall left ltac:(lia)) as (y & p & HY & HP & Ha).
    rewrite HY, HP.
    assert (Hnext : forall st1,
               nextRef st1 = nextRef st -> mutations st1 = mutations st ->
               (forall k, yref y <> k -> mapping st1 !! k = mapping st !! k) ->
               exists st',
                 scanLeft ys ps fuel (S left) st1 = Ok ((left + S fuel)%nat, st')
                 /\ nextRef st' = nextRef st /\ mutations st' = mutations st).
    { intros st1 Hr1 Hm1 Hf1.
      destruct (IH (S left) st1) as (st' & Hrun & Hr & Hm).
      - intros i Hi. destruct (Hall i ltac:(lia)) as (y' & p' & HY' & HP' & Ha').
        exists y', p'. repeat split; auto.
        eapply aligned_frame; [ | exact Ha'].
        apply Hf1. intros Heq.
        assert (left = i) by (eapply NoDup_map_lookup; eauto). lia.
      - exists st'. replace (left + S fuel)%nat with (S left + fuel)%nat by lia.
        repeat split; congruence. }
    destruct (mappedIdentity (mapping st !! yref y) p) eqn:Hid.
    + apply Hnext; auto.
    + destruct Ha as [Ha | Ha]; [congruence | ]. rewrite Ha. simpl.
      apply Hnext; auto. intros k Hk. simpl. now apply lookup_insert_ne.
Qed.
End ScanLemmas.

Lemma sameRefs_refl (a : list pnode) : sameRefs a a = true.
Proof. induction a as [ | x a IH]; simpl; [reflexivity | ]. now rewrite Nat.eqb_refl. Qed.

Lemma mappedIdentity_refl (p : punit) : mappedIdentity (Some p) p = true.
Proof. destruct p; simpl; [apply Nat.eqb_refl | apply sameRefs_refl]. Qed.

Section ScanRightLemmas.
Variables (ys : list ytype) (ps : list punit).
Hypothesis distinct : NoDup (map yref ys).

Lemma scanRight_spec (fuel : nat) :
  forall right st n st',
    (right + fuel <= length ys)%nat ->
    scanRight ys ps fuel right st = Ok (n, st') ->
    (right <= n <= right + fuel)%nat
    /\ nextRef st' = nextRef st /\ mutations st' = mutations st
    /\ (forall k, (forall j y, (right <= j < n)%nat ->
                               ys !! (length ys - j - 1)%nat = Some y -> yref y <> k) ->
                  mapping st' !! k = mapping st !! k)
    /\ (forall j y p, (right <= j < n)%nat ->
                      ys !! (length ys - j - 1)%nat = Some y ->
                      ps !! (length ps - j - 1)%nat = Some p ->
                      aligned (mapping st') y p).
Proof.
  induction fuel as [ | fuel IH]; intros right st n st' Hlen Hrun; simpl in Hrun.
  - injection Hrun as <- <-. repeat split; try lia; auto; intros; lia.
  - destruct (ys !! (length ys - right - 1)%nat) as [rightY | ] eqn:HY; [ | discriminate].
    destruct (ps !! (length ps - right - 1)%nat) as [rightP | ] eqn:HP; [ | discriminate].
    assert (Hstep : forall st1,
               nextRef st1 = nextRef st -> mutations st1 = mutations st ->
               (forall k, yref rightY <> k -> mapping st1 !! k = mapping st !! k) ->
               aligned (mapping st1) rightY rightP ->
               scanRight ys ps fuel (S right) st1 = Ok (n, st') ->
               (right <= n <= right + S fuel)%nat
               /\ nextRef st' = nextRef st /\ mutations st' = mutations st
               /\ (forall k, (forall j y, (right <= j < n)%nat ->
                                          ys !! (length ys - j - 1)%nat = Some y ->
                                          yref y <> k) ->
                             mapping st' !! k = mapping st !! k)
               /\ (forall j y p, (right <= j < n)%nat ->
                                 ys !! (length ys - j - 1)%nat = Some y ->
                                 ps !! (length ps - j - 1)%nat = Some p ->
                                 aligned (mapping st') y p)).
    { intros st1 Hr1 Hm1 Hf1 Ha1 Hrest.
      destruct (IH (S right) st1 n st' ltac:(lia) Hrest)
        as (Hn & Hr & Hmu & Hframe & Hal).
      split; [lia | ]. split; [congruence | ]. split; [congruence | ]. split.
      - intros k Hk. rewrite Hframe.
        + apply Hf1. apply (Hk right); [lia | assumption].
        + intros j y Hj. apply (Hk j). lia.
      - intros j y p Hj Hy Hp.
        destruct (decide (j = right)) as [-> | Hne].
        + assert (y = rightY) as -> by congruence.
          assert (p = rightP) as -> by congruence.
          eapply aligned_frame; [ | exact Ha1].
          apply Hframe. intros j y' Hj' Hy' Heq.
          assert (length ys - j - 1 = length ys - right - 1)%nat
            by (eapply NoDup_map_lookup; eauto).
          lia.
        + apply (Hal j); auto. lia. }
    destruct (mappedIdentity (mapping st !! yref rightY) rightP) eqn:Hid.
    + apply (Hstep st); auto. now left.
    + destruct (equalYTypePNode rightY rightP) as [[ | ] | | ] eqn:Heq;
        simpl in Hrun; try discriminate.
      * apply (Hstep (mappingSet (yref rightY) rightP st)); auto.
        -- intros k Hk. simpl. now apply lookup_insert_ne.
        -- now right.
      * injection Hrun as <- <-. repeat split; try lia; auto; intros; lia.
Qed.
End ScanRightLemmas.

Section TextUpdate.
Variables (ops : YTextOps) (clientID : nat).

Lemma updateYText_spec (r : nat) (items : list titem) (ptexts : list pnode)
    (st : ystate) :
  let t' := fst (updateYText ops clientID (XmlText r items) ptexts st) in
  let st' := snd (updateYText ops clientID (XmlText r items) ptexts st) in
  yref t' = r /\ nextRef st' = nextRef st
  /\ mapping st' = <[r := UTexts ptexts]> (mapping st).
Proof.
  unfold updateYText.
  destruct (ytextTrans items) as [str nAttrs].
  destruct (d_remove _); destruct (d_insert _);
    repeat (match goal with
            | |- context [ytext_insert ?o ?c ?k ?i ?x ?s] =>
                destruct (ytext_insert o c k i x s)
            | |- context [ytext_applyDelta ?o ?c ?k ?i ?d] =>
                destruct (ytext_applyDelta o c k i d)
            end); simpl; auto.
Qed.
End TextUpdate.

Lemma yref_in_allRefs (t : ytype) : In (yref t) (allRefs t).
Proof. rewrite allRefs_items. now left. Qed.

Lemma NoDup_insert_fresh {A} (l : list A) (i : nat) (x : A) :
  NoDup l -> ~ In x l -> NoDup (<[i := x]> l).
Proof.
  revert i. induction l as [ | a l IH]; intros i Hnd Hx; [assumption | ].
  apply NoDup_cons in Hnd as [Ha Hnd].
  destruct i as [ | i]; simpl.
  - apply NoDup_cons. split; [ | assumption].
    intros Hin. apply Hx. right. now apply list_elem_of_In.
  - apply NoDup_cons. split.
    + intros Hin. apply list_elem_of_In in Hin.
      assert (Hcases : In a l \/ a = x).
      { clear -Hin. revert i Hin. induction l as [ | b l IH]; intros i Hin;
          [destruct Hin | ].
        destruct i as [ | i]; simpl in Hin.
        - destruct Hin as [-> | Hin]; [now right | left; now right].
        - destruct Hin as [-> | Hin]; [left; now left | ].
          destruct (IH _ Hin); [left; now right | now right]. }
      destruct Hcases as [Hin' | ->].
      * apply Ha. now apply list_elem_of_In.
      * apply Hx. now left.
    + apply IH; [assumption | ]. intros Hin. apply Hx. now right.
Qed.

Section MiddleInvariant.
Variables (ys0 : list ytype) (ps : list punit) (n0 : nat).
Hypothesis disjoint : forall i j y y' r,
    ys0 !! i = Some y -> ys0 !! j = Some y' -> i <> j ->
    In r (allRefs y) -> ~ In r (allRefs y').
Hypothesis old : forall i y r, ys0 !! i = Some y -> In r (allRefs y) -> (r < n0)%nat.

(** A child outside position [m] keeps its mapping entry when only the
    references of the original child at [m] and fresh ones are written. *)
Lemma inv_other_kept (left right : nat) (l : list ytype) (st st1 : ystate)
    (m i : nat) (c y : ytype) :
  inv ys0 ps n0 left right l st ->
  ys0 !! m = Some c -> l !! i = Some y -> i <> m ->
  (forall k, (k < nextRef st)%nat -> ~ In k (allRefs c) ->
             mapping st1 !! k = mapping st !! k) ->
  mapping st1 !! yref y = mapping st !! yref y.
Proof.
  intros Hinv Hc Hy Hne Hframe.
  destruct (inv_origin _ _ _ _ _ _ _ Hinv i y Hy) as [(c' & Hc' & Href) | Hfresh].
  - apply Hframe.
    + pose proof (old i c' (yref c') Hc' (yref_in_allRefs c')).
      pose proof (inv_next _ _ _ _ _ _ _ Hinv). lia.
    + rewrite Href. apply (disjoint i m c' c); auto. apply yref_in_allRefs.
  - apply Hframe; [lia | ].
    intros Hin. pose proof (old m c _ Hc Hin). lia.
Qed.

Lemma inv_replace (left right : nat) (l : list ytype) (st st1 : ystate)
    (m : nat) (c t : ytype) (left' right' : nat) :
  inv ys0 ps n0 left right l st ->
  (left <= m < length ys0 - right)%nat ->
  ys0 !! m = Some c ->
  (left' = S left /\ right' = right /\ m = left
   \/ left' = left /\ right' = S right /\ m = (length ys0 - right - 1)%nat) ->
  (yref t = yref c \/ (yref t = nextRef st /\ (nextRef st < nextRef st1)%nat)) ->
  (nextRef st <= nextRef st1)%nat ->
  (forall k, (k < nextRef st)%nat -> ~ In k (allRefs c) ->
             mapping st1 !! k = mapping st !! k) ->
  (forall p, (m = left /\ left' = S left -> ps !! left = Some p -> aligned (mapping st1) t p)
             /\ (m = (length ys0 - right - 1)%nat /\ right' = S right ->
                 ps !! (length ps - right - 1)%nat = Some p -> aligned (mapping st1) t p)) ->
  inv ys0 ps n0 left' right' (<[m := t]> l) st1.
Proof.
  intros Hinv Hm Hc Hside Href Hnext Hframe Hal.
  pose proof (inv_len _ _ _ _ _ _ _ Hinv) as Hlen.
  assert (Hlm : l !! m = Some c) by (rewrite (inv_mid _ _ _ _ _ _ _ Hinv m Hm); exact Hc).
  assert (Hkeep : forall i y, l !! i = Some y -> i <> m ->
                              mapping st1 !! yref y = mapping st !! yref y).
  { intros i y Hy Hne. eapply inv_other_kept; eauto. }
  constructor.
  - now rewrite length_insert.
  - intros i Hi. rewrite list_lookup_insert_ne by lia.
    apply (inv_mid _ _ _ _ _ _ _ Hinv). lia.
  - intros i y p Hi Hy Hp.
    destruct (decide (i = m)) as [-> | Hne].
    + rewrite list_lookup_insert_eq in Hy by lia. injection Hy as <-.
      destruct Hside as [(-> & -> & ->) | (-> & -> & ->)]; [ | lia].
      now apply (proj1 (Hal p)).
    + rewrite list_lookup_insert_ne in Hy by congruence.
      eapply aligned_frame; [now apply (Hkeep i) | ].
      apply (inv_left _ _ _ _ _ _ _ Hinv i); auto.
      destruct Hside as [(-> & -> & ->) | (-> & -> & ->)]; lia.
  - intros j y p Hj Hy Hp.
    destruct (decide ((length ys0 - j - 1)%nat = m)) as [Heq | Hne].
    + rewrite Heq, list_lookup_insert_eq in Hy by lia. injection Hy as <-.
      destruct Hside as [(-> & -> & ->) | (-> & -> & ->)]; [lia | ].
      assert (j = right) as -> by lia.
      now apply (proj2 (Hal p)).
    + rewrite list_lookup_insert_ne in Hy by congruence.
      eapply aligned_frame; [now apply (Hkeep (length ys0 - j - 1)%nat) | ].
      apply (inv_right _ _ _ _ _ _ _ Hinv j); auto.
      destruct Hside as [(-> & -> & ->) | (-> & -> & ->)]; lia.
  - intros i y Hy.
    destruct (decide (i = m)) as [-> | Hne].
    + rewrite list_lookup_insert_eq in Hy by lia. injection Hy as <-.
      destruct Href as [Href | [Href Hlt]].
      * left. eauto.
      * right. pose proof (inv_next _ _ _ _ _ _ _ Hinv). lia.
    + rewrite list_lookup_insert_ne in Hy by congruence.
      destruct (inv_origin _ _ _ _ _ _ _ Hinv i y Hy) as [? | ?]; [now left | right; lia].
  - rewrite list_fmap_insert.
    destruct Href as [Href | [Href Hlt]].
    + rewrite Href, list_insert_id; [apply (inv_nodup _ _ _ _ _ _ _ Hinv) | ].
      now rewrite list_lookup_fmap, Hlm.
    + apply NoDup_insert_fresh; [apply (inv_nodup _ _ _ _ _ _ _ Hinv) | ].
      intros Hin. apply in_map_iff in Hin as (y & Heq & Hin).
      apply list_elem_of_In, list_elem_of_lookup in Hin as [i Hi].
      destruct (inv_origin _ _ _ _ _ _ _ Hinv i y Hi) as [(c' & Hc' & Hr) | Hfresh].
      * pose proof (old i c' (yref c') Hc' (yref_in_allRefs c')).
        pose proof (inv_next _ _ _ _ _ _ _ Hinv). lia.
      * lia.
  - pose proof (inv_next _ _ _ _ _ _ _ Hinv). lia.
Qed.
End MiddleInvariant.

Lemma sameShell_refl (frag : ytype) : sameShell frag frag.
Proof. repeat split. Qed.

Lemma sameShell_trans (a b c : ytype) : sameShell a b -> sameShell b c -> sameShell a c.
Proof.
  unfold sameShell. intros (A1 & A2 & A3 & A4 & A5) (B1 & B2 & B3 & B4 & B5).
  repeat split; congruence.
Qed.

Lemma withItems_shell (frag : ytype) (items : list yitem) :
  sameShell frag (withItems frag items).
Proof. destruct frag; repeat split. Qed.

Lemma toArray_withItems (frag : ytype) (items : list yitem) :
  isXmlText frag = false -> toArray (withItems frag items) = liveTypes items.
Proof. destruct frag; [discriminate | reflexivity | reflexivity]. Qed.

Lemma setChild_spec (frag : ytype) (i : nat) (t : ytype) :
  isXmlText frag = false ->
  sameShell frag (setChild frag i t)
  /\ toArray (setChild frag i t) = <[i := t]> (toArray frag).
Proof.
  intros Hc. split; [apply withItems_shell | ].
  unfold setChild. rewrite toArray_withItems by assumption.
  apply liveTypes_updateLive.
Qed.

Section Replace.
Variable clientID : nat.

Lemma replaceChild_spec (frag : ytype) (i : nat) (t : ytype) (st st1 : ystate) :
  isXmlText frag = false -> (i < length (toArray frag))%nat ->
  let frag1 := fst (deleteChildren frag i 1 st) in
  let frag2 := fst (insertChildren clientID frag1 i [t] st1) in
  let st2 := snd (insertChildren clientID frag1 i [t] st1) in
  sameShell frag frag2
  /\ toArray frag2 = <[i := t]> (toArray frag)
  /\ mapping (snd (deleteChildren frag i 1 st)) = mapping st
  /\ nextRef (snd (deleteChildren frag i 1 st)) = nextRef st
  /\ mapping st2 = mapping st1 /\ nextRef st2 = nextRef st1.
Proof.
  intros Hc Hi. simpl.
  unfold insertChildren, deleteChildren. simpl.
  destruct (freshClock st1) as [c st1'] eqn:Hfc.
  assert (Hst : mapping st1' = mapping st1 /\ nextRef st1' = nextRef st1)
    by (unfold freshClock in Hfc; injection Hfc as <- <-; split; reflexivity).
  simpl. split.
  { eapply sameShell_trans; apply withItems_shell. }
  split; [ | tauto].
  pose proof (withItems_shell frag (deleteLive (yitems frag) i 1)) as (Ht & _).
  rewrite toArray_withItems by congruence.
  assert (Hitems : yitems (withItems frag (deleteLive (yitems frag) i 1))
                   = deleteLive (yitems frag) i 1) by (now destruct frag).
  rewrite Hitems.
  rewrite liveTypes_insertLive.
  - rewrite liveTypes_deleteLive. rewrite liveTypes_cons. simpl.
    rewrite toArray_liveTypes.
    set (l := liveTypes (yitems frag)) in *.
    assert (Hl : (i < length l)%nat) by exact Hi.
    rewrite take_app_le by (rewrite length_take; lia).
    rewrite take_take, Nat.min_id.
    rewrite drop_app_ge by (rewrite length_take; lia).
    rewrite length_take, Nat.min_l by lia. rewrite Nat.sub_diag, drop_0.
    destruct (lookup_lt_is_Some_2 l i Hl) as [x Hx].
    rewrite (insert_take_drop l i t) by lia.
    now replace (i + 1)%nat with (S i) by lia.
  - rewrite liveTypes_deleteLive, length_app, length_take, length_drop.
    change (liveTypes (yitems frag)) with (toArray frag). lia.
Qed.
End Replace.

Section MiddleLoopSpec.
Variables (ops : YTextOps) (clientID : nat).
Variable recurse : ytype -> pnode -> ystate -> res (ytype * ystate).
Variable create : punit -> ystate -> res (ytype * ystate).
Variables (ys0 : list ytype) (ps : list punit) (n0 : nat).
Hypothesis disjoint : forall i j y y' r,
    ys0 !! i = Some y -> ys0 !! j = Some y' -> i <> j ->
    In r (allRefs y) -> ~ In r (allRefs y').
Hypothesis old : forall i y r, ys0 !! i = Some y -> In r (allRefs y) -> (r < n0)%nat.
Hypothesis created_ok : forall u st t st',
    create u st = Ok (t, st') -> created st t u st'.
Hypothesis recurse_ok : forall i y lp st t st',
    ys0 !! i = Some y -> (n0 <= nextRef st)%nat ->
    recurse y lp st = Ok (t, st') ->
    yref t = yref y /\ (nextRef st <= nextRef st')%nat
    /\ (forall k, (k < nextRef st)%nat -> ~ In k (allRefs y) ->
                  mapping st' !! k = mapping st !! k)
    /\ mapping st' !! yref y = Some (UNode lp).

Lemma updateElementPair_spec (leftY rightY : ytype) (leftP rightP : punit)
    (left right : nat) (frag : ytype) (st : ystate)
    (left' right' : nat) (frag' : ytype) (st' : ystate) :
  isXmlText frag = false ->
  inv ys0 ps n0 left right (toArray frag) st ->
  (left + right < Nat.min (length ys0) (length ps))%nat ->
  ys0 !! left = Some leftY -> ps !! left = Some leftP ->
  ys0 !! (length ys0 - right - 1)%nat = Some rightY ->
  ps !! (length ps - right - 1)%nat = Some rightP ->
  updateElementPair clientID recurse create ys0 leftY leftP rightY rightP
    left right frag st = Ok (left', right', frag', st') ->
  stepKeeps ys0 ps n0 left right frag st 1 left' right' frag' st'.
Proof.
  intros Hc Hinv Hlt HlY HlP HrY HrP Hrun.
  pose proof (inv_len _ _ _ _ _ _ _ Hinv) as Hlen.
  pose proof (inv_next _ _ _ _ _ _ _ Hinv) as Hnext.
  unfold updateElementPair in Hrun.
  destruct (decideUpdate _ _ _ _ _) as [[updateLeft updateRight] | | ];
    cbn [mbind res_bind bind] in Hrun; try discriminate.
  destruct updateLeft; [ | destruct updateRight].
  - (* the left pair *)
    destruct leftP as [lp | ]; [ | discriminate].
    destruct (recurse leftY lp st) as [[t st1] | | ] eqn:Hrec;
      cbn [mbind res_bind bind] in Hrun; try discriminate.
    injection Hrun as <- <- <- <-.
    destruct (recurse_ok _ _ _ _ _ _ HlY Hnext Hrec) as (Href & Hn1 & Hframe & Hmap).
    destruct (setChild_spec frag left t Hc) as [Hshell Harr].
    split; [exact Hshell | ]. split.
    { rewrite Harr.
      apply (inv_replace ys0 ps n0 disjoint old left right _ st st1 left leftY t);
        auto; try lia.
      intros p. split; [ | lia].
      intros _ Hp. assert (p = UNode lp) as -> by congruence.
      left. rewrite Href, Hmap. apply mappedIdentity_refl. }
    repeat split; try lia.
    intros key Hk Hout. apply Hframe; [assumption | ]. now apply (Hout left).
  - (* the right pair *)
    destruct rightP as [rp | ]; [ | discriminate].
    destruct (recurse rightY rp st) as [[t st1] | | ] eqn:Hrec;
      cbn [mbind res_bind bind] in Hrun; try discriminate.
    injection Hrun as <- <- <- <-.
    destruct (recurse_ok _ _ _ _ _ _ HrY Hnext Hrec) as (Href & Hn1 & Hframe & Hmap).
    destruct (setChild_spec frag (length ys0 - right - 1) t Hc) as [Hshell Harr].
    split; [exact Hshell | ]. split.
    { rewrite Harr.
      apply (inv_replace ys0 ps n0 disjoint old left right _ st st1
               (length ys0 - right - 1)%nat rightY t);
        auto; try lia.
      intros p. split; [lia | ].
      intros _ Hp. assert (p = UNode rp) as -> by congruence.
      left. rewrite Href, Hmap. apply mappedIdentity_refl. }
    repeat split; try lia.
    intros key Hk Hout. apply Hframe; [assumption | ].
    now apply (Hout (length ys0 - right - 1)%nat).
  - (* a new child in the place of the left one *)
    destruct (deleteChildren frag left 1 st) as [frag1 st1] eqn:Hdel.
    destruct (create leftP st1) as [[t st2] | | ] eqn:Hcre;
      cbn [mbind res_bind bind] in Hrun; try discriminate.
    destruct (insertChildren clientID frag1 left [t] st2) as [frag2 st3] eqn:Hins.
    injection Hrun as <- <- <- <-.
    pose proof (replaceChild_spec clientID frag left t st st2 Hc ltac:(lia)) as Hrep.
    cbv zeta in Hrep. rewrite Hdel in Hrep. cbn [fst snd] in Hrep.
    rewrite Hins in Hrep. cbn [fst snd] in Hrep.
    destruct Hrep as (Hshell & Harr & Hm1 & Hn1 & Hm3 & Hn3).
    destruct (created_ok _ _ _ _ Hcre) as (Href & Hlt2 & Hmap & Hframe & _).
    split; [exact Hshell | ]. split.
    { rewrite Harr.
      apply (inv_replace ys0 ps n0 disjoint old left right _ st st3 left leftY t
               (S left) right Hinv ltac:(lia) HlY
               (or_introl (conj eq_refl (conj eq_refl eq_refl)))).
      - right. split; [congruence | lia].
      - lia.
      - intros k Hk _. rewrite Hm3, Hframe by lia. now rewrite Hm1.
      - intros p. split; [ | lia].
        intros _ Hp. assert (p = leftP) as -> by congruence.
        left. rewrite Hm3, Hmap. apply mappedIdentity_refl. }
    repeat split; try lia.
    intros key Hk _. rewrite Hm3, Hframe by lia. now rewrite Hm1.
Qed.

Lemma middleStep_spec (left right : nat) (frag : ytype) (st : ystate)
    (left' right' : nat) (frag' : ytype) (st' : ystate) :
  isXmlText frag = false ->
  inv ys0 ps n0 left right (toArray frag) st ->
  (left + right < Nat.min (length ys0) (length ps))%nat ->
  middleStep ops clientID recurse create ys0 ps left right frag st
  = Ok (left', right', frag', st') ->
  stepKeeps ys0 ps n0 left right frag st 1 left' right' frag' st'.
Proof.
  intros Hc Hinv Hlt Hrun. unfold middleStep in Hrun.
  destruct (ys0 !! left) as [leftY | ] eqn:HlY; [ | discriminate].
  destruct (ps !! left) as [leftP | ] eqn:HlP; [ | discriminate].
  destruct (ys0 !! (length ys0 - right - 1)%nat) as [rightY | ] eqn:HrY;
    [ | discriminate].
  destruct (ps !! (length ps - right - 1)%nat) as [rightP | ] eqn:HrP;
    [ | discriminate].
  assert (Helse : updateElementPair clientID recurse create ys0 leftY leftP rightY
                    rightP left right frag st = Ok (left', right', frag', st') ->
                  stepKeeps ys0 ps n0 left right frag st 1 left' right' frag' st')
    by (now apply updateElementPair_spec).
  destruct leftY as [r items | | ]; try (now apply Helse).
  destruct leftP as [lp | ptexts]; [now apply Helse | clear Helse].
  pose proof (inv_len _ _ _ _ _ _ _ Hinv) as Hlen.
  pose proof (inv_next _ _ _ _ _ _ _ Hinv) as Hnext.
  assert (Hl : toArray frag !! left = Some (XmlText r items))
    by (rewrite (inv_mid _ _ _ _ _ _ _ Hinv left) by lia; exact HlY).
  destruct (equalYTextPText (XmlText r items) ptexts) as [[ | ] | | ] eqn:Heq;
    cbn [mbind res_bind bind] in Hrun; try discriminate.
  - injection Hrun as <- <- <- <-.
    split; [apply sameShell_refl | ]. split.
    { rewrite <- (list_insert_id (toArray frag) left (XmlText r items) Hl).
      apply (inv_replace ys0 ps n0 disjoint old left right _ st st left
               (XmlText r items) (XmlText r items)
               (S left) right Hinv ltac:(lia) HlY
               (or_introl (conj eq_refl (conj eq_refl eq_refl)))).
      - now left.
      - lia.
      - reflexivity.
      - intros p. split; [ | lia].
        intros _ Hp. assert (p = UTexts ptexts) as -> by congruence.
        right. exact Heq. }
    repeat split; try lia.
  - destruct (updateYText ops clientID (XmlText r items) ptexts st) as [t st1] eqn:Hup.
    injection Hrun as <- <- <- <-.
    pose proof (updateYText_spec ops clientID r items ptexts st) as Hspec.
    cbv zeta in Hspec. rewrite Hup in Hspec. cbn [fst snd] in Hspec.
    destruct Hspec as (Href & Hn1 & Hmap).
    destruct (setChild_spec frag left t Hc) as [Hshell Harr].
    split; [exact Hshell | ]. split.
    { rewrite Harr.
      apply (inv_replace ys0 ps n0 disjoint old left right _ st st1 left
               (XmlText r items) t
               (S left) right Hinv ltac:(lia) HlY
               (or_introl (conj eq_refl (conj eq_refl eq_refl)))).
      - now left.
      - lia.
      - intros k _ Hk. rewrite Hmap. apply lookup_insert_ne.
        intros <-. apply Hk. now left.
      - intros p. split; [ | lia].
        intros _ Hp. assert (p = UTexts ptexts) as -> by congruence.
        left. rewrite Href, Hmap, lookup_insert_eq. apply mappedIdentity_refl. }
    repeat split; try lia.
    intros key _ Hout. rewrite Hmap. apply lookup_insert_ne.
    intros <-. apply (Hout left (XmlText r items) HlY). now left.
Qed.

Lemma stepKeeps_trans (left right : nat) (frag : ytype) (st : ystate)
    (k1 k2 l1 r1 l2 r2 : nat) (f1 f2 : ytype) (s1 s2 : ystate) :
  stepKeeps ys0 ps n0 left right frag st k1 l1 r1 f1 s1 ->
  stepKeeps ys0 ps n0 l1 r1 f1 s1 k2 l2 r2 f2 s2 ->
  stepKeeps ys0 ps n0 left right frag st (k1 + k2) l2 r2 f2 s2.
Proof.
  intros (Hs1 & Hi1 & He1 & Hl1 & Hr1 & Hn1 & Hf1) (Hs2 & Hi2 & He2 & Hl2 & Hr2 & Hn2 & Hf2).
  split; [eapply sameShell_trans; eauto | ]. split; [assumption | ].
  repeat split; try lia.
  intros key Hk Hout. rewrite Hf2 by (auto; lia). now apply Hf1.
Qed.

Lemma middleLoop_spec (k : nat) :
  forall left right frag st left' right' frag' st',
    isXmlText frag = false ->
    inv ys0 ps n0 left right (toArray frag) st ->
    (left + right + k <= Nat.min (length ys0) (length ps))%nat ->
    middleLoop ops clientID recurse create ys0 ps k left right frag st
    = Ok (left', right', frag', st') ->
    stepKeeps ys0 ps n0 left right frag st k left' right' frag' st'.
Proof.
  induction k as [ | k IH]; intros left right frag st left' right' frag' st'
                                  Hc Hinv Hk Hrun; simpl in Hrun.
  - injection Hrun as <- <- <- <-.
    pose proof (inv_next _ _ _ _ _ _ _ Hinv).
    split; [apply sameShell_refl | ]. split; [exact Hinv | ].
    repeat split; try lia.
  - destruct (middleStep _ _ _ _ _ _ _ _ _ _) as [[[[l1 r1] f1] s1] | | ] eqn:Hstep;
      cbn [mbind res_bind bind] in Hrun; try discriminate.
    assert (Hlt : (left + right < Nat.min (length ys0) (length ps))%nat) by lia.
    pose proof (middleStep_spec left right frag st l1 r1 f1 s1 Hc Hinv Hlt Hstep)
      as Hkeep.
    destruct Hkeep as (Hs1 & Hi1 & He1 & Hrest).
    assert (Hc1 : isXmlText f1 = false) by (destruct Hs1 as (-> & _); exact Hc).
    assert (Hk1 : (l1 + r1 + k <= Nat.min (length ys0) (length ps))%nat) by lia.
    pose proof (IH l1 r1 f1 s1 left' right' frag' st' Hc1 Hi1 Hk1 Hrun) as Hkeep2.
    change (S k) with (1 + k)%nat.
    eapply stepKeeps_trans; [ | exact Hkeep2].
    split; [exact Hs1 | ]. split; [exact Hi1 | ]. split; [exact He1 | exact Hrest].
Qed.
End MiddleLoopSpec.

(** *** The references of the children of a fragment *)

Lemma itemsRefs_cons (it : yitem) (rest : list yitem) :
  itemsRefs (it :: rest) = (allRefs (itemType it) ++ itemsRefs rest)%list.
Proof. reflexivity. Qed.

Lemma liveTypes_refs (items : list yitem) :
  NoDup (itemsRefs items) ->
  (forall i y, liveTypes items !! i = Some y ->
               (forall r, In r (allRefs y) -> In r (itemsRefs items))
               /\ NoDup (allRefs y))
  /\ (forall i j y y' r,
         liveTypes items !! i = Some y -> liveTypes items !! j = Some y' ->
         i <> j -> In r (allRefs y) -> ~ In r (allRefs y')).
Proof.
  induction items as [ | it rest IH]; intros Hnd.
  - split; intros; discriminate.
  - rewrite itemsRefs_cons in Hnd. apply NoDup_app in Hnd as (Hit & Hdisj & Hrest).
    destruct (IH Hrest) as [IH1 IH2].
    assert (Hsub : forall i y, liveTypes rest !! i = Some y ->
                               forall r, In r (allRefs y) ->
                                         ~ In r (allRefs (itemType it))).
    { intros i y Hy r Hr Hin.
      apply (Hdisj r); [now apply list_elem_of_In | ].
      apply list_elem_of_In. now apply (IH1 i y Hy). }
    rewrite liveTypes_cons. destruct (itemDeleted it).
    + split.
      * intros i y Hy. destruct (IH1 i y Hy) as [Hin Hn]. split; [ | assumption].
        intros r Hr. rewrite itemsRefs_cons. apply in_or_app. right. auto.
      * exact IH2.
    + split.
      * intros [ | i] y Hy; simpl in Hy.
        -- injection Hy as <-. split; [ | assumption].
           intros r Hr. rewrite itemsRefs_cons. apply in_or_app. now left.
        -- destruct (IH1 i y Hy) as [Hin Hn]. split; [ | assumption].
           intros r Hr. rewrite itemsRefs_cons. apply in_or_app. right. auto.
      * intros [ | i] [ | j] y y' r Hy Hy' Hne Hr; simpl in Hy, Hy'.
        -- lia.
        -- injection Hy as <-. intros Hin. now apply (Hsub j y' Hy' r).
        -- injection Hy' as <-. now apply (Hsub i y Hy r).
        -- apply (IH2 i j y y' r); auto.
Qed.

Lemma children_refs (t : ytype) :
  NoDup (allRefs t) ->
  (forall i y, toArray t !! i = Some y ->
               (forall r, In r (allRefs y) -> In r (allRefs t) /\ r <> yref t)
               /\ NoDup (allRefs y))
  /\ (forall i j y y' r,
         toArray t !! i = Some y -> toArray t !! j = Some y' ->
         i <> j -> In r (allRefs y) -> ~ In r (allRefs y'))
  /\ NoDup (map yref (toArray t)).
Proof.
  rewrite allRefs_items. intros Hnd. apply NoDup_cons in Hnd as [Hroot Hnd].
  destruct (liveTypes_refs _ Hnd) as [H1 H2].
  split; [ | split].
  - intros i y Hy. destruct (H1 i y Hy) as [Hin Hn]. split; [ | assumption].
    intros r Hr. split; [right; auto | ].
    intros ->. apply Hroot. apply list_elem_of_In. auto.
  - exact H2.
  - apply NoDup_alt. intros i j r Hi Hj.
    rewrite list_lookup_fmap in Hi, Hj.
    destruct (toArray t !! i) as [y | ] eqn:Hy; [ | discriminate].
    destruct (toArray t !! j) as [y' | ] eqn:Hy'; [ | discriminate].
    simpl in Hi, Hj. injection Hi as Hi. injection Hj as Hj.
    destruct (decide (i = j)) as [ | Hne]; [assumption | exfalso].
    apply (H2 i j y y' r Hy Hy' Hne).
    + rewrite <- Hi. apply yref_in_allRefs.
    + rewrite <- Hj. apply yref_in_allRefs.
Qed.

(** *** The attribute loops *)

Lemma lookupKey_setKey_ne (k k' : string) (v : jsval) (o : attrs) :
  k <> k' -> lookupKey k (setKey k' v o) = lookupKey k o.
Proof.
  intros Hne. induction o as [ | [k0 w] rest IH]; simpl.
  - destruct (String.eqb_spec k' k); [congruence | reflexivity].
  - destruct (String.eqb_spec k0 k') as [-> | Hk0]; simpl.
    + destruct (String.eqb_spec k' k); [congruence | reflexivity].
    + destruct (String.eqb_spec k0 k); [reflexivity | exact IH].
Qed.

Lemma lookupKey_deleteKey_eq (k : string) (o : attrs) :
  lookupKey k (deleteKey k o) = None.
Proof.
  induction o as [ | [k0 w] rest IH]; simpl; [reflexivity | ].
  destruct (String.eqb_spec k0 k) as [-> | Hne]; [exact IH | ].
  simpl. destruct (String.eqb_spec k0 k); [congruence | exact IH].
Qed.

Lemma lookupKey_deleteKey_ne (k k' : string) (o : attrs) :
  k <> k' -> lookupKey k (deleteKey k' o) = lookupKey k o.
Proof.
  intros Hne. induction o as [ | [k0 w] rest IH]; simpl; [reflexivity | ].
  destruct (String.eqb_spec k0 k') as [-> | Hk0]; simpl.
  - destruct (String.eqb_spec k' k); [congruence | exact IH].
  - destruct (String.eqb_spec k0 k); [reflexivity | exact IH].
Qed.

Lemma deleteKey_absent (k : string) (o : attrs) :
  lookupKey k o = None -> deleteKey k o = o.
Proof.
  induction o as [ | [k0 w] rest IH]; simpl; [reflexivity | ].
  destruct (String.eqb_spec k0 k); [discriminate | ].
  intros H. now rewrite IH.
Qed.

Lemma strictEq_refl (v : jsval) :
  isNull v = false -> v <> VNaN -> strictEq v (Some v) = true.
Proof.
  destruct v; simpl; try discriminate; try congruence; intros _ _.
  - apply Bool.eqb_reflx.
  - apply Z.eqb_refl.
  - apply String.eqb_refl.
  - apply Nat.eqb_refl.
Qed.

Lemma updateAttributes_pure (r : nat) (n : string) (a : attrs) (c : list yitem)
    (pa : attrs) (st : ystate) :
  exists st',
    updateAttributes (XmlElement r n a c) pa st
    = (XmlElement r n (removePhase pa a (setPhase a pa a)) c, st')
    /\ mapping st' = mapping st /\ nextRef st' = nextRef st.
Proof.
  unfold updateAttributes, setPhase, removePhase.
  cbn [getAttributes].
  assert (Hset : forall cur st,
    exists st',
      fold_left
        (fun (acc : ytype * ystate) (kv : string * jsval) =>
           let '(t, st) := acc in
           let '(key, v) := kv in
           if negb (isNull v) then
             if negb (strictEq v (lookupKey key a)) && negb (String.eqb key "ychange")
             then setAttribute key v t st else (t, st)
           else removeAttribute key t st)
        pa (XmlElement r n cur c, st)
      = (XmlElement r n
           (fold_left
              (fun cur kv =>
                 if negb (isNull (snd kv)) then
                   if negb (strictEq (snd kv) (lookupKey (fst kv) a))
                      && negb (String.eqb (fst kv) "ychange")
                   then setKey (fst kv) (snd kv) cur else cur
                 else deleteKey (fst kv) cur) pa cur) c, st')
      /\ mapping st' = mapping st /\ nextRef st' = nextRef st).
  { induction pa as [ | [key v] rest IH]; intros cur st0; cbn [fold_left fst snd].
    - eauto.
    - destruct (isNull v); cbn [negb].
      + unfold removeAttribute. cbn [getAttributes withAttrs yref].
        destruct (lookupKey key cur) eqn:Hl.
        * destruct (IH (deleteKey key cur) (record (RemoveAttribute r key) st0))
            as (st' & Heq & Hm & Hn).
          exists st'. split; [exact Heq | split; [exact Hm | exact Hn]].
        * rewrite (deleteKey_absent _ _ Hl). apply IH.
      + destruct (negb (strictEq v (lookupKey key a)) && negb (String.eqb key "ychange")).
        * unfold setAttribute. cbn [getAttributes withAttrs yref].
          destruct (IH (setKey key v cur) (record (SetAttribute r key v) st0))
            as (st' & Heq & Hm & Hn).
          exists st'. split; [exact Heq | split; [exact Hm | exact Hn]].
        * apply IH. }
  assert (Hrem : forall ya cur st,
    exists st',
      fold_left
        (fun (acc : ytype * ystate) (kv : string * jsval) =>
           let '(t, st) := acc in
           match lookupKey (fst kv) pa with
           | None => removeAttribute (fst kv) t st
           | Some _ => (t, st)
           end)
        ya (XmlElement r n cur c, st)
      = (XmlElement r n
           (fold_left
              (fun cur kv =>
                 match lookupKey (fst kv) pa with
                 | None => deleteKey (fst kv) cur
                 | Some _ => cur
                 end) ya cur) c, st')
      /\ mapping st' = mapping st /\ nextRef st' = nextRef st).
  { induction ya as [ | [key v] rest IH]; intros cur st0; cbn [fold_left fst snd].
    - eauto.
    - destruct (lookupKey key pa); [apply IH | ].
      unfold removeAttribute. cbn [getAttributes withAttrs yref].
      destruct (lookupKey key cur) eqn:Hl.
      + destruct (IH (deleteKey key cur) (record (RemoveAttribute r key) st0))
          as (st' & Heq & Hm & Hn).
          exists st'. split; [exact Heq | split; [exact Hm | exact Hn]].
      + rewrite (deleteKey_absent _ _ Hl). apply IH. }
  destruct (Hset a st) as (st1 & Heq1 & Hm1 & Hn1).
  cbv zeta. rewrite Heq1.
  destruct (Hrem a (fold_left
              (fun cur kv =>
                 if negb (isNull (snd kv)) then
                   if negb (strictEq (snd kv) (lookupKey (fst kv) a))
                      && negb (String.eqb (fst kv) "ychange")
                   then setKey (fst kv) (snd kv) cur else cur
                 else deleteKey (fst kv) cur) pa a) st1) as (st2 & Heq2 & Hm2 & Hn2).
  exists st2. split; [exact Heq2 | split; congruence].
Qed.

Lemma lookupKey_None (k : string) (o : attrs) :
  lookupKey k o = None <-> ~ In k (map fst o).
Proof.
  induction o as [ | [k0 w] rest IH]; simpl; [tauto | ].
  destruct (String.eqb_spec k0 k) as [-> | Hne].
  - split; [discriminate | intros H; exfalso; apply H; now left].
  - rewrite IH. tauto.
Qed.

Lemma lookupKey_In_Some (k : string) (v : jsval) (o : attrs) :
  In (k, v) o -> lookupKey k o <> None.
Proof.
  intros Hin H. apply lookupKey_None in H. apply H.
  change k with (fst (k, v)). now apply in_map.
Qed.

Lemma setPhase_spec (a : attrs) (pa : attrs) :
  forall cur,
    NoDup (map fst pa) ->
    (forall key v, In (key, v) pa -> key <> "ychange" -> v <> VNaN) ->
    (forall key, In key (map fst pa) -> lookupKey key cur = lookupKey key a) ->
    (forall key v, In (key, v) pa -> isNull v = false -> key <> "ychange" ->
                   strictEq v (lookupKey key (setPhase a pa cur)) = true)
    /\ (forall key v, In (key, v) pa -> isNull v = true ->
                      lookupKey key (setPhase a pa cur) = None)
    /\ (forall key, ~ In key (map fst pa) ->
                    lookupKey key (setPhase a pa cur) = lookupKey key cur).
Proof.
  induction pa as [ | [k v] rest IH]; intros cur Hnd Hnan Hcur.
  - repeat split; intros; try contradiction; reflexivity.
  - apply NoDup_cons in Hnd as [Hk Hnd].
    assert (Hk' : ~ In k (map fst rest)) by (intros H; apply Hk; now apply list_elem_of_In).
    unfold setPhase. cbn [fold_left fst snd].
    set (cur1 := if negb (isNull v) then _ else _).
    assert (Hother : forall key, key <> k -> lookupKey key cur1 = lookupKey key cur).
    { intros key Hne. subst cur1. destruct (isNull v); cbn [negb].
      - now apply lookupKey_deleteKey_ne.
      - destruct (_ && _); [now apply lookupKey_setKey_ne | reflexivity]. }
    destruct (IH cur1 Hnd) as (H1 & H2 & H3).
    { intros key w Hin. apply (Hnan key w). now right. }
    { intros key Hin. rewrite Hother by (intros ->; contradiction).
      apply Hcur. now right. }
    fold (setPhase a rest cur1).
    split; [ | split].
    + intros key w [[= -> ->] | Hin] Hw Hy; [ | now apply (H1 key w)].
      rewrite H3 by assumption. subst cur1. rewrite Hw. cbn [negb].
      destruct (strictEq w (lookupKey key a)) eqn:Hs; cbn [negb andb].
      * rewrite Hcur by (now left). exact Hs.
      * destruct (String.eqb_spec key "ychange"); [contradiction | ]. cbn [negb].
        rewrite lookupKey_setKey.
        apply strictEq_refl; [assumption | apply (Hnan key w); [now left | assumption]].
    + intros key w [[= -> ->] | Hin] Hw; [ | now apply (H2 key w)].
      rewrite H3 by assumption. subst cur1. rewrite Hw. cbn [negb].
      apply lookupKey_deleteKey_eq.
    + intros key Hkey. simpl in Hkey.
      rewrite H3 by tauto. apply Hother. intros ->. tauto.
Qed.

Lemma lookupKey_deleteKey_None (k k' : string) (o : attrs) :
  lookupKey k o = None -> lookupKey k (deleteKey k' o) = None.
Proof.
  intros H. destruct (decide (k = k')) as [-> | Hne].
  - apply lookupKey_deleteKey_eq.
  - now rewrite lookupKey_deleteKey_ne.
Qed.

Lemma removePhase_spec (pa : attrs) (ya : attrs) :
  forall cur,
    (forall key, lookupKey key pa <> None ->
                 lookupKey key (removePhase pa ya cur) = lookupKey key cur)
    /\ (forall key, lookupKey key pa = None ->
                    In key (map fst ya) \/ lookupKey key cur = None ->
                    lookupKey key (removePhase pa ya cur) = None).
Proof.
  induction ya as [ | [k v] rest IH]; intros cur.
  - split; intros; [reflexivity | ]. simpl in *. tauto.
  - unfold removePhase. cbn [fold_left fst snd].
    set (cur1 := match lookupKey k pa with None => _ | Some _ => _ end).
    fold (removePhase pa rest cur1).
    destruct (IH cur1) as (H1 & H2).
    split.
    + intros key Hkey. rewrite H1 by assumption. subst cur1.
      destruct (lookupKey k pa) eqn:Hk; [reflexivity | ].
      apply lookupKey_deleteKey_ne. congruence.
    + intros key Hkey Hcase. apply H2; [assumption | ].
      simpl in Hcase. destruct Hcase as [[-> | Hin] | Hnone].
      * right. subst cur1. rewrite Hkey. apply lookupKey_deleteKey_eq.
      * now left.
      * right. subst cur1. destruct (lookupKey k pa); [assumption | ].
        now apply lookupKey_deleteKey_None.
Qed.

Lemma attributes_synced (a pa : attrs) :
  stableAttrs pa ->
  attrsSynced (removePhase pa a (setPhase a pa a)) pa.
Proof.
  intros [Hnd Hnan].
  destruct (setPhase_spec a pa a Hnd Hnan ltac:(reflexivity)) as (S1 & S2 & S3).
  destruct (removePhase_spec pa a (setPhase a pa a)) as (R1 & R2).
  split; [ | split].
  - intros key v Hin Hv Hy. rewrite R1 by (eapply lookupKey_In_Some; eauto).
    now apply S1.
  - intros key v Hin Hv. rewrite R1 by (eapply lookupKey_In_Some; eauto).
    now apply (S2 key v).
  - intros key Hkey Hpa. apply Hkey. apply R2; [assumption | ].
    destruct (lookupKey key a) eqn:Ha.
    + left. destruct (in_dec string_dec key (map fst a)) as [Hi | Hn];
        [assumption | apply lookupKey_None in Hn; congruence].
    + right. rewrite S3 by (now apply lookupKey_None). exact Ha.
Qed.

Lemma updateAttributes_fixed (r : nat) (n : string) (a : attrs) (c : list yitem)
    (pa : attrs) (st : ystate) :
  attrsSynced a pa ->
  updateAttributes (XmlElement r n a c) pa st = (XmlElement r n a c, st).
Proof.
  intros (H1 & H2 & H3). unfold updateAttributes. cbn [getAttributes].
  assert (Hset : forall pa', (forall kv, In kv pa' -> In kv pa) ->
    fold_left
      (fun (acc : ytype * ystate) (kv : string * jsval) =>
         let '(t, st) := acc in
         let '(key, v) := kv in
         if negb (isNull v) then
           if negb (strictEq v (lookupKey key a)) && negb (String.eqb key "ychange")
           then setAttribute key v t st else (t, st)
         else removeAttribute key t st)
      pa' (XmlElement r n a c, st) = (XmlElement r n a c, st)).
  { induction pa' as [ | [key v] rest IH]; intros Hsub; cbn [fold_left]; [reflexivity | ].
    assert (Hin : In (key, v) pa) by (apply Hsub; now left).
    destruct (isNull v) eqn:Hv; cbn [negb].
    - unfold removeAttribute. cbn [getAttributes]. rewrite (H2 key v Hin Hv).
      apply IH. intros kv Hkv. apply Hsub. now right.
    - destruct (String.eqb_spec key "ychange") as [-> | Hne].
      + rewrite andb_false_r. apply IH. intros kv Hkv. apply Hsub. now right.
      + rewrite (H1 key v Hin Hv Hne). cbn [negb andb].
        apply IH. intros kv Hkv. apply Hsub. now right. }
  rewrite (Hset pa) by auto.
  assert (Hrem : forall ya', (forall kv, In kv ya' -> In kv a) ->
    fold_left
      (fun (acc : ytype * ystate) (kv : string * jsval) =>
         let '(t, st) := acc in
         match lookupKey (fst kv) pa with
         | None => removeAttribute (fst kv) t st
         | Some _ => (t, st)
         end)
      ya' (XmlElement r n a c, st) = (XmlElement r n a c, st)).
  { induction ya' as [ | [key v] rest IH]; intros Hsub; cbn [fold_left fst];
      [reflexivity | ].
    assert (Hin : In (key, v) a) by (apply Hsub; now left).
    destruct (lookupKey key pa) eqn:Hp.
    - apply IH. intros kv Hkv. apply Hsub. now right.
    - exfalso. apply (H3 key); [ | assumption]. eapply lookupKey_In_Some; eauto. }
  apply Hrem. auto.
Qed.

(** *** The children after the loop *)

Lemma final_children {A} (l ins : list A) (np nl nr : nat) :
  (nl + nr <= length l)%nat -> (nl + nr <= np)%nat ->
  length ins = (np - nl - nr)%nat ->
  let final := (take nl l ++ ins ++ drop (length l - nr) l)%list in
  length final = np
  /\ forall i y, final !! i = Some y ->
       ((i < nl)%nat /\ l !! i = Some y)
       \/ ((nl <= i < nl + length ins)%nat /\ ins !! (i - nl)%nat = Some y)
       \/ exists j, (j < nr)%nat /\ i = (np - j - 1)%nat
                    /\ l !! (length l - j - 1)%nat = Some y.
Proof.
  intros Hl Hp Hins final. subst final. split.
  - rewrite !length_app, length_take, length_drop. lia.
  - intros i y Hy.
    destruct (decide (i < nl)%nat) as [Hi | Hi].
    + left. split; [assumption | ].
      rewrite lookup_app_l in Hy by (rewrite length_take; lia).
      now rewrite lookup_take_lt in Hy by lia.
    + rewrite lookup_app_r in Hy by (rewrite length_take; lia).
      rewrite length_take, Nat.min_l in Hy by lia.
      destruct (decide (i - nl < length ins)%nat) as [Hi2 | Hi2].
      * right. left. split; [lia | ].
        now rewrite lookup_app_l in Hy by lia.
      * right. right.
        rewrite lookup_app_r in Hy by lia.
        rewrite lookup_drop in Hy.
        assert (Hlt : (length l - nr + (i - nl - length ins) < length l)%nat)
          by (eapply lookup_lt_Some; eauto).
        exists (np - i - 1)%nat. split; [lia | ]. split; [lia | ].
        rewrite <- Hy. f_equal. lia.
Qed.

Section Tail.
Variables (ops : YTextOps) (clientID : nat).

Lemma deleteChildren_spec (frag : ytype) (i n : nat) (st : ystate) :
  isXmlText frag = false ->
  sameShell frag (fst (deleteChildren frag i n st))
  /\ toArray (fst (deleteChildren frag i n st))
     = (take i (toArray frag) ++ drop (i + n) (toArray frag))%list
  /\ mapping (snd (deleteChildren frag i n st)) = mapping st
  /\ nextRef (snd (deleteChildren frag i n st)) = nextRef st.
Proof.
  intros Hc. unfold deleteChildren. simpl. split; [apply withItems_shell | ].
  split; [ | split; reflexivity].
  rewrite toArray_withItems by assumption. apply liveTypes_deleteLive.
Qed.

Lemma insertChildren_spec (frag : ytype) (i : nat) (ts : list ytype) (st : ystate) :
  isXmlText frag = false -> (i <= length (toArray frag))%nat ->
  sameShell frag (fst (insertChildren clientID frag i ts st))
  /\ toArray (fst (insertChildren clientID frag i ts st))
     = (take i (toArray frag) ++ ts ++ drop i (toArray frag))%list
  /\ mapping (snd (insertChildren clientID frag i ts st)) = mapping st
  /\ nextRef (snd (insertChildren clientID frag i ts st)) = nextRef st.
Proof.
  intros Hc Hi. unfold insertChildren.
  pose proof (newItems_state clientID ts st) as (Hm & Hn & _ & Hty & Hlive).
  destruct (newItems clientID ts st) as [items st1]. simpl in *.
  split; [apply withItems_shell | ]. split; [ | split; assumption].
  rewrite toArray_withItems by assumption.
  rewrite liveTypes_insertLive by exact Hi.
  now rewrite (liveTypes_new items Hlive), Hty.
Qed.
End Tail.

(** *** The state after one run *)

Lemma attributeStep (F : ytype) (P : pnode) (st : ystate) :
  exists frag st2,
    (if isXmlElement F then updateAttributes F (pattrsOf P) st else (F, st))
    = (frag, st2)
    /\ yitems frag = yitems F /\ yref frag = yref F
    /\ isXmlText frag = isXmlText F /\ isXmlElement frag = isXmlElement F
    /\ nodeNameMismatch frag P = nodeNameMismatch F P
    /\ mapping st2 = mapping st /\ nextRef st2 = nextRef st
    /\ (isXmlElement F = true -> stableAttrs (pattrsOf P) ->
        attrsSynced (getAttributes frag) (pattrsOf P)).
Proof.
  destruct F as [r its | r n a c | r c]; cbn [isXmlElement].
  - exists (XmlText r its), st. repeat split; discriminate.
  - destruct (updateAttributes_pure r n a c (pattrsOf P) st) as (st2 & Heq & Hm & Hn).
    do 2 eexists. split; [exact Heq | ].
    do 7 (split; [first [reflexivity | assumption] | ]).
    intros _ Hnd. cbn [getAttributes]. now apply attributes_synced.
  - exists (XmlFragment r c), st. repeat split; discriminate.
Qed.

Lemma NoDup_final (l ins : list ytype) (np nl nr bound : nat) :
  (nl + nr <= length l)%nat -> (nl + nr <= np)%nat ->
  length ins = (np - nl - nr)%nat ->
  NoDup (map yref l) -> NoDup (map yref ins) ->
  (forall i y, l !! i = Some y -> (yref y < bound)%nat) ->
  (forall i y, ins !! i = Some y -> (bound <= yref y)%nat) ->
  NoDup (map yref (take nl l ++ ins ++ drop (length l - nr) l)).
Proof.
  intros Hl Hp Hins Hnl Hni Hlo Hhi.
  destruct (final_children l ins np nl nr Hl Hp Hins) as [_ Hcases].
  apply NoDup_alt. intros i j r Hi Hj.
  rewrite list_lookup_fmap in Hi, Hj.
  destruct (_ !! i) as [y | ] eqn:Hy; [ | discriminate].
  destruct (_ !! j) as [y' | ] eqn:Hy'; [ | discriminate].
  simpl in Hi, Hj. injection Hi as Hi. injection Hj as Hj.
  assert (Hsame : forall a b, l !! a = Some y -> l !! b = Some y' -> a = b).
  { intros a b Ha Hb. apply (proj1 (NoDup_alt _) Hnl a b r);
      rewrite list_lookup_fmap; [rewrite Ha | rewrite Hb]; simpl; congruence. }
  destruct (Hcases i y Hy) as [[Hi1 Hi2] | [[Hi1 Hi2] | (a & Ha & Hia & Hi2)]];
    destruct (Hcases j y' Hy') as [[Hj1 Hj2] | [[Hj1 Hj2] | (b & Hb & Hjb & Hj2)]].
  - now apply Hsame.
  - pose proof (Hlo _ _ Hi2). pose proof (Hhi _ _ Hj2). lia.
  - pose proof (Hsame _ _ Hi2 Hj2). lia.
  - pose proof (Hhi _ _ Hi2). pose proof (Hlo _ _ Hj2). lia.
  - assert ((i - nl)%nat = (j - nl)%nat); [ | lia].
    apply (proj1 (NoDup_alt _) Hni _ _ r);
      rewrite list_lookup_fmap; [rewrite Hi2 | rewrite Hj2]; simpl; congruence.
  - pose proof (Hhi _ _ Hi2). pose proof (Hlo _ _ Hj2). lia.
  - pose proof (Hsame _ _ Hi2 Hj2). lia.
  - pose proof (Hlo _ _ Hi2). pose proof (Hhi _ _ Hj2). lia.
  - pose proof (Hsame _ _ Hi2 Hj2). lia.
Qed.

Lemma scans_inv (ys : list ytype) (ps : list punit) (st2 st3 st4 : ystate)
    (nleft nright : nat) :
  NoDup (map yref ys) ->
  scanLeft ys ps (Nat.min (length ps) (length ys)) 0 st2 = Ok (nleft, st3) ->
  scanRight ys ps (Nat.min (length ps) (length ys) - nleft - 1) 0 st3
  = Ok (nright, st4) ->
  inv ys ps (nextRef st2) nleft nright ys st4
  /\ (nleft + nright <= Nat.min (length ps) (length ys))%nat
  /\ nextRef st4 = nextRef st2
  /\ mutations st4 = mutations st2
  /\ (forall k, (forall i y, ys !! i = Some y -> yref y <> k) ->
                mapping st4 !! k = mapping st2 !! k).
Proof.
  intros Hnd HL HR.
  destruct (scanLeft_spec ys ps Hnd _ _ _ _ _ HL) as (L1 & L2 & L3 & L4 & L5).
  assert (Hfuel : (0 + (Nat.min (length ps) (length ys) - nleft - 1) <= length ys)%nat)
    by lia.
  destruct (scanRight_spec ys ps Hnd _ _ _ _ _ Hfuel HR) as (R1 & R2 & R3 & R4 & R5).
  split; [ | split; [lia | split; [congruence | split; [congruence | ]]]].
  - constructor.
    + reflexivity.
    + reflexivity.
    + intros i y p Hi Hy Hp.
      eapply aligned_frame; [ | apply (L5 i y p); [lia | assumption | assumption]].
      apply R4. intros j y' Hj Hy' Heq.
      assert (i = (length ys - j - 1)%nat); [ | lia].
      apply (proj1 (NoDup_alt _) Hnd _ _ (yref y));
        rewrite list_lookup_fmap; [rewrite Hy | rewrite Hy']; simpl; congruence.
    + intros j y p Hj Hy Hp. apply (R5 j y p); [lia | assumption | assumption].
    + intros i y Hy. left. eauto.
    + exact Hnd.
    + lia.
  - intros k Hk. rewrite R4, L4; [reflexivity | | ]; intros; eapply Hk; eauto.
Qed.

Section TailSpec.
Variables (ys0 : list ytype) (ps : list punit) (n0 : nat).

(** The children once the tail of [updateYFragment] has deleted the
    surplus and inserted [ins] between the cursors. *)
Lemma tail_core (nl nr : nat) (l ins final : list ytype) (st5 st' : ystate) :
  inv ys0 ps n0 nl nr l st5 ->
  (nl + nr <= length ys0)%nat -> (nl + nr <= length ps)%nat ->
  (forall i y, ys0 !! i = Some y -> (yref y < n0)%nat) ->
  length ins = (length ps - nl - nr)%nat ->
  final = (take nl l ++ ins ++ drop (length l - nr) l)%list ->
  (nextRef st5 <= nextRef st')%nat ->
  (forall k, (k < nextRef st5)%nat -> mapping st' !! k = mapping st5 !! k) ->
  (forall i t, ins !! i = Some t ->
               exists u, ps !! (nl + i)%nat = Some u
                         /\ mapping st' !! yref t = Some u
                         /\ (nextRef st5 <= yref t)%nat) ->
  NoDup (map yref ins) ->
  length final = length ps
  /\ (forall i y p, final !! i = Some y -> ps !! i = Some p -> aligned (mapping st') y p)
  /\ NoDup (map yref final)
  /\ (forall i y, final !! i = Some y ->
                  (exists j c, ys0 !! j = Some c /\ yref y = yref c)
                  \/ (n0 <= yref y)%nat).
Proof.
  intros Hinv Hly Hlp Hold Hins -> Hnext Hframe Hnew Hnd.
  pose proof (inv_len _ _ _ _ _ _ _ Hinv) as Hlen.
  pose proof (inv_next _ _ _ _ _ _ _ Hinv) as Hn0.
  assert (Hl : (nl + nr <= length l)%nat) by lia.
  destruct (final_children l ins (length ps) nl nr Hl Hlp Hins) as [Hflen Hcases].
  assert (Hlow : forall i y, l !! i = Some y -> (yref y < nextRef st5)%nat).
  { intros i y Hy.
    destruct (inv_origin _ _ _ _ _ _ _ Hinv i y Hy) as [(c & Hc & Hr) | Hfresh];
      [ | lia].
    pose proof (Hold i c Hc). lia. }
  split; [exact Hflen | ]. split; [ | split].
  - intros i y p Hy Hp.
    destruct (Hcases i y Hy) as [[Hi1 Hi2] | [[Hi1 Hi2] | (a & Ha & Hia & Hi2)]].
    + eapply aligned_frame; [apply Hframe, (Hlow i y Hi2) | ].
      now apply (inv_left _ _ _ _ _ _ _ Hinv i).
    + destruct (Hnew _ _ Hi2) as (u & Hu & Hm & _).
      replace (nl + (i - nl))%nat with i in Hu by lia.
      assert (u = p) as -> by congruence.
      left. rewrite Hm. apply mappedIdentity_refl.
    + eapply aligned_frame; [apply Hframe, (Hlow _ y Hi2) | ].
      apply (inv_right _ _ _ _ _ _ _ Hinv a); [assumption | now rewrite <- Hlen | ].
      now rewrite <- Hia.
  - apply (NoDup_final l ins (length ps) nl nr (nextRef st5)); auto.
    + apply (inv_nodup _ _ _ _ _ _ _ Hinv).
    + intros i y Hy. now destruct (Hnew _ _ Hy) as (u & _ & _ & ?).
  - intros i y Hy.
    assert (Hfrom : forall a, l !! a = Some y ->
              (exists j c, ys0 !! j = Some c /\ yref y = yref c) \/ (n0 <= yref y)%nat).
    { intros a Hya.
      destruct (inv_origin _ _ _ _ _ _ _ Hinv a y Hya) as [(c & Hc & Hr) | Hfresh];
        [left; eauto | right; lia]. }
    destruct (Hcases i y Hy) as [[Hi1 Hi2] | [[Hi1 Hi2] | (a & Ha & Hia & Hi2)]].
    + eapply Hfrom; eauto.
    + right. destruct (Hnew _ _ Hi2) as (u & _ & _ & ?). lia.
    + eapply Hfrom; eauto.
Qed.
End TailSpec.

Section TailRun.
Variables (ops : YTextOps) (clientID : nat).
Variables (ys0 : list ytype) (ps : list punit) (n0 : nat).

Lemma Forall2_created_lookup (ts : list ytype) (units : list punit)
    (lo hi : nat) (m : gmap nat punit) :
  Forall2 (fun t u => m !! yref t = Some u /\ (lo <= yref t < hi)%nat) ts units ->
  length ts = length units
  /\ forall i t, ts !! i = Some t ->
                 exists u, units !! i = Some u /\ m !! yref t = Some u
                           /\ (lo <= yref t)%nat.
Proof.
  induction 1 as [ | t u ts units [Hm Hr] _ [IHl IH]]; simpl.
  - split; [reflexivity | intros i t Ht; discriminate].
  - split; [now rewrite IHl | ].
    intros [ | i] t' Ht'; simpl in *.
    + injection Ht' as <-. exists u. repeat split; [assumption | lia].
    + now apply IH.
Qed.

Lemma tail_spec (fuel nl nr : nat) (frag5 : ytype) (st5 : ystate)
    (F' : ytype) (st' : ystate) :
  isXmlText frag5 = false ->
  inv ys0 ps n0 nl nr (toArray frag5) st5 ->
  (nl + nr)%nat = Nat.min (length ps) (length ys0) ->
  (forall i y, ys0 !! i = Some y -> (yref y < n0)%nat) ->
  (let '(frag, st) :=
     match (length ys0 - nl - nr)%nat with
     | O => (frag5, st5)
     | S _ => deleteChildren frag5 nl (length ys0 - nl - nr) st5
     end in
   if Nat.ltb (nl + nr) (length ps) then
     '(ins, st) ← createAllTypes ops clientID fuel
                    (take (length ps - nr - nl) (drop nl ps)) st;
     Ok (insertChildren clientID frag nl ins st)
   else Ok (frag, st)) = Ok (F', st') ->
  sameShell frag5 F'
  /\ (nextRef st5 <= nextRef st')%nat
  /\ (forall k, (k < nextRef st5)%nat -> mapping st' !! k = mapping st5 !! k)
  /\ length (toArray F') = length ps
  /\ (forall i y p, toArray F' !! i = Some y -> ps !! i = Some p ->
                    aligned (mapping st') y p)
  /\ NoDup (map yref (toArray F'))
  /\ (forall i y, toArray F' !! i = Some y ->
                  (exists j c, ys0 !! j = Some c /\ yref y = yref c)
                  \/ (n0 <= yref y)%nat).
Proof.
  intros Hc Hinv Hmin Hold Hrun.
  pose proof (inv_len _ _ _ _ _ _ _ Hinv) as Hlen.
  set (l := toArray frag5) in *.
  assert (Hcore : forall ins final,
    length ins = (length ps - nl - nr)%nat ->
    final = (take nl l ++ ins ++ drop (length l - nr) l)%list ->
    (nextRef st5 <= nextRef st')%nat ->
    (forall k, (k < nextRef st5)%nat -> mapping st' !! k = mapping st5 !! k) ->
    (forall i t, ins !! i = Some t ->
                 exists u, ps !! (nl + i)%nat = Some u
                           /\ mapping st' !! yref t = Some u
                           /\ (nextRef st5 <= yref t)%nat) ->
    NoDup (map yref ins) ->
    length final = length ps
    /\ (forall i y p, final !! i = Some y -> ps !! i = Some p ->
                      aligned (mapping st') y p)
    /\ NoDup (map yref final)
    /\ (forall i y, final !! i = Some y ->
                    (exists j c, ys0 !! j = Some c /\ yref y = yref c)
                    \/ (n0 <= yref y)%nat)).
  { intros ins final. apply (tail_core ys0 ps n0 nl nr l ins final st5 st' Hinv);
      [lia | lia | exact Hold]. }
  destruct (length ys0 - nl - nr)%nat as [ | d] eqn:Hdel.
  - destruct (Nat.ltb_spec (nl + nr) (length ps)) as [Hlt | Hge].
    + destruct (createAllTypes _ _ _ _ _) as [[ins st7] | | ] eqn:Hins;
        cbn [mbind res_bind bind] in Hrun; try discriminate.
      apply createAllWith_created in Hins
        as (Hn & Hframe & _ & Hall & Hnd);
        [ | apply createTypeFromTextOrElementNode_created].
      apply Forall2_created_lookup in Hall as [Hilen Hall].
      destruct (insertChildren_spec clientID frag5 nl ins st7 Hc ltac:(fold l; lia))
        as (Hs & Harr & Hm & Hnx).
      injection Hrun as Hrun. rewrite Hrun in Hs, Harr, Hm, Hnx.
      cbn [fst snd] in Hs, Harr, Hm, Hnx. fold l in Harr.
      split; [exact Hs | ]. split; [lia | ].
      split; [intros k Hk; rewrite Hm; now apply Hframe | ].
      rewrite Harr. apply (Hcore ins).
      * rewrite Hilen, length_take, length_drop. lia.
      * do 2 f_equal. f_equal. lia.
      * lia.
      * intros k Hk. rewrite Hm. now apply Hframe.
      * intros i t Ht. destruct (Hall i t Ht) as (u & Hu & Hmu & Hlo).
        exists u. split; [ | split; [now rewrite Hm | assumption]].
        apply lookup_take_Some in Hu as [Hu _]. now rewrite lookup_drop in Hu.
      * exact Hnd.
    + injection Hrun as <- <-.
      split; [apply sameShell_refl | ]. split; [lia | ]. split; [reflexivity | ].
      apply (Hcore []).
      * simpl. lia.
      * simpl. replace (length l - nr)%nat with nl by lia.
        now rewrite take_drop.
      * lia.
      * reflexivity.
      * intros i t Ht. discriminate.
      * constructor.
  - destruct (Nat.ltb_spec (nl + nr) (length ps)) as [Hlt | Hge]; [lia | ].
    destruct (deleteChildren_spec frag5 nl (S d) st5 Hc) as (Hs & Harr & Hm & Hnx).
    destruct (deleteChildren frag5 nl (S d) st5) as [frag6 st6].
    simpl in Hs, Harr, Hm, Hnx. injection Hrun as <- <-. fold l in Harr.
    split; [exact Hs | ]. split; [lia | ].
    split; [intros k Hk; now rewrite Hm | ].
    rewrite Harr. apply (Hcore []).
    + simpl. lia.
    + simpl. do 2 f_equal. lia.
    + lia.
    + intros k Hk. now rewrite Hm.
    + intros i t Ht. discriminate.
    + constructor.
Qed.
End TailRun.

Section RunOnce.
Variables (ops : YTextOps) (clientID : nat).

Lemma updateYFragment_post (fuel : nat) :
  forall F P st F' st',
    distinctRefs F st ->
    updateYFragment ops clientID fuel F P st = Ok (F', st') ->
    yref F' = yref F
    /\ (nextRef st <= nextRef st')%nat
    /\ (forall k, (k < nextRef st)%nat -> ~ In k (allRefs F) ->
                  mapping st' !! k = mapping st !! k)
    /\ mapping st' !! yref F = Some (UNode P)
    /\ ((isXmlElement F = true -> stableAttrs (pattrsOf P)) ->
        settled (mapping st') F' P).
Proof.
  induction fuel as [ | fuel IH]; intros F P st F' st' [Hnd Hold] Hrun;
    [discriminate | ].
  cbn [updateYFragment] in Hrun.
  destruct (nodeNameMismatch F P) eqn:Hname; [discriminate | ].
  destruct (isXmlText F) eqn:Htext; [discriminate | ].
  destruct (attributeStep F P (mappingSet (yref F) (UNode P) st))
    as (frag & st2 & Heq & Hitems & Hfref & Hftext & Hfel & Hfname & Hm2 & Hn2 & Hsync).
  rewrite Heq in Hrun.
  assert (Harr : toArray frag = toArray F) by (unfold toArray; now rewrite Hitems).
  rewrite Harr in Hrun.
  set (ys0 := toArray F) in *. set (ps := normalizePNodeContent P) in *.
  destruct (children_refs F Hnd) as (Hchild & Hdisj & Hnd0). fold ys0 in Hchild, Hdisj, Hnd0.
  destruct (scanLeft _ _ _ _ _) as [[nleft st3] | | ] eqn:HL;
    cbn [mbind res_bind bind] in Hrun; try discriminate.
  destruct (scanRight _ _ _ _ _) as [[nright st4] | | ] eqn:HR;
    cbn [mbind res_bind bind] in Hrun; try discriminate.
  destruct (scans_inv ys0 ps st2 st3 st4 nleft nright Hnd0 HL HR)
    as (Hinv & Hsum & Hn4 & _ & Hframe4).
  rewrite Hn2 in Hinv. cbn [mappingSet nextRef] in Hinv, Hn2.
  set (n0 := nextRef st) in *.
  assert (Hold0 : forall i y r, ys0 !! i = Some y -> In r (allRefs y) -> (r < n0)%nat).
  { intros i y r Hy Hr. apply Hold. now apply (Hchild i y Hy). }
  destruct (middleLoop _ _ _ _ _ _ _ _ _ _ _) as [[[[nl nr] frag5] st5] | | ] eqn:HM;
    cbn [mbind res_bind bind] in Hrun; try discriminate.
  assert (Hftext' : isXmlText frag = false) by congruence.
  assert (Hinv4 : inv ys0 ps n0 nleft nright (toArray frag) st4)
    by (rewrite Harr; exact Hinv).
  apply (middleLoop_spec ops clientID _ _ ys0 ps n0 Hdisj Hold0
           (createTypeFromTextOrElementNode_created ops clientID fuel)) in HM;
    [ | | exact Hftext' | exact Hinv4 | lia].
  2:{ intros i y lp s t s' Hy Hs Hrec.
      destruct (IH y lp s t s') as (I1 & I2 & I3 & I4 & _); [ | exact Hrec | auto].
      split; [apply (Hchild i y Hy) | ].
      intros r Hr. pose proof (Hold0 i y r Hy Hr). lia. }
  destruct HM as (Hshell5 & Hinv5 & Hsum5 & _ & _ & Hn5 & Hframe5).
  assert (Hc5 : isXmlText frag5 = false) by (destruct Hshell5 as (-> & _); congruence).
  assert (Hroots : forall i y, ys0 !! i = Some y -> (yref y < n0)%nat).
  { intros i y Hy. apply (Hold0 i y); [assumption | apply yref_in_allRefs]. }
  apply (tail_spec ops clientID ys0 ps n0 fuel nl nr frag5 st5 F' st' Hc5 Hinv5
           ltac:(lia) Hroots) in Hrun.
  destruct Hrun as (Hshell & Hn' & Hframe' & Hlen' & Hal' & Hnd' & Horigin').
  assert (Hrootref : yref F' = yref F).
  { destruct Hshell as (_ & -> & _). destruct Hshell5 as (_ & -> & _). exact Hfref. }
  assert (Hrootlt : (yref F < n0)%nat) by (apply Hold, yref_in_allRefs).
  assert (Hkeep : forall k, (k < n0)%nat ->
            (forall i y, ys0 !! i = Some y -> ~ In k (allRefs y)) ->
            mapping st' !! k = mapping st2 !! k).
  { intros k Hk Hout. rewrite Hframe' by lia. rewrite Hframe5 by (auto; lia).
    apply Hframe4. intros i y Hy <-. apply (Hout i y Hy), yref_in_allRefs. }
  split; [exact Hrootref | ]. split; [lia | ]. split; [ | split].
  - intros k Hk Hout. rewrite Hkeep; auto.
    + rewrite Hm2. cbn [mappingSet mapping]. apply lookup_insert_ne.
      intros <-. apply Hout, yref_in_allRefs.
    + intros i y Hy Hin. apply Hout. now apply (Hchild i y Hy).
  - rewrite Hkeep; auto.
    + rewrite Hm2. cbn [mappingSet mapping]. apply lookup_insert_eq.
    + intros i y Hy Hin. now apply (Hchild i y Hy) in Hin.
  - intros Hkeys.
    assert (HshellF : sameShell frag F') by (eapply sameShell_trans; eauto).
    destruct HshellF as (S1 & S2 & S3 & S4 & S5).
    split; [now rewrite S5, Hfname | ].
    split; [congruence | split; [exact Hlen' | split; [exact Hal' | ]]].
    split; [exact Hnd' | ]. split.
    + intros Hin. apply in_map_iff in Hin as (y & Hr & Hin).
      apply list_elem_of_In, list_elem_of_lookup in Hin as [i Hi].
      destruct (Horigin' i y Hi) as [(j & c & Hc & Hrc) | Hfresh]; [ | lia].
      destruct (proj1 (Hchild j c Hc) (yref c) (yref_in_allRefs c)) as [_ Hne].
      apply Hne. congruence.
    + intros Hel. rewrite S3.
      assert (Hel0 : isXmlElement F = true) by congruence. auto.
Qed.
End RunOnce.

Section RunAgain.
Variables (ops : YTextOps) (clientID : nat).

(** A settled fragment is left alone: the run only scans the children
    and writes the mapping. *)
Lemma updateYFragment_settled (fuel : nat) (F : ytype) (P : pnode) (st : ystate) :
  settled (mapping st) F P ->
  exists st',
    updateYFragment ops clientID (S fuel) F P st = Ok (F, st')
    /\ mutations st' = mutations st.
Proof.
  intros (Hname & Htext & Hlen & Hal & Hnd & Hroot & Hsync).
  cbn [updateYFragment]. rewrite Hname, Htext.
  set (st1 := mappingSet (yref F) (UNode P) st).
  assert (Hattr : (if isXmlElement F then updateAttributes F (pattrsOf P) st1
                   else (F, st1)) = (F, st1)).
  { destruct F as [r its | r n a c | r c]; cbn [isXmlElement]; try reflexivity.
    apply updateAttributes_fixed. now apply Hsync. }
  rewrite Hattr.
  set (ys := toArray F) in *. set (ps := normalizePNodeContent P) in *.
  rewrite <- Hlen, Nat.min_id.
  destruct (scanLeft_all ys ps Hnd (length ys) 0 st1) as (st3 & HL & _ & Hmut).
  { intros i Hi.
    destruct (lookup_lt_is_Some_2 ys i ltac:(lia)) as [y Hy].
    destruct (lookup_lt_is_Some_2 ps i ltac:(lia)) as [p Hp].
    exists y, p. split; [assumption | split; [assumption | ]].
    eapply aligned_frame; [ | exact (Hal i y p Hy Hp)].
    unfold st1. cbn [mappingSet mapping]. apply lookup_insert_ne.
    intros Heq. apply Hroot. rewrite Heq. apply in_map.
    apply list_elem_of_In. eapply list_elem_of_lookup_2; eauto. }
  rewrite HL. cbn [mbind res_bind bind].
  replace (length ys - (0 + length ys) - 1)%nat with 0%nat by lia.
  cbn [scanRight mbind res_bind bind].
  replace (length ys - (0 + length ys) - 0)%nat with 0%nat by lia.
  cbn [middleLoop mbind res_bind bind].
  replace (length ys - (0 + length ys) - 0)%nat with 0%nat by lia.
  replace (0 + length ys + 0 <? length ys)%nat with false
    by (symmetry; apply Nat.ltb_ge; lia).
  exists st3. split; [reflexivity | exact Hmut].
Qed.
End RunAgain.

(** X26. Re-running [updateYFragment] on the fragment and the state a
    completed run returned, with the same local node, returns the
    fragment as it is and records no mutation: nothing is inserted,
    deleted, set or removed.  The objects of the replicated tree are
    distinct, and when the root is an element the attribute values of the
    local node are identical to themselves (none is [NaN], unless under
    the key [ychange], which is never written). *)
Theorem updateYFragment_idempotent (ops : YTextOps) (clientID fuel : nat)
    (F : ytype) (P : pnode) (st : ystate) (F' : ytype) (st' : ystate) :
  distinctRefs F st ->
  (isXmlElement F = true -> stableAttrs (pattrsOf P)) ->
  updateYFragment ops clientID fuel F P st = Ok (F', st') ->
  exists st'',
    updateYFragment ops clientID fuel F' P st' = Ok (F', st'')
    /\ mutations st'' = mutations st'.
Proof.
  intros Hrefs Hattrs Hrun.
  destruct fuel as [ | fuel]; [discriminate | ].
  destruct (updateYFragment_post ops clientID (S fuel) F P st F' st' Hrefs Hrun)
    as (_ & _ & _ & _ & Hsettled).
  apply updateYFragment_settled, Hsettled, Hattrs.
Qed.

Lemma updateYFragment_idempotent_witness :
  exists F' st' st'',
    Examples.run Examples.fragment1 Rerun.doc2 Rerun.state1 = Ok (F', st')
    /\ mutations st' <> mutations Rerun.state1
    /\ Examples.run F' Rerun.doc2 st' = Ok (F', st'')
    /\ mutations st'' = mutations st'.
Proof.
  assert (Hrun : { r : ytype * ystate |
             Examples.run Examples.fragment1 Rerun.doc2 Rerun.state1 = Ok r
             /\ mutations (snd r) <> mutations Rerun.state1 }).
  { eexists. split; [vm_compute; reflexivity | vm_compute; discriminate]. }
  destruct Hrun as [[F' st'] [Hrun Hmut]].
  assert (Hrefs : distinctRefs Examples.fragment1 Rerun.state1).
  { split.
    - refine (bool_decide_unpack _ _). vm_compute. exact I.
    - apply List.Forall_forall. vm_compute.
      repeat (constructor; [lia | ]). constructor. }
  destruct (updateYFragment_idempotent PlainText.ops 7 10 Examples.fragment1
              Rerun.doc2 Rerun.state1 F' st' Hrefs
              ltac:(intros H; discriminate H) Hrun) as (st'' & Hagain & Hsame).
  exists F', st', st''. auto.
Defined.

(** C3, where the code departs from it: an attribute is left alone when
    its value is identical ([===]) to the one the element has, and [NaN]
    is not identical to itself.  For a paragraph whose attribute [width]
    is [NaN] the first run sets the attribute, and the second run, on
    the element and the state the first one returned, sets it again. *)
Theorem nan_attribute_is_set_again :
  exists F' st' F'' st'',
    Examples.run Rerun.paragraph Rerun.unsized Examples.emptyState = Ok (F', st')
    /\ mutations st' = [SetAttribute 1 "width" VNaN]
    /\ Examples.run F' Rerun.unsized st' = Ok (F'', st'')
    /\ mutations st'' = (mutations st' ++ [SetAttribute 1 "width" VNaN])%list.
Proof. do 4 eexists. vm_compute. repeat split. Qed.

(** ** Positions: the round trip *)

(** *** Paths *)

Lemma yitems_lookup_nontext (t : ytype) (k : nat) (it : yitem) :
  yitems t !! k = Some it -> isXmlText t = false.
Proof. destruct t; [discriminate | reflexivity | reflexivity]. Qed.

Lemma itemAt_snoc (p : list nat) (k : nat) :
  forall t, itemAt t (p ++ [k]) = typeAt t p ≫= (fun t' => yitems t' !! k).
Proof.
  induction p as [ | i rest IH]; intros t; cbn [app itemAt typeAt].
  - change (Some t ≫= (fun t' => yitems t' !! k)) with (yitems t !! k).
    now destruct (yitems t !! k).
  - destruct (yitems t !! i) as [it | ]; [ | reflexivity].
    rewrite <- IH. now destruct rest.
Qed.

Lemma typeAt_snoc (p : list nat) (k : nat) :
  forall t, typeAt t (p ++ [k])
            = typeAt t p ≫= (fun t' => itemType <$> yitems t' !! k).
Proof.
  induction p as [ | i rest IH]; intros t; cbn [app typeAt].
  - change (Some t ≫= (fun t' => itemType <$> yitems t' !! k))
      with (itemType <$> yitems t !! k).
    now destruct (yitems t !! k).
  - destruct (yitems t !! i) as [it | ]; [apply IH | reflexivity].
Qed.

Lemma itemLive_snoc (p : list nat) (k : nat) :
  forall t t' it,
    typeAt t p = Some t' -> yitems t' !! k = Some it ->
    itemLive t (p ++ [k]) = negb (itemDeleted it).
Proof.
  induction p as [ | i rest IH]; intros t t' it Ht Hk; cbn [app itemLive typeAt] in *.
  - injection Ht as <-. now rewrite Hk.
  - destruct (yitems t !! i) as [it' | ]; [ | discriminate].
    rewrite <- (IH _ _ _ Ht Hk). now destruct rest.
Qed.

Section Paths.
Variable type : ytype.

Lemma nodeItem_cons (k : nat) (n : node) :
  nodeItem type (k :: n) = typeAt type (rev n) ≫= (fun t => yitems t !! k).
Proof. unfold nodeItem. cbn [rev]. apply itemAt_snoc. Qed.

Lemma nodeType_typeAt (n : node) : nodeType type n = typeAt type (rev n).
Proof.
  destruct n as [ | k up]; [reflexivity | ].
  unfold nodeType. rewrite nodeItem_cons. cbn [rev]. rewrite typeAt_snoc.
  now destruct (typeAt type (rev up)).
Qed.

Lemma nodeType_cons (k : nat) (n : node) :
  nodeType type (k :: n)
  = nodeType type n ≫= (fun t => itemType <$> yitems t !! k).
Proof. rewrite !nodeType_typeAt. cbn [rev]. apply typeAt_snoc. Qed.

Lemma reach_nodeType (n : node) (t : ytype) :
  reach type n t -> nodeType type n = Some t.
Proof.
  induction 1 as [ | n t k it _ IH Hk _]; [reflexivity | ].
  rewrite nodeType_cons, IH. cbn. now rewrite Hk.
Qed.

Lemma reach_nodeItem (n : node) (t : ytype) (k : nat) (it : yitem) :
  reach type n t -> yitems t !! k = Some it -> nodeItem type (k :: n) = Some it.
Proof.
  intros Hr Hk. rewrite nodeItem_cons, <- nodeType_typeAt, (reach_nodeType _ _ Hr).
  exact Hk.
Qed.

Lemma reach_typeAt (n : node) (t : ytype) :
  reach type n t -> typeAt type (rev n) = Some t.
Proof. intros Hr. rewrite <- nodeType_typeAt. now apply reach_nodeType. Qed.

Lemma reach_itemLive (n : node) (t : ytype) :
  reach type n t -> itemLive type (rev n) = true.
Proof.
  destruct 1 as [ | n t k it Hr Hk Hlive]; [reflexivity | ].
  cbn [rev]. rewrite (itemLive_snoc _ _ _ _ _ (reach_typeAt _ _ Hr) Hk).
  now rewrite Hlive.
Qed.

Lemma reach_not_deleted (n : node) (t : ytype) :
  reach type n t -> isRoot n || negb (nodeDeleted type n) = true.
Proof.
  destruct 1 as [ | n t k it Hr Hk Hlive]; [reflexivity | ].
  unfold nodeDeleted. rewrite (reach_nodeItem _ _ _ _ Hr Hk), Hlive. reflexivity.
Qed.

Lemma reach_current (m : gmap nat punit) (n : node) (t : ytype) :
  mappingCurrent m type -> reach type n t -> mappingCurrent m t.
Proof.
  intros Hroot. induction 1 as [ | n t k it _ IH Hk Hlive]; [assumption | ].
  inversion IH as [r items Heq | t' Htext Hall Heq]; subst.
  - discriminate.
  - apply (Hall it); [ | assumption].
    apply list_elem_of_In. eapply list_elem_of_lookup_2; eauto.
Qed.

(** A live element below a current type is in the mapping. *)
Lemma current_child (m : gmap nat punit) (t : ytype) (k : nat) (it : yitem) :
  mappingCurrent m t -> yitems t !! k = Some it -> itemDeleted it = false ->
  isXmlText (itemType it) = false ->
  exists p, m !! yref (itemType it) = Some (UNode p)
            /\ (nodeSize p = 2 + itemsSize m (yitems (itemType it))
                \/ (nodeSize p = 1 /\ firstLive (yitems (itemType it)) = None)).
Proof.
  intros Hcur Hk Hlive Htext.
  inversion Hcur as [r items Heq | t' Ht Hall Heq]; subst; [discriminate | ].
  apply (Hall it); auto.
  apply list_elem_of_In. eapply list_elem_of_lookup_2; eauto.
Qed.
End Paths.

(** *** The struct store *)

Lemma idsOf_items (t : ytype) :
  isXmlText t = false -> idsOf t = itemsIds (yitems t).
Proof.
  destruct t as [r items | r name a c | r c]; [discriminate | | ]; intros _;
    cbn [idsOf yitems]; unfold itemsIds;
    induction c as [ | [i d ct] rest IH]; cbn [map concat itemId itemType app];
    try reflexivity; now rewrite IH.
Qed.

Lemma weight_items (t : ytype) : weight t = itemsWeight (yitems t).
Proof.
  destruct t as [r items | r name a c | r c]; [reflexivity | | ];
    cbn [weight yitems]; unfold itemsWeight;
    induction c as [ | [i d ct] rest IH]; cbn [fold_right itemType];
    try reflexivity; now rewrite IH.
Qed.

Lemma zid_eq_dec (a b : zid) : {a = b} + {a <> b}.
Proof. decide equality; [apply Z.eq_dec | apply Nat.eq_dec]. Qed.

Lemma strlen_nonneg (s : string) : 0 <= strlen s.
Proof. unfold strlen. lia. Qed.

Lemma titemIdLength_nonneg (i : titem) : 0 <= titemIdLength i.
Proof.
  unfold titemIdLength. destruct (t_content i); [apply strlen_nonneg | lia | lia].
Qed.

Lemma in_titemIds (i : titem) (id : zid) :
  In id (titemIds i) <->
  zclient id = client (t_id i)
  /\ Z.of_nat (clock (t_id i)) <= zclock id
     < Z.of_nat (clock (t_id i)) + titemIdLength i.
Proof.
  unfold titemIds. rewrite in_map_iff. split.
  - intros (j & <- & Hj). apply in_seq in Hj. cbn [zclient zclock].
    split; [reflexivity | lia].
  - intros (Hc & Hk).
    exists (Z.to_nat (zclock id - Z.of_nat (clock (t_id i)))). split.
    + destruct id as [c k]. cbn [zclient zclock] in *. subst c. f_equal. lia.
    + apply in_seq. lia.
Qed.

Lemma textMatch_spec (i : titem) (id : zid) :
  Nat.eqb (client (t_id i)) (zclient id)
  && Z.leb (Z.of_nat (clock (t_id i))) (zclock id)
  && Z.ltb (zclock id) (Z.of_nat (clock (t_id i)) + titemIdLength i) = true
  <-> In id (titemIds i).
Proof.
  rewrite in_titemIds, !andb_true_iff, Nat.eqb_eq, Z.leb_le, Z.ltb_lt.
  intuition congruence.
Qed.

Lemma findTextItem_absent (items : list titem) (id : zid) :
  forall k, ~ In id (concat (map titemIds items)) -> findTextItem items id k = None.
Proof.
  induction items as [ | i rest IH]; intros k Hnot; cbn [findTextItem]; [reflexivity | ].
  cbn [map concat] in Hnot. rewrite in_app_iff in Hnot.
  destruct (_ && _ && _) eqn:Hm.
  - apply textMatch_spec in Hm. tauto.
  - apply IH. tauto.
Qed.

Lemma findTextItem_found (items : list titem) :
  forall k j ti off,
    NoDup (concat (map titemIds items)) ->
    items !! j = Some ti -> 0 <= off < titemIdLength ti ->
    findTextItem items
      (ZID (client (t_id ti)) (Z.of_nat (clock (t_id ti)) + off)) k
    = Some ((k + j)%nat, off).
Proof.
  induction items as [ | i rest IH]; intros k j ti off Hnd Hj Hoff; [discriminate | ].
  cbn [map concat] in Hnd. apply NoDup_app in Hnd as (_ & Hdisj & Hrest).
  set (id := ZID _ _).
  assert (Hin : In id (titemIds ti)).
  { apply in_titemIds. subst id. cbn [zclient zclock]. split; [reflexivity | lia]. }
  cbn [findTextItem]. destruct j as [ | j].
  - injection Hj as ->. rewrite (proj2 (textMatch_spec ti id) Hin).
    rewrite Nat.add_0_r. subst id. cbn [zclock]. do 2 f_equal. lia.
  - cbn in Hj. destruct (_ && _ && _) eqn:Hm.
    + exfalso. apply textMatch_spec in Hm.
      apply (Hdisj id); [now apply list_elem_of_In | ].
      apply list_elem_of_In, in_concat. exists (titemIds ti). split; [ | assumption].
      apply in_map. apply list_elem_of_In. eapply list_elem_of_lookup_2; eauto.
    + subst id. rewrite (IH (S k) j ti off Hrest Hj Hoff). do 2 f_equal. lia.
Qed.

Lemma itemMatch_spec (it : yitem) (id : zid) :
  Nat.eqb (client (itemId it)) (zclient id)
  && Z.eqb (Z.of_nat (clock (itemId it))) (zclock id) = true
  <-> zidOf (itemId it) = id.
Proof.
  rewrite andb_true_iff, Nat.eqb_eq, Z.eqb_eq. unfold zidOf.
  destruct id as [c k]. cbn [zclient zclock]. split; [intros [-> ->]; reflexivity | ].
  intros [= -> ->]. auto.
Qed.

Lemma findItem_nontext (t : ytype) (id : zid) :
  isXmlText t = false -> findItem t id = findInItems findItem id (yitems t) O.
Proof. destruct t; [discriminate | reflexivity | reflexivity]. Qed.

Lemma findItem_absent (id : zid) :
  forall t, ~ In id (idsOf t) -> findItem t id = None.
Proof.
  induction t as [r items | t Htext IH] using ytype_nested_ind; intros Hnot.
  - cbn [findItem idsOf] in *. now rewrite findTextItem_absent.
  - rewrite findItem_nontext by assumption. rewrite idsOf_items in Hnot by assumption.
    generalize O. induction IH as [ | it rest Hit _ IHrest]; intros k; [reflexivity | ].
    unfold itemsIds in Hnot. cbn [map concat] in Hnot.
    cbn [findInItems]. destruct (_ && _) eqn:Hm.
    + apply itemMatch_spec in Hm. exfalso. apply Hnot. now left.
    + rewrite Hit by (intros H; apply Hnot; right; apply in_app_iff; now left).
      apply IHrest. intros H. apply Hnot. right. apply in_app_iff. now right.
Qed.

Lemma findItem_Some_in (t : ytype) (id : zid) (r : list nat * nat * Z) :
  findItem t id = Some r -> In id (idsOf t).
Proof.
  intros H. destruct (in_dec zid_eq_dec id (idsOf t)) as [ | Hnot]; [assumption | ].
  rewrite findItem_absent in H by assumption. discriminate.
Qed.

Lemma in_itemsIds (items : list yitem) (k : nat) (it : yitem) (id : zid) :
  items !! k = Some it ->
  id = zidOf (itemId it) \/ In id (idsOf (itemType it)) ->
  In id (itemsIds items).
Proof.
  intros Hk Hin. unfold itemsIds. apply in_concat.
  exists (zidOf (itemId it) :: idsOf (itemType it)). split.
  - apply (in_map (fun it => zidOf (itemId it) :: idsOf (itemType it))).
    apply list_elem_of_In. eapply list_elem_of_lookup_2; eauto.
  - destruct Hin as [-> | Hin]; [now left | now right].
Qed.

(** The search stops at the item at index [i] when the id is that of
    the item or of an item below it, and no id occurs twice. *)
Lemma findInItems_at (id : zid) (items : list yitem) :
  forall k0 i it,
    NoDup (itemsIds items) -> items !! i = Some it ->
    id = zidOf (itemId it) \/ findItem (itemType it) id <> None ->
    findInItems findItem id items k0
    = findInItems findItem id [it] (k0 + i)%nat.
Proof.
  induction items as [ | it0 rest IH]; intros k0 i it Hnd Hi Hin; [discriminate | ].
  unfold itemsIds in Hnd. cbn [map concat] in Hnd.
  change (NoDup ((zidOf (itemId it0) :: idsOf (itemType it0)) ++ itemsIds rest)) in Hnd.
  apply NoDup_app in Hnd as (Hhead & Hdisj & Hrest).
  destruct i as [ | i].
  - injection Hi as ->. rewrite Nat.add_0_r. cbn [findInItems].
    destruct (_ && _) eqn:Hm; [reflexivity | ].
    destruct (findItem (itemType it) id) as [[[p idx] diff] | ] eqn:Hf; [reflexivity | ].
    exfalso. destruct Hin as [-> | Hin]; [ | contradiction].
    rewrite (proj2 (itemMatch_spec it _) eq_refl) in Hm. discriminate.
  - cbn in Hi.
    assert (Hrestin : In id (itemsIds rest)).
    { apply (in_itemsIds rest i it id Hi).
      destruct Hin as [-> | Hin]; [now left | right].
      destruct (findItem (itemType it) id) eqn:Hf; [ | contradiction].
      eapply findItem_Some_in; eauto. }
    assert (Hnothead : ~ In id (zidOf (itemId it0) :: idsOf (itemType it0))).
    { intros H. apply (Hdisj id); now apply list_elem_of_In. }
    cbn [findInItems]. destruct (_ && _) eqn:Hm.
    + apply itemMatch_spec in Hm. exfalso. apply Hnothead. now left.
    + rewrite findItem_absent by (intros H; apply Hnothead; now right).
      rewrite (IH (S k0) i it Hrest Hi Hin).
      replace (S k0 + i)%nat with (k0 + S i)%nat by lia. reflexivity.
Qed.

Lemma NoDup_child_ids (items : list yitem) (i : nat) (it : yitem) :
  NoDup (itemsIds items) -> items !! i = Some it ->
  NoDup (zidOf (itemId it) :: idsOf (itemType it)).
Proof.
  revert i. induction items as [ | it0 rest IH]; intros i Hnd Hi; [discriminate | ].
  unfold itemsIds in Hnd. cbn [map concat] in Hnd.
  change (NoDup ((zidOf (itemId it0) :: idsOf (itemType it0)) ++ itemsIds rest)) in Hnd.
  apply NoDup_app in Hnd as (Hhead & _ & Hrest).
  destruct i as [ | i]; [injection Hi as <-; exact Hhead | eapply IH; eauto].
Qed.

Lemma uniqueIds_typeAt (p : list nat) :
  forall t0 t, uniqueIds t0 -> typeAt t0 p = Some t -> uniqueIds t.
Proof.
  induction p as [ | i rest IH]; intros t0 t Hu Ht; cbn [typeAt] in Ht.
  - now injection Ht as <-.
  - destruct (yitems t0 !! i) as [it | ] eqn:Hi; [ | discriminate].
    apply (IH (itemType it)); [ | assumption].
    unfold uniqueIds in *.
    rewrite idsOf_items in Hu by (eapply yitems_lookup_nontext; eauto).
    pose proof (NoDup_child_ids _ _ _ Hu Hi) as H.
    now apply NoDup_cons in H as [_ H].
Qed.

(** An id found in the type at [p] is found from the root, at [p]. *)
Lemma findItem_path (id : zid) (p : list nat) :
  forall t0 t k d,
    uniqueIds t0 -> typeAt t0 p = Some t ->
    findItem t id = Some ([], k, d) ->
    findItem t0 id = Some (p, k, d).
Proof.
  induction p as [ | i rest IH]; intros t0 t k d Hu Ht Hf; cbn [typeAt] in Ht.
  - now injection Ht as <-.
  - destruct (yitems t0 !! i) as [it | ] eqn:Hi; [ | discriminate].
    assert (Htext : isXmlText t0 = false) by (eapply yitems_lookup_nontext; eauto).
    assert (Hu' : uniqueIds (itemType it)).
    { apply (uniqueIds_typeAt [i] t0); [assumption | ]. cbn [typeAt]. now rewrite Hi. }
    pose proof (IH (itemType it) t k d Hu' Ht Hf) as Hbelow.
    rewrite findItem_nontext by assumption.
    unfold uniqueIds in Hu. rewrite idsOf_items in Hu by assumption.
    rewrite (findInItems_at id (yitems t0) O i it Hu Hi)
      by (right; rewrite Hbelow; discriminate).
    cbn [findInItems]. rewrite Hbelow.
    destruct (_ && _) eqn:Hm; [ | reflexivity].
    apply itemMatch_spec in Hm. exfalso.
    pose proof (NoDup_child_ids _ _ _ Hu Hi) as Hc.
    apply NoDup_cons in Hc as [Hc _]. apply Hc. rewrite Hm.
    apply list_elem_of_In. eapply findItem_Some_in; eauto.
Qed.

Lemma findItem_child (t : ytype) (k : nat) (it : yitem) :
  uniqueIds t -> yitems t !! k = Some it ->
  findItem t (zidOf (itemId it)) = Some ([], k, 0).
Proof.
  intros Hu Hk.
  assert (Htext : isXmlText t = false) by (eapply yitems_lookup_nontext; eauto).
  rewrite findItem_nontext by assumption.
  unfold uniqueIds in Hu. rewrite idsOf_items in Hu by assumption.
  rewrite (findInItems_at _ (yitems t) O k it Hu Hk) by (now left).
  cbn [findInItems]. now rewrite (proj2 (itemMatch_spec it _) eq_refl).
Qed.

Lemma findItem_char (r : nat) (items : list titem) (j : nat) (ti : titem) (off : Z) :
  uniqueIds (XmlText r items) -> items !! j = Some ti ->
  0 <= off < titemIdLength ti ->
  findItem (XmlText r items)
           (ZID (client (t_id ti)) (Z.of_nat (clock (t_id ti)) + off))
  = Some ([], j, off).
Proof.
  intros Hu Hj Hoff. cbn [findItem].
  now rewrite (findTextItem_found items O j ti off Hu Hj Hoff).
Qed.

(** *** Sizes *)

Lemma itemsSize_app (m : gmap nat punit) (a b : list yitem) :
  itemsSize m (a ++ b) = itemsSize m a + itemsSize m b.
Proof. induction a as [ | it a IH]; cbn [app itemsSize]; [reflexivity | lia]. Qed.

Lemma itemsSize_take_drop (m : gmap nat punit) (items : list yitem) (k : nat) :
  itemsSize m items = itemsSize m (take k items) + itemsSize m (drop k items).
Proof. now rewrite <- itemsSize_app, take_drop. Qed.

Lemma itemsSize_take_S (m : gmap nat punit) (items : list yitem) (k : nat) (it : yitem) :
  items !! k = Some it ->
  itemsSize m (take (S k) items)
  = itemsSize m (take k items)
    + (if itemDeleted it then 0 else childSize m (itemType it)).
Proof.
  intros Hk. rewrite (take_S_r _ _ _ Hk), itemsSize_app. cbn [itemsSize]. lia.
Qed.

Lemma itemsSize_drop_S (m : gmap nat punit) (items : list yitem) (k : nat) (it : yitem) :
  items !! k = Some it ->
  itemsSize m (drop k items)
  = (if itemDeleted it then 0 else childSize m (itemType it))
    + itemsSize m (drop (S k) items).
Proof. intros Hk. now rewrite (drop_S _ _ _ Hk). Qed.

Lemma liveCount_zero_size (m : gmap nat punit) (items : list yitem) :
  liveCount items = O -> itemsSize m items = 0.
Proof.
  unfold liveCount. induction items as [ | it rest IH]; cbn [List.filter itemsSize];
    [reflexivity | ].
  destruct (itemDeleted it); cbn [negb]; [intros H; rewrite IH; auto | discriminate].
Qed.

Lemma liveCount_cons (it : yitem) (rest : list yitem) :
  liveCount (it :: rest)
  = ((if itemDeleted it then 0 else 1) + liveCount rest)%nat.
Proof. unfold liveCount. cbn [List.filter]. now destruct (itemDeleted it). Qed.

Lemma ylength_liveCount (t : ytype) :
  isXmlText t = false -> ylength t = Z.of_nat (liveCount (yitems t)).
Proof.
  destruct t; [discriminate | | ]; intros _; unfold ylength, toArray, liveCount;
    now rewrite length_map.
Qed.

Lemma firstLive_None_liveCount (items : list yitem) :
  firstLive items = None -> liveCount items = O.
Proof.
  induction items as [ | it rest IH]; [reflexivity | ].
  rewrite liveCount_cons. cbn [firstLive].
  destruct (itemDeleted it); [ | discriminate].
  destruct (firstLive rest); [discriminate | ]. intros _. now rewrite IH.
Qed.

Lemma firstLive_Some_liveCount (items : list yitem) (j : nat) :
  firstLive items = Some j -> liveCount (take j items) = O.
Proof.
  revert j. induction items as [ | it rest IH]; intros j; [discriminate | ].
  cbn [firstLive]. destruct (itemDeleted it) eqn:Hd.
  - destruct (firstLive rest) as [j' | ]; [ | discriminate].
    intros [= <-]. cbn [take]. rewrite liveCount_cons, Hd. now rewrite IH.
  - now intros [= <-].
Qed.

Section Sizes.
Variable m : gmap nat punit.

Lemma mappedItems_sub (a b : list yitem) :
  (forall it, In it a -> In it b) -> mappedItems m b -> mappedItems m a.
Proof. intros Hsub Hb it Hin. apply Hb. auto. Qed.

Lemma sizeInMapping_childSize (it : yitem) (items : list yitem) :
  mappedItems m items -> In it items -> itemDeleted it = false ->
  sizeInMapping m (itemType it) = Ok (Some (childSize m (itemType it))).
Proof.
  intros Hm Hin Hlive. unfold sizeInMapping, childSize.
  destruct (isXmlText (itemType it)) eqn:Ht; [reflexivity | ].
  destruct (Hm it Hin Hlive Ht) as (p & ->). reflexivity.
Qed.

Lemma sizesBefore_spec (items : list yitem) :
  forall pos, mappedItems m items ->
              sizesBefore m items (Some pos) = Ok (Some (pos + itemsSize m items)).
Proof.
  induction items as [ | it rest IH]; intros pos Hm; cbn [sizesBefore itemsSize].
  - now rewrite Z.add_0_r.
  - assert (Hrest : mappedItems m rest) by (intros x Hx; apply Hm; now right).
    destruct (itemDeleted it) eqn:Hd.
    + now rewrite IH.
    + rewrite (sizeInMapping_childSize it (it :: rest) Hm (or_introl eq_refl) Hd).
      cbn [mbind res_bind bind addSize]. rewrite IH by assumption.
      do 2 f_equal; lia.
Qed.

Lemma sizesToIndex_spec (len : Z) (items : list yitem) :
  forall k i pos,
    mappedItems m items ->
    i + Z.of_nat (liveCount items) <= len ->
    sizesToIndex m len (i + Z.of_nat (liveCount (take k items))) items i (Some pos)
    = Ok (Some (pos + itemsSize m (take k items))).
Proof.
  induction items as [ | it rest IH]; intros k i pos Hm Hlen.
  - rewrite take_nil. cbn [sizesToIndex itemsSize]. now rewrite Z.add_0_r.
  - assert (Hrest : mappedItems m rest) by (intros x Hx; apply Hm; now right).
    rewrite liveCount_cons in Hlen.
    destruct k as [ | k].
    + cbn [take sizesToIndex itemsSize]. change (liveCount []) with O.
      replace (Z.ltb i (i + Z.of_nat 0)) with false by (symmetry; apply Z.ltb_ge; lia).
      rewrite andb_false_r. now rewrite Z.add_0_r.
    + cbn [take sizesToIndex itemsSize]. rewrite liveCount_cons.
      destruct (itemDeleted it) eqn:Hd.
      * destruct (_ && _) eqn:Hc.
        -- rewrite Nat.add_0_l. rewrite IH by (auto; lia). do 2 f_equal; lia.
        -- rewrite Nat.add_0_l in Hc.
           assert (liveCount (take k rest) = O).
           { apply andb_false_iff in Hc as [Hc | Hc]; apply Z.ltb_ge in Hc.
             - assert (liveCount (take k rest) <= liveCount rest)%nat; [ | lia].
               rewrite <- (take_drop k rest) at 2. unfold liveCount.
               rewrite List.filter_app, length_app. lia.
             - lia. }
           rewrite liveCount_zero_size by assumption. do 2 f_equal; lia.
      * replace (Z.ltb i len) with true by (symmetry; apply Z.ltb_lt; lia).
        replace (Z.ltb i (i + Z.of_nat (1 + liveCount (take k rest)))) with true
          by (symmetry; apply Z.ltb_lt; lia).
        cbn [andb].
        rewrite (sizeInMapping_childSize it (it :: rest) Hm (or_introl eq_refl) Hd).
        cbn [mbind res_bind bind addSize].
        replace (i + Z.of_nat (1 + liveCount (take k rest)))
          with (i + 1 + Z.of_nat (liveCount (take k rest))) by lia.
        rewrite IH by (auto; lia). do 2 f_equal; lia.
Qed.

Lemma current_mappedItems (t : ytype) :
  mappingCurrent m t -> mappedItems m (yitems t).
Proof.
  intros Hcur it Hin Hlive Htext.
  inversion Hcur as [r items Heq | t' Ht Hall Heq]; subst; [contradiction | ].
  destruct (proj2 (Hall it Hin Hlive) Htext) as (p & Hp & _). eauto.
Qed.

(** Sizes are not negative, and an element takes at least one
    position. *)
Lemma current_sizes :
  forall t, mappingCurrent m t ->
            forall it, In it (yitems t) -> itemDeleted it = false ->
                       0 <= childSize m (itemType it)
                       /\ (isXmlText (itemType it) = false ->
                           1 <= childSize m (itemType it)).
Proof.
  induction t as [r items | t Htext IH] using ytype_nested_ind;
    intros Hcur it Hin Hlive; [contradiction | ].
  inversion Hcur as [r items Heq | t' Ht Hall Heq]; subst; [discriminate | ].
  destruct (Hall it Hin Hlive) as [Hsub Hmapped].
  unfold childSize. destruct (isXmlText (itemType it)) eqn:Hit.
  - split; [apply ylength_nonneg | discriminate].
  - destruct (Hmapped eq_refl) as (p & -> & Hsize).
    assert (0 <= itemsSize m (yitems (itemType it))).
    { pose proof (proj1 (List.Forall_forall _ _) IH it Hin Hsub) as Hchild.
      clear -Hchild. induction (yitems (itemType it)) as [ | c rest IHc];
        cbn [itemsSize]; [lia | ].
      assert (0 <= itemsSize m rest)
        by (apply IHc; intros x Hx; apply Hchild; now right).
      destruct (itemDeleted c) eqn:Hd; [lia | ].
      pose proof (proj1 (Hchild c (or_introl eq_refl) Hd)). lia. }
    destruct Hsize as [-> | [-> _]]; split; intros; lia.
Qed.

Lemma current_itemsSize_nonneg (t : ytype) (items : list yitem) :
  mappingCurrent m t -> (forall it, In it items -> In it (yitems t)) ->
  0 <= itemsSize m items.
Proof.
  intros Hcur Hsub. induction items as [ | it rest IH]; cbn [itemsSize]; [lia | ].
  assert (0 <= itemsSize m rest) by (apply IH; intros x Hx; apply Hsub; now right).
  destruct (itemDeleted it) eqn:Hd; [lia | ].
  pose proof (proj1 (current_sizes t Hcur it (Hsub it (or_introl eq_refl)) Hd)). lia.
Qed.
End Sizes.

(** *** Resolving a position *)

Section Resolving.
Variable type : ytype.
Variable rootKey : string.
Variable m : gmap nat punit.
Hypothesis current : mappingCurrent m type.
Hypothesis unique : uniqueIds type.

Lemma sizesBefore_from_first (items : list yitem) :
  forall j k pos,
    firstLive items = Some j ->
    sizesBefore m (drop j (take k items)) pos = sizesBefore m (take k items) pos.
Proof.
  induction items as [ | it rest IH]; intros j k pos; cbn [firstLive];
    [discriminate | ].
  destruct (itemDeleted it) eqn:Hd.
  - destruct (firstLive rest) as [j' | ] eqn:Hj; [ | discriminate].
    intros [= <-]. destruct k as [ | k]; [reflexivity | ].
    cbn [take drop sizesBefore]. rewrite Hd. now apply IH.
  - intros [= <-]. reflexivity.
Qed.

Lemma firstLive_le (items : list yitem) :
  forall k it, items !! k = Some it -> itemDeleted it = false ->
               exists j, firstLive items = Some j /\ (j <= k)%nat.
Proof.
  induction items as [ | x rest IH]; intros k it Hk Hlive; [discriminate | ].
  cbn [firstLive]. destruct (itemDeleted x) eqn:Hd.
  - destruct k as [ | k]; [injection Hk as ->; congruence | ].
    destruct (IH k it Hk Hlive) as (j & -> & Hj). exists (S j). split; [reflexivity | lia].
  - exists 0%nat. split; [reflexivity | lia].
Qed.

(** On the way to a live item the loop passes the live items to its
    left. *)
Lemma sizesBefore_passed (items : list yitem) (k : nat) (it : yitem) (pos : option Z) :
  items !! k = Some it -> itemDeleted it = false ->
  sizesBefore m (passedSiblings items k) pos = sizesBefore m (take k items) pos.
Proof.
  intros Hk Hlive. destruct (firstLive_le items k it Hk Hlive) as (j & Hj & Hle).
  unfold passedSiblings. rewrite Hj.
  replace (Nat.ltb k j) with false by (symmetry; apply Nat.ltb_ge; lia).
  now apply sizesBefore_from_first.
Qed.

Lemma climb_reach (n : node) (t : ytype) :
  reach type n t ->
  forall pos, climb type m n (Some pos) = Ok (Some (pos + climbSum type m n)).
Proof.
  induction 1 as [ | n t k it Hr IH Hk Hlive]; intros pos; cbn [climb climbSum].
  - now rewrite Z.add_0_r.
  - rewrite (reach_nodeType _ _ _ Hr), (reach_not_deleted _ _ _ Hr).
    cbn [addSize]. rewrite (sizesBefore_passed _ _ _ _ Hk Hlive), sizesBefore_spec.
    + cbn [mbind res_bind bind]. rewrite IH. do 2 f_equal; lia.
    + apply (mappedItems_sub m _ (yitems t)).
      * intros x Hx. apply list_elem_of_In. apply list_elem_of_In in Hx.
        now apply (subseteq_take k (yitems t)).
      * apply current_mappedItems. eapply reach_current; eauto.
Qed.

Lemma resolve_element (rp : RelativePosition) (n : node) (t : ytype) (k : nat) :
  reach type n t -> isXmlText t = false ->
  createAbsolutePositionFromRelativePosition type rootKey rp
  = Ok (Some (InDocument (rev n), Z.of_nat (liveCount (take k (yitems t))))) ->
  relativePositionToAbsolutePosition type rootKey m rp
  = Ok (Offset (climbSum type m n + itemsSize m (take k (yitems t)))).
Proof.
  intros Hr Htext Hdec. unfold relativePositionToAbsolutePosition.
  rewrite Hdec. cbn [mbind res_bind bind]. rewrite rev_involutive.
  rewrite (reach_nodeType _ _ _ Hr), Htext, (reach_not_deleted _ _ _ Hr).
  pose proof (sizesToIndex_spec m (ylength t) (yitems t) k 0 0) as Hsum.
  rewrite !Z.add_0_l in Hsum. rewrite Hsum.
  - cbn [mbind res_bind bind addSize]. rewrite (climb_reach _ _ Hr).
    cbn [mbind res_bind bind]. do 2 f_equal; lia.
  - apply current_mappedItems. eapply reach_current; eauto.
  - rewrite ylength_liveCount by assumption. lia.
Qed.

Lemma resolve_text (rp : RelativePosition) (n : node) (t : ytype) (i : Z) :
  reach type n t -> isXmlText t = true ->
  createAbsolutePositionFromRelativePosition type rootKey rp
  = Ok (Some (InDocument (rev n), i)) ->
  relativePositionToAbsolutePosition type rootKey m rp
  = Ok (Offset (climbSum type m n - 1 + i)).
Proof.
  intros Hr Htext Hdec. unfold relativePositionToAbsolutePosition.
  rewrite Hdec. cbn [mbind res_bind bind]. rewrite rev_involutive.
  rewrite (reach_nodeType _ _ _ Hr), Htext.
  cbn [mbind res_bind bind]. rewrite (climb_reach _ _ Hr).
  cbn [mbind res_bind bind].
  do 2 f_equal; lia.
Qed.

Lemma reach_unique (n : node) (t : ytype) : reach type n t -> uniqueIds t.
Proof.
  intros Hr. apply (uniqueIds_typeAt (rev n) type t unique).
  now apply reach_typeAt.
Qed.

(** The position whose anchor is the live item [k] of [t] is the one
    in front of that item. *)
Lemma resolve_before (rp : RelativePosition) (n : node) (t : ytype) (k : nat)
    (it : yitem) :
  reach type n t -> yitems t !! k = Some it -> itemDeleted it = false ->
  rp_item rp = Some (zidOf (itemId it)) ->
  relativePositionToAbsolutePosition type rootKey m rp
  = Ok (Offset (climbSum type m n + itemsSize m (take k (yitems t)))).
Proof.
  intros Hr Hk Hlive Hitem.
  assert (Htext : isXmlText t = false) by (eapply yitems_lookup_nontext; eauto).
  apply resolve_element; [assumption | assumption | ].
  unfold createAbsolutePositionFromRelativePosition. rewrite Hitem.
  rewrite (findItem_path _ (rev n) type t k 0 unique (reach_typeAt _ _ _ Hr)
             (findItem_child t k it (reach_unique _ _ Hr) Hk)).
  rewrite (reach_typeAt _ _ _ Hr), (reach_itemLive _ _ _ Hr).
  assert (Hunc : uncounted t k = false).
  { destruct t; [discriminate | | ]; cbn [uncounted yitems] in *; now rewrite Hk. }
  assert (Hleft : leftLength t k = Z.of_nat (liveCount (take k (yitems t)))).
  { destruct t; [discriminate | reflexivity | reflexivity]. }
  now rewrite Hunc, Hleft.
Qed.

(** The position without an anchor is the end of its type. *)
Lemma resolve_end (n : node) (t : ytype) :
  reach type n t -> isXmlText t = false ->
  relativePositionToAbsolutePosition type rootKey m
    (relativePositionIn type rootKey n None)
  = Ok (Offset (climbSum type m n + itemsSize m (yitems t))).
Proof.
  intros Hr Htext.
  rewrite <- (firstn_all (yitems t)) at 1.
  apply resolve_element; [assumption | assumption | ].
  rewrite firstn_all. rewrite <- ylength_liveCount by assumption.
  unfold createAbsolutePositionFromRelativePosition, relativePositionIn.
  destruct Hr as [ | n t k it Hr Hk Hlive].
  - cbn [nodeItemId rp_item rp_tname rp_type]. now rewrite String.eqb_refl.
  - unfold nodeItemId. rewrite (reach_nodeItem _ _ _ _ _ Hr Hk).
    cbn [fmap option_fmap option_map rp_item rp_tname rp_type].
    rewrite (findItem_path _ (rev n) type t k 0 unique (reach_typeAt _ _ _ Hr)
               (findItem_child t k it (reach_unique _ _ Hr) Hk)).
    rewrite (reach_typeAt _ _ _ Hr).
    assert (Hparent : isXmlText t = false) by (eapply yitems_lookup_nontext; eauto).
    rewrite typeAt_snoc, (reach_typeAt _ _ _ Hr).
    cbn [mbind option_bind]. rewrite Hk. cbn [fmap option_fmap option_map rev].
    destruct t; [discriminate | reflexivity | reflexivity].
Qed.
End Resolving.

(** *** Positions in a text *)

Lemma ylength_text_cons (r : nat) (i : titem) (rest : list titem) :
  ylength (XmlText r (i :: rest))
  = (if t_deleted i then 0 else titemLength i) + ylength (XmlText r rest).
Proof. cbn [ylength fold_right]. destruct (t_deleted i); lia. Qed.

Lemma textIndexItem_Some (items : list titem) :
  forall idx id,
    0 <= idx -> textIndexItem items idx = Some id ->
    exists j ti off,
      items !! j = Some ti /\ uncounted (XmlText 0 items) j = false
      /\ 0 <= off < titemIdLength ti
      /\ id = ZID (client (t_id ti)) (Z.of_nat (clock (t_id ti)) + off)
      /\ idx = off + ylength (XmlText 0 (take j items)).
Proof.
  induction items as [ | i rest IH]; intros idx id Hidx Hrun; [discriminate | ].
  cbn [textIndexItem] in Hrun.
  assert (Hnext : forall idx', 0 <= idx' ->
            textIndexItem rest idx' = Some id ->
            idx = idx' + (if t_deleted i then 0 else titemLength i) ->
            exists j ti off,
              (i :: rest) !! j = Some ti /\ uncounted (XmlText 0 (i :: rest)) j = false
              /\ 0 <= off < titemIdLength ti
              /\ id = ZID (client (t_id ti)) (Z.of_nat (clock (t_id ti)) + off)
              /\ idx = off + ylength (XmlText 0 (take j (i :: rest)))).
  { intros idx' Hidx' Hrest Heq.
    destruct (IH idx' id Hidx' Hrest) as (j & ti & off & Hj & Hu & Hoff & Hid & Hsum).
    exists (S j), ti, off. split; [exact Hj | ]. split; [exact Hu | ].
    split; [exact Hoff | ]. split; [exact Hid | ].
    cbn [take]. rewrite ylength_text_cons. lia. }
  unfold titemLength in Hnext.
  destruct (t_content i) as [s | key v | v] eqn:Hc.
  - destruct (t_deleted i) eqn:Hd.
    + apply (Hnext idx); [assumption | assumption | lia].
    + destruct (Z.ltb_spec idx (strlen s)) as [Hlt | Hge].
      * injection Hrun as <-. exists O, i, idx.
        split; [reflexivity | ]. split.
        { cbn [uncounted lookup list_lookup]. now rewrite Hd, Hc. }
        unfold titemIdLength. rewrite Hc. split; [lia | ]. split; [reflexivity | ].
        cbn [take ylength fold_right]. lia.
      * apply (Hnext (idx - strlen s)); [lia | assumption | lia].
  - apply (Hnext idx); [assumption | assumption | ]. destruct (t_deleted i); lia.
  - destruct (t_deleted i) eqn:Hd.
    + apply (Hnext idx); [assumption | assumption | lia].
    + destruct (Z.ltb_spec idx 1) as [Hlt | Hge].
      * injection Hrun as <-. exists O, i, idx.
        split; [reflexivity | ]. split.
        { cbn [uncounted lookup list_lookup]. now rewrite Hd, Hc. }
        unfold titemIdLength. rewrite Hc. split; [lia | ]. split; [reflexivity | ].
        cbn [take ylength fold_right]. lia.
      * apply (Hnext (idx - 1)); [lia | assumption | lia].
Qed.

Lemma textIndexItem_None (items : list titem) :
  forall idx, 0 <= idx -> textIndexItem items idx = None ->
              ylength (XmlText 0 items) <= idx.
Proof.
  induction items as [ | i rest IH]; intros idx Hidx Hrun; [exact Hidx | ].
  cbn [textIndexItem] in Hrun. rewrite ylength_text_cons. unfold titemLength.
  destruct (t_content i) as [s | key v | v] eqn:Hc.
  - destruct (t_deleted i) eqn:Hd.
    + pose proof (IH idx Hidx Hrun). lia.
    + destruct (Z.ltb_spec idx (strlen s)) as [Hlt | Hge]; [discriminate | ].
      pose proof (IH (idx - strlen s) ltac:(lia) Hrun). lia.
  - pose proof (IH idx Hidx Hrun). destruct (t_deleted i); lia.
  - destruct (t_deleted i) eqn:Hd.
    + pose proof (IH idx Hidx Hrun). lia.
    + destruct (Z.ltb_spec idx 1) as [Hlt | Hge]; [discriminate | ].
      pose proof (IH (idx - 1) ltac:(lia) Hrun). lia.
Qed.

Section ResolvingText.
Variable type : ytype.
Variable rootKey : string.
Variable m : gmap nat punit.
Hypothesis current : mappingCurrent m type.
Hypothesis unique : uniqueIds type.
Hypothesis root : isXmlText type = false.

(** The position at index [pos] of a text is [pos] characters after
    the start of the text. *)
Lemma resolve_char (n : node) (r : nat) (items : list titem) (pos : Z) :
  reach type n (XmlText r items) -> 0 <= pos <= ylength (XmlText r items) ->
  relativePositionToAbsolutePosition type rootKey m
    (relativePositionIn type rootKey n (textIndexItem items pos))
  = Ok (Offset (climbSum type m n - 1 + pos)).
Proof.
  intros Hr Hpos. apply (resolve_text type rootKey m current _ n (XmlText r items));
    [assumption | reflexivity | ].
  unfold createAbsolutePositionFromRelativePosition.
  destruct (textIndexItem items pos) as [id | ] eqn:Hidx.
  - destruct (textIndexItem_Some items pos id (proj1 Hpos) Hidx)
      as (j & ti & off & Hj & Hu & Hoff & -> & Hsum).
    assert (Hitem : rp_item (relativePositionIn type rootKey n
                      (Some (ZID (client (t_id ti)) (Z.of_nat (clock (t_id ti)) + off))))
                    = Some (ZID (client (t_id ti)) (Z.of_nat (clock (t_id ti)) + off)))
      by (unfold relativePositionIn; now destruct (nodeItemId type n)).
    rewrite Hitem.
    rewrite (findItem_path _ (rev n) type (XmlText r items) j off unique
               (reach_typeAt _ _ _ Hr)
               (findItem_char r items j ti off
                  (reach_unique type unique _ _ Hr) Hj Hoff)).
    rewrite (reach_typeAt _ _ _ Hr), (reach_itemLive _ _ _ Hr).
    change (uncounted (XmlText r items) j) with (uncounted (XmlText 0 items) j).
    rewrite Hu. cbn [leftLength]. now rewrite Hsum.
  - pose proof (textIndexItem_None items pos (proj1 Hpos) Hidx) as Hge.
    change (ylength (XmlText 0 items)) with (ylength (XmlText r items)) in Hge.
    assert (pos = ylength (XmlText r items)) as -> by lia.
    inversion Hr as [Hn Heq | up tu k it Hup Hk Hlive Hn Ht].
    + pose proof root as Hroot. rewrite Heq in Hroot. discriminate.
    + unfold relativePositionIn, nodeItemId.
      rewrite (reach_nodeItem _ _ _ _ _ Hup Hk).
      cbn [fmap option_fmap option_map rp_item rp_tname rp_type].
      rewrite (findItem_path _ (rev up) type tu k 0 unique (reach_typeAt _ _ _ Hup)
                 (findItem_child tu k it (reach_unique type unique _ _ Hup) Hk)).
      rewrite (reach_typeAt _ _ _ Hup).
      rewrite typeAt_snoc, (reach_typeAt _ _ _ Hup).
      cbn [mbind option_bind]. rewrite Hk. cbn [fmap option_fmap option_map rev].
      rewrite Ht.
      assert (Hparent : isXmlText tu = false) by (eapply yitems_lookup_nontext; eauto).
      destruct tu; [discriminate | reflexivity | reflexivity].
Qed.
End ResolvingText.

(** *** The walk *)

Lemma itemsWeight_drop_le (items : list yitem) (i j : nat) :
  (i <= j)%nat -> (itemsWeight (drop j items) <= itemsWeight (drop i items))%nat.
Proof.
  intros Hij. replace j with (i + (j - i))%nat by lia. rewrite <- drop_drop.
  generalize (drop i items). intros l. generalize (j - i)%nat. intros d.
  revert l. induction d as [ | d IH]; intros l; [now rewrite drop_0 | ].
  destruct l as [ | it rest]; [reflexivity | ].
  cbn [drop]. specialize (IH rest). unfold itemsWeight in *. cbn [fold_right]. lia.
Qed.

Lemma itemsWeight_drop_S (items : list yitem) (k : nat) (it : yitem) :
  items !! k = Some it ->
  itemsWeight (drop k items)
  = S (weight (itemType it) + itemsWeight (drop (S k) items)).
Proof. intros Hk. now rewrite (drop_S _ _ _ Hk). Qed.

Lemma firstLiveFrom_take (items : list yitem) (i j : nat) (m : gmap nat punit) :
  firstLiveFrom items i = Some j ->
  itemsSize m (take j items) = itemsSize m (take i items).
Proof.
  intros H. destruct (firstLiveFrom_Some _ _ _ H) as (it & _ & _ & _ & Hs).
  pose proof (itemsSize_take_drop m items i). pose proof (itemsSize_take_drop m items j).
  specialize (Hs m). lia.
Qed.

Section Walk.
Variable type : ytype.
Variable rootKey : string.
Variable m : gmap nat punit.
Hypothesis current : mappingCurrent m type.
Hypothesis unique : uniqueIds type.
Hypothesis root : isXmlText type = false.

Lemma nextSibling_reach (up : node) (tu : ytype) (k : nat) :
  reach type up tu ->
  nextSibling type (k :: up)
  = (fun j => j :: up) <$> firstLiveFrom (yitems tu) (S k).
Proof.
  intros Hr. unfold nextSibling. rewrite (reach_nodeType _ _ _ Hr).
  cbn [mbind option_bind]. now destruct (firstLiveFrom (yitems tu) (S k)).
Qed.

Lemma firstChild_reach (n : node) (t : ytype) :
  reach type n t ->
  firstChild type n = (fun j => j :: n) <$> firstLiveFrom (yitems t) 0.
Proof.
  intros Hr. unfold firstChild. rewrite (reach_nodeType _ _ _ Hr).
  cbn [mbind option_bind]. now destruct (firstLiveFrom (yitems t) 0).
Qed.

(** The two tests at the end of an iteration, at the live child [j]. *)
Lemma continue_ends (fuel : nat) (up : node) (tu : ytype) (j : nat) (it : yitem)
    (pos : Z) :
  walkEnds type rootKey m fuel ->
  reach type up tu -> yitems tu !! j = Some it -> itemDeleted it = false ->
  0 <= pos <= itemsSize m (drop j (yitems tu)) ->
  (itemsWeight (drop j (yitems tu)) <= fuel)%nat ->
  exists rp,
    match nodeType type (j :: up) with
    | None => Throw UnexpectedCase
    | Some t' =>
        if Z.eqb pos 0 && negb (isXmlText t') && negb (isRoot (j :: up))
        then createRelativePosition type rootKey (j :: up)
        else walk type rootKey m fuel (j :: up) pos
    end = Ok rp
    /\ relativePositionToAbsolutePosition type rootKey m rp
       = Ok (Offset (climbSum type m up + itemsSize m (take j (yitems tu)) + pos)).
Proof.
  intros IH Hr Hj Hlive Hpos Hfuel.
  rewrite (reach_nodeType _ _ _ (reach_child type up tu j it Hr Hj Hlive)).
  cbn [isRoot negb]. rewrite andb_true_r.
  destruct (Z.eqb_spec pos 0) as [-> | Hne]; cbn [andb].
  - destruct (isXmlText (itemType it)) eqn:Ht; cbn [negb].
    + apply (IH up tu j it 0); auto.
    + unfold createRelativePosition. rewrite (reach_nodeItem _ _ _ _ _ Hr Hj).
      eexists. split; [reflexivity | ].
      rewrite Z.add_0_r.
      apply (resolve_before type rootKey m current unique _ up tu j it Hr Hj Hlive).
      unfold relativePositionIn. now destruct (nodeItemId type up).
  - apply (IH up tu j it pos); auto. left. lia.
Qed.

Lemma firstLiveFrom_0 (items : list yitem) :
  firstLiveFrom items 0 = firstLive items.
Proof.
  unfold firstLiveFrom. rewrite drop_0. now destruct (firstLive items).
Qed.

Lemma climbSum_cons (up : node) (tu : ytype) (k : nat) :
  reach type up tu ->
  climbSum type m (k :: up)
  = 1 + itemsSize m (take k (yitems tu)) + climbSum type m up.
Proof. intros Hr. cbn [climbSum]. now rewrite (reach_nodeType _ _ _ Hr). Qed.

Lemma walk_step (fuel : nat) :
  walkEnds type rootKey m fuel -> walkEnds type rootKey m (S fuel).
Proof.
  intros IH up tu k it pos Hr Hk Hlive Hpos Hside Hfuel.
  pose proof (reach_child type up tu k it Hr Hk Hlive) as Hrn.
  pose proof (reach_current type m _ _ current Hr) as Hcur.
  rewrite (itemsWeight_drop_S _ _ _ Hk) in Hfuel.
  rewrite (itemsSize_drop_S m _ _ _ Hk), Hlive in Hpos.
  assert (Hrest : 0 <= itemsSize m (drop (S k) (yitems tu))).
  { apply (current_itemsSize_nonneg m tu); [assumption | ].
    intros x Hx. apply list_elem_of_In. apply list_elem_of_In in Hx.
    now apply (subseteq_drop (S k) (yitems tu)). }
  (* on to the next sibling, [size] positions further *)
  assert (Hnext : forall j pos',
             firstLiveFrom (yitems tu) (S k) = Some j ->
             0 <= pos' <= itemsSize m (drop (S k) (yitems tu)) ->
             exists rp,
               match nodeType type (j :: up) with
               | None => Throw UnexpectedCase
               | Some t' =>
                   if Z.eqb pos' 0 && negb (isXmlText t') && negb (isRoot (j :: up))
                   then createRelativePosition type rootKey (j :: up)
                   else walk type rootKey m fuel (j :: up) pos'
               end = Ok rp
               /\ relativePositionToAbsolutePosition type rootKey m rp
                  = Ok (Offset (climbSum type m up
                                + itemsSize m (take k (yitems tu))
                                + (childSize m (itemType it) + pos')))).
  { intros j pos' Hj Hpos'.
    destruct (firstLiveFrom_Some _ _ _ Hj) as (it' & Hj' & Hlive' & Hle & Hs).
    destruct (continue_ends fuel up tu j it' pos' IH Hr Hj' Hlive') as (rp & H1 & H2).
    - rewrite <- Hs. exact Hpos'.
    - pose proof (itemsWeight_drop_le (yitems tu) (S k) j Hle). lia.
    - exists rp. split; [exact H1 | ]. rewrite H2.
      rewrite (firstLiveFrom_take _ _ _ m Hj), (itemsSize_take_S m _ _ _ Hk), Hlive.
      do 2 f_equal; lia. }
  cbn [walk]. rewrite (reach_nodeType _ _ _ Hrn).
  rewrite (nextSibling_reach up tu k Hr), (firstChild_reach _ _ Hrn).
  destruct (isXmlText (itemType it)) eqn:Htext.
  - (* a text *)
    assert (Hsize : childSize m (itemType it) = ylength (itemType it))
      by (unfold childSize; now rewrite Htext).
    rewrite Hsize in *.
    destruct (Z.leb_spec pos (ylength (itemType it))) as [Hle | Hgt].
    + unfold createRelativePositionFromTypeIndex.
      rewrite (reach_nodeType _ _ _ Hrn).
      destruct (itemType it) as [r items | | ] eqn:Hty; try discriminate.
      eexists. split; [reflexivity | ].
      rewrite (resolve_char type rootKey m current unique root (k :: up) r items pos
                 Hrn ltac:(lia)).
      rewrite (climbSum_cons up tu k Hr). do 2 f_equal; lia.
    + destruct (firstLiveFrom (yitems tu) (S k)) as [j | ] eqn:Hj;
        cbn [fmap option_fmap option_map].
      * destruct (Hnext j (pos - ylength (itemType it)) eq_refl ltac:(lia))
          as (rp & H1 & H2).
        exists rp. split; [exact H1 | ]. rewrite H2. do 2 f_equal; lia.
      * pose proof (firstLiveFrom_None _ _ m Hj). lia.
  - (* an element *)
    destruct (current_child m tu k it Hcur Hk Hlive Htext) as (p & Hp & Hsz).
    assert (Hsize : childSize m (itemType it) = nodeSize p)
      by (unfold childSize; now rewrite Htext, Hp).
    rewrite Hsize in *.
    assert (Hpn : pNodeSizeOf m (itemType it) = Some (nodeSize p))
      by (unfold pNodeSizeOf; now rewrite Hp).
    rewrite Hpn.
    assert (Hpos0 : 0 < pos) by (destruct Hside; [assumption | congruence]).
    (* past this element *)
    assert (Hadv : nodeSize p <= pos ->
              exists rp,
                match (fun j => j :: up) <$> firstLiveFrom (yitems tu) (S k) with
                | Some n' =>
                    match nodeType type n' with
                    | Some t' =>
                        if Z.eqb (pos - nodeSize p) 0 && negb (isXmlText t')
                           && negb (isRoot n')
                        then createRelativePosition type rootKey n'
                        else walk type rootKey m fuel n' (pos - nodeSize p)
                    | None => Throw UnexpectedCase
                    end
                | None =>
                    if Z.eqb (pos - nodeSize p) 0
                    then Ok (relativePositionIn type rootKey up None)
                    else
                      let '(up0, pos') := ascend type (k :: up) (pos - nodeSize p) in
                      if isRoot up0
                      then
                        match nodeType type up0 with
                        | Some t' =>
                            if Z.eqb pos' 0 && negb (isXmlText t') && negb (isRoot up0)
                            then createRelativePosition type rootKey up0
                            else walk type rootKey m fuel up0 pos'
                        | None => Throw UnexpectedCase
                        end
                      else
                        match nextSibling type up0 with
                        | Some n' =>
                            match nodeType type n' with
                            | Some t' =>
                                if Z.eqb pos' 0 && negb (isXmlText t')
                                   && negb (isRoot n')
                                then createRelativePosition type rootKey n'
                                else walk type rootKey m fuel n' pos'
                            | None => Throw UnexpectedCase
                            end
                        | None => Throw UnexpectedCase
                        end
                end = Ok rp
                /\ relativePositionToAbsolutePosition type rootKey m rp
                   = Ok (Offset (climbSum type m up
                                 + itemsSize m (take k (yitems tu)) + pos))).
    { intros Hge.
      destruct (firstLiveFrom (yitems tu) (S k)) as [j | ] eqn:Hj;
        cbn [fmap option_fmap option_map].
      - destruct (Hnext j (pos - nodeSize p) eq_refl ltac:(lia)) as (rp & H1 & H2).
        exists rp. split; [exact H1 | ]. rewrite H2. do 2 f_equal; lia.
      - pose proof (firstLiveFrom_None _ _ m Hj) as Hzero.
        assert (Heq : pos - nodeSize p = 0) by lia.
        rewrite Heq. cbn [Z.eqb].
        eexists. split; [reflexivity | ].
        assert (Hparent : isXmlText tu = false)
          by (eapply yitems_lookup_nontext; eauto).
        rewrite (resolve_end type rootKey m current unique up tu Hr Hparent).
        rewrite (itemsSize_take_drop m (yitems tu) (S k)).
        rewrite (itemsSize_take_S m _ _ _ Hk), Hlive, Hsize.
        do 2 f_equal; lia. }
    destruct (firstLiveFrom (yitems (itemType it)) 0) as [c | ] eqn:Hc;
      cbn [fmap option_fmap option_map].
    + destruct (firstLiveFrom_Some _ _ _ Hc) as (ic & Hic & Hclive & _ & Hs).
      assert (Hcontent : nodeSize p = 2 + itemsSize m (yitems (itemType it))).
      { destruct Hsz as [ | [_ Hnone]]; [assumption | ].
        rewrite firstLiveFrom_0 in Hc. congruence. }
      destruct (Z.ltb_spec pos (nodeSize p)) as [Hlt | Hge]; [ | now apply Hadv].
      destruct (continue_ends fuel (k :: up) (itemType it) c ic (pos - 1) IH Hrn
                  Hic Hclive) as (rp & H1 & H2).
      * rewrite <- Hs, drop_0. lia.
      * pose proof (itemsWeight_drop_le (yitems (itemType it)) 0 c ltac:(lia)) as Hw.
        rewrite drop_0, <- weight_items in Hw. lia.
      * exists rp. split; [exact H1 | ]. rewrite H2.
        rewrite (firstLiveFrom_take _ _ _ m Hc), take_0.
        rewrite (climbSum_cons up tu k Hr). cbn [itemsSize]. do 2 f_equal; lia.
    + pose proof (firstLiveFrom_None _ _ m Hc) as Hzero. rewrite drop_0 in Hzero.
      rewrite firstLiveFrom_0 in Hc.
      destruct (Z.eqb pos 1 && Z.eqb (ylength (itemType it)) 0
                && Z.ltb 1 (nodeSize p)) eqn:Hedge.
      * apply andb_true_iff in Hedge as [Hedge _].
        apply andb_true_iff in Hedge as [Hone _]. apply Z.eqb_eq in Hone.
        eexists. split; [reflexivity | ].
        rewrite (resolve_end type rootKey m current unique (k :: up) (itemType it)
                   Hrn Htext).
        rewrite (climbSum_cons up tu k Hr), Hzero. do 2 f_equal; lia.
      * apply Hadv.
        destruct Hsz as [Hsz | [Hsz _]]; [ | lia].
        destruct (Z.eq_dec pos 1) as [Hone | Hne]; [ | lia].
        exfalso. rewrite Hone in Hedge. cbn [Z.eqb Pos.eqb andb] in Hedge.
        rewrite (ylength_liveCount _ Htext), (firstLive_None_liveCount _ Hc) in Hedge.
        cbn [Z.of_nat Z.eqb andb] in Hedge.
        apply Z.ltb_ge in Hedge. lia.
Qed.

Lemma walk_ends (fuel : nat) : walkEnds type rootKey m fuel.
Proof.
  induction fuel as [ | fuel IH]; [ | now apply walk_step].
  intros up tu k it pos _ Hk _ _ _ Hfuel.
  rewrite (itemsWeight_drop_S _ _ _ Hk) in Hfuel. lia.
Qed.
End Walk.

(** *** The round trip *)

Lemma childIndexItem_first (items : list yitem) :
  childIndexItem items 0
  = (fun it => zidOf (itemId it)) <$> (firstLive items ≫= (fun j => items !! j)).
Proof.
  induction items as [ | it rest IH]; [reflexivity | ].
  cbn [childIndexItem firstLive]. destruct (itemDeleted it).
  - rewrite IH. now destruct (firstLive rest).
  - cbn. unfold zidOf. now rewrite Z.add_0_r.
Qed.

(** One offset, there and back. *)
Lemma offset_round_trip (type : ytype) (rootKey : string)
    (mapping : gmap nat punit) (fuel : nat) (o : Z) :
  isXmlText type = false ->
  mappingCurrent mapping type ->
  uniqueIds type ->
  0 <= o <= contentSize type mapping ->
  (weight type <= fuel)%nat ->
  exists relPos,
    absolutePositionToRelativePosition type rootKey mapping fuel o = Ok relPos
    /\ relativePositionToAbsolutePosition type rootKey mapping relPos
       = Ok (Offset o).
Proof.
  intros Hroot Hcur Huniq Ho Hfuel. unfold contentSize in Ho.
  unfold absolutePositionToRelativePosition.
  destruct (Z.eqb_spec o 0) as [-> | Hne].
  - unfold createRelativePositionFromTypeIndex. cbn [nodeType].
    assert (Hgoal : exists relPos,
              Ok (relativePositionIn type rootKey []
                    (childIndexItem (yitems type) 0)) = Ok relPos
              /\ relativePositionToAbsolutePosition type rootKey mapping relPos
                 = Ok (Offset 0)).
    { eexists. split; [reflexivity | ].
      rewrite childIndexItem_first.
      destruct (firstLive (yitems type)) as [j | ] eqn:Hj; cbn [mbind option_bind].
      - rewrite <- firstLiveFrom_0 in Hj.
        destruct (firstLiveFrom_Some _ _ _ Hj) as (it & Hit & Hlive & _ & _).
        rewrite Hit. cbn [fmap option_fmap option_map].
        rewrite (resolve_before type rootKey mapping Hcur Huniq
                   (relativePositionIn type rootKey [] (Some (zidOf (itemId it))))
                   [] type j it (reach_root type) Hit Hlive eq_refl).
        rewrite (firstLiveFrom_take _ _ _ mapping Hj), take_0. reflexivity.
      - cbn [fmap option_fmap option_map].
        rewrite (resolve_end type rootKey mapping Hcur Huniq [] type
                   (reach_root type) Hroot).
        now rewrite (firstLive_None _ mapping Hj). }
    destruct type; [discriminate | exact Hgoal | exact Hgoal].
  - rewrite (firstChild_reach type [] type (reach_root type)).
    destruct (firstLiveFrom (yitems type) 0) as [j | ] eqn:Hj;
      cbn [fmap option_fmap option_map].
    + destruct (firstLiveFrom_Some _ _ _ Hj) as (it & Hit & Hlive & _ & Hs).
      destruct (walk_ends type rootKey mapping Hcur Huniq Hroot fuel [] type j it o
                  (reach_root type) Hit Hlive) as (rp & H1 & H2).
      * rewrite <- Hs, drop_0. exact Ho.
      * left. lia.
      * pose proof (itemsWeight_drop_le (yitems type) 0 j ltac:(lia)) as Hw.
        rewrite drop_0, <- weight_items in Hw. lia.
      * exists rp. split; [exact H1 | ]. rewrite H2.
        rewrite (firstLiveFrom_take _ _ _ mapping Hj), take_0.
        cbn [climbSum itemsSize]. do 2 f_equal; lia.
    + pose proof (firstLiveFrom_None _ _ mapping Hj) as Hzero.
      rewrite drop_0 in Hzero. lia.
Qed.

(** [null] is returned only for a position that Yjs does not resolve,
    or resolves outside the bound fragment. *)
Lemma unresolvable_only (type : ytype) (rootKey : string) (mapping : gmap nat punit)
    (relPos : RelativePosition) :
  relativePositionToAbsolutePosition type rootKey mapping relPos = Ok Unresolvable <->
  createAbsolutePositionFromRelativePosition type rootKey relPos = Ok None
  \/ exists index,
       createAbsolutePositionFromRelativePosition type rootKey relPos
       = Ok (Some (OtherRoot, index)).
Proof.
  unfold relativePositionToAbsolutePosition.
  destruct (createAbsolutePositionFromRelativePosition type rootKey relPos)
    as [[[[path | ] index] | ] | e | ]; cbn [mbind res_bind bind].
  - split; [ | intros [[=] | (i & [=])]].
    destruct (nodeType type (rev path)) as [t | ]; [ | discriminate].
    match goal with
    | |- context [bind ?a _] => destruct a as [pos | e | ]
    | |- context [mbind _ ?a] => destruct a as [pos | e | ]
    end; cbn [mbind res_bind bind]; try discriminate.
    destruct (climb type mapping (rev path) pos) as [[z | ] | e | ];
      cbn [mbind res_bind bind]; discriminate.
  - split; [intros _; right; eauto | reflexivity].
  - split; [intros _; now left | reflexivity].
  - split; [discriminate | intros [[=] | (i & [=])]].
  - split; [discriminate | intros [[=] | (i & [=])]].
Qed.

(** The path at which an id is found leads to a type. *)
Lemma findItem_typeAt (id : zid) :
  forall t p k d, findItem t id = Some (p, k, d) -> typeAt t p <> None.
Proof.
  induction t as [r items | t Htext IH] using ytype_nested_ind; intros p k d Hf.
  - cbn [findItem] in Hf. destruct (findTextItem items id 0) as [[k' d'] | ];
      [ | discriminate].
    injection Hf as <- <- <-. discriminate.
  - rewrite findItem_nontext in Hf by assumption.
    assert (Hgo : forall items k0,
               Forall (fun it => forall p k d, findItem (itemType it) id = Some (p, k, d) ->
                                               typeAt (itemType it) p <> None) items ->
               findInItems findItem id items k0 = Some (p, k, d) ->
               p = []
               \/ exists i it p', p = (k0 + i)%nat :: p' /\ items !! i = Some it
                                  /\ typeAt (itemType it) p' <> None).
    { clear. intros items k0 Hall. revert k0.
      induction Hall as [ | it rest Hit _ IHrest]; intros k0 Hf; [discriminate | ].
      cbn [findInItems] in Hf. destruct (_ && _).
      - injection Hf as <- <- <-. now left.
      - destruct (findItem (itemType it) id) as [[[p' k'] d'] | ] eqn:Hrec.
        + injection Hf as <- <- <-. right. exists 0%nat, it, p'.
          split; [now rewrite Nat.add_0_r | split; [reflexivity | ]].
          eapply Hit; eauto.
        + destruct (IHrest (S k0) Hf) as [-> | (i & it' & p' & -> & Hi & Ht)];
            [now left | right].
          exists (S i), it', p'. split; [f_equal; lia | split; assumption]. }
    destruct (Hgo (yitems t) 0%nat IH Hf) as [-> | (i & it & p' & -> & Hi & Ht)];
      [discriminate | ].
    cbn [typeAt Nat.add]. now rewrite Hi.
Qed.

(** C1, the round trip and the answer [null].  In a document whose root
    is [type], in which every live element has its current node in the
    mapping and every id names one item, each offset [o] from 0 to the
    content size is turned into a relative position that
    [relativePositionToAbsolutePosition] resolves to [o] again.  A
    position whose anchor is an item of the document, deleted or not, is
    never answered with [null]: that answer is given exactly when Yjs
    does not resolve the position, or resolves it to another root type of
    the document. *)
Theorem position_round_trip (type : ytype) (rootKey : string)
    (mapping : gmap nat punit) :
  (forall (fuel : nat) (o : Z),
      isXmlText type = false ->
      mappingCurrent mapping type ->
      uniqueIds type ->
      0 <= o <= contentSize type mapping ->
      (weight type <= fuel)%nat ->
      exists relPos,
        absolutePositionToRelativePosition type rootKey mapping fuel o = Ok relPos
        /\ relativePositionToAbsolutePosition type rootKey mapping relPos
           = Ok (Offset o))
  /\ (forall relPos id,
         rp_item relPos = Some id -> findItem type id <> None ->
         relativePositionToAbsolutePosition type rootKey mapping relPos
         <> Ok Unresolvable)
  /\ (forall relPos,
         relativePositionToAbsolutePosition type rootKey mapping relPos
         = Ok Unresolvable <->
         createAbsolutePositionFromRelativePosition type rootKey relPos = Ok None
         \/ exists index,
              createAbsolutePositionFromRelativePosition type rootKey relPos
              = Ok (Some (OtherRoot, index))).
Proof.
  split; [ | split].
  - intros fuel o. apply offset_round_trip.
  - intros relPos id Hitem Hfound Hnull.
    apply unresolvable_only in Hnull.
    unfold createAbsolutePositionFromRelativePosition in Hnull. rewrite Hitem in Hnull.
    destruct (findItem type id) as [[[p k] d] | ] eqn:Hf; [ | contradiction].
    pose proof (findItem_typeAt id type p k d Hf) as Ht.
    destruct (typeAt type p) as [t | ]; [ | contradiction].
    destruct (itemLive type p);
      destruct Hnull as [Hnone | [index Hother]]; discriminate.
  - intros relPos. apply unresolvable_only.
Qed.

Lemma Cursor_current : mappingCurrent Cursor.mapping Cursor.type.
Proof.
  apply current_node; [reflexivity | ].
  intros it [<- | [<- | []]] _; (split; [ | intros _; eexists; split; [reflexivity | ]]).
  - apply current_node; [reflexivity | ].
    intros it [<- | []] _. split; [apply current_text | discriminate].
  - left. reflexivity.
  - apply current_node; [reflexivity | ]. intros it [].
  - left. reflexivity.
Qed.

Lemma Cursor_unique : uniqueIds Cursor.type.
Proof.
  apply NoDup_ListNoDup. vm_compute.
  repeat (constructor;
          [intros H; repeat (destruct H as [H | H]; [discriminate H | ]); exact H | ]).
  constructor.
Qed.

Lemma position_round_trip_witness :
  (exists relPos,
      absolutePositionToRelativePosition Cursor.type "prosemirror" Cursor.mapping 5 2
      = Ok relPos
      /\ relativePositionToAbsolutePosition Cursor.type "prosemirror" Cursor.mapping
           relPos = Ok (Offset 2))
  /\ relativePositionToAbsolutePosition Cursor.typeAfter "prosemirror"
       Cursor.mappingAfter (RelPos (Some (ID 1 2)) None (Some (ZID 1 1)))
     <> Ok Unresolvable.
Proof.
  split.
  - apply (proj1 (position_round_trip Cursor.type "prosemirror" Cursor.mapping)
             5%nat 2).
    + reflexivity.
    + exact Cursor_current.
    + exact Cursor_unique.
    + vm_compute. split; discriminate.
    + vm_compute. lia.
  - apply (proj1 (proj2 (position_round_trip Cursor.typeAfter "prosemirror"
                           Cursor.mappingAfter))
             (RelPos (Some (ID 1 2)) None (Some (ZID 1 1))) (ZID 1 1)).
    + reflexivity.
    + vm_compute. discriminate.
Defined.

(** The anchor of offset 2 is the character [b]; once [b] is deleted
    the position still resolves to an offset. *)
Lemma deleted_anchor_resolves :
  absolutePositionToRelativePosition Cursor.type "prosemirror" Cursor.mapping 5 2
  = Ok (RelPos (Some (ID 1 2)) None (Some (ZID 1 1)))
  /\ relativePositionToAbsolutePosition Cursor.typeAfter "prosemirror"
       Cursor.mappingAfter (RelPos (Some (ID 1 2)) None (Some (ZID 1 1)))
     = Ok (Offset 2).
Proof. split; vm_compute; reflexivity. Qed.

(** A position anchored in a paragraph that was deleted as a whole and
    lies in front of the first live paragraph: the climb starts at the
    first live sibling, never meets the deleted paragraph, and adds the
    size of every live sibling. *)
Lemma anchor_in_deleted_paragraph :
  relativePositionToAbsolutePosition Removed.type "prosemirror" Removed.mapping
    (RelPos (Some (ID 1 2)) None (Some (ZID 1 0)))
  = Ok (Offset 5).
Proof. vm_compute. reflexivity. Qed.

(** ** Content fidelity *)

(** A text that carries one mark without attributes compares equal to a
    delta that carries any one attribute with the empty object: the
    attribute of the mark is looked up, and replaced by [{}] when it is
    missing. *)
Lemma equalDeltaPText_ignores_name (s key name : string) (r ref : nat) :
  equalDeltaPText (Delta (VStr s) (Some [(key, VObj r [])])) (PText ref s [Mark name []])
  = Ok true.
Proof.
  unfold equalDeltaPText. cbn [insert ptext]. rewrite String.eqb_refl.
  cbn. destruct (String.eqb key name); reflexivity.
Qed.

(** C2 (the code departs from it): the text of the paragraph is
    emphasized in the shared fragment and strong in the local document.
    The run of [updateYFragment] accepts the paragraph as equal, returns
    the fragment as it was and records no mutation; the paragraph then
    materializes with the emphasis, which is not the local paragraph. *)
Theorem mark_swap_not_projected (ops : YTextOps) (clientID fuel : nat) :
  exists st node el st',
    updateYFragment ops clientID (S fuel) MarkSwap.fragment MarkSwap.local
      Examples.emptyState = Ok (MarkSwap.fragment, st)
    /\ mutations st = []
    /\ toArray MarkSwap.fragment = [itemType MarkSwap.paragraph]
    /\ MarkSwap.materialize MarkSwap.paragraph = Ok (Some node, el, st')
    /\ pcontent node = [PText 100 "a" [Mark "em" []]]
    /\ pcontent MarkSwap.localParagraph = [PText 22 "a" [Mark "strong" []]]
    /\ sameNode node MarkSwap.localParagraph = false.
Proof.
  do 4 eexists. split; [reflexivity | ]. split; [reflexivity | ].
  split; [reflexivity | ]. split; [reflexivity | ].
  split; [reflexivity | ]. split; reflexivity.
Qed.

(** ** Normalized content *)

Lemma normalizeContent_flatten (c : list pnode) :
  flatten (normalizeContent c) = c.
Proof.
  induction c as [ | n rest IH]; [reflexivity | ].
  cbn [normalizeContent]. destruct (isText n).
  - destruct (normalizeContent rest) as [ | [m | ts] units];
      cbn in IH |- *; now rewrite <- IH.
  - cbn. now rewrite <- IH at 2.
Qed.

Lemma normalizeContent_wellFormed (c : list pnode) :
  Forall unitWellFormed (normalizeContent c).
Proof.
  induction c as [ | n rest IH]; [constructor | ].
  cbn [normalizeContent]. destruct (isText n) eqn:Hn.
  - destruct (normalizeContent rest) as [ | [m | ts] units].
    + constructor; [ | constructor]. unfold unitWellFormed.
      split; [discriminate | constructor; [exact Hn | constructor]].
    + constructor; [ | exact IH]. unfold unitWellFormed.
      split; [discriminate | constructor; [exact Hn | constructor]].
    + inversion IH as [ | ? ? Hu Hrest]; subst. destruct Hu as [_ Hts].
      constructor; [ | exact Hrest]. unfold unitWellFormed.
      split; [discriminate | now constructor].
  - constructor; [exact Hn | exact IH].
Qed.

Lemma normalizeContent_separated (c : list pnode) :
  separated (normalizeContent c).
Proof.
  induction c as [ | n rest IH]; [intros [ | i] a b H; discriminate | ].
  cbn [normalizeContent]. destruct (isText n).
  - destruct (normalizeContent rest) as [ | [m | ts] units] eqn:E.
    + intros [ | [ | i]] a b Ha Hb; discriminate.
    + intros [ | i] a b Ha Hb; [discriminate | ]. exact (IH i a b Ha Hb).
    + intros [ | i] a b Ha Hb.
      * exact (IH 0%nat ts b eq_refl Hb).
      * exact (IH (S i) a b Ha Hb).
  - intros [ | i] a b Ha Hb; [discriminate | ]. exact (IH i a b Ha Hb).
Qed.

(** X1. [normalizePNodeContent] keeps every child of the node in its
    place: the units, laid out in order, are the content again.  Each
    array it forms is a non-empty run of text nodes, each single node is
    not a text node, and the runs are maximal: two arrays never follow
    each other. *)
Theorem normalizePNodeContent_runs (p : pnode) :
  flatten (normalizePNodeContent p) = pcontent p
  /\ Forall unitWellFormed (normalizePNodeContent p)
  /\ separated (normalizePNodeContent p).
Proof.
  unfold normalizePNodeContent. split; [ | split].
  - apply normalizeContent_flatten.
  - apply normalizeContent_wellFormed.
  - apply normalizeContent_separated.
Qed.

(** ** The attributes of a run of text *)

Lemma marksToAttributes_snoc (marks : list mark) (m : mark) :
  marksToAttributes (marks ++ [m])
  = if String.eqb (markName m) "ychange" then marksToAttributes marks
    else setKey (markName m) (VObj 0 (markAttrs m)) (marksToAttributes marks).
Proof. unfold marksToAttributes. now rewrite fold_left_app. Qed.

(** X2. [marksToAttributes] never produces the key of the diff
    annotation, and under any other name it holds the attributes of the
    last mark of that name. *)
Theorem marksToAttributes_lookup (marks : list mark) (name : string) :
  lookupKey name (marksToAttributes marks)
  = if String.eqb name "ychange" then None
    else (fun m => VObj 0 (markAttrs m)) <$> lastMark name marks.
Proof.
  induction marks as [ | m marks IH] using rev_ind.
  - cbn. now destruct (String.eqb name "ychange").
  - rewrite marksToAttributes_snoc. unfold lastMark in *.
    rewrite rev_app_distr. cbn [rev app find].
    destruct (String.eqb_spec (markName m) "ychange") as [Hy | Hy].
    + rewrite IH. destruct (String.eqb_spec name "ychange") as [Hn | Hn];
        [reflexivity | ].
      destruct (String.eqb_spec (markName m) name); [congruence | reflexivity].
    + destruct (String.eqb_spec (markName m) name) as [<- | Hne].
      * rewrite lookupKey_setKey.
        destruct (String.eqb_spec (markName m) "ychange"); [contradiction | reflexivity].
      * rewrite lookupKey_setKey_ne by congruence. exact IH.
Qed.

(** ** The text of a Y.Text *)






(** ** The equality factor *)

Section FactorBounds.
Variable mapping : gmap nat punit.
Variables (yChildren : list ytype) (pChildren : list punit).

Lemma factorLeft_bound (fuel left : nat) (found : bool) (n : nat) (found' : bool) :
  factorLeft mapping yChildren pChildren fuel left found = Ok (n, found') ->
  mappedChildIn mapping yChildren pChildren found ->
  (left <= n <= left + fuel)%nat /\ mappedChildIn mapping yChildren pChildren found'.
Proof.
  revert left found. induction fuel as [ | fuel IH]; intros left found H Hw.
  - injection H as <- <-. split; [lia | exact Hw].
  - cbn [factorLeft] in H.
    destruct (yChildren !! left) as [leftY | ] eqn:HY;
      [ | injection H as <- <-; split; [lia | exact Hw]].
    destruct (pChildren !! left) as [leftP | ] eqn:HP;
      [ | injection H as <- <-; split; [lia | exact Hw]].
    destruct (mappedIdentity (mapping !! yref leftY) leftP) eqn:Hm.
    + apply IH in H; [split; [lia | apply H] | ].
      intros _. exists leftY, leftP. repeat split; [ | | exact Hm].
      * apply list_elem_of_In. eapply list_elem_of_lookup_2, HY.
      * apply list_elem_of_In. eapply list_elem_of_lookup_2, HP.
    + destruct (equalYTypePNode leftY leftP) as [[ | ] | e | ]; cbn in H; try discriminate.
      * apply IH in H; [split; [lia | apply H] | exact Hw].
      * injection H as <- <-. split; [lia | exact Hw].
Qed.

Lemma factorRight_bound (fuel right : nat) (found : bool) (n : nat) (found' : bool) :
  factorRight mapping yChildren pChildren fuel right found = Ok (n, found') ->
  mappedChildIn mapping yChildren pChildren found ->
  (right <= n <= right + fuel)%nat /\ mappedChildIn mapping yChildren pChildren found'.
Proof.
  revert right found. induction fuel as [ | fuel IH]; intros right found H Hw.
  - injection H as <- <-. split; [lia | exact Hw].
  - cbn [factorRight] in H.
    destruct (yChildren !! _) as [rightY | ] eqn:HY;
      [ | injection H as <- <-; split; [lia | exact Hw]].
    destruct (pChildren !! _) as [rightP | ] eqn:HP;
      [ | injection H as <- <-; split; [lia | exact Hw]].
    destruct (mappedIdentity (mapping !! yref rightY) rightP) eqn:Hm.
    + apply IH in H; [split; [lia | apply H] | ].
      intros _. exists rightY, rightP. repeat split; [ | | exact Hm].
      * apply list_elem_of_In. eapply list_elem_of_lookup_2, HY.
      * apply list_elem_of_In. eapply list_elem_of_lookup_2, HP.
    + destruct (equalYTypePNode rightY rightP) as [[ | ] | e | ]; cbn in H; try discriminate.
      * apply IH in H; [split; [lia | apply H] | exact Hw].
      * injection H as <- <-. split; [lia | exact Hw].
Qed.
End FactorBounds.

(** X4. The equality factor that [computeChildEqualityFactor] reports
    never exceeds the number of children on either side, and it reports a
    mapped child only when some live child of the type is mapped to one
    of the units of the node. *)
Theorem computeChildEqualityFactor_bound (ytype : ytype) (pnode : pnode)
    (mapping : gmap nat punit) (e : equality) :
  computeChildEqualityFactor ytype pnode mapping = Ok e ->
  (equalityFactor e <= length (toArray ytype))%nat
  /\ (equalityFactor e <= length (normalizePNodeContent pnode))%nat
  /\ (foundMappedChild e = true ->
      exists y p, In y (toArray ytype) /\ In p (normalizePNodeContent pnode)
                  /\ mappedIdentity (mapping !! yref y) p = true).
Proof.
  unfold computeChildEqualityFactor. intros H.
  destruct (factorLeft _ _ _ _ _ _) as [[nleft found] | e' | ] eqn:HL; try discriminate.
  cbn in H.
  destruct (factorRight _ _ _ _ _ _) as [[nright found'] | e' | ] eqn:HR; try discriminate.
  cbn in H. injection H as <-. cbn [equalityFactor foundMappedChild].
  apply factorLeft_bound in HL; [ | intros [=]]. destruct HL as [HL Hw].
  apply factorRight_bound in HR; [ | exact Hw]. destruct HR as [HR Hw'].
  split; [lia | split; [lia | exact Hw']].
Qed.

Lemma computeChildEqualityFactor_bound_witness :
  (equalityFactor (Equality 2 true) <= length (toArray Examples.fragment1))%nat
  /\ (equalityFactor (Equality 2 true)
      <= length (normalizePNodeContent Examples.doc1))%nat
  /\ (foundMappedChild (Equality 2 true) = true ->
      exists y p, In y (toArray Examples.fragment1)
                  /\ In p (normalizePNodeContent Examples.doc1)
                  /\ mappedIdentity (mapping Rerun.state1 !! yref y) p = true).
Proof.
  apply (computeChildEqualityFactor_bound Examples.fragment1 Examples.doc1
           (mapping Rerun.state1) (Equality 2 true)).
  reflexivity.
Defined.

(** ** Building shared types *)

Lemma pheight_child (n : pnode) (c : list pnode) :
  In n c -> (pheight n <= fold_right (fun n acc => Nat.max (pheight n) acc) 0 c)%nat.
Proof.
  induction c as [ | m rest IH]; [intros [] | ].
  intros [-> | Hin]; cbn [fold_right]; [lia | ].
  specialize (IH Hin). lia.
Qed.

Lemma normalizeContent_node (n : pnode) (c : list pnode) :
  In (UNode n) (normalizeContent c) -> In n c.
Proof.
  intros Hin. rewrite <- (normalizeContent_flatten c). unfold flatten.
  apply in_concat. exists [n]. split; [ | now left].
  apply (in_map unitNodes) in Hin. exact Hin.
Qed.

Lemma createAllWith_total (create : punit -> ystate -> res (ytype * ystate))
    (units : list punit) :
  (forall u st, In u units -> exists t st', create u st = Ok (t, st')) ->
  forall st, exists ts st', createAllWith create units st = Ok (ts, st').
Proof.
  induction units as [ | u rest IH]; intros Hall st; cbn [createAllWith].
  - now exists [], st.
  - destruct (Hall u st ltac:(now left)) as (t & st1 & Ht). rewrite Ht.
    cbn [mbind res_bind bind].
    destruct (IH (fun u st H => Hall u st (or_intror H)) st1) as (ts & st2 & Hts).
    cbn [createAllWith] in Hts. rewrite Hts. cbn [mbind res_bind bind].
    now exists (t :: ts), st2.
Qed.

Lemma createAllWith_Forall2 (R : ytype -> punit -> Prop)
    (create : punit -> ystate -> res (ytype * ystate)) :
  (forall u st t st', create u st = Ok (t, st') -> R t u) ->
  forall units st ts st',
    createAllWith create units st = Ok (ts, st') -> Forall2 R ts units.
Proof.
  intros Hcreate. induction units as [ | u rest IH]; intros st ts st' Hrun;
    cbn [createAllWith] in Hrun.
  - injection Hrun as <- <-. constructor.
  - destruct (create u st) as [[t st1] | | ] eqn:Ht; try discriminate.
    cbn [mbind res_bind bind] in Hrun.
    destruct (createAllWith create rest st1) as [[ts' st2] | | ] eqn:Hrest;
      try discriminate.
    cbn [mbind res_bind bind] in Hrun. injection Hrun as <- <-.
    constructor; [now apply (Hcreate u st t st1) | now apply (IH st1 ts' st2)].
Qed.

Section Building.
Variables (ops : YTextOps) (clientID : nat).

Lemma createTypeFromElementNode_element (fuel : nat) (node : pnode) (st : ystate)
    (t : ytype) (st' : ystate) :
  createTypeFromElementNode ops clientID fuel node st = Ok (t, st') ->
  exists items,
    t = XmlElement (nextRef st) (ptypeName node) (initialAttributes (pattrsOf node)) items.
Proof.
  destruct fuel as [ | fuel]; [discriminate | ]. cbn [createTypeFromElementNode freshRef].
  destruct (createAllWith _ _ _) as [[children st2] | | ]; try discriminate.
  cbn [mbind res_bind bind]. destruct (newItems clientID children st2) as [items st3].
  intros [= <- <-]. now exists items.
Qed.

Lemma createTypeFromTextOrElementNode_kind (fuel : nat) (u : punit) (st : ystate)
    (t : ytype) (st' : ystate) :
  createTypeFromTextOrElementNode ops clientID fuel u st = Ok (t, st') ->
  isXmlText t = isTexts u.
Proof.
  destruct u as [n | nodes]; cbn [createTypeFromTextOrElementNode isTexts].
  - intros H. apply createTypeFromElementNode_element in H as [items ->]. reflexivity.
  - unfold createTypeFromTextNodes. cbn [freshRef].
    destruct (ytext_applyDelta _ _ _ _ _) as [items c]. now intros [= <- <-].
Qed.

Lemma createTypeFromElementNode_unfold (fuel : nat) (node : pnode) (st : ystate) :
  createTypeFromElementNode ops clientID (S fuel) node st
  = '(children, st2) ←
      createAllWith (createTypeFromTextOrElementNode ops clientID fuel)
        (normalizePNodeContent node)
        (YState (mapping st) (S (nextRef st)) (nextClock st) (mutations st));
    let '(items, st3) := newItems clientID children st2 in
    Ok (XmlElement (nextRef st) (ptypeName node) (initialAttributes (pattrsOf node)) items,
        mappingSet (nextRef st) (UNode node) st3).
Proof. reflexivity. Qed.

Lemma createTypeFromElementNode_total (fuel : nat) :
  forall node st, (pheight node < fuel)%nat ->
    exists t st', createTypeFromElementNode ops clientID fuel node st = Ok (t, st').
Proof.
  induction fuel as [ | fuel IH]; intros node st Hfuel; [lia | ].
  rewrite createTypeFromElementNode_unfold.
  assert (Hunits : forall u s, In u (normalizePNodeContent node) ->
            exists t s', createTypeFromTextOrElementNode ops clientID fuel u s = Ok (t, s')).
  { intros [n | nodes] s Hin; cbn [createTypeFromTextOrElementNode].
    - apply IH. apply normalizeContent_node in Hin.
      destruct node as [r s0 ms | r name a sz c]; [destruct Hin | ].
      apply pheight_child in Hin. cbn [pheight pcontent] in Hfuel, Hin. lia.
    - destruct (createTypeFromTextNodes ops clientID nodes s) as [t s']. eauto. }
  destruct (createAllWith_total _ _ Hunits
              (YState (mapping st) (S (nextRef st)) (nextClock st) (mutations st)))
    as (children & st2 & Hall).
  rewrite Hall. cbn [mbind res_bind bind].
  destruct (newItems clientID children st2) as [items st3]. eauto.
Qed.

(** X5. Given fuel for the depth of the node, [createTypeFromElementNode]
    returns a new element that carries the name of the node, holds one
    live child per unit of its normalized content - a text type for an
    array of text nodes, an element for a node - and is entered in the
    mapping under the node, as each child is under its unit. *)
Theorem createTypeFromElementNode_builds (fuel : nat) (node : pnode) (st : ystate) :
  (pheight node < fuel)%nat ->
  exists items st',
    createTypeFromElementNode ops clientID fuel node st
    = Ok (XmlElement (nextRef st) (ptypeName node) (initialAttributes (pattrsOf node))
            items, st')
    /\ Forall2 (fun it u => itemDeleted it = false
                            /\ mapping st' !! yref (itemType it) = Some u
                            /\ isXmlText (itemType it) = isTexts u)
               items (normalizePNodeContent node)
    /\ mapping st' !! nextRef st = Some (UNode node).
Proof.
  intros Hfuel. destruct fuel as [ | fuel]; [lia | ].
  destruct (createTypeFromElementNode_total (S fuel) node st Hfuel) as (t & st' & Hrun).
  pose proof Hrun as Hrun0.
  rewrite createTypeFromElementNode_unfold in Hrun.
  set (st1 := YState (mapping st) (S (nextRef st)) (nextClock st) (mutations st)) in *.
  destruct (createAllWith _ _ st1) as [[children st2] | | ] eqn:Hall; try discriminate.
  cbn [mbind res_bind bind] in Hrun.
  destruct (newItems clientID children st2) as [items st3] eqn:Hitems.
  injection Hrun as <- <-. exists items, (mappingSet (nextRef st) (UNode node) st3).
  split; [exact Hrun0 | ].
  destruct (createAllWith_created (createTypeFromTextOrElementNode ops clientID fuel)
              (createTypeFromTextOrElementNode_created ops clientID fuel)
              _ _ _ _ Hall) as (_ & _ & _ & Hmapped & _).
  pose proof (createAllWith_Forall2 (fun t u => isXmlText t = isTexts u) _
                (createTypeFromTextOrElementNode_kind fuel) _ _ _ _ Hall) as Hkind.
  pose proof (newItems_state clientID children st2) as (Hm3 & _ & _ & Hty & Hlive).
  rewrite Hitems in Hm3, Hty, Hlive. cbn [fst snd] in Hm3, Hty, Hlive.
  split; [ | cbn [mappingSet mapping]; apply lookup_insert_eq].
  apply Forall2_same_length_lookup_2.
  - rewrite <- (length_map itemType items), Hty. eapply Forall2_length, Hkind.
  - intros i it u Hit Hu.
    assert (Ht : children !! i = Some (itemType it)).
    { rewrite <- Hty. change (map itemType items) with (itemType <$> items).
      rewrite list_lookup_fmap, Hit. reflexivity. }
    split; [exact (proj1 (List.Forall_forall _ _) Hlive it
                     (proj1 (list_elem_of_In _ _) (list_elem_of_lookup_2 _ _ _ Hit))) | ].
    destruct (Forall2_lookup_lr _ _ _ _ _ _ Hmapped Ht Hu) as [Hmap Hrange].
    split; [ | exact (Forall2_lookup_lr _ _ _ _ _ _ Hkind Ht Hu)].
    cbn [mappingSet mapping]. rewrite lookup_insert_ne; [ | unfold st1 in Hrange; cbn [nextRef] in Hrange; lia].
    now rewrite Hm3.
Qed.

End Building.

Lemma createTypeFromElementNode_builds_witness :
  exists items st',
    createTypeFromElementNode PlainText.ops 7 3 Examples.doc1 Examples.emptyState
    = Ok (XmlElement (nextRef Examples.emptyState) (ptypeName Examples.doc1)
            (initialAttributes (pattrsOf Examples.doc1)) items, st')
    /\ Forall2 (fun it u => itemDeleted it = false
                            /\ mapping st' !! yref (itemType it) = Some u
                            /\ isXmlText (itemType it) = isTexts u)
               items (normalizePNodeContent Examples.doc1)
    /\ mapping st' !! nextRef Examples.emptyState = Some (UNode Examples.doc1).
Proof.
  apply (createTypeFromElementNode_builds PlainText.ops 7 3 Examples.doc1
           Examples.emptyState).
  vm_compute. lia.
Defined.

Lemma lookupKey_app (k : string) (a b : attrs) :
  lookupKey k (a ++ b)%list
  = match lookupKey k a with Some v => Some v | None => lookupKey k b end.
Proof.
  induction a as [ | [k' v] a IH]; [reflexivity | ]. cbn [app lookupKey].
  now destruct (String.eqb k' k).
Qed.

Lemma initialAttributes_snoc (a : attrs) (k : string) (v : jsval) :
  initialAttributes (a ++ [(k, v)])%list
  = if negb (isNull v) && negb (String.eqb k "ychange")
    then setKey k v (initialAttributes a) else initialAttributes a.
Proof. unfold initialAttributes. now rewrite fold_left_app. Qed.

Lemma initialAttributes_lookup (a : attrs) (k : string) :
  NoDup (map fst a) ->
  lookupKey k (initialAttributes a)
  = if String.eqb k "ychange" then None else nonNull a k.
Proof.
  induction a as [ | [k' v] a IH] using rev_ind; intros Hnd.
  - cbn. now destruct (String.eqb k "ychange").
  - rewrite map_app in Hnd. apply NoDup_app in Hnd as (Hnd & Hfresh & _).
    assert (Hk' : lookupKey k' a = None).
    { apply lookupKey_None. intros Hin. apply (Hfresh k').
      - now apply list_elem_of_In.
      - cbn. left. }
    rewrite initialAttributes_snoc. unfold nonNull in *.
    rewrite lookupKey_app. cbn [lookupKey].
    destruct (String.eqb_spec k' k) as [-> | Hne].
    + rewrite Hk' in IH |- *.
      destruct (String.eqb_spec k "ychange") as [Hy | Hy].
      * rewrite andb_false_r. now apply IH.
      * rewrite andb_true_r. destruct (isNull v) eqn:Hv; cbn [negb].
        -- rewrite (IH Hnd). now destruct v.
        -- rewrite lookupKey_setKey. now destruct v.
    + assert (Hsame : lookupKey k
                        (if negb (isNull v) && negb (String.eqb k' "ychange")
                         then setKey k' v (initialAttributes a)
                         else initialAttributes a)
                      = lookupKey k (initialAttributes a)).
      { destruct (negb (isNull v) && negb (String.eqb k' "ychange"));
          [ | reflexivity].
        apply lookupKey_setKey_ne. congruence. }
      rewrite Hsame, (IH Hnd). now destruct (lookupKey k a).
Qed.

Section Registering.
Variables (ops : YTextOps) (clientID : nat).

(** X6. The element that [createTypeFromElementNode] returns has the
    attributes of the node that are not null, except the diff
    annotation, and no others. *)
Theorem createTypeFromElementNode_attributes (fuel : nat) (node : pnode)
    (st : ystate) (t : ytype) (st' : ystate) :
  NoDup (map fst (pattrsOf node)) ->
  createTypeFromElementNode ops clientID fuel node st = Ok (t, st') ->
  forall k, lookupKey k (getAttributes t)
            = if String.eqb k "ychange" then None else nonNull (pattrsOf node) k.
Proof.
  intros Hnd Hrun k.
  apply createTypeFromElementNode_element in Hrun as [items ->].
  cbn [getAttributes]. now apply initialAttributes_lookup.
Qed.

(** X7. Whatever [createTypeFromTextOrElementNode] builds is a new
    object that the mapping holds under the content it was built from;
    the entries of all older objects stay as they were, and nothing in
    the existing tree is touched. *)
Theorem createTypeFromTextOrElementNode_registers (fuel : nat) (u : punit)
    (st : ystate) (t : ytype) (st' : ystate) :
  createTypeFromTextOrElementNode ops clientID fuel u st = Ok (t, st') ->
  yref t = nextRef st
  /\ mapping st' !! yref t = Some u
  /\ (forall k, (k < nextRef st)%nat -> mapping st' !! k = mapping st !! k)
  /\ mutations st' = mutations st.
Proof.
  intros Hrun.
  destruct (createTypeFromTextOrElementNode_created ops clientID fuel u st t st' Hrun)
    as (Href & _ & Hmap & Hframe & Hmut).
  auto.
Qed.
End Registering.

Lemma createTypeFromElementNode_attributes_witness :
  exists t st',
    createTypeFromElementNode PlainText.ops 7 2 Samples.aligned Examples.emptyState
    = Ok (t, st')
    /\ getAttributes t = [("align", VStr "left")]
    /\ forall k, lookupKey k (getAttributes t)
                 = if String.eqb k "ychange" then None
                   else nonNull (pattrsOf Samples.aligned) k.
Proof.
  assert (Hrun : { r : ytype * ystate |
             createTypeFromElementNode PlainText.ops 7 2 Samples.aligned
               Examples.emptyState = Ok r
             /\ getAttributes (fst r) = [("align", VStr "left")] }).
  { eexists. split; vm_compute; reflexivity. }
  destruct Hrun as [[t st'] [Hrun Hattrs]].
  exists t, st'. split; [exact Hrun | split; [exact Hattrs | ]].
  apply (createTypeFromElementNode_attributes PlainText.ops 7 2 Samples.aligned
           Examples.emptyState t st'); [ | exact Hrun].
  refine (bool_decide_unpack _ _). vm_compute. exact I.
Defined.

Lemma createTypeFromTextOrElementNode_registers_witness :
  exists t st',
    createTypeFromTextOrElementNode PlainText.ops 7 3
      (UTexts [PText 3 "hello " []; PText 4 "world" [Examples.bold]])
      Rerun.state1 = Ok (t, st')
    /\ yref t = nextRef Rerun.state1
    /\ mapping st' !! yref t
       = Some (UTexts [PText 3 "hello " []; PText 4 "world" [Examples.bold]])
    /\ (forall k, (k < nextRef Rerun.state1)%nat ->
                  mapping st' !! k = mapping Rerun.state1 !! k)
    /\ mutations st' = mutations Rerun.state1.
Proof.
  assert (Hrun : { r : ytype * ystate |
             createTypeFromTextOrElementNode PlainText.ops 7 3
               (UTexts [PText 3 "hello " []; PText 4 "world" [Examples.bold]])
               Rerun.state1 = Ok r }).
  { eexists. vm_compute. reflexivity. }
  destruct Hrun as [[t st'] Hrun].
  exists t, st'. split; [exact Hrun | ].
  apply (createTypeFromTextOrElementNode_registers PlainText.ops 7 3 _ _ _ _ Hrun).
Defined.

(** ** The forward reconciler *)

Lemma withItems_kind (t : ytype) (items : list yitem) :
  isXmlElement (withItems t items) = isXmlElement t.
Proof. now destruct t. Qed.

Section Kind.
Variables (ops : YTextOps) (clientID : nat).
Variable recurse : ytype -> pnode -> ystate -> res (ytype * ystate).
Variable create : punit -> ystate -> res (ytype * ystate).
Variables (yChildren : list ytype) (pChildren : list punit).

Lemma insertChildren_kind (frag : ytype) (i : nat) (ts : list ytype) (st : ystate) :
  isXmlElement (fst (insertChildren clientID frag i ts st)) = isXmlElement frag.
Proof.
  unfold insertChildren. destruct (newItems clientID ts st) as [items st1].
  apply withItems_kind.
Qed.

Lemma updateElementPair_kind (leftY : ytype) (leftP : punit) (rightY : ytype)
    (rightP : punit) (left right : nat) (frag : ytype) (st : ystate)
    (l r : nat) (frag' : ytype) (st' : ystate) :
  updateElementPair clientID recurse create yChildren leftY leftP rightY rightP
    left right frag st = Ok (l, r, frag', st') ->
  isXmlElement frag' = isXmlElement frag.
Proof.
  unfold updateElementPair.
  destruct (decideUpdate _ _ _ _ _) as [[updateLeft updateRight] | | ];
    cbn [mbind res_bind bind]; try discriminate.
  destruct updateLeft; [ | destruct updateRight].
  - destruct leftP as [lp | ]; try discriminate.
    destruct (recurse leftY lp st) as [[t s] | | ]; cbn [mbind res_bind bind];
      try discriminate.
    intros [= <- <- <- <-]. apply withItems_kind.
  - destruct rightP as [rp | ]; try discriminate.
    destruct (recurse rightY rp st) as [[t s] | | ]; cbn [mbind res_bind bind];
      try discriminate.
    intros [= <- <- <- <-]. apply withItems_kind.
  - cbn [deleteChildren].
    destruct (create leftP _) as [[t s] | | ]; cbn [mbind res_bind bind];
      try discriminate.
    destruct (insertChildren clientID _ left [t] s) as [frag1 s1] eqn:Hins.
    intros [= <- <- <- <-].
    change frag1 with (fst (frag1, s1)). rewrite <- Hins, insertChildren_kind.
    apply withItems_kind.
Qed.

Lemma middleStep_kind (left right : nat) (frag : ytype) (st : ystate)
    (l r : nat) (frag' : ytype) (st' : ystate) :
  middleStep ops clientID recurse create yChildren pChildren left right frag st
  = Ok (l, r, frag', st') ->
  isXmlElement frag' = isXmlElement frag.
Proof.
  unfold middleStep.
  destruct (yChildren !! left) as [leftY | ]; [ | discriminate].
  destruct (pChildren !! left) as [leftP | ]; [ | discriminate].
  destruct (yChildren !! _) as [rightY | ]; [ | discriminate].
  destruct (pChildren !! _) as [rightP | ]; [ | discriminate].
  destruct leftY as [rt its | | ]; try apply updateElementPair_kind.
  destruct leftP as [ | ptexts]; try apply updateElementPair_kind.
  destruct (equalYTextPText _ _) as [[ | ] | | ]; cbn [mbind res_bind bind];
    try discriminate.
  - now intros [= <- <- <- <-].
  - destruct (updateYText _ _ _ _ _) as [t s]. intros [= <- <- <- <-].
    apply withItems_kind.
Qed.

Lemma middleLoop_kind (k : nat) :
  forall left right frag st l r frag' st',
    middleLoop ops clientID recurse create yChildren pChildren k left right frag st
    = Ok (l, r, frag', st') ->
    isXmlElement frag' = isXmlElement frag.
Proof.
  induction k as [ | k IH]; intros left right frag st l r frag' st';
    cbn [middleLoop].
  - now intros [= <- <- <- <-].
  - destruct (middleStep _ _ _ _ _ _ _ _ _ _) as [[[[l1 r1] frag1] st1] | | ] eqn:Hstep;
      cbn [mbind res_bind bind]; try discriminate.
    intros Hloop. apply IH in Hloop. apply middleStep_kind in Hstep. congruence.
Qed.
End Kind.

Section Reconciling.
Variables (ops : YTextOps) (clientID : nat).

Lemma updateYFragment_kind (fuel : nat) (F : ytype) (P : pnode) (st : ystate)
    (F' : ytype) (st' : ystate) :
  updateYFragment ops clientID fuel F P st = Ok (F', st') ->
  isXmlElement F' = isXmlElement F.
Proof.
  destruct fuel as [ | fuel]; [discriminate | ]. cbn [updateYFragment].
  destruct (nodeNameMismatch F P); [discriminate | ].
  destruct (isXmlText F); [discriminate | ].
  destruct (attributeStep F P (mappingSet (yref F) (UNode P) st))
    as (frag & st2 & -> & _ & _ & _ & Hkind & _).
  destruct (scanLeft _ _ _ _ _) as [[nleft st3] | | ];
    cbn [mbind res_bind bind]; try discriminate.
  destruct (scanRight _ _ _ _ _) as [[nright st4] | | ];
    cbn [mbind res_bind bind]; try discriminate.
  destruct (middleLoop _ _ _ _ _ _ _ _ _ _ _) as [[[[nl nr] frag5] st5] | | ] eqn:HM;
    cbn [mbind res_bind bind]; try discriminate.
  apply middleLoop_kind in HM.
  assert (Hdel : isXmlElement
                   (fst match (length (toArray frag) - nl - nr)%nat with
                        | O => (frag5, st5)
                        | S _ => deleteChildren frag5 nl
                                   (length (toArray frag) - nl - nr) st5
                        end) = isXmlElement frag5).
  { destruct (length (toArray frag) - nl - nr)%nat; [reflexivity | ].
    apply withItems_kind. }
  destruct (match (length (toArray frag) - nl - nr)%nat with
            | O => _ | S _ => _ end) as [frag6 st6].
  cbn [fst] in Hdel.
  destruct (Nat.ltb _ _).
  - destruct (createAllTypes _ _ _ _ _) as [[ins st7] | | ];
      cbn [mbind res_bind bind]; try discriminate.
    intros [= Hres]. 
    pose proof (insertChildren_kind clientID frag6 nl ins st7) as Hins.
    rewrite Hres in Hins. cbn [fst] in Hins. congruence.
  - intros [= <- <-]. congruence.
Qed.

(** X8. After a run of [updateYFragment] the type is the same object and
    the mapping holds the local node under it; it has as many live
    children as the node has units of normalized content, and each child
    is the mapped object of the unit in its place or equal to it.  The
    mapping entries of objects outside the tree are not touched. *)
Theorem updateYFragment_aligns (fuel : nat) (F : ytype) (P : pnode) (st : ystate)
    (F' : ytype) (st' : ystate) :
  distinctRefs F st ->
  (isXmlElement F = true -> stableAttrs (pattrsOf P)) ->
  updateYFragment ops clientID fuel F P st = Ok (F', st') ->
  yref F' = yref F
  /\ mapping st' !! yref F = Some (UNode P)
  /\ length (toArray F') = length (normalizePNodeContent P)
  /\ (forall i y p, toArray F' !! i = Some y -> normalizePNodeContent P !! i = Some p ->
                    mappedIdentity (mapping st' !! yref y) p = true
                    \/ equalYTypePNode y p = Ok true)
  /\ (forall k, (k < nextRef st)%nat -> ~ In k (allRefs F) ->
                mapping st' !! k = mapping st !! k).
Proof.
  intros Hrefs Hattrs Hrun.
  destruct (updateYFragment_post ops clientID fuel F P st F' st' Hrefs Hrun)
    as (Href & _ & Hframe & Hmap & Hsettled).
  destruct (Hsettled Hattrs) as (_ & _ & Hlen & Hal & _).
  split; [exact Href | ]. split; [exact Hmap | ]. split; [exact Hlen | ].
  split; [exact Hal | exact Hframe].
Qed.

(** X9. After a run of [updateYFragment] on an element, every attribute
    of the local node that is not null is an attribute of the element
    with the identical value, and the element has no attribute that the
    node lacks or holds as null; the diff annotation is left out of the
    comparison. *)
Theorem updateYFragment_attributes (fuel : nat) (F : ytype) (P : pnode) (st : ystate)
    (F' : ytype) (st' : ystate) :
  isXmlElement F = true ->
  distinctRefs F st ->
  stableAttrs (pattrsOf P) ->
  updateYFragment ops clientID fuel F P st = Ok (F', st') ->
  forall key,
    match lookupKey key (pattrsOf P) with
    | Some v =>
        if isNull v then lookupKey key (getAttributes F') = None
        else key <> "ychange" -> strictEq v (lookupKey key (getAttributes F')) = true
    | None => lookupKey key (getAttributes F') = None
    end.
Proof.
  intros Hel Hrefs Hattrs Hrun key.
  destruct (updateYFragment_post ops clientID fuel F P st F' st' Hrefs Hrun)
    as (_ & _ & _ & _ & Hsettled).
  destruct (Hsettled (fun _ => Hattrs)) as (_ & _ & _ & _ & _ & _ & Hsync).
  apply updateYFragment_kind in Hrun.
  destruct (Hsync ltac:(congruence)) as (Hset & Hnull & Hkeys).
  destruct (lookupKey key (pattrsOf P)) as [v | ] eqn:Hp.
  - apply lookupKey_Some in Hp. destruct (isNull v) eqn:Hv.
    + now apply (Hnull key v).
    + intros Hkey. now apply (Hset key v).
  - destruct (lookupKey key (getAttributes F')) eqn:Hy; [ | reflexivity].
    exfalso. apply (Hkeys key); [congruence | exact Hp].
Qed.

(** X10. On a type whose live children are equal to the units of the
    node, one for one, [updateYFragment] changes nothing: it returns the
    type as it is and records no insertion, deletion or attribute
    change.  (For an element the attributes must already agree with the
    node; the children are distinct objects.) *)
Theorem updateYFragment_equal_children (fuel : nat) (F : ytype) (P : pnode)
    (st : ystate) :
  nodeNameMismatch F P = false ->
  isXmlText F = false ->
  NoDup (map yref (toArray F)) ->
  ~ In (yref F) (map yref (toArray F)) ->
  Forall2 (fun y p => equalYTypePNode y p = Ok true)
          (toArray F) (normalizePNodeContent P) ->
  (isXmlElement F = true -> attrsSynced (getAttributes F) (pattrsOf P)) ->
  exists st',
    updateYFragment ops clientID (S fuel) F P st = Ok (F, st')
    /\ mutations st' = mutations st.
Proof.
  intros Hname Htext Hnd Hroot Hequal Hattrs.
  apply updateYFragment_settled.
  split; [exact Hname | ]. split; [exact Htext | ].
  split; [exact (Forall2_length _ _ _ Hequal) | ].
  split; [ | auto].
  intros i y p Hy Hp. right. exact (Forall2_lookup_lr _ _ _ _ _ _ Hequal Hy Hp).
Qed.

(** X11. [updateYFragment] throws the node name mismatch exactly when the
    type it is called on is an element whose name is not that of the
    local node: the recursive calls never raise it. *)
Theorem updateYFragment_mismatch_iff (fuel : nat) (F : ytype) (P : pnode)
    (st : ystate) :
  updateYFragment ops clientID (S fuel) F P st = Throw NodeNameMismatch
  <-> nodeNameMismatch F P = true.
Proof.
  split.
  - intros Hrun. destruct (nodeNameMismatch F P) eqn:Hname; [reflexivity | ].
    pose proof (updateYFragment_errors ops clientID (S fuel) F P st Hname _ Hrun).
    discriminate.
  - intros Hname. cbn [updateYFragment]. now rewrite Hname.
Qed.
End Reconciling.

Lemma Samples_stable : stableAttrs (pattrsOf Samples.aligned).
Proof.
  split.
  - refine (bool_decide_unpack _ _). vm_compute. exact I.
  - intros key v [H | [H | [H | []]]]; injection H as <- <-; discriminate.
Qed.

Lemma Samples_distinct : distinctRefs Examples.fragment1 Rerun.state1.
Proof.
  split.
  - refine (bool_decide_unpack _ _). vm_compute. exact I.
  - apply List.Forall_forall. vm_compute.
    repeat (constructor; [lia | ]). constructor.
Qed.

Lemma updateYFragment_aligns_witness :
  exists F' st',
    Examples.run Examples.fragment1 Rerun.doc2 Rerun.state1 = Ok (F', st')
    /\ yref F' = yref Examples.fragment1
    /\ mapping st' !! yref Examples.fragment1 = Some (UNode Rerun.doc2)
    /\ length (toArray F') = length (normalizePNodeContent Rerun.doc2)
    /\ (forall i y p, toArray F' !! i = Some y ->
                      normalizePNodeContent Rerun.doc2 !! i = Some p ->
                      mappedIdentity (mapping st' !! yref y) p = true
                      \/ equalYTypePNode y p = Ok true)
    /\ (forall k, (k < nextRef Rerun.state1)%nat -> ~ In k (allRefs Examples.fragment1) ->
                  mapping st' !! k = mapping Rerun.state1 !! k).
Proof.
  assert (Hrun : { r : ytype * ystate |
             Examples.run Examples.fragment1 Rerun.doc2 Rerun.state1 = Ok r }).
  { eexists. vm_compute. reflexivity. }
  destruct Hrun as [[F' st'] Hrun]. exists F', st'. split; [exact Hrun | ].
  apply (updateYFragment_aligns PlainText.ops 7 10 Examples.fragment1 Rerun.doc2
           Rerun.state1 F' st' Samples_distinct ltac:(intros H; discriminate H) Hrun).
Defined.

Lemma updateYFragment_attributes_witness :
  exists F' st',
    Examples.run Samples.centred Samples.aligned Examples.emptyState = Ok (F', st')
    /\ getAttributes F' = [("align", VStr "left")]
    /\ forall key,
         match lookupKey key (pattrsOf Samples.aligned) with
         | Some v =>
             if isNull v then lookupKey key (getAttributes F') = None
             else key <> "ychange" ->
                  strictEq v (lookupKey key (getAttributes F')) = true
         | None => lookupKey key (getAttributes F') = None
         end.
Proof.
  assert (Hrun : { r : ytype * ystate |
             Examples.run Samples.centred Samples.aligned Examples.emptyState = Ok r
             /\ getAttributes (fst r) = [("align", VStr "left")] }).
  { eexists. split; vm_compute; reflexivity. }
  destruct Hrun as [[F' st'] [Hrun Hattrs]]. exists F', st'.
  split; [exact Hrun | split; [exact Hattrs | ]].
  apply (updateYFragment_attributes PlainText.ops 7 10 Samples.centred Samples.aligned
           Examples.emptyState F' st' eq_refl); [ | exact Samples_stable | exact Hrun].
  split.
  - refine (bool_decide_unpack _ _). vm_compute. exact I.
  - apply List.Forall_forall. vm_compute.
    repeat (constructor; [lia | ]). constructor.
Defined.

Lemma updateYFragment_equal_children_witness :
  exists st',
    updateYFragment PlainText.ops 7 1 Examples.fragment1 Examples.doc1
      Examples.emptyState = Ok (Examples.fragment1, st')
    /\ mutations st' = mutations Examples.emptyState.
Proof.
  apply (updateYFragment_equal_children PlainText.ops 7 0 Examples.fragment1
           Examples.doc1 Examples.emptyState).
  - reflexivity.
  - reflexivity.
  - refine (bool_decide_unpack _ _). vm_compute. exact I.
  - vm_compute. intros [H | [H | []]]; discriminate H.
  - vm_compute. repeat constructor.
  - intros H. discriminate H.
Defined.

(** ** The colour of a user *)

Lemma getUserColor_grows (m : gmap string (option ColorDef)) (colors : list ColorDef)
    (u : string) :
  m ⊆ snd (getUserColor m colors u).
Proof.
  unfold getUserColor. destruct (m !! u) eqn:Hu; cbn [snd]; [reflexivity | ].
  now apply insert_subseteq.
Qed.

Lemma assignAll_grows (colors : list ColorDef) (users : list string) :
  forall m, m ⊆ assignAll colors m users.
Proof.
  unfold assignAll. induction users as [ | u rest IH]; intros m; cbn [fold_left].
  - reflexivity.
  - etransitivity; [apply (getUserColor_grows m colors u) | apply IH].
Qed.

(** X12. A user keeps the colour of the first call: after [getUserColor]
    has been called for a user, any further calls for any users, and
    with any list of colours, leave that colour in place, and a call for
    the user returns it again. *)
Theorem getUserColor_keeps (m : gmap string (option ColorDef))
    (colors colors' : list ColorDef) (u : string) (users : list string) :
  getUserColor (assignAll colors' (snd (getUserColor m colors u)) users) colors' u
  = (fst (getUserColor m colors u),
     assignAll colors' (snd (getUserColor m colors u)) users).
Proof.
  assert (Hset : snd (getUserColor m colors u) !! u
                 = Some (fst (getUserColor m colors u))).
  { unfold getUserColor. destruct (m !! u) eqn:Hu; cbn [fst snd]; [exact Hu | ].
    apply lookup_insert_eq. }
  pose proof (assignAll_grows colors' users (snd (getUserColor m colors u))) as Hsub.
  pose proof (lookup_weaken _ _ _ _ Hset Hsub) as Hlater.
  unfold getUserColor at 1. now rewrite Hlater.
Qed.

Lemma assignAll_fresh (colors : list ColorDef) (users : list string) :
  forall m i u,
    NoDup users -> (forall v, In v users -> m !! v = None) ->
    users !! i = Some u ->
    assignAll colors m users !! u = Some (colorAt colors (size m + i)).
Proof.
  induction users as [ | u0 rest IH]; intros m i u Hnd Hnew Hi; [discriminate | ].
  apply NoDup_cons in Hnd as [Hu0 Hnd].
  change (assignAll colors m (u0 :: rest))
    with (assignAll colors (snd (getUserColor m colors u0)) rest).
  assert (Hm1 : snd (getUserColor m colors u0) = <[u0 := colorAt colors (size m)]> m).
  { unfold getUserColor. now rewrite (Hnew u0 ltac:(now left)). }
  rewrite Hm1. set (m1 := <[u0 := colorAt colors (size m)]> m).
  destruct i as [ | j].
  - injection Hi as <-. rewrite Nat.add_0_r.
    apply (lookup_weaken m1); [apply lookup_insert_eq | apply assignAll_grows].
  - cbn in Hi. rewrite (IH m1 j u Hnd); [ | | exact Hi].
    + unfold m1. rewrite map_size_insert_None by (apply Hnew; now left).
      do 2 f_equal. lia.
    + intros v Hv. unfold m1. rewrite lookup_insert_ne.
      * apply Hnew. now right.
      * intros <-. apply Hu0. now apply list_elem_of_In.
Qed.

(** X13. Colours are handed out in turn: when [getUserColor] is called
    for distinct users, starting with an empty colour map, the user of
    the [i]-th call gets the colour at index [i] modulo the number of
    colours ([undefined] when there are no colours). *)
Theorem getUserColor_round_robin (colors : list ColorDef) (users : list string)
    (i : nat) (u : string) :
  NoDup users ->
  users !! i = Some u ->
  fst (getUserColor (assignAll colors ∅ users) colors u) = colorAt colors i.
Proof.
  intros Hnd Hi.
  pose proof (assignAll_fresh colors users ∅ i u Hnd
                (fun v _ => lookup_empty v) Hi) as Hu.
  rewrite map_size_empty in Hu. unfold getUserColor. now rewrite Hu.
Qed.

Lemma getUserColor_round_robin_witness :
  fst (getUserColor
         (assignAll [Color "#ecd44433" "#ecd444"; Color "#ee635233" "#ee6352"] ∅
                    ["ann"; "bob"; "cy"])
         [Color "#ecd44433" "#ecd444"; Color "#ee635233" "#ee6352"] "cy")
  = colorAt [Color "#ecd44433" "#ecd444"; Color "#ee635233" "#ee6352"] 2.
Proof.
  apply (getUserColor_round_robin
           [Color "#ecd44433" "#ecd444"; Color "#ee635233" "#ee6352"]
           ["ann"; "bob"; "cy"] 2 "cy").
  - refine (bool_decide_unpack _ _). vm_compute. exact I.
  - reflexivity.
Defined.

(** ** Deferred transaction metadata *)

Lemma metaOf_setViewMeta (views : list (nat * attrs)) (v : nat) (k : string)
    (x : jsval) (view : nat) (key : string) :
  metaOf (setViewMeta v k x views) view key
  = if Nat.eqb v view && String.eqb k key then Some x else metaOf views view key.
Proof.
  induction views as [ | [v0 metas] rest IH]; cbn [setViewMeta metaOf].
  - destruct (Nat.eqb_spec v view) as [-> | Hv]; cbn [andb lookupKey]; [ | reflexivity].
    reflexivity.
  - destruct (Nat.eqb_spec v0 v) as [-> | Hv0]; cbn [metaOf].
    + destruct (Nat.eqb_spec v view) as [-> | Hv]; cbn [andb]; [ | reflexivity].
      destruct (String.eqb_spec k key) as [-> | Hk].
      * apply lookupKey_setKey.
      * apply lookupKey_setKey_ne. congruence.
    + rewrite IH. destruct (Nat.eqb_spec v0 view) as [-> | Hv0']; [ | reflexivity].
      destruct (Nat.eqb_spec v view) as [-> | Hv]; [contradiction | reflexivity].
Qed.

Lemma setViewMeta_in (views : list (nat * attrs)) (v : nat) (k : string) (x : jsval)
    (w : nat) :
  In w (map fst (setViewMeta v k x views)) -> w = v \/ In w (map fst views).
Proof.
  induction views as [ | [v0 metas] rest IH]; cbn [setViewMeta map fst].
  - intros [<- | []]. now left.
  - destruct (Nat.eqb_spec v0 v) as [-> | Hv0]; cbn [map fst In]; [tauto | ].
    intros [<- | Hw]; [tauto | ]. destruct (IH Hw); tauto.
Qed.

Lemma setViewMeta_views (views : list (nat * attrs)) (v : nat) (k : string) (x : jsval) :
  NoDup (map fst views) -> NoDup (map fst (setViewMeta v k x views)).
Proof.
  induction views as [ | [v0 metas] rest IH]; intros Hnd; cbn [setViewMeta map fst].
  - apply NoDup_singleton.
  - apply NoDup_cons in Hnd as [Hv0' Hnd].
    destruct (Nat.eqb_spec v0 v) as [-> | Hv0]; cbn [map fst].
    + now apply NoDup_cons.
    + apply NoDup_cons. split; [ | now apply IH].
      intros Hw. apply list_elem_of_In, setViewMeta_in in Hw as [-> | Hold];
        [contradiction | ].
      apply Hv0'. now apply list_elem_of_In.
Qed.

Lemma setMeta_consistent (v : nat) (k : string) (x : jsval) (s : MetaState) :
  metasConsistent s -> metasConsistent (setMeta v k x s).
Proof.
  unfold metasConsistent, setMeta.
  destruct (viewsToUpdate s); cbn [viewsToUpdate timeouts]; lia.
Qed.

(** X14. However the calls of [setMeta] and the timeouts interleave,
    [updateMetas] never finds [viewsToUpdate] null: nothing is thrown,
    at most one timeout is pending at any time, and none is pending
    exactly when [viewsToUpdate] is null. *)
Theorem updateMetas_never_null (es : list metaEvent) :
  exists batches s,
    metaRun (Metas None 0) es = Ok (batches, s) /\ metasConsistent s.
Proof.
  assert (Hgen : forall s, metasConsistent s ->
            exists batches s', metaRun s es = Ok (batches, s') /\ metasConsistent s').
  { induction es as [ | e rest IH]; intros s Hs; cbn [metaRun].
    - now exists [], s.
    - destruct e as [v k x | ]; cbn [metaStep mbind res_bind bind].
      + destruct (IH (setMeta v k x s) (setMeta_consistent v k x s Hs))
          as (batches & s' & -> & Hs').
        cbn [mbind res_bind bind]. eauto.
      + unfold metasConsistent in Hs.
        destruct s as [[views | ] n]; cbn [viewsToUpdate timeouts] in *; subst n;
          cbn [updateMetas viewsToUpdate timeouts mbind res_bind bind].
        * destruct (IH (Metas None 0) eq_refl) as (batches & s' & -> & Hs').
          cbn [mbind res_bind bind]. eauto.
        * destruct (IH (Metas None 0) eq_refl) as (batches & s' & -> & Hs').
          cbn [mbind res_bind bind]. eauto. }
  apply Hgen. reflexivity.
Qed.

Lemma metaRun_calls (calls : list (nat * string * jsval)) (rest : list metaEvent) :
  forall s,
    metaRun s (map callEvent calls ++ rest)
    = metaRun (fold_left (fun s c => setMeta (fst (fst c)) (snd (fst c)) (snd c) s)
                         calls s) rest.
Proof.
  induction calls as [ | [[v k] x] calls IH]; intros s; [reflexivity | ].
  cbn [map app metaRun callEvent metaStep fst snd mbind res_bind bind fold_left].
  rewrite IH.
  destruct (metaRun _ rest) as [[batches s'] | | ]; reflexivity.
Qed.

Lemma calls_state (calls : list (nat * string * jsval)) :
  forall views,
    NoDup (map fst views) ->
    exists ups,
      fold_left (fun s c => setMeta (fst (fst c)) (snd (fst c)) (snd c) s)
                calls (Metas (Some views) 1) = Metas (Some ups) 1
      /\ NoDup (map fst ups)
      /\ forall view key,
           metaOf ups view key
           = match lastSet calls view key with
             | Some x => Some x
             | None => metaOf views view key
             end.
Proof.
  induction calls as [ | [[v k] x] calls IH]; intros views Hnd.
  - exists views. auto.
  - cbn [fold_left fst snd]. unfold setMeta at 2. cbn [viewsToUpdate timeouts].
    destruct (IH (setViewMeta v k x views) (setViewMeta_views views v k x Hnd))
      as (ups & -> & Hnd' & Hmeta).
    exists ups. split; [reflexivity | split; [exact Hnd' | ]].
    intros view key. rewrite Hmeta, metaOf_setViewMeta. cbn [lastSet].
    destruct (lastSet calls view key); [reflexivity | ].
    now destruct (Nat.eqb v view && String.eqb k key).
Qed.

(** X15. The calls of [setMeta] made before the timeout fires are
    answered by one batch: [updateMetas] dispatches one transaction for
    each view that was named, holding under each key the value of the
    last call for that view and key, and leaves the module state as it
    was at the start. *)
Theorem setMeta_batches (calls : list (nat * string * jsval)) :
  exists trs,
    metaRun (Metas None 0) (map callEvent calls ++ [TimeoutFires])
    = Ok ([trs], Metas None 0)
    /\ NoDup (map fst trs)
    /\ forall view key, metaOf trs view key = lastSet calls view key.
Proof.
  rewrite metaRun_calls. destruct calls as [ | [[v k] x] calls].
  - exists []. split; [reflexivity | split; [constructor | reflexivity]].
  - cbn [fold_left fst snd]. unfold setMeta at 2. cbn [viewsToUpdate timeouts].
    destruct (calls_state calls (setViewMeta v k x []))
      as (ups & -> & Hnd & Hmeta).
    { apply NoDup_singleton. }
    exists ups. split; [reflexivity | split; [exact Hnd | ]].
    intros view key. rewrite Hmeta. cbn [lastSet setViewMeta metaOf lookupKey].
    destruct (lastSet calls view key); [reflexivity | ].
    destruct (Nat.eqb_spec v view); cbn [andb]; reflexivity.
Qed.

(** ** Cursor decorations *)

Lemma mathMin_bound (x : num) (m : Z) : exists z, mathMin x (Num m) = Num z /\ z <= m.
Proof.
  unfold mathMin. destruct x as [z | ]; cbn [numLt].
  - destruct (Z.ltb_spec z m); [exists z | exists m]; split; (reflexivity || lia).
  - exists m. split; [reflexivity | lia].
Qed.

Lemma cursorDecorations_within (ystate : SyncState) (mapping : gmap nat punit)
    (contentSize : Z) (clientId : nat) (aw : AwarenessState) (ds : list decoration) :
  cursorDecorations ystate mapping contentSize clientId aw = Ok ds ->
  Forall (decorationWithin (Z.max (contentSize - 1) 0)) ds.
Proof.
  unfold cursorDecorations.
  destruct (Nat.eqb clientId (y_clientID ystate)); [intros [= <-]; constructor | ].
  destruct (aw_cursor aw) as [cursor | ]; [ | intros [= <-]; constructor].
  destruct (relativePositionToAbsolutePosition _ _ _ (sel_anchor cursor))
    as [anchor | | ]; cbn [mbind res_bind bind]; try discriminate.
  destruct (relativePositionToAbsolutePosition _ _ _ (sel_head cursor))
    as [head | | ]; cbn [mbind res_bind bind]; try discriminate.
  destruct (numberOf anchor) as [a | ]; [ | intros [= <-]; constructor].
  destruct (numberOf head) as [h | ]; [ | intros [= <-]; constructor].
  assert (Hmax : mathMax (Num (contentSize - 1)) (Num 0)
                 = Num (Z.max (contentSize - 1) 0)).
  { unfold mathMax. cbn [numLt]. destruct (Z.ltb_spec 0 (contentSize - 1)); f_equal; lia. }
  rewrite Hmax. set (m := Z.max (contentSize - 1) 0).
  destruct (mathMin_bound a m) as (za & -> & Hza).
  destruct (mathMin_bound h m) as (zh & -> & Hzh).
  intros [= <-]. constructor; [ | constructor; [ | constructor]].
  - exists zh. split; [reflexivity | exact Hzh].
  - unfold mathMin, mathMax. cbn [numLt].
    destruct (Z.ltb_spec za zh), (Z.ltb_spec zh za);
      do 2 eexists; (split; [reflexivity | split; [reflexivity | lia]]).
Qed.

Lemma eachState_within (ystate : SyncState) (mapping : gmap nat punit)
    (contentSize : Z) (states : list (nat * AwarenessState)) :
  forall ds,
    eachState ystate mapping contentSize states = Ok ds ->
    Forall (decorationWithin (Z.max (contentSize - 1) 0)) ds.
Proof.
  induction states as [ | [clientId aw] rest IH]; intros ds; cbn [eachState].
  - intros [= <-]. constructor.
  - destruct (cursorDecorations _ _ _ _ _) as [ds1 | | ] eqn:H1;
      cbn [mbind res_bind bind]; try discriminate.
    destruct (eachState _ _ _ rest) as [ds2 | | ];
      cbn [mbind res_bind bind]; try discriminate.
    intros [= <-]. apply Forall_app. split.
    + eapply cursorDecorations_within, H1.
    + now apply IH.
Qed.

(** X16. Every decoration that [createDecorations] makes lies within
    the document: its positions are numbers, none of them above the
    content size less one (or above 0 for an empty document), and an
    inline decoration runs from the lower to the higher position. *)
Theorem createDecorations_within (ystate : SyncState) (contentSize : Z)
    (states : list (nat * AwarenessState)) (ds : list decoration) :
  createDecorations ystate contentSize states = Ok ds ->
  Forall (decorationWithin (Z.max (contentSize - 1) 0)) ds.
Proof.
  unfold createDecorations.
  destruct (y_snapshot ystate); [intros [= <-]; constructor | ].
  destruct (y_prevSnapshot ystate); [intros [= <-]; constructor | ].
  destruct (y_binding ystate) as [mapping | ]; [ | intros [= <-]; constructor].
  apply eachState_within.
Qed.

Lemma eachState_remote (ystate : SyncState) (mapping : gmap nat punit)
    (contentSize : Z) (states : list (nat * AwarenessState)) :
  forall ds pos key color name,
    eachState ystate mapping contentSize states = Ok ds ->
    In (Widget pos key color name) ds ->
    exists clientId aw,
      In (clientId, aw) states /\ clientId <> y_clientID ystate
      /\ key = decimal clientId /\ aw_cursor aw <> None.
Proof.
  induction states as [ | [clientId aw] rest IH]; intros ds pos key color name;
    cbn [eachState].
  - intros [= <-] [].
  - destruct (cursorDecorations _ _ _ _ _) as [ds1 | | ] eqn:H1;
      cbn [mbind res_bind bind]; try discriminate.
    destruct (eachState _ _ _ rest) as [ds2 | | ] eqn:H2;
      cbn [mbind res_bind bind]; try discriminate.
    intros [= <-] Hin. apply in_app_or in Hin as [Hin | Hin].
    + exists clientId, aw. split; [now left | ].
      revert H1. unfold cursorDecorations.
      destruct (Nat.eqb_spec clientId (y_clientID ystate)) as [ | Hne];
        [intros [= <-]; destruct Hin | ].
      destruct (aw_cursor aw) as [cursor | ]; [ | intros [= <-]; destruct Hin].
      destruct (relativePositionToAbsolutePosition _ _ _ (sel_anchor cursor))
        as [anchor | | ]; cbn [mbind res_bind bind]; try discriminate.
      destruct (relativePositionToAbsolutePosition _ _ _ (sel_head cursor))
        as [head | | ]; cbn [mbind res_bind bind]; try discriminate.
      destruct (numberOf anchor) as [a | ]; [ | intros [= <-]; destruct Hin].
      destruct (numberOf head) as [h | ]; [ | intros [= <-]; destruct Hin].
      intros [= <-]. destruct Hin as [[= _ <- _ _] | [[=] | []]].
      split; [exact Hne | split; [reflexivity | discriminate]].
    + destruct (IH ds2 pos key color name eq_refl Hin) as (c & a & Hc & Hrest).
      exists c, a. split; [now right | exact Hrest].
Qed.

(** X17. [createDecorations] draws remote cursors only: while a
    snapshot is shown, or without a binding, it makes no decoration at
    all, and otherwise every cursor widget belongs to an awareness state
    of another client that has a cursor, and is keyed by the id of that
    client. *)
Theorem createDecorations_remote (ystate : SyncState) (contentSize : Z)
    (states : list (nat * AwarenessState)) (ds : list decoration) :
  createDecorations ystate contentSize states = Ok ds ->
  ((y_snapshot ystate <> None \/ y_prevSnapshot ystate <> None
    \/ y_binding ystate = None) -> ds = [])
  /\ forall pos key color name,
       In (Widget pos key color name) ds ->
       exists clientId aw,
         In (clientId, aw) states /\ clientId <> y_clientID ystate
         /\ key = decimal clientId /\ aw_cursor aw <> None.
Proof.
  unfold createDecorations. intros Hrun. split.
  - intros Hoff. revert Hrun.
    destruct (y_snapshot ystate); [now intros [= <-] | ].
    destruct (y_prevSnapshot ystate); [now intros [= <-] | ].
    destruct (y_binding ystate); [ | now intros [= <-]].
    destruct Hoff as [H | [H | H]]; congruence.
  - revert Hrun.
    destruct (y_snapshot ystate); [intros [= <-] ? ? ? ? [] | ].
    destruct (y_prevSnapshot ystate); [intros [= <-] ? ? ? ? [] | ].
    destruct (y_binding ystate) as [mapping | ]; [ | intros [= <-] ? ? ? ? []].
    intros Hrun pos key color name.
    exact (eachState_remote ystate mapping contentSize states ds pos key color name Hrun).
Qed.

Lemma createDecorations_within_witness :
  exists ds,
    createDecorations Remote.ystate 6 Remote.states = Ok ds
    /\ ds = [Widget (Num 5) "2" "#ffa500" "Bo";
             Inline (Num 1) (Num 5) "background-color: #ffa50070"]
    /\ Forall (decorationWithin (Z.max (6 - 1) 0)) ds.
Proof.
  assert (Hrun : { ds : list decoration |
             createDecorations Remote.ystate 6 Remote.states = Ok ds
             /\ ds = [Widget (Num 5) "2" "#ffa500" "Bo";
                      Inline (Num 1) (Num 5) "background-color: #ffa50070"] }).
  { eexists. split; vm_compute; reflexivity. }
  destruct Hrun as [ds [Hrun Hds]]. exists ds.
  split; [exact Hrun | split; [exact Hds | ]].
  apply (createDecorations_within Remote.ystate 6 Remote.states ds Hrun).
Defined.

Lemma createDecorations_remote_witness :
  exists ds,
    createDecorations Remote.ystate 6 Remote.states = Ok ds
    /\ ((y_snapshot Remote.ystate <> None \/ y_prevSnapshot Remote.ystate <> None
         \/ y_binding Remote.ystate = None) -> ds = [])
    /\ forall pos key color name,
         In (Widget pos key color name) ds ->
         exists clientId aw,
           In (clientId, aw) Remote.states /\ clientId <> y_clientID Remote.ystate
           /\ key = decimal clientId /\ aw_cursor aw <> None.
Proof.
  assert (Hrun : { ds : list decoration |
             createDecorations Remote.ystate 6 Remote.states = Ok ds }).
  { eexists. vm_compute. reflexivity. }
  destruct Hrun as [ds Hrun]. exists ds. split; [exact Hrun | ].
  apply (createDecorations_remote Remote.ystate 6 Remote.states ds Hrun).
Defined.

(** ** Converting a document *)

Section Converting.
Variables (ops : YTextOps) (clientID : nat).

Lemma createTypeFromTextOrElementNode_total (fuel : nat) (u : punit) (st : ystate) :
  (forall n, u = UNode n -> (pheight n < fuel)%nat) ->
  exists t st', createTypeFromTextOrElementNode ops clientID fuel u st = Ok (t, st').
Proof.
  destruct u as [n | nodes]; intros Hfuel; cbn [createTypeFromTextOrElementNode].
  - apply createTypeFromElementNode_total. now apply Hfuel.
  - destruct (createTypeFromTextNodes ops clientID nodes st) as [t st']. eauto.
Qed.

Lemma createTypeFromTextOrElementNode_named (fuel : nat) (u : punit) (st : ystate)
    (t : ytype) (st' : ystate) :
  createTypeFromTextOrElementNode ops clientID fuel u st = Ok (t, st') ->
  match u with
  | UNode n => elementName t = Some (ptypeName n)
  | UTexts _ => isXmlText t = true
  end.
Proof.
  destruct u as [n | nodes]; cbn [createTypeFromTextOrElementNode].
  - intros H. apply createTypeFromElementNode_element in H as [items ->]. reflexivity.
  - unfold createTypeFromTextNodes. cbn [freshRef].
    destruct (ytext_applyDelta _ _ _ _ _) as [items c]. now intros [= <- <-].
Qed.

(** X18. [prosemirrorToYDoc] converts every document, given fuel for
    its depth: nothing is thrown, and the fragment of the new document
    holds one live child for each unit of the normalized content of the
    document, in order - an element of the same name for a node, a text
    type for a run of text nodes. *)
Theorem prosemirrorToYDoc_converts (fuel : nat) (doc : pnode) :
  (pheight doc < fuel)%nat ->
  exists items,
    prosemirrorToYDoc ops clientID fuel doc = Ok (XmlFragment 0 items)
    /\ Forall2 (fun it u => itemDeleted it = false
                            /\ match u with
                               | UNode n => elementName (itemType it) = Some (ptypeName n)
                               | UTexts _ => isXmlText (itemType it) = true
                               end)
               items (normalizePNodeContent doc).
Proof.
  intros Hfuel. destruct fuel as [ | fuel]; [lia | ].
  unfold prosemirrorToYDoc. cbn [updateYFragment nodeNameMismatch isXmlText isXmlElement].
  change (toArray (XmlFragment 0 [])) with (@nil ytype).
  cbn [length]. rewrite Nat.min_0_r.
  cbn [scanLeft scanRight Nat.sub middleLoop mbind res_bind bind].
  set (ps := normalizePNodeContent doc).
  set (st1 := mappingSet (yref (XmlFragment 0 [])) (UNode doc) (YState ∅ 1 0 [])).
  destruct ps as [ | u rest] eqn:Hps.
  - cbn [length Nat.add Nat.ltb Nat.leb mbind res_bind bind].
    exists []. split; [reflexivity | constructor].
  - assert (Hlt : Nat.ltb (0 + 0) (length (u :: rest)) = true)
      by (apply Nat.ltb_lt; cbn [length]; lia).
    rewrite Hlt. rewrite !Nat.sub_0_r, drop_0, firstn_all.
    assert (Hunits : forall v s, In v (u :: rest) ->
              exists t s', createTypeFromTextOrElementNode ops clientID fuel v s
                           = Ok (t, s')).
    { intros v s Hv. apply createTypeFromTextOrElementNode_total.
      intros n ->. rewrite <- Hps in Hv. apply normalizeContent_node in Hv.
      destruct doc as [r s0 ms | r name a sz c]; [destruct Hv | ].
      apply pheight_child in Hv. cbn [pheight pcontent] in Hfuel, Hv. lia. }
    destruct (createAllWith_total _ _ Hunits st1) as (ins & st2 & Hall).
    unfold createAllTypes. rewrite Hall. cbn [mbind res_bind bind].
    pose proof (createAllWith_Forall2 _ _
                  (createTypeFromTextOrElementNode_named fuel) _ _ _ _ Hall) as Hnamed.
    unfold insertChildren.
    pose proof (newItems_state clientID ins st2) as (_ & _ & _ & Hty & Hlive).
    destruct (newItems clientID ins st2) as [items st3]. cbn [fst snd] in Hty, Hlive.
    cbn [withItems yitems insertLive]. rewrite app_nil_r.
    exists items. split; [reflexivity | ].
    apply Forall2_same_length_lookup_2.
    + rewrite <- (length_map itemType items), Hty. eapply Forall2_length, Hnamed.
    + intros i it v Hit Hv.
      assert (Ht : ins !! i = Some (itemType it)).
      { rewrite <- Hty. change (map itemType items) with (itemType <$> items).
        rewrite list_lookup_fmap, Hit. reflexivity. }
      split; [ | exact (Forall2_lookup_lr _ _ _ _ _ _ Hnamed Ht Hv)].
      exact (proj1 (List.Forall_forall _ _) Hlive it
               (proj1 (list_elem_of_In _ _) (list_elem_of_lookup_2 _ _ _ Hit))).
Qed.
End Converting.

Lemma prosemirrorToYDoc_converts_witness :
  exists items,
    prosemirrorToYDoc PlainText.ops 7 3 Examples.doc1 = Ok (XmlFragment 0 items)
    /\ Forall2 (fun it u => itemDeleted it = false
                            /\ match u with
                               | UNode n => elementName (itemType it) = Some (ptypeName n)
                               | UTexts _ => isXmlText (itemType it) = true
                               end)
               items (normalizePNodeContent Examples.doc1).
Proof.
  apply (prosemirrorToYDoc_converts PlainText.ops 7 3 Examples.doc1).
  vm_compute. lia.
Defined.

(** ** Resolving a position past an element that is not mapped *)

Lemma sizeInMapping_errors (mapping : gmap nat punit) (t : ytype) (e : jserror) :
  sizeInMapping mapping t = Throw e -> e = TypeError.
Proof.
  unfold sizeInMapping. destruct (isXmlText t); [discriminate | ].
  destruct (mapping !! yref t) as [[p | ts] | ]; try discriminate. now intros [= <-].
Qed.

Lemma sizeInMapping_fuel (mapping : gmap nat punit) (t : ytype) :
  sizeInMapping mapping t <> OutOfFuel.
Proof.
  unfold sizeInMapping. destruct (isXmlText t); [discriminate | ].
  destruct (mapping !! yref t) as [[p | ts] | ]; discriminate.
Qed.

Lemma sizesToIndex_throws (mapping : gmap nat punit) (len index : Z) :
  forall items i pos k it,
    items !! k = Some it ->
    itemDeleted it = false -> isXmlText (itemType it) = false ->
    mapping !! yref (itemType it) = None ->
    i + Z.of_nat (liveCount (take k items)) < index ->
    len = i + Z.of_nat (liveCount items) ->
    sizesToIndex mapping len index items i pos = Throw TypeError.
Proof.
  induction items as [ | n rest IH]; intros i pos k it Hk Hlive Htext Hmap Hleft Hlen;
    [discriminate | ].
  cbn [sizesToIndex].
  assert (Hpos : (0 < liveCount (n :: rest))%nat).
  { unfold liveCount. apply list_elem_of_lookup_2, list_elem_of_In in Hk.
    assert (Hin : In it (List.filter (fun i => negb (itemDeleted i)) (n :: rest))).
    { apply filter_In. split; [exact Hk | now rewrite Hlive]. }
    destruct (List.filter _ (n :: rest)); [destruct Hin | cbn [length]; lia]. }
  assert (Hcond : Z.ltb i len && Z.ltb i index = true).
  { apply andb_true_iff. split; apply Z.ltb_lt; lia. }
  rewrite Hcond. unfold liveCount in *. destruct k as [ | k].
  - injection Hk as ->. rewrite Hlive.
    unfold sizeInMapping. now rewrite Htext, Hmap.
  - cbn [lookup list_lookup] in Hk. cbn [take List.filter] in Hleft, Hlen.
    destruct (itemDeleted n) eqn:Hn; cbn [negb] in Hleft, Hlen.
    + apply (IH i pos k it); auto.
    + cbn [length] in Hleft, Hlen.
      destruct (sizeInMapping mapping (itemType n)) as [size | e | ] eqn:Hsize;
        cbn [mbind res_bind bind].
      * apply (IH (i + 1) _ k it); auto; lia.
      * now rewrite (sizeInMapping_errors _ _ _ Hsize).
      * now apply sizeInMapping_fuel in Hsize.
Qed.

(** X19. [relativePositionToAbsolutePosition] throws a TypeError for a
    position in the bound fragment that lies to the right of a live
    element without an entry in the mapping: the size of the element is
    read from the entry without a fallback. *)
Theorem unmapped_element_throws (type : ytype) (rootKey : string)
    (mapping : gmap nat punit) (relPos : RelativePosition) (index : Z)
    (k : nat) (it : yitem) :
  isXmlText type = false ->
  createAbsolutePositionFromRelativePosition type rootKey relPos
  = Ok (Some (InDocument [], index)) ->
  yitems type !! k = Some it ->
  itemDeleted it = false ->
  isXmlText (itemType it) = false ->
  mapping !! yref (itemType it) = None ->
  leftLength type k < index ->
  relativePositionToAbsolutePosition type rootKey mapping relPos = Throw TypeError.
Proof.
  intros Hroot Hdecoded Hk Hlive Htext Hmap Hleft.
  unfold relativePositionToAbsolutePosition. rewrite Hdecoded.
  cbn [mbind res_bind bind rev nodeType isRoot orb]. rewrite Hroot.
  assert (Hleft' : 0 + Z.of_nat (liveCount (take k (yitems type))) < index).
  { destruct type; [discriminate | exact Hleft | exact Hleft]. }
  assert (Hlen : ylength type = 0 + Z.of_nat (liveCount (yitems type))).
  { destruct type; [discriminate | | ]; cbn [ylength]; unfold toArray, liveCount;
      now rewrite length_map. }
  now rewrite (sizesToIndex_throws mapping (ylength type) index (yitems type) 0 (Some 0)
                 k it Hk Hlive Htext Hmap Hleft' Hlen).
Qed.

Lemma unmapped_element_throws_witness :
  relativePositionToAbsolutePosition Cursor.type "prosemirror"
    (delete 11%nat Cursor.mapping) (RelPos None (Some "prosemirror") None)
  = Throw TypeError.
Proof.
  apply (unmapped_element_throws Cursor.type "prosemirror" (delete 11%nat Cursor.mapping)
           (RelPos None (Some "prosemirror") None) 2 0 (Item (ID 1 3) false Cursor.first));
    try reflexivity.
Defined.

(** ** Reusing a materialized node *)

Section Reuse.
Variable schema : Schema.
Variable toDeltaAt : rendering -> list titem -> res (list dop).
Variable attributesAt : ytype -> Snapshot -> attrs.
Variable view : rendering.

Lemma createNodeFromYElement_mapped (el el' : yitem) (st st' : ystate) (node : pnode) :
  createNodeFromYElement schema toDeltaAt attributesAt view el st
  = Ok (Some node, el', st') ->
  mapping st' !! yref (itemType el') = Some (UNode node)
  /\ isXmlText (itemType el') = false.
Proof.
  destruct el as [id d t]. intros Hrun.
  assert (Hfin : exists nodes items' st1,
             isXmlText t = false
             /\ finishNode schema attributesAt view (Item id d (withItems t items')) nodes st1
                = (Some node, el', st')).
  { destruct t; cbn [createNodeFromYElement] in Hrun; try discriminate;
      destruct (createChildren _ _ _ _ _ _) as [[[nodes items'] st1] | | ];
      cbn [mbind res_bind bind] in Hrun; try discriminate; injection Hrun as Hrun;
      eauto 6. }
  destruct Hfin as (nodes & items' & st1 & Ht & Hfin).
  unfold finishNode in Hfin.
  destruct (tryNode _ _ _ _ _ _) as [n | ]; [ | destruct (deleteItem _ _); discriminate].
  injection Hfin as -> <- <-. cbn [itemType mappingSet mapping]. split.
  - apply lookup_insert_eq.
  - destruct t; [discriminate | reflexivity | reflexivity].
Qed.

(** X20. A node is materialized once: when [createNodeIfNotExists]
    has returned a node for an element, a second call on the element
    and the state it left returns the very same node and changes
    nothing. *)
Theorem createNodeIfNotExists_again (el el' : yitem) (st st' : ystate) (node : punit) :
  createNodeIfNotExists schema toDeltaAt attributesAt view el st
  = Ok (Some node, el', st') ->
  createNodeIfNotExists schema toDeltaAt attributesAt view el' st'
  = Ok (Some node, el', st').
Proof.
  unfold createNodeIfNotExists at 1.
  destruct (mapping st !! yref (itemType el)) as [u | ] eqn:Hu.
  - intros [= <- <- <-]. unfold createNodeIfNotExists. now rewrite Hu.
  - destruct (isXmlElement (itemType el)); [ | discriminate].
    destruct (createNodeFromYElement _ _ _ _ el st) as [[[n el1] st1] | | ] eqn:Hrun;
      cbn [mbind res_bind bind]; try discriminate.
    destruct n as [n | ]; [ | discriminate]. intros [= <- <- <-].
    apply createNodeFromYElement_mapped in Hrun as [Hmap _].
    unfold createNodeIfNotExists. now rewrite Hmap.
Qed.
End Reuse.

Lemma createNodeIfNotExists_again_witness :
  exists node el' st',
    createNodeIfNotExists Examples.basicSchema History.noDelta History.attributesAt
      plainRendering (Item (ID 1 3) false Cursor.first) Examples.emptyState
    = Ok (Some node, el', st')
    /\ mapping Examples.emptyState !! yref Cursor.first = None
    /\ createNodeIfNotExists Examples.basicSchema History.noDelta History.attributesAt
         plainRendering el' st'
       = Ok (Some node, el', st').
Proof.
  assert (Hrun : { r : punit * yitem * ystate |
             createNodeIfNotExists Examples.basicSchema History.noDelta
               History.attributesAt plainRendering (Item (ID 1 3) false Cursor.first)
               Examples.emptyState
             = Ok (Some (fst (fst r)), snd (fst r), snd r) }).
  { eexists (_, _, _). vm_compute. reflexivity. }
  destruct Hrun as [[[node el'] st'] Hrun]. cbn [fst snd] in Hrun.
  exists node, el', st'. split; [exact Hrun | split; [reflexivity | ]].
  apply (createNodeIfNotExists_again Examples.basicSchema History.noDelta
           History.attributesAt plainRendering _ el' _ st' node Hrun).
Defined.

(** ** The selection across a remote change *)

(** X21. The selection survives the round trip: in a document in which
    every live element has its current node in the mapping and every id
    names one item, [getRelativeSelection] of an anchor and a head
    within the content gives a relative selection from which
    [restoreRelativeSelection] sets the selection at the same anchor and
    head. *)
Theorem selection_round_trip (type : ytype) (rootKey : string)
    (mapping : gmap nat punit) (fuel : nat) (anchor head : Z) :
  isXmlText type = false ->
  mappingCurrent mapping type ->
  uniqueIds type ->
  0 <= anchor <= contentSize type mapping ->
  0 <= head <= contentSize type mapping ->
  (weight type <= fuel)%nat ->
  exists relSel,
    getRelativeSelection type rootKey mapping fuel anchor head = Ok relSel
    /\ restoreRelativeSelection type rootKey mapping (Some relSel)
       = Ok (Some (Offset anchor, Offset head)).
Proof.
  intros Hroot Hcur Huniq Ha Hh Hfuel.
  destruct (offset_round_trip type rootKey mapping fuel anchor Hroot Hcur Huniq Ha Hfuel)
    as (ra & Ha1 & Ha2).
  destruct (offset_round_trip type rootKey mapping fuel head Hroot Hcur Huniq Hh Hfuel)
    as (rh & Hh1 & Hh2).
  exists (RelSel ra rh). unfold getRelativeSelection, restoreRelativeSelection.
  rewrite Ha1, Hh1. cbn [mbind res_bind bind sel_anchor sel_head].
  rewrite Ha2, Hh2. split; reflexivity.
Qed.

Lemma selection_round_trip_witness :
  exists relSel,
    getRelativeSelection Cursor.type "prosemirror" Cursor.mapping 5 1 3 = Ok relSel
    /\ restoreRelativeSelection Cursor.type "prosemirror" Cursor.mapping (Some relSel)
       = Ok (Some (Offset 1, Offset 3)).
Proof.
  apply (selection_round_trip Cursor.type "prosemirror" Cursor.mapping 5 1 3).
  - reflexivity.
  - exact Cursor_current.
  - exact Cursor_unique.
  - vm_compute. split; discriminate.
  - vm_compute. split; discriminate.
  - vm_compute. lia.
Defined.

(** ** Rendering a remote change, and reconciling what was rendered *)

Section Rendered.
Variable schema : Schema.
Variable toDeltaAt : rendering -> list titem -> res (list dop).
Variable attributesAt : ytype -> Snapshot -> attrs.
Variable view : rendering.

Lemma deleteItem_spec (el : yitem) (st : ystate) :
  itemType (fst (deleteItem el st)) = itemType el
  /\ itemDeleted (fst (deleteItem el st)) = true
  /\ mapping (snd (deleteItem el st)) = mapping st.
Proof. destruct el as [id [ | ] t]; cbn; auto. Qed.

Lemma finishNode_spec (el : yitem) (children : list pnode) (st : ystate)
    (n : option pnode) (el' : yitem) (st' : ystate) :
  finishNode schema attributesAt view el children st = (n, el', st') ->
  itemType el' = itemType el
  /\ (forall k, k <> yref (itemType el) -> mapping st' !! k = mapping st !! k)
  /\ match n with
     | Some node => itemDeleted el' = itemDeleted el
                    /\ mapping st' !! yref (itemType el) = Some (UNode node)
     | None => itemDeleted el' = true
     end.
Proof.
  unfold finishNode. destruct (tryNode _ _ _ _ _ _) as [node | ].
  - intros [= <- <- <-]. cbn [mappingSet allocRefs mapping].
    split; [reflexivity | split; [ | split; [reflexivity | apply lookup_insert_eq]]].
    intros k Hk. now apply lookup_insert_ne.
  - pose proof (deleteItem_spec el st) as (Ht & Hd & Hm).
    destruct (deleteItem el st) as [el1 st1]. cbn [fst snd] in Ht, Hd, Hm.
    intros [= <- <- <-]. cbn [mappingDelete mapping].
    split; [exact Ht | split; [ | exact Hd]].
    intros k Hk. rewrite lookup_delete_ne by congruence. now rewrite Hm.
Qed.

Lemma createTextNodesFromYText_mapping (text : yitem) (st : ystate)
    (ns : option (list pnode)) (text' : yitem) (st' : ystate) :
  createTextNodesFromYText schema toDeltaAt view text st = Ok (ns, text', st') ->
  mapping st' = mapping st.
Proof.
  unfold createTextNodesFromYText.
  destruct (itemType text) as [r items | | ]; try discriminate.
  destruct (textDelta _ _ _) as [deltas | | ]; cbn [mbind res_bind bind];
    try discriminate.
  destruct (makeTextNodes _ _ _) as [nodes | ].
  - now intros [= <- <- <-].
  - pose proof (deleteItem_spec text st) as (_ & _ & Hm).
    destruct (deleteItem text st) as [t1 st1]. now intros [= <- <- <-].
Qed.

(** The materializer writes the mapping at the element and below it,
    nowhere else. *)
Lemma createNodeFromYElement_frame (t : ytype) :
  forall id d st n el' st',
    createNodeFromYElement schema toDeltaAt attributesAt view (Item id d t) st
    = Ok (n, el', st') ->
    forall k, ~ In k (allRefs t) -> mapping st' !! k = mapping st !! k.
Proof.
  induction t as [r items | t Htext IH] using ytype_nested_ind;
    intros id d st n el' st' Hrun k Hk; [discriminate | ].
  assert (Hrun' : exists nodes items' st1,
             createChildren schema toDeltaAt view
               (createNodeFromYElement schema toDeltaAt attributesAt view)
               (yitems t) st = Ok (nodes, items', st1)
             /\ finishNode schema attributesAt view (Item id d (withItems t items'))
                  nodes st1 = (n, el', st')).
  { destruct t; [discriminate | | ]; cbn [createNodeFromYElement yitems] in Hrun |- *;
      destruct (createChildren _ _ _ _ _ _) as [[[nodes items'] st1] | | ];
      cbn [mbind res_bind bind] in Hrun; try discriminate; injection Hrun as Hrun;
      eauto 6. }
  destruct Hrun' as (nodes & items' & st1 & Hchildren & Hfin).
  rewrite allRefs_items in Hk.
  apply finishNode_spec in Hfin as (_ & Hframe & _).
  rewrite Hframe.
  2:{ cbn [itemType]. intros ->. apply Hk. left. now destruct t. }
  clear Hframe Hrun. revert nodes items' st st1 Hchildren.
  assert (Hk' : ~ In k (itemsRefs (yitems t))) by (intros H; apply Hk; now right).
  clear Hk. induction IH as [ | c rest Hc _ IHrest];
    intros nodes items' st st1 Hchildren.
  - cbn [createChildren] in Hchildren. now injection Hchildren as _ _ <-.
  - rewrite itemsRefs_cons in Hk'.
    assert (Hkc : ~ In k (allRefs (itemType c))) by (intros H; apply Hk', in_or_app; now left).
    assert (Hkr : ~ In k (itemsRefs rest)) by (intros H; apply Hk', in_or_app; now right).
    specialize (IHrest Hkr).
    destruct c as [cid cd ct]. cbn [itemType] in Hc, Hkc.
    cbn [createChildren] in Hchildren.
    destruct (childRendered view (Item cid cd ct)).
    2:{ destruct (createChildren _ _ _ _ rest st) as [[[nodes2 rest'] st3] | | ] eqn:Hrest;
          cbn [mbind res_bind bind] in Hchildren; try discriminate.
        injection Hchildren as _ _ <-. exact (IHrest _ _ _ _ Hrest). }
    destruct ct as [cr citems | cr cname ca cc | cr cc].
    + destruct (createTextNodesFromYText _ _ _ _ _) as [[[ns1 c1] s1] | | ] eqn:Htxt;
        cbn [mbind res_bind bind] in Hchildren; try discriminate.
      destruct (createChildren _ _ _ _ rest s1) as [[[nodes2 rest'] st3] | | ] eqn:Hrest;
        cbn [mbind res_bind bind] in Hchildren; try discriminate.
      injection Hchildren as _ _ <-. rewrite (IHrest _ _ _ _ Hrest).
      now rewrite (createTextNodesFromYText_mapping _ _ _ _ _ Htxt).
    + destruct (mapping st !! cr) as [[n0 | ts] | ];
        cbn [mbind res_bind bind] in Hchildren; try discriminate.
      * destruct (createChildren _ _ _ _ rest st) as [[[nodes2 rest'] st3] | | ] eqn:Hrest;
          cbn [mbind res_bind bind] in Hchildren; try discriminate.
        injection Hchildren as _ _ <-. exact (IHrest _ _ _ _ Hrest).
      * destruct (createNodeFromYElement _ _ _ _ _ _) as [[[n1 c1] s1] | | ] eqn:Hel;
          cbn [mbind res_bind bind] in Hchildren; try discriminate.
        destruct (createChildren _ _ _ _ rest s1) as [[[nodes2 rest'] st3] | | ] eqn:Hrest;
          cbn [mbind res_bind bind] in Hchildren; try discriminate.
        injection Hchildren as _ _ <-. rewrite (IHrest _ _ _ _ Hrest).
        exact (Hc _ _ _ _ _ _ Hel k Hkc).
    + discriminate Hchildren.
Qed.

Lemma createNodeFromYElement_top (el el' : yitem) (st st' : ystate) (n : option pnode) :
  createNodeFromYElement schema toDeltaAt attributesAt view el st = Ok (n, el', st') ->
  yref (itemType el') = yref (itemType el)
  /\ match n with
     | Some node => itemDeleted el' = itemDeleted el
                    /\ mapping st' !! yref (itemType el) = Some (UNode node)
     | None => itemDeleted el' = true
     end.
Proof.
  destruct el as [id d t]. intros Hrun.
  assert (Hfin : exists nodes items' st1,
             finishNode schema attributesAt view (Item id d (withItems t items')) nodes st1
             = (n, el', st')).
  { destruct t; cbn [createNodeFromYElement] in Hrun; try discriminate;
      destruct (createChildren _ _ _ _ _ _) as [[[nodes items'] st1] | | ];
      cbn [mbind res_bind bind] in Hrun; try discriminate; injection Hrun as Hrun;
      eauto. }
  destruct Hfin as (nodes & items' & st1 & Hfin).
  apply finishNode_spec in Hfin as (Ht & _ & Hn). cbn [itemType itemDeleted] in *.
  assert (Href : yref (withItems t items') = yref t) by now destruct t.
  rewrite Ht. split; [exact Href | ].
  destruct n as [node | ]; [ | exact Hn]. now rewrite <- Href.
Qed.
End Rendered.

Section RenderedContent.
Variable schema : Schema.
Variable toDeltaAt : rendering -> list titem -> res (list dop).
Variable attributesAt : ytype -> Snapshot -> attrs.

Lemma createNodeIfNotExists_spec (el el' : yitem) (st st' : ystate) (n : option punit) :
  createNodeIfNotExists schema toDeltaAt attributesAt plainRendering el st
  = Ok (n, el', st') ->
  yref (itemType el') = yref (itemType el)
  /\ (forall k, ~ In k (allRefs (itemType el)) -> mapping st' !! k = mapping st !! k)
  /\ match n with
     | Some u => itemDeleted el' = itemDeleted el
                 /\ mapping st' !! yref (itemType el) = Some u
     | None => itemDeleted el' = true
     end.
Proof.
  unfold createNodeIfNotExists.
  destruct (mapping st !! yref (itemType el)) as [u | ] eqn:Hu.
  - intros [= <- <- <-]. auto.
  - destruct (isXmlElement (itemType el)); [ | discriminate].
    destruct (createNodeFromYElement _ _ _ _ el st) as [[[n1 el1] st1] | | ] eqn:Hrun;
      cbn [mbind res_bind bind]; try discriminate.
    intros [= <- <- <-].
    destruct (createNodeFromYElement_top _ _ _ _ _ _ _ _ _ Hrun) as [Href Hn].
    split; [exact Href | split].
    + destruct el as [id d t]. exact (createNodeFromYElement_frame _ _ _ _ t _ _ _ _ _ _ Hrun).
    + destruct n1; exact Hn.
Qed.

Lemma fragmentContent_spec (items : list yitem) :
  forall st units items' st',
    NoDup (itemsRefs items) ->
    fragmentContent schema toDeltaAt attributesAt items st = Ok (units, items', st') ->
    (forall k, ~ In k (itemsRefs items) -> mapping st' !! k = mapping st !! k)
    /\ Forall2 (fun y u => mapping st' !! yref y = Some u) (liveTypes items') units
    /\ (forall y, In y (liveTypes items') -> In (yref y) (itemsRefs items))
    /\ NoDup (map yref (liveTypes items')).
Proof.
  induction items as [ | t rest IH]; intros st units items' st' Hnd Hrun;
    cbn [fragmentContent] in Hrun.
  - injection Hrun as <- <- <-.
    split; [reflexivity | split; [constructor | split; [intros y [] | constructor]]].
  - rewrite itemsRefs_cons in Hnd. apply NoDup_app in Hnd as (Hnt & Hdisj & Hnr).
    destruct (itemDeleted t) eqn:Hdel.
    + destruct (fragmentContent _ _ _ rest st) as [[[nodes rest'] st2] | | ] eqn:Hrest;
        cbn [mbind res_bind bind] in Hrun; try discriminate.
      injection Hrun as <- <- <-.
      destruct (IH _ _ _ _ Hnr Hrest) as (Hframe & Hall & Hin & Hnd').
      rewrite liveTypes_cons, Hdel. split; [ | split; [exact Hall | split; [ | exact Hnd']]].
      * intros k Hk. apply Hframe. intros H. apply Hk. rewrite itemsRefs_cons.
        apply in_or_app. now right.
      * intros y Hy. rewrite itemsRefs_cons. apply in_or_app. right. now apply Hin.
    + destruct (createNodeIfNotExists _ _ _ _ t st) as [[[n t'] st1] | | ] eqn:Hone;
        cbn [mbind res_bind bind] in Hrun; try discriminate.
      destruct (fragmentContent _ _ _ rest st1) as [[[nodes rest'] st2] | | ] eqn:Hrest;
        cbn [mbind res_bind bind] in Hrun; try discriminate.
      injection Hrun as <- <- <-.
      destruct (IH _ _ _ _ Hnr Hrest) as (Hframe & Hall & Hin & Hnd').
      destruct (createNodeIfNotExists_spec _ _ _ _ _ Hone) as (Href & Hframe1 & Hn).
      assert (Hfresh : ~ In (yref (itemType t)) (itemsRefs rest)).
      { intros H. apply (Hdisj (yref (itemType t)));
          apply list_elem_of_In; [apply yref_in_allRefs | exact H]. }
      rewrite liveTypes_cons. split; [ | split; [ | split]].
      * intros k Hk. rewrite Hframe.
        -- apply Hframe1. intros H. apply Hk. rewrite itemsRefs_cons.
           apply in_or_app. now left.
        -- intros H. apply Hk. rewrite itemsRefs_cons. apply in_or_app. now right.
      * destruct n as [u | ]; cbn [option_list app].
        -- destruct Hn as [Hlive Hmap]. rewrite Hlive, Hdel. constructor; [ | exact Hall].
           rewrite Href, (Hframe _ Hfresh). exact Hmap.
        -- rewrite Hn. exact Hall.
      * intros y Hy. rewrite itemsRefs_cons. apply in_or_app.
        destruct (itemDeleted t'); [right; now apply Hin | ].
        destruct Hy as [<- | Hy]; [left | right; now apply Hin].
        rewrite Href. apply yref_in_allRefs.
      * destruct (itemDeleted t'); [exact Hnd' | ]. cbn [map].
        apply NoDup_cons. split; [ | exact Hnd'].
        intros H. apply list_elem_of_In, in_map_iff in H as (y & Hy & Hiny).
        apply Hfresh. rewrite <- Href, <- Hy. now apply Hin.
Qed.

(** X22. What [_typeChanged] renders is what the reconciler expects: when
    the content of the new document has been built from the live
    children of the bound fragment with [createNodeIfNotExists], a run
    of [updateYFragment] on the fragment with any document that has this
    content returns the fragment as it is and records no change, so a
    remote change is not written back.  (The objects of the replicated
    tree are distinct.) *)
Theorem rendered_content_reconciles (ops : YTextOps) (clientID fuel : nat)
    (type : ytype) (st : ystate) (units : list punit) (items' : list yitem)
    (st' : ystate) (P : pnode) :
  isXmlText type = false ->
  isXmlElement type = false ->
  NoDup (allRefs type) ->
  fragmentContent schema toDeltaAt attributesAt (yitems type) st
  = Ok (units, items', st') ->
  normalizePNodeContent P = units ->
  exists st'',
    updateYFragment ops clientID (S fuel) (withItems type items') P st'
    = Ok (withItems type items', st'')
    /\ mutations st'' = mutations st'.
Proof.
  intros Htext Hel Hnd Hrun HP.
  rewrite allRefs_items in Hnd. apply NoDup_cons in Hnd as [Hroot Hnd].
  destruct (fragmentContent_spec _ _ _ _ _ Hnd Hrun) as (_ & Hall & Hin & Hnd').
  assert (Harr : toArray (withItems type items') = liveTypes items')
    by now apply toArray_withItems.
  apply updateYFragment_settled.
  split; [now destruct type | ].
  split; [now destruct type | ].
  rewrite Harr, HP.
  split; [exact (Forall2_length _ _ _ Hall) | ].
  split; [ | split; [exact Hnd' | split]].
  - intros i y p Hy Hp. left.
    rewrite (Forall2_lookup_lr _ _ _ _ _ _ Hall Hy Hp). apply mappedIdentity_refl.
  - intros H. apply in_map_iff in H as (y & Hy & Hiny).
    apply Hroot, list_elem_of_In.
    replace (yref type) with (yref y) by (rewrite Hy; now destruct type).
    now apply Hin.
  - intros H. destruct type; discriminate.
Qed.
End RenderedContent.

Lemma rendered_content_reconciles_witness :
  exists units items' st' st'',
    fragmentContent Examples.basicSchema History.noDelta History.attributesAt
      (yitems Cursor.type) Examples.emptyState = Ok (units, items', st')
    /\ length units = 2%nat
    /\ updateYFragment PlainText.ops 7 1 (withItems Cursor.type items')
         (PElem 1 "doc" [] 8 (flatten units)) st'
       = Ok (withItems Cursor.type items', st'')
    /\ mutations st'' = mutations st'.
Proof.
  assert (Hrun : { r : list punit * list yitem * ystate |
             fragmentContent Examples.basicSchema History.noDelta History.attributesAt
               (yitems Cursor.type) Examples.emptyState = Ok r
             /\ length (fst (fst r)) = 2%nat
             /\ normalizePNodeContent (PElem 1 "doc" [] 8 (flatten (fst (fst r))))
                = fst (fst r) }).
  { eexists. split; [vm_compute; reflexivity | split; vm_compute; reflexivity]. }
  destruct Hrun as [[[units items'] st'] (Hrun & Hlen & HP)]. cbn [fst] in Hlen, HP.
  destruct (rendered_content_reconciles Examples.basicSchema History.noDelta
              History.attributesAt PlainText.ops 7 0 Cursor.type Examples.emptyState
              units items' st' (PElem 1 "doc" [] 8 (flatten units))
              eq_refl eq_refl) as (st'' & Hagain & Hmut); [ | exact Hrun | exact HP | ].
  - apply NoDup_ListNoDup. vm_compute.
    repeat (constructor;
            [intros H; repeat (destruct H as [H | H]; [discriminate H | ]); exact H | ]).
    constructor.
  - exists units, items', st', st''. auto.
Defined.

(** ** Converting a fragment to JSON *)

Lemma serializeDelta_texts (delta : list dop) (texts : list json) :
  serializeDelta delta = Ok texts -> Forall isJText texts.
Proof.
  revert texts. induction delta as [ | d rest IH]; intros texts; cbn [serializeDelta].
  - intros [= <-]. constructor.
  - destruct (match attributes d with Some _ => _ | None => _ end) as [marks | | ];
      cbn [mbind res_bind bind]; try discriminate.
    destruct (serializeDelta rest) as [texts' | | ]; cbn [mbind res_bind bind];
      try discriminate.
    intros [= <-]. constructor; [exact I | now apply IH].
Qed.

Lemma serialize_element (r : nat) (name : string) (a : attrs) (children : list yitem) :
  serialize (XmlElement r name a children)
  = match name with
    | EmptyString => Throw TypeError
    | _ =>
        content ← serializeItems children;
        Ok (JNode name
                  (match a with [] => None | _ => Some a end)
                  (match content with [] => None | _ => Some (flat content) end))
    end.
Proof.
  cbn [serialize]. destruct name as [ | ch name]; [reflexivity | ].
  f_equal. induction children as [ | [i d c] rest IH]; [reflexivity | ].
  cbn [serializeItems itemDeleted itemType]. rewrite IH. reflexivity.
Qed.

Lemma serializeItems_length (items : list yitem) (content : list json) :
  serializeItems items = Ok content -> length content = length (liveTypes items).
Proof.
  revert content. induction items as [ | it rest IH]; intros content;
    cbn [serializeItems].
  - now intros [= <-].
  - rewrite liveTypes_cons. destruct (itemDeleted it); [apply IH | ].
    destruct (serialize (itemType it)) as [j | | ]; cbn [mbind res_bind bind];
      try discriminate.
    destruct (serializeItems rest) as [js | | ]; cbn [mbind res_bind bind];
      try discriminate.
    intros [= <-]. cbn [length]. f_equal. now apply IH.
Qed.

Lemma flat_notArray (content : list json) :
  Forall (fun j => match j with
                   | JArray e => Forall isJText e
                   | _ => True
                   end) content ->
  Forall notArray (flat content).
Proof.
  unfold flat. induction 1 as [ | j rest Hj _ IH]; [constructor | ].
  cbn [map concat]. apply Forall_app. split; [ | exact IH].
  destruct j as [s m | n a c | e].
  - repeat constructor.
  - repeat constructor.
  - eapply Forall_impl; [exact Hj | ]. now intros [ | | ].
Qed.

Lemma serialize_top (t : ytype) (j : json) :
  serialize t = Ok j ->
  match j with JArray e => Forall isJText e | _ => True end.
Proof.
  destruct t as [r items | r name a children | r children]; [ | | discriminate].
  - cbn [serialize].
    destruct (serializeDelta _) as [texts | | ] eqn:Htexts; cbn [mbind res_bind bind];
      try discriminate.
    intros [= <-]. now apply serializeDelta_texts in Htexts.
  - rewrite serialize_element. destruct name; [discriminate | ].
    destruct (serializeItems children) as [content | | ]; cbn [mbind res_bind bind];
      try discriminate.
    now intros [= <-].
Qed.

Lemma serializeItems_top (items : list yitem) (content : list json) :
  serializeItems items = Ok content ->
  Forall (fun j => match j with JArray e => Forall isJText e | _ => True end) content.
Proof.
  revert content. induction items as [ | it rest IH]; intros content;
    cbn [serializeItems].
  - intros [= <-]. constructor.
  - destruct (itemDeleted it); [apply IH | ].
    destruct (serialize (itemType it)) as [j | | ] eqn:Hj; cbn [mbind res_bind bind];
      try discriminate.
    destruct (serializeItems rest) as [js | | ]; cbn [mbind res_bind bind];
      try discriminate.
    intros [= <-]. constructor; [now apply (serialize_top (itemType it)) | now apply IH].
Qed.

Lemma serialize_jsonOf (t : ytype) (j : json) :
  serialize t = Ok j -> jsonOf t j.
Proof.
  destruct t as [r items | r name a children | r children]; [ | | discriminate].
  - intros H. pose proof (serialize_top _ _ H) as Htop. revert H. cbn [serialize].
    destruct (serializeDelta _) as [texts | | ]; cbn [mbind res_bind bind];
      try discriminate.
    intros [= <-]. exists texts. auto.
  - rewrite serialize_element. destruct name as [ | ch name]; [discriminate | ].
    destruct (serializeItems children) as [content | | ] eqn:Hc;
      cbn [mbind res_bind bind]; try discriminate.
    intros [= <-]. eexists. split; [reflexivity | ].
    pose proof (serializeItems_length _ _ Hc) as Hlen.
    rewrite toArray_liveTypes. cbn [yitems].
    destruct content as [ | j0 content].
    + destruct (liveTypes children); [reflexivity | discriminate].
    + split; [destruct (liveTypes children); [discriminate Hlen | discriminate] | ].
      apply flat_notArray. exact (serializeItems_top children _ Hc).
Qed.

(** X24. The JSON that [yDocToProsemirrorJSON] returns is a [doc]
    object whose content has one entry for each live child of the
    fragment, in order: for an element an object with its name, its
    attributes when it has any, and a content in which the text objects
    of text children are spliced in, so that it holds no array; for a
    text an array of text objects. *)
Theorem yDocToProsemirrorJSON_shape (fragment : ytype) (j : json) :
  yDocToProsemirrorJSON fragment = Ok j ->
  exists content,
    j = JNode "doc" None (Some content)
    /\ Forall2 jsonOf (toArray fragment) content.
Proof.
  unfold yDocToProsemirrorJSON.
  destruct (serializeItems (yitems fragment)) as [content | | ] eqn:Hc;
    cbn [mbind res_bind bind]; try discriminate.
  intros [= <-]. exists content. split; [reflexivity | ].
  rewrite toArray_liveTypes. revert content Hc.
  induction (yitems fragment) as [ | it rest IH]; intros content;
    cbn [serializeItems].
  - intros [= <-]. constructor.
  - rewrite liveTypes_cons. destruct (itemDeleted it); [apply IH | ].
    destruct (serialize (itemType it)) as [j | | ] eqn:Hj; cbn [mbind res_bind bind];
      try discriminate.
    destruct (serializeItems rest) as [js | | ]; cbn [mbind res_bind bind];
      try discriminate.
    intros [= <-]. constructor; [now apply serialize_jsonOf | now apply IH].
Qed.

Lemma yDocToProsemirrorJSON_shape_witness :
  yDocToProsemirrorJSON Serial.fragment
  = Ok (JNode "doc" None
          (Some [JNode "paragraph" None (Some [JText (VStr "ab") None]);
                 JNode "heading" (Some [("level", VNum 2)]) None]))
  /\ exists content,
       JNode "doc" None
         (Some [JNode "paragraph" None (Some [JText (VStr "ab") None]);
                JNode "heading" (Some [("level", VNum 2)]) None])
       = JNode "doc" None (Some content)
       /\ Forall2 jsonOf (toArray Serial.fragment) content.
Proof.
  split; [reflexivity | ].
  apply (yDocToProsemirrorJSON_shape Serial.fragment). reflexivity.
Defined.

(** ** What the equality test accepts *)

Lemma everyDelta_texts (ds : list dop) :
  forall ps, length ds = length ps -> everyDelta ds ps = Ok true ->
             map insert ds = map (fun p => VStr (ptext p)) ps.
Proof.
  induction ds as [ | d ds IH]; intros [ | p ps] Hlen; try discriminate Hlen.
  - reflexivity.
  - cbn [everyDelta]. unfold equalDeltaPText at 1.
    destruct (insert d) as [ | | | | s | ] eqn:Hd;
      cbn [negb mbind res_bind bind]; try discriminate.
    destruct (String.eqb_spec s (ptext p)) as [Heq | Hne];
      cbn [negb mbind res_bind bind]; [ | discriminate].
    intros Hrun. cbn [map]. rewrite Hd, Heq. f_equal. apply IH; [now injection Hlen | ].
    destruct (negb (Nat.eqb _ _)); cbn [mbind res_bind bind] in Hrun;
      [discriminate | ].
    destruct (everyMark _ _) as [[ | ] | | ]; cbn [mbind res_bind bind] in Hrun;
      try discriminate. exact Hrun.
Qed.

(** X25. [equalYTypePNode] accepts only content of the same shape: when
    it returns true, the shared type and the local content have the same
    node names, as many live children as normalized units at every
    level, and the same strings in every text. *)
Theorem equalYTypePNode_sound (t : ytype) (u : punit) :
  equalYTypePNode t u = Ok true -> sameTree t u.
Proof.
  revert u. induction t as [r items | t Htext IH] using ytype_nested_ind; intros u.
  - destruct u as [p | ps]; [discriminate | ].
    cbn [equalYTypePNode]. unfold equalYTextPText.
    destruct (Nat.eqb_spec (length (toDelta (XmlText r items))) (length ps))
      as [Hlen | ]; [ | discriminate].
    intros Hrun. constructor. now apply everyDelta_texts.
  - destruct t as [ | r name ya children | r children]; [discriminate | | discriminate].
    destruct u as [p | ps]; [ | discriminate].
    cbn [equalYTypePNode yitems] in IH |- *.
    destruct (String.eqb_spec name (ptypeName p)) as [Hname | ]; [ | discriminate].
    destruct (Z.eqb_spec (ylength (XmlElement r name ya children))
                (Z.of_nat (length (normalizePNodeContent p)))) as [Hlen | ];
      [ | discriminate].
    destruct (equalAttrs ya (pattrsOf p)) as [[ | ] | | ]; cbn [mbind res_bind bind];
      try discriminate.
    intros Hrun. constructor; [exact Hname | ].
    cbn [ylength] in Hlen. rewrite toArray_liveTypes in Hlen. cbn [yitems] in Hlen.
    apply Nat2Z.inj in Hlen.
    clear Htext. revert Hrun Hlen. generalize (normalizePNodeContent p) as units.
    induction IH as [ | [i d c] rest Hc _ IHrest]; intros units Hrun Hlen.
    + destruct units; [constructor | discriminate Hlen].
    + rewrite liveTypes_cons in Hlen |- *. cbn [itemDeleted itemType] in *.
      destruct d; [now apply IHrest | ].
      destruct units as [ | v units]; [discriminate Hrun | ].
      destruct (equalYTypePNode c v) as [[ | ] | | ] eqn:Hcv;
        cbn [mbind res_bind bind] in Hrun; try discriminate.
      cbn [length] in Hlen. constructor; [now apply Hc | ].
      apply IHrest; [exact Hrun | lia].
Qed.

Lemma equalYTypePNode_sound_witness :
  exists t u,
    toArray Examples.fragment1 !! 0%nat = Some t
    /\ normalizePNodeContent Examples.doc1 !! 0%nat = Some u
    /\ sameTree t u.
Proof.
  assert (Ht : { t : ytype | toArray Examples.fragment1 !! 0%nat = Some t
                             /\ equalYTypePNode t
                                  (UNode (Examples.para 2
                                            [PText 3 "hello " [];
                                             PText 4 "world" [Examples.bold]]))
                                = Ok true }).
  { eexists. split; vm_compute; reflexivity. }
  destruct Ht as [t [Ht Heq]].
  exists t, (UNode (Examples.para 2 [PText 3 "hello " [];
                                     PText 4 "world" [Examples.bold]])).
  split; [exact Ht | split; [reflexivity | ]].
  apply (equalYTypePNode_sound t _ Heq).
Defined.
